(** * chess.js-extended: the engine session controller

    A shallow embedding of [src/engine.ts] (class [ChessEngine]) and of
    [src/event-emitter.ts] (class [EventEmitter]), with the properties of
    the session controller proved over it.

    Conventions of the embedding.
    - JavaScript strings are ASCII strings (the UCI protocol is ASCII).
    - JavaScript numbers that the code handles are integers ([Z]); the one
      division, [evalValue / 100], is kept as the exact fraction in [Q].
    - The rules engine (chess.js, class [Chess]) is outside the repository:
      it is an interface, [RulesEngine], with the signatures of the
      dependency ([new Chess(fen)] and [move] throw on refusal).
    - The browser (workers, timers, promises, object URLs, the console) is a
      [World]: pending callbacks are data, and every observable action is
      appended to a log of [Effect]s. *)

From Stdlib Require Import ZArith QArith List Bool Ascii String Lia.
From Stdlib Require Import Sorted.
From Stdlib Require Import DecimalString.
Import ListNotations.

Open Scope string_scope.
Open Scope list_scope.
Open Scope Z_scope.

(* ================================================================== *)
(** * JavaScript strings *)
(* ================================================================== *)

Module JS.

(** Template-literal conversion [`${n}`] of an integer number. *)
Definition numberToString (n : Z) : string :=
  NilZero.string_of_int (Z.to_int n).

(** [s.startsWith(p)] *)
Definition startsWith (s p : string) : bool := String.prefix p s.

(** White space of [\s] and of [trim] in the ASCII range:
    TAB, LF, VT, FF, CR and SPACE. *)
Definition isSpace (c : ascii) : bool :=
  let n := nat_of_ascii c in
  ((9 <=? n)%nat && (n <=? 13)%nat) || (n =? 32)%nat.

(** [\d] *)
Definition isDigit (c : ascii) : bool :=
  let n := nat_of_ascii c in
  (48 <=? n)%nat && (n <=? 57)%nat.

(** [.] : any character but a line terminator. *)
Definition isDot (c : ascii) : bool :=
  let n := nat_of_ascii c in
  negb ((n =? 10)%nat || (n =? 13)%nat).

Fixpoint trimStart (s : string) : string :=
  match s with
  | String c s' => if isSpace c then trimStart s' else s
  | EmptyString => EmptyString
  end.

(** [trimEnd], by recursion from the right: a character is kept when it is
    not white space or when something is kept after it. *)
Fixpoint trimEnd (s : string) : string :=
  match s with
  | String c s' =>
      match trimEnd s' with
      | EmptyString => if isSpace c then EmptyString else String c EmptyString
      | t => String c t
      end
  | EmptyString => EmptyString
  end.

(** [s.trim()] *)
Definition trim (s : string) : string := trimEnd (trimStart s).

(** [s.split(/\s+/)]: [cur] is the piece being read, [inSep]
    tells that the previous character belonged to a separator. *)
Fixpoint splitWsAux (s : string) (cur : string) (inSep : bool) : list string :=
  match s with
  | EmptyString => [cur]
  | String c s' =>
      if isSpace c then
        if inSep then splitWsAux s' cur true
        else cur :: splitWsAux s' EmptyString true
      else splitWsAux s' (cur ++ String c EmptyString)%string false
  end.

Definition splitWs (s : string) : list string := splitWsAux s EmptyString false.

(** [s.split(sep)] for a one-character separator. *)
Fixpoint splitCharAux (sep : ascii) (s : string) (cur : string) : list string :=
  match s with
  | EmptyString => [cur]
  | String c s' =>
      if Ascii.eqb c sep then cur :: splitCharAux sep s' EmptyString
      else splitCharAux sep s' (cur ++ String c EmptyString)%string
  end.

Definition splitChar (sep : ascii) (s : string) : list string :=
  splitCharAux sep s EmptyString.

(** [parseInt(s, 10)] on the strings the code gives it, which the regular
    expression has already matched against [-?\d+]: an optional minus sign
    and the leading run of digits. *)
Fixpoint parseDigits (s : string) (acc : Z) : Z :=
  match s with
  | String c s' =>
      if isDigit c
      then parseDigits s' (10 * acc + (Z.of_nat (nat_of_ascii c) - 48))
      else acc
  | EmptyString => acc
  end.

Definition parseInt (s : string) : Z :=
  match s with
  | String "-"%char s' => - parseDigits s' 0
  | _ => parseDigits s 0
  end.

End JS.

(* ================================================================== *)
(** * Regular expressions (the fragment [String.prototype.match] is
      used with), by backtracking as ECMAScript prescribes *)
(* ================================================================== *)

Module Regex.

Inductive regex : Type :=
| Lit (s : string)                  (* a literal run of characters *)
| Plus (cls : ascii -> bool)        (* [c+], greedy *)
| Star (cls : ascii -> bool)        (* [c*], greedy *)
| Opt (r : regex)                   (* [r?], greedy *)
| Alt (r1 r2 : regex)               (* [r1|r2], left first *)
| Seq (r1 r2 : regex)
| Group (n : nat) (r : regex).      (* capturing group number [n] *)

(** Captures, most recent first. *)
Definition captures : Type := list (nat * string).

Fixpoint capture (n : nat) (cs : captures) : option string :=
  match cs with
  | [] => None
  | (m, s) :: cs' => if Nat.eqb m n then Some s else capture n cs'
  end.

(** The part of [s] consumed when [rest] is what is left of it. *)
Definition consumed (s rest : string) : string :=
  substring 0 (String.length s - String.length rest) s.

Fixpoint dropLit (lit s : string) : option string :=
  match lit, s with
  | EmptyString, _ => Some s
  | String a lit', String b s' => if Ascii.eqb a b then dropLit lit' s' else None
  | String _ _, EmptyString => None
  end.

Section Matcher.
Context {R : Type}.

(** Greedy repetition of a character class: the longest run first, then
    one character less on failure of the continuation. *)
Fixpoint star (cls : ascii -> bool) (s : string) (k : string -> option R)
  : option R :=
  match s with
  | String c s' =>
      if cls c then
        match star cls s' k with
        | Some r => Some r
        | None => k s
        end
      else k s
  | EmptyString => k s
  end.

Definition plus (cls : ascii -> bool) (s : string) (k : string -> option R)
  : option R :=
  match s with
  | String c s' => if cls c then star cls s' k else None
  | EmptyString => None
  end.

Fixpoint run (r : regex) (s : string) (cs : captures)
         (k : string -> captures -> option R) : option R :=
  match r with
  | Lit lit =>
      match dropLit lit s with
      | Some rest => k rest cs
      | None => None
      end
  | Plus cls => plus cls s (fun rest => k rest cs)
  | Star cls => star cls s (fun rest => k rest cs)
  | Opt r' =>
      match run r' s cs k with
      | Some x => Some x
      | None => k s cs
      end
  | Alt r1 r2 =>
      match run r1 s cs k with
      | Some x => Some x
      | None => run r2 s cs k
      end
  | Seq r1 r2 => run r1 s cs (fun rest cs' => run r2 rest cs' k)
  | Group n r' =>
      run r' s cs (fun rest cs' => k rest ((n, consumed s rest) :: cs'))
  end.
End Matcher.

(** [s.match(r)] for a regular expression without the global flag: the
    match at the leftmost position where there is one. *)
Fixpoint search (r : regex) (s : string) : option captures :=
  match run r s [] (fun _ cs => Some cs) with
  | Some cs => Some cs
  | None =>
      match s with
      | String _ s' => search r s'
      | EmptyString => None
      end
  end.

(** ** What a match is *)

(** [ClassRun cls s rest]: [s] is a run of characters of the class [cls]
    followed by [rest]. *)
Inductive ClassRun (cls : ascii -> bool) : string -> string -> Prop :=
| ClassRun_nil s : ClassRun cls s s
| ClassRun_cons c s rest :
    cls c = true -> ClassRun cls s rest -> ClassRun cls (String c s) rest.

(** [Matches r s cs rest cs']: [r] matches a prefix of [s], leaving [rest],
    and the captures [cs] become [cs']. *)
Inductive Matches : regex -> string -> captures -> string -> captures -> Prop :=
| M_Lit lit s rest cs :
    dropLit lit s = Some rest -> Matches (Lit lit) s cs rest cs
| M_Plus cls c s rest cs :
    cls c = true -> ClassRun cls s rest -> Matches (Plus cls) (String c s) cs rest cs
| M_Star cls s rest cs :
    ClassRun cls s rest -> Matches (Star cls) s cs rest cs
| M_Opt_some r s rest cs cs' :
    Matches r s cs rest cs' -> Matches (Opt r) s cs rest cs'
| M_Opt_none r s cs : Matches (Opt r) s cs s cs
| M_Alt_l r1 r2 s rest cs cs' :
    Matches r1 s cs rest cs' -> Matches (Alt r1 r2) s cs rest cs'
| M_Alt_r r1 r2 s rest cs cs' :
    Matches r2 s cs rest cs' -> Matches (Alt r1 r2) s cs rest cs'
| M_Seq r1 r2 s mid rest cs cs1 cs2 :
    Matches r1 s cs mid cs1 -> Matches r2 mid cs1 rest cs2 ->
    Matches (Seq r1 r2) s cs rest cs2
| M_Group n r s rest cs cs' :
    Matches r s cs rest cs' ->
    Matches (Group n r) s cs rest ((n, consumed s rest) :: cs').

End Regex.

(* ================================================================== *)
(** * The rules engine (chess.js), at its interface *)
(* ================================================================== *)

(** [class Chess] of the dependency [chess.js ^1.4.0], as far as the
    controller uses it.  [Chess_new fen] is [new Chess(fen)], which throws
    on a string it does not accept ([None]); [chess_move b m] is
    [b.move(m)], which returns the move made (its [san]) and changes the
    board, or throws on a move it rejects ([None]); [chess_fen b] is
    [b.fen()]; [chess_start] is [new Chess()]. *)
Class RulesEngine : Type := {
  Board : Type;
  chess_start : Board;
  Chess_new : string -> option Board;
  chess_move : Board -> string -> option (string * Board);
  chess_fen : Board -> string
}.

(* ================================================================== *)
(** * Data model ([src/types.ts]) *)
(* ================================================================== *)

(** [StockfishOptions]: every field is optional. *)
Record StockfishOptions : Type := {
  depth : option Z;
  time : option Z;
  movetime : option Z;
  nodes : option Z;
  stockfishUrl : option string;
  multiPV : option Z;
  skillLevel : option Z;
  contempt : option Z;
  threads : option Z;
  hash : option Z
}.

(** [{}], the default argument of the entry points. *)
Definition noOptions : StockfishOptions :=
  {| depth := None; time := None; movetime := None; nodes := None;
     stockfishUrl := None; multiPV := None; skillLevel := None;
     contempt := None; threads := None; hash := None |}.

(** [evaluation: number | string] *)
Inductive Evaluation : Type :=
| EvalNumber (q : Q)
| EvalString (s : string).

Record AnalysisLine : Type := {
  evaluation : Evaluation;
  line : list string
}.

(** [type EngineMode = "idle" | "evaluate" | "stream"] *)
Inductive EngineMode : Type := idle | evaluate | stream.

Definition EngineMode_eqb (a b : EngineMode) : bool :=
  match a, b with
  | idle, idle | evaluate, evaluate | stream, stream => true
  | _, _ => false
  end.

(** Truthiness of an optional number ([if (options.multiPV)]): present and
    not zero; of an optional string: present and not empty. *)
Definition truthyNumber (o : option Z) : bool :=
  match o with
  | Some n => negb (n =? 0)%Z
  | None => false
  end.

Definition truthyString (o : option string) : bool :=
  match o with
  | Some s => negb (String.eqb s "")
  | None => false
  end.

(** [value || fallback] for an optional number. *)
Definition orElse (value : option Z) (fallback : Z) : Z :=
  match value with
  | Some v => if (v =? 0)%Z then fallback else v
  | None => fallback
  end.

(* ================================================================== *)
(** * Arrays with holes ([analysisLines]) *)
(* ================================================================== *)

Module JSArray.
Section WithElements.
Context {A : Type}.

(** The elements of an array, index by index; [None] is a hole. *)
Definition t : Type := list (option A).

(** The largest array index is [2^32 - 2]. *)
Definition isIndex (i : Z) : bool := (0 <=? i) && (i <? 4294967295).

Fixpoint setNat (a : t) (i : nat) (v : A) : t :=
  match i, a with
  | O, [] => [Some v]
  | O, _ :: a' => Some v :: a'
  | S i', [] => None :: setNat [] i' v
  | S i', x :: a' => x :: setNat a' i' v
  end.

(** [a[i] = v].  With an array index the element is written and the
    array grows as needed, leaving holes.  With any other number (a
    negative one, say) the assignment makes an ordinary property, which
    neither [filter] nor spreading ever visits: the elements are
    unchanged. *)
Definition set (a : t) (i : Z) (v : A) : t :=
  if isIndex i then setNat a (Z.to_nat i) v else a.

(** The element at the index [i], if there is one. *)
Definition get (a : t) (i : Z) : option A :=
  if 0 <=? i then nth (Z.to_nat i) a None else None.

(** [a.filter(Boolean)] when the elements are objects, and
    [[...a].filter(Boolean)] alike: the elements present, in index
    order. *)
Fixpoint filterBoolean (a : t) : list A :=
  match a with
  | [] => []
  | Some v :: a' => v :: filterBoolean a'
  | None :: a' => filterBoolean a'
  end.
End WithElements.
Arguments t : clear implicits.
End JSArray.

(* ================================================================== *)
(** * [EventEmitter] ([src/event-emitter.ts]) *)
(* ================================================================== *)

(** A listener is a function object of the caller; only its identity
    matters to the emitter ([l !== listener]). *)
Definition Listener : Type := nat.

Module EventEmitter.

(** [listeners: { [event: string]: ((data: T) => void)[] }] *)
Definition t : Type := list (string * list Listener).

Definition empty : t := [].

Fixpoint lookup (ls : t) (event : string) : option (list Listener) :=
  match ls with
  | [] => None
  | (e, l) :: ls' => if String.eqb e event then Some l else lookup ls' event
  end.

Fixpoint assign (ls : t) (event : string) (v : list Listener) : t :=
  match ls with
  | [] => [(event, v)]
  | (e, l) :: ls' =>
      if String.eqb e event then (e, v) :: ls' else (e, l) :: assign ls' event v
  end.

Definition on (ls : t) (event : string) (listener : Listener) : t :=
  match lookup ls event with
  | None => assign ls event [listener]
  | Some l => assign ls event (l ++ [listener])
  end.

Definition off (ls : t) (event : string) (listener : Listener) : t :=
  match lookup ls event with
  | None => ls
  | Some l => assign ls event (filter (fun l' => negb (Nat.eqb l' listener)) l)
  end.

(** [emit(event, data)]: the listeners called, in order. *)
Definition emit (ls : t) (event : string) : list Listener :=
  match lookup ls event with
  | None => []
  | Some l => l
  end.

End EventEmitter.

(* ================================================================== *)
(** * The browser: workers, timers, promises, the console *)
(* ================================================================== *)

(** The callbacks the controller hands to the browser are closures of three
    methods; each is recorded with what it captures. *)

(** Listeners of a worker's ["message"] event. *)
Inductive MessageListener : Type :=
| HandleStockfishMessage (options : StockfishOptions)
    (* [(e) => this._handleStockfishMessage(e.data, options)] *)
| MessageHandler (promise : nat) (timeoutId : nat).
    (* [messageHandler] of [evaluatePosition], with its [resolve] and
       [timeoutId] *)

(** Callbacks given to [setTimeout]. *)
Inductive TimerCallback : Type :=
| TimeoutCallback (promise : nat) (timeoutMs : Z)
    (* the time-out of [evaluatePosition] *)
| CheckUciOkEvaluate (options : StockfishOptions)
    (* [checkUciOk] of [evaluatePosition] *)
| CheckUciOkStream.
    (* [checkUciOk] of [startAnalysis] *)

Record Worker : Type := {
  workerUrl : string;
  alive : bool;
  messageListeners : list MessageListener
}.

Inductive PromiseState : Type :=
| Pending
| Resolved (value : list AnalysisLine)
| Rejected (message : string).

(** What the controller does to the outside, in the order it does it. *)
Inductive Effect : Type :=
| CreateObjectURL (wasm : bool) (url : string)
| RevokeObjectURL (url : string)
| WorkerNew (w : nat) (url : string)
| PostMessage (w : nat) (command : string)
| WorkerTerminate (w : nat)
| ConsoleWarn (message : string)
| ConsoleError (message : string)
| ListenerCall (l : Listener) (data : list AnalysisLine)
| Resolve (p : nat) (value : list AnalysisLine)
| Reject (p : nat) (message : string)
| SetTimeout (t : nat) (ms : Z)
| ClearTimeout (t : nat)
| Uncaught (message : string).

(** The environment the page runs in: whether [window] and [Worker] are
    defined, whether WebAssembly validates, and the identifier the browser
    puts in the object URLs it creates. *)
Record Env : Type := {
  hasWorker : bool;
  wasmSupported : bool;
  objectUrlId : string
}.

Definition busyMessage : string :=
  "Engine is busy. Please stop the current analysis first.".

Definition environmentMessage : string :=
  "ChessEngine requires a browser environment with Web Worker support".

Definition timedOutMessage (timeoutMs : Z) : string :=
  ("Stockfish evaluation timed out after " ++ JS.numberToString timeoutMs
   ++ "ms, returning empty analysis.")%string.

(** [/multipv\s+(\d+).*score (cp|mate) (-?\d+).*pv\s+(.+)/] *)
Definition multipvPattern : Regex.regex :=
  let seq := Regex.Seq in
  seq (Regex.Lit "multipv")
 (seq (Regex.Plus JS.isSpace)
 (seq (Regex.Group 1 (Regex.Plus JS.isDigit))
 (seq (Regex.Star JS.isDot)
 (seq (Regex.Lit "score ")
 (seq (Regex.Group 2 (Regex.Alt (Regex.Lit "cp") (Regex.Lit "mate")))
 (seq (Regex.Lit " ")
 (seq (Regex.Group 3 (seq (Regex.Opt (Regex.Lit "-")) (Regex.Plus JS.isDigit)))
 (seq (Regex.Star JS.isDot)
 (seq (Regex.Lit "pv")
 (seq (Regex.Plus JS.isSpace)
      (Regex.Group 4 (Regex.Plus JS.isDot)))))))))))).

(** [multipvMatch[n]] *)
Definition group (n : nat) (cs : Regex.captures) : string :=
  match Regex.capture n cs with
  | Some s => s
  | None => ""
  end.

(* ================================================================== *)
(** * [class ChessEngine extends Chess] ([src/engine.ts]) *)
(* ================================================================== *)

Section Controller.
Context {rules : RulesEngine}.

Record ChessEngine : Type := {
  game : Board;                               (* the inherited [Chess] *)
  lines : list AnalysisLine;
  stockfish : option nat;                     (* [Worker | null] *)
  emitter : EventEmitter.t;
  analysisLines : JSArray.t AnalysisLine;
  stockfishWorkerUrl : option string;
  isuciok : bool;
  mode : EngineMode
}.

(** [new ChessEngine()] *)
Definition newChessEngine : ChessEngine :=
  {| game := chess_start; lines := []; stockfish := None;
     emitter := EventEmitter.empty; analysisLines := [];
     stockfishWorkerUrl := None; isuciok := false; mode := idle |}.

Record World : Type := {
  env : Env;
  this : ChessEngine;
  workers : list Worker;
  timers : list (nat * TimerCallback);
  nextTimer : nat;
  promises : list PromiseState;
  log : list Effect
}.

Definition newWorld (e : Env) : World :=
  {| env := e; this := newChessEngine; workers := []; timers := [];
     nextTimer := O; promises := []; log := [] |}.

(** ** Field updates *)

Definition withThis (f : ChessEngine -> ChessEngine) (w : World) : World :=
  {| env := env w; this := f (this w); workers := workers w;
     timers := timers w; nextTimer := nextTimer w; promises := promises w;
     log := log w |}.

Definition withWorkers (f : list Worker -> list Worker) (w : World) : World :=
  {| env := env w; this := this w; workers := f (workers w);
     timers := timers w; nextTimer := nextTimer w; promises := promises w;
     log := log w |}.

Definition withTimers (f : list (nat * TimerCallback) -> list (nat * TimerCallback))
           (n : nat) (w : World) : World :=
  {| env := env w; this := this w; workers := workers w;
     timers := f (timers w); nextTimer := n; promises := promises w;
     log := log w |}.

Definition withPromises (f : list PromiseState -> list PromiseState) (w : World)
  : World :=
  {| env := env w; this := this w; workers := workers w;
     timers := timers w; nextTimer := nextTimer w; promises := f (promises w);
     log := log w |}.

Definition withLog (ef : Effect) (w : World) : World :=
  {| env := env w; this := this w; workers := workers w;
     timers := timers w; nextTimer := nextTimer w; promises := promises w;
     log := log w ++ [ef] |}.

Definition set_game (b : Board) (e : ChessEngine) : ChessEngine :=
  {| game := b; lines := lines e; stockfish := stockfish e;
     emitter := emitter e; analysisLines := analysisLines e;
     stockfishWorkerUrl := stockfishWorkerUrl e; isuciok := isuciok e;
     mode := mode e |}.

Definition set_lines (l : list AnalysisLine) (e : ChessEngine) : ChessEngine :=
  {| game := game e; lines := l; stockfish := stockfish e;
     emitter := emitter e; analysisLines := analysisLines e;
     stockfishWorkerUrl := stockfishWorkerUrl e; isuciok := isuciok e;
     mode := mode e |}.

Definition set_stockfish (s : option nat) (e : ChessEngine) : ChessEngine :=
  {| game := game e; lines := lines e; stockfish := s;
     emitter := emitter e; analysisLines := analysisLines e;
     stockfishWorkerUrl := stockfishWorkerUrl e; isuciok := isuciok e;
     mode := mode e |}.

Definition set_emitter (m : EventEmitter.t) (e : ChessEngine) : ChessEngine :=
  {| game := game e; lines := lines e; stockfish := stockfish e;
     emitter := m; analysisLines := analysisLines e;
     stockfishWorkerUrl := stockfishWorkerUrl e; isuciok := isuciok e;
     mode := mode e |}.

Definition set_analysisLines (a : JSArray.t AnalysisLine) (e : ChessEngine)
  : ChessEngine :=
  {| game := game e; lines := lines e; stockfish := stockfish e;
     emitter := emitter e; analysisLines := a;
     stockfishWorkerUrl := stockfishWorkerUrl e; isuciok := isuciok e;
     mode := mode e |}.

Definition set_stockfishWorkerUrl (u : option string) (e : ChessEngine)
  : ChessEngine :=
  {| game := game e; lines := lines e; stockfish := stockfish e;
     emitter := emitter e; analysisLines := analysisLines e;
     stockfishWorkerUrl := u; isuciok := isuciok e; mode := mode e |}.

Definition set_isuciok (b : bool) (e : ChessEngine) : ChessEngine :=
  {| game := game e; lines := lines e; stockfish := stockfish e;
     emitter := emitter e; analysisLines := analysisLines e;
     stockfishWorkerUrl := stockfishWorkerUrl e; isuciok := b; mode := mode e |}.

Definition set_mode (m : EngineMode) (e : ChessEngine) : ChessEngine :=
  {| game := game e; lines := lines e; stockfish := stockfish e;
     emitter := emitter e; analysisLines := analysisLines e;
     stockfishWorkerUrl := stockfishWorkerUrl e; isuciok := isuciok e;
     mode := m |}.

(** ** Computations: state is the world, and a computation may throw.
    What was done before a throw stays done. *)

Inductive Completion (A : Type) : Type :=
| Normal (a : A)
| Throw (message : string).
Arguments Normal {A} a.
Arguments Throw {A} message.

Definition M (A : Type) : Type := World -> Completion A * World.

Definition ret {A} (a : A) : M A := fun w => (Normal a, w).

Definition throw {A} (message : string) : M A := fun w => (Throw message, w).

Definition bind {A B} (c : M A) (k : A -> M B) : M B :=
  fun w =>
    match c w with
    | (Normal a, w') => k a w'
    | (Throw message, w') => (Throw message, w')
    end.

Definition get {A} (f : ChessEngine -> A) : M A := fun w => (Normal (f (this w)), w).

Definition put (f : ChessEngine -> ChessEngine) : M unit :=
  fun w => (Normal tt, withThis f w).

Definition getWorld {A} (f : World -> A) : M A := fun w => (Normal (f w), w).

Definition effect (ef : Effect) : M unit := fun w => (Normal tt, withLog ef w).

Definition when (b : bool) (c : M unit) : M unit := if b then c else ret tt.

Fixpoint forEach {A} (l : list A) (f : A -> M unit) : M unit :=
  match l with
  | [] => ret tt
  | a :: l' => bind (f a) (fun _ => forEach l' f)
  end.

End Controller.

Arguments Normal {A} a.
Arguments Throw {A} message.

Declare Scope controller_scope.
Delimit Scope controller_scope with controller.
Notation "x <- c1 ;; c2" := (bind c1 (fun x => c2))
  (at level 61, c1 at next level, right associativity) : controller_scope.
Notation "c1 ;; c2" := (bind c1 (fun _ => c2))
  (at level 61, right associativity) : controller_scope.

Section Methods.
Context {rules : RulesEngine}.
Local Open Scope controller_scope.

(** ** Browser primitives *)

Fixpoint updateNth {A} (l : list A) (n : nat) (f : A -> A) : list A :=
  match l, n with
  | [], _ => []
  | a :: l', O => f a :: l'
  | a :: l', S n' => a :: updateNth l' n' f
  end.

(** [new Worker(url)] *)
Definition Worker_new (url : string) : M nat :=
  fun w =>
    let id := List.length (workers w) in
    (Normal id,
     withLog (WorkerNew id url)
       (withWorkers (fun ws => ws ++ [{| workerUrl := url; alive := true;
                                          messageListeners := [] |}]) w)).

(** [worker.terminate()] *)
Definition Worker_terminate (id : nat) : M unit :=
  fun w =>
    (Normal tt,
     withLog (WorkerTerminate id)
       (withWorkers (fun ws => updateNth ws id (fun wk =>
          {| workerUrl := workerUrl wk; alive := false;
             messageListeners := messageListeners wk |})) w)).

(** [worker.addEventListener("message", l)] *)
Definition addEventListener (id : nat) (l : MessageListener) : M unit :=
  fun w =>
    (Normal tt,
     withWorkers (fun ws => updateNth ws id (fun wk =>
        {| workerUrl := workerUrl wk; alive := alive wk;
           messageListeners := messageListeners wk ++ [l] |})) w).

(** Identity of the function objects: each [evaluatePosition] call makes its
    own [messageHandler], told apart by the promise it resolves. *)
Definition isMessageHandler (p : nat) (l : MessageListener) : bool :=
  match l with
  | MessageHandler q _ => Nat.eqb p q
  | HandleStockfishMessage _ => false
  end.

(** [worker.removeEventListener("message", messageHandler)] *)
Definition removeMessageHandler (id : nat) (p : nat) : M unit :=
  fun w =>
    (Normal tt,
     withWorkers (fun ws => updateNth ws id (fun wk =>
        {| workerUrl := workerUrl wk; alive := alive wk;
           messageListeners :=
             filter (fun l => negb (isMessageHandler p l)) (messageListeners wk) |})) w).

(** [setTimeout(callback, ms)] *)
Definition setTimeout (callback : TimerCallback) (ms : Z) : M nat :=
  fun w =>
    let id := nextTimer w in
    (Normal id,
     withLog (SetTimeout id ms)
       (withTimers (fun ts => ts ++ [(id, callback)]) (S id) w)).

(** [clearTimeout(id)] *)
Definition clearTimeout (id : nat) : M unit :=
  fun w =>
    (Normal tt,
     withLog (ClearTimeout id)
       (withTimers (filter (fun t => negb (Nat.eqb (fst t) id))) (nextTimer w) w)).

(** Settling a promise: only a pending promise changes. *)
Definition settle (p : nat) (s : PromiseState) (ps : list PromiseState)
  : list PromiseState :=
  updateNth ps p (fun old => match old with Pending => s | _ => old end).

Definition resolve (p : nat) (value : list AnalysisLine) : M unit :=
  fun w => (Normal tt, withLog (Resolve p value) (withPromises (settle p (Resolved value)) w)).

Definition reject (p : nat) (message : string) : M unit :=
  fun w => (Normal tt, withLog (Reject p message) (withPromises (settle p (Rejected message)) w)).

(** [new Promise(executor)]: an executor that throws rejects the promise. *)
Definition Promise_new (executor : nat -> M unit) : M nat :=
  fun w =>
    let p := List.length (promises w) in
    match executor p (withPromises (fun ps => ps ++ [Pending]) w) with
    | (Normal _, w') => (Normal p, w')
    | (Throw message, w') => (Normal p, snd (reject p message w'))
    end.

(** [URL.createObjectURL(blob)]: the result is a [blob:] URL. *)
Definition createObjectURL (wasm : bool) : M string :=
  id <- getWorld (fun w => objectUrlId (env w)) ;;
  let url := ("blob:" ++ id)%string in
  effect (CreateObjectURL wasm url) ;;
  ret url.

(** ** Methods of [ChessEngine] *)

(** [on(event: "analysis", listener)] and [off] *)
Definition on (listener : Listener) : M unit :=
  put (fun e => set_emitter (EventEmitter.on (emitter e) "analysis" listener) e).

Definition off (listener : Listener) : M unit :=
  put (fun e => set_emitter (EventEmitter.off (emitter e) "analysis" listener) e).

(** [this.emitter.emit("analysis", data)] *)
Definition emit (data : list AnalysisLine) : M unit :=
  ls <- get emitter ;;
  forEach (EventEmitter.emit ls "analysis") (fun l => effect (ListenerCall l data)).

Definition _sendCommand (command : string) : M unit :=
  sf <- get stockfish ;;
  match sf with
  | Some wk => effect (PostMessage wk command)
  | None => ret tt
  end.

(** [if (value) k(value)] for an optional number: [undefined] and [0] are
    falsy. *)
Definition ifTruthy (value : option Z) (k : Z -> M unit) : M unit :=
  match value with
  | Some v => when (truthyNumber value) (k v)
  | None => ret tt
  end.

Definition _setOptions (options : StockfishOptions) : M unit :=
  ifTruthy (multiPV options) (fun v =>
    _sendCommand ("setoption name MultiPV value " ++ JS.numberToString v)) ;;
  ifTruthy (skillLevel options) (fun v =>
    _sendCommand ("setoption name Skill Level value " ++ JS.numberToString v)) ;;
  ifTruthy (contempt options) (fun v =>
    _sendCommand ("setoption name Contempt value " ++ JS.numberToString v)) ;;
  ifTruthy (threads options) (fun v =>
    _sendCommand ("setoption name Threads value " ++ JS.numberToString v)) ;;
  ifTruthy (hash options) (fun v =>
    _sendCommand ("setoption name Hash value " ++ JS.numberToString v)).

Definition terminate : M unit :=
  sf <- get stockfish ;;
  match sf with
  | Some wk =>
      _sendCommand "quit" ;;
      Worker_terminate wk ;;
      put (set_stockfish None)
  | None => ret tt
  end ;;
  url <- get stockfishWorkerUrl ;;
  match url with
  | Some u =>
      when (truthyString url && JS.startsWith u "blob:")
        (effect (RevokeObjectURL u) ;;
         put (set_stockfishWorkerUrl None))
  | None => ret tt
  end ;;
  put (set_isuciok false) ;;
  put (set_mode idle).

(** The loop of [convertMovesToSAN], on the local board [chess]. *)
Fixpoint convertLoop (chess : Board) (moves : list string)
         (convertedMoves : list string) : M (list string) :=
  match moves with
  | [] => ret convertedMoves
  | move :: rest =>
      match chess_move chess move with
      | Some (san, chess') => convertLoop chess' rest (convertedMoves ++ [san])
      | None =>
          (* catch (error) { console.error(...); break; } *)
          effect (ConsoleError "Error converting move:") ;;
          ret convertedMoves
      end
  end.

Definition convertMovesToSAN (moves : list string) (position : string)
  : M (list string) :=
  match Chess_new position with
  | Some chess => convertLoop chess moves []
  | None => throw "Invalid FEN"
  end.

(** The evaluation stored for a rank update. *)
Definition adjustedEval (evalType : string) (evalValue : Z)
           (sideToMove : option string) : Evaluation :=
  let isSide (c : string) :=
    match sideToMove with
    | Some s => String.eqb s c
    | None => false
    end in
  if String.eqb evalType "cp" then
    EvalNumber (if isSide "b" then Qmake (- evalValue) 100 else Qmake evalValue 100)
  else
    let mateInMoves := Z.abs evalValue in
    if ((0 <? evalValue) && isSide "w") || ((evalValue <? 0) && isSide "b")
    then EvalString ("M" ++ JS.numberToString mateInMoves)
    else EvalString ("M-" ++ JS.numberToString mateInMoves).

Definition _handleStockfishMessage (message : string) (options : StockfishOptions)
  : M unit :=
  if String.eqb message "uciok" then
    put (set_isuciok true) ;;
    _setOptions options
  else if JS.startsWith message "bestmove" then
    m <- get mode ;;
    when (EngineMode_eqb m stream) terminate
  else
    fen <- get (fun e => chess_fen (game e)) ;;
    let sideToMove := nth_error (JS.splitChar " " fen) 1 in
    match Regex.search multipvPattern message with
    | Some multipvMatch =>
        let pvIndex := JS.parseInt (group 1 multipvMatch) - 1 in
        let evalType := group 2 multipvMatch in
        let evalValue := JS.parseInt (group 3 multipvMatch) in
        let pvLine := JS.splitWs (JS.trim (group 4 multipvMatch)) in
        when (0 <? Z.of_nat (List.length pvLine))
          (sanLine <- convertMovesToSAN pvLine fen ;;
           put (fun e => set_analysisLines
                  (JSArray.set (analysisLines e) pvIndex
                     {| evaluation := adjustedEval evalType evalValue sideToMove;
                        line := sanLine |}) e) ;;
           a <- get analysisLines ;;
           emit (JSArray.filterBoolean a))
    | None => ret tt
    end.

Definition _initializeWorker (options : StockfishOptions) : M nat :=
  sf <- get stockfish ;;
  match sf with
  | Some wk => ret wk
  | None =>
      browser <- getWorld (fun w => hasWorker (env w)) ;;
      if negb browser then throw environmentMessage
      else
        (if truthyString (stockfishUrl options) then
           put (set_stockfishWorkerUrl (stockfishUrl options))
         else
           url <- get stockfishWorkerUrl ;;
           if negb (truthyString url) then
             wasm <- getWorld (fun w => wasmSupported (env w)) ;;
             u <- createObjectURL wasm ;;
             put (set_stockfishWorkerUrl (Some u))
           else ret tt) ;;
        url <- get stockfishWorkerUrl ;;
        wk <- Worker_new match url with Some u => u | None => "" end ;;
        put (set_stockfish (Some wk)) ;;
        put (set_isuciok false) ;;
        addEventListener wk (HandleStockfishMessage options) ;;
        _sendCommand "uci" ;;
        ret wk
  end.

(** [checkUciOk] of [startAnalysis] *)
Definition checkUciOkStream : M unit :=
  ok <- get isuciok ;;
  if ok then
    fen <- get (fun e => chess_fen (game e)) ;;
    _sendCommand ("position fen " ++ fen) ;;
    _sendCommand "go infinite"
  else
    setTimeout CheckUciOkStream 50 ;; ret tt.

Definition startAnalysis (options : StockfishOptions) : M unit :=
  m <- get mode ;;
  if negb (EngineMode_eqb m idle) then
    effect (ConsoleWarn busyMessage)
  else
    put (set_mode stream) ;;
    _initializeWorker options ;;
    put (set_analysisLines []) ;;
    checkUciOkStream.

Definition stopAnalysis : M unit :=
  m <- get mode ;;
  when (EngineMode_eqb m stream) (_sendCommand "stop").

(** The search directive of [evaluatePosition]. *)
Definition goCommand (options : StockfishOptions) : string :=
  match depth options, time options, movetime options, nodes options with
  | Some d, _, _, _ => "go" ++ (" depth " ++ JS.numberToString d)
  | None, Some t, _, _ =>
      "go" ++ (" wtime " ++ JS.numberToString t ++ " btime " ++ JS.numberToString t)
  | None, None, Some mt, _ => "go" ++ (" movetime " ++ JS.numberToString mt)
  | None, None, None, Some n => "go" ++ (" nodes " ++ JS.numberToString n)
  | None, None, None, None => "go" ++ " depth 15"
  end%string.

(** [checkUciOk] of [evaluatePosition] *)
Definition checkUciOkEvaluate (options : StockfishOptions) : M unit :=
  ok <- get isuciok ;;
  if ok then
    fen <- get (fun e => chess_fen (game e)) ;;
    _sendCommand ("position fen " ++ fen) ;;
    _sendCommand (goCommand options)
  else
    setTimeout (CheckUciOkEvaluate options) 50 ;; ret tt.

(** The time-out callback of [evaluatePosition]. *)
Definition timeoutCallback (p : nat) (timeoutMs : Z) : M unit :=
  terminate ;;
  effect (ConsoleWarn (timedOutMessage timeoutMs)) ;;
  resolve p [].

(** [messageHandler] of [evaluatePosition] *)
Definition messageHandler (p timeoutId : nat) (data : string) : M unit :=
  when (JS.startsWith data "bestmove")
    (clearTimeout timeoutId ;;
     sf <- get stockfish ;;
     match sf with
     | Some wk => removeMessageHandler wk p
     | None => ret tt
     end ;;
     a <- get analysisLines ;;
     let finalLines := JSArray.filterBoolean a in
     put (set_lines finalLines) ;;
     terminate ;;
     resolve p finalLines).

Definition evaluatePosition (options : StockfishOptions) : M nat :=
  Promise_new (fun p =>
    m <- get mode ;;
    if negb (EngineMode_eqb m idle) then
      reject p busyMessage
    else
      put (set_mode evaluate) ;;
      _initializeWorker options ;;
      put (set_analysisLines []) ;;
      let timeoutMs := orElse (movetime options) 30000 in
      timeoutId <- setTimeout (TimeoutCallback p timeoutMs) timeoutMs ;;
      sf <- get stockfish ;;
      match sf with
      | Some wk => addEventListener wk (MessageHandler p timeoutId)
      | None => ret tt
      end ;;
      checkUciOkEvaluate options).

End Methods.

(* ================================================================== *)
(** * The event loop *)
(* ================================================================== *)

(** What can happen to a controller: a call of its API by the page, a
    message or an error from a worker, a timer that fires. *)
Inductive Event : Type :=
| Call_evaluatePosition (options : StockfishOptions)
| Call_startAnalysis (options : StockfishOptions)
| Call_stopAnalysis
| Call_terminate
| Call_on (listener : Listener)
| Call_off (listener : Listener)
| Call_move (move : string)                       (* the inherited [move] *)
| Call_convertMovesToSAN (moves : list string) (position : string)
| WorkerMessage (wk : nat) (data : string)
| WorkerError (wk : nat)
| TimerFires (t : nat).

Section EventLoop.
Context {rules : RulesEngine}.
Local Open Scope controller_scope.

(** An exception nobody catches is reported and the task ends. *)
Definition task {A} (c : M A) : World -> World :=
  fun w =>
    match c w with
    | (Normal _, w') => w'
    | (Throw message, w') => withLog (Uncaught message) w'
    end.

Definition callListener (l : MessageListener) (data : string) : M unit :=
  match l with
  | HandleStockfishMessage options => _handleStockfishMessage data options
  | MessageHandler p timeoutId => messageHandler p timeoutId data
  end.

(** Dispatch of a [message] event: the listeners registered when the
    dispatch starts, in order of registration; an exception in one does not
    stop the next. *)
Definition dispatch (ls : list MessageListener) (data : string) : World -> World :=
  fun w => fold_left (fun w' l => task (callListener l data) w') ls w.

Definition fire (callback : TimerCallback) : M unit :=
  match callback with
  | TimeoutCallback p timeoutMs => timeoutCallback p timeoutMs
  | CheckUciOkEvaluate options => checkUciOkEvaluate options
  | CheckUciOkStream => checkUciOkStream
  end.

Fixpoint findTimer (ts : list (nat * TimerCallback)) (t : nat)
  : option TimerCallback :=
  match ts with
  | [] => None
  | (t', c) :: ts' => if Nat.eqb t' t then Some c else findTimer ts' t
  end.

(** [stockfish.onerror] *)
Definition onerror : M unit :=
  effect (ConsoleError "Stockfish worker error:") ;;
  terminate.

Definition step (w : World) (ev : Event) : World :=
  match ev with
  | Call_evaluatePosition options => task (evaluatePosition options) w
  | Call_startAnalysis options => task (startAnalysis options) w
  | Call_stopAnalysis => task stopAnalysis w
  | Call_terminate => task terminate w
  | Call_on l => task (on l) w
  | Call_off l => task (off l) w
  | Call_move move =>
      match chess_move (game (this w)) move with
      | Some (_, b) => withThis (set_game b) w
      | None => withLog (Uncaught "Invalid move") w
      end
  | Call_convertMovesToSAN moves position =>
      task (convertMovesToSAN moves position) w
  | WorkerMessage wk data =>
      match nth_error (workers w) wk with
      | Some worker =>
          if alive worker then dispatch (messageListeners worker) data w else w
      | None => w
      end
  | WorkerError wk =>
      match nth_error (workers w) wk with
      | Some worker => if alive worker then task onerror w else w
      | None => w
      end
  | TimerFires t =>
      match findTimer (timers w) t with
      | Some callback =>
          task (fire callback)
               (withTimers (filter (fun x => negb (Nat.eqb (fst x) t)))
                           (nextTimer w) w)
      | None => w
      end
  end.

Definition steps (w : World) (evs : list Event) : World := fold_left step evs w.

(** The worlds a page can be in. *)
Inductive Reachable (e : Env) : World -> Prop :=
| Reachable_new : Reachable e (newWorld e)
| Reachable_step w ev : Reachable e w -> Reachable e (step w ev).

End EventLoop.

(* ================================================================== *)
(** * A rules engine for running the controller *)
(* ================================================================== *)

(** A stand-in for chess.js that knows the positions and the moves of the
    repository's tests ([tests/engine.test.ts], [tests/integration.test.ts]):
    a board is its FEN, and a move is accepted when the book has it.  It
    plays the part the mocked [Worker] plays in those tests. *)
Module BookRules.

Definition start : string :=
  "rnbqkbnr/pppppppp/8/8/8/8/PPPPPPPP/RNBQKBNR w KQkq - 0 1".

(** position, move, its SAN, position reached *)
Definition book : list (string * string * string * string) :=
  [ (start, "e2e4", "e4",
     "rnbqkbnr/pppppppp/8/8/4P3/8/PPPP1PPP/RNBQKBNR b KQkq - 0 1");
    ("rnbqkbnr/pppppppp/8/8/4P3/8/PPPP1PPP/RNBQKBNR b KQkq - 0 1", "e7e5", "e5",
     "rnbqkbnr/pppp1ppp/8/4p3/4P3/8/PPPP1PPP/RNBQKBNR w KQkq - 0 2");
    ("rnbqkbnr/pppp1ppp/8/4p3/4P3/8/PPPP1PPP/RNBQKBNR w KQkq - 0 2", "g1f3", "Nf3",
     "rnbqkbnr/pppp1ppp/8/4p3/4P3/5N2/PPPP1PPP/RNBQKB1R b KQkq - 1 2");
    ("rnbqkbnr/pppp1ppp/8/4p3/4P3/5N2/PPPP1PPP/RNBQKB1R b KQkq - 1 2", "b8c6", "Nc6",
     "r1bqkbnr/pppp1ppp/2n5/4p3/4P3/5N2/PPPP1PPP/RNBQKB1R w KQkq - 2 3");
    (start, "d2d4", "d4",
     "rnbqkbnr/pppppppp/8/8/3P4/8/PPP1PPPP/RNBQKBNR b KQkq - 0 1");
    ("rnbqkbnr/pppppppp/8/8/3P4/8/PPP1PPPP/RNBQKBNR b KQkq - 0 1", "d7d5", "d5",
     "rnbqkbnr/ppp1pppp/8/3p4/3P4/8/PPP1PPPP/RNBQKBNR w KQkq - 0 2");
    (start, "c2c4", "c4",
     "rnbqkbnr/pppppppp/8/8/2P5/8/PP1PPPPP/RNBQKBNR b KQkq - 0 1");
    ("rnbqkbnr/pppppppp/8/8/2P5/8/PP1PPPPP/RNBQKBNR b KQkq - 0 1", "c7c5", "c5",
     "rnbqkbnr/pp1ppppp/8/2p5/2P5/8/PP1PPPPP/RNBQKBNR w KQkq - 0 2");
    ("8/5P1k/8/8/8/8/8/7K w - - 0 1", "f7f8q", "f8=Q",
     "5Q2/7k/8/8/8/8/8/7K b - - 0 1") ].

Definition known (fen : string) : bool :=
  existsb (fun '(p, _, _, q) => String.eqb p fen || String.eqb q fen) book.

Fixpoint find (b : list (string * string * string * string))
         (fen move : string) : option (string * string) :=
  match b with
  | [] => None
  | (p, m, san, q) :: b' =>
      if String.eqb p fen && String.eqb m move then Some (san, q)
      else find b' fen move
  end.

#[export] Instance rules : RulesEngine := {|
  Board := string;
  chess_start := start;
  Chess_new := fun fen => if known fen then Some fen else None;
  chess_move := find book;
  chess_fen := fun b => b
|}.

(** The browser of the tests: workers exist, WebAssembly validates, and
    [createObjectURL] is mocked to return ["blob:mock-url"]. *)
Definition browser : Env :=
  {| hasWorker := true; wasmSupported := true; objectUrlId := "mock-url" |}.

End BookRules.

(* ================================================================== *)
(** * The vocabulary of the properties *)
(* ================================================================== *)

Section Vocabulary.
Context {rules : RulesEngine}.

(** The world a computation leaves, and what it appended to the log. *)
Definition after {A} (c : M A) (w : World) : World :=
  snd (c w).

Definition effectsOf {A} (c : M A) (w : World)
  : list Effect :=
  skipn (List.length (log w)) (log (after c w)).

(** What [terminate] sends and releases: the quit directive and the worker
    when there is a worker, the load-URL when it is a [blob:] one. *)
Definition teardownEffects (e : ChessEngine) : list Effect :=
  match stockfish e with
  | Some wk => [PostMessage wk "quit"; WorkerTerminate wk]
  | None => []
  end ++
  match stockfishWorkerUrl e with
  | Some u => if JS.startsWith u "blob:" then [RevokeObjectURL u] else []
  | None => []
  end.

Definition isWorkerNew (ef : Effect) : bool :=
  match ef with
  | WorkerNew _ _ => true
  | _ => false
  end.

(** The configuration commands [_setOptions] has to offer, in its order. *)
Definition setoptionCommands (options : StockfishOptions) : list string :=
  let command (name : string) (value : option Z) : list string :=
    match value with
    | Some v =>
        if truthyNumber value
        then [("setoption name " ++ name ++ " value " ++ JS.numberToString v)%string]
        else []
    | None => []
    end in
  command "MultiPV" (multiPV options) ++
  command "Skill Level" (skillLevel options) ++
  command "Contempt" (contempt options) ++
  command "Threads" (threads options) ++
  command "Hash" (hash options).

(** [Accepted b moves sans b']: the rules engine accepts [moves] one after
    the other from the board [b]; [sans] are their translations and [b']
    is the board reached. *)
Inductive Accepted : Board -> list string -> list string -> Board -> Prop :=
| Accepted_nil b : Accepted b [] [] b
| Accepted_cons b move san b1 moves sans b' :
    chess_move b move = Some (san, b1) ->
    Accepted b1 moves sans b' ->
    Accepted b (move :: moves) (san :: sans) b'.

(** The loop of [convertMovesToSAN] without the world: the translations,
    and whether the loop was left by the [catch]. *)
Fixpoint translate (chess : Board) (moves : list string) : list string * bool :=
  match moves with
  | [] => ([], false)
  | move :: rest =>
      match chess_move chess move with
      | Some (san, chess') =>
          let (sans, caught) := translate chess' rest in (san :: sans, caught)
      | None => ([], true)
      end
  end.

Definition logCaught (caught : bool) (w : World) : World :=
  if caught then withLog (ConsoleError "Error converting move:") w else w.

(** The rank update a matching line carries: the rank and the analysis
    line, which is stored at the index [rank - 1]. *)
Definition rankUpdate (e : ChessEngine) (chess : Board) (multipvMatch : Regex.captures)
  : Z * AnalysisLine :=
  let sideToMove := nth_error (JS.splitChar " " (chess_fen (game e))) 1 in
  (JS.parseInt (group 1 multipvMatch),
   {| evaluation := adjustedEval (group 2 multipvMatch)
                                 (JS.parseInt (group 3 multipvMatch)) sideToMove;
      line := fst (translate chess
                     (JS.splitWs (JS.trim (group 4 multipvMatch)))) |}).

(** A rank the array has a slot for: from 1 to [2^32 - 1]. *)
Definition isRank (r : Z) : bool := JSArray.isIndex (r - 1).

(** [this.analysisLines[pvIndex] = ...] for the update [(rank, line)]. *)
Definition store (a : JSArray.t AnalysisLine) (u : Z * AnalysisLine)
  : JSArray.t AnalysisLine :=
  JSArray.set a (fst u - 1) (snd u).

(** The array of a session in which the updates [us] arrived, in this
    order: it is emptied when the session starts. *)
Definition storeAll (us : list (Z * AnalysisLine)) : JSArray.t AnalysisLine :=
  fold_left store us [].

(** The line reported last for the rank [r], if the rank was reported. *)
Definition latest (us : list (Z * AnalysisLine)) (r : Z) : option AnalysisLine :=
  fold_left (fun acc u => if fst u =? r then Some (snd u) else acc) us None.

(** The output parser: the rank update a line carries for the controller
    [e], if it carries one. *)
Definition parsedUpdate (e : ChessEngine) (message : string)
  : option (Z * AnalysisLine) :=
  if String.eqb message "uciok" then None
  else if JS.startsWith message "bestmove" then None
  else
    match Regex.search multipvPattern message with
    | Some multipvMatch =>
        match Chess_new (chess_fen (game e)) with
        | Some chess => Some (rankUpdate e chess multipvMatch)
        | None => None
        end
    | None => None
    end.

(** [RankedSnapshot us data]: [data] lists the lines of the ranks reported
    in [us], each the last reported for its rank, by ascending rank, and
    nothing else. *)
Definition RankedSnapshot (us : list (Z * AnalysisLine)) (data : list AnalysisLine)
  : Prop :=
  exists ranks : list Z,
    StronglySorted Z.lt ranks /\
    (forall r, In r ranks <-> isRank r = true /\ exists l, In (r, l) us) /\
    map (latest us) ranks = map Some data.

(** All the message listeners there are, on any worker. *)
Definition allListeners (w : World) : list MessageListener :=
  List.concat (map messageListeners (workers w)).

(** [NoTimeoutFor ts p]: no pending timer is the time-out of promise [p]. *)
Definition NoTimeoutFor (ts : list (nat * TimerCallback)) (p : nat) : Prop :=
  forall t ms, ~ In (t, TimeoutCallback p ms) ts.

(** The invariant of the event loop.  Timer identifiers are fresh and
    distinct; a pending time-out belongs to a pending promise, and each
    promise has at most one; the [messageHandler] of a promise knows the
    identifier of that time-out. *)
Record Inv (w : World) : Prop := {
  inv_timer_fresh : forall t c, In (t, c) (timers w) -> (t < nextTimer w)%nat;
  inv_timer_nodup : NoDup (map fst (timers w));
  inv_timeout_pending :
    forall t p ms, In (t, TimeoutCallback p ms) (timers w) ->
                   nth_error (promises w) p = Some Pending;
  inv_timeout_unique :
    forall t t' p ms ms',
      In (t, TimeoutCallback p ms) (timers w) ->
      In (t', TimeoutCallback p ms') (timers w) -> t = t';
  inv_handler :
    forall p t, In (MessageHandler p t) (allListeners w) ->
                (p < List.length (promises w))%nat /\
                forall t' ms, In (t', TimeoutCallback p ms) (timers w) -> t' = t
}.

(** [Frame w w']: between [w] and [w'] no timer, no promise changed, and
    the only listeners added are those of [_initializeWorker]. *)
Definition Frame (w w' : World) : Prop :=
  timers w' = timers w /\ nextTimer w' = nextTimer w /\
  promises w' = promises w /\
  forall x, In x (allListeners w') ->
            In x (allListeners w) \/ exists o, x = HandleStockfishMessage o.

(** A computation that stays within the frame, wherever it starts. *)
Definition Quiet {A} (c : M A) : Prop := forall w, Frame w (snd (c w)).

(** A promise just made: pending, and no timer or listener knows it yet. *)
Record Fresh (p : nat) (w : World) : Prop := {
  fresh_inv : Inv w;
  fresh_pending : nth_error (promises w) p = Some Pending;
  fresh_timers : NoTimeoutFor (timers w) p;
  fresh_listeners : forall t, ~ In (MessageHandler p t) (allListeners w)
}.

(** [KnowsTimeout w p t]: the time-out of promise [p], if pending, is the
    timer [t]. *)
Definition KnowsTimeout (w : World) (p t : nat) : Prop :=
  forall t' ms, In (t', TimeoutCallback p ms) (timers w) -> t' = t.

(** The invariant of the session: the ready flag is only set while there
    is a worker, the worker of the controller is the only one alive, and an
    idle controller has no worker. *)
Record Session (w : World) : Prop := {
  session_ready : isuciok (this w) = true -> stockfish (this w) <> None;
  session_alive :
    forall wk worker, nth_error (workers w) wk = Some worker ->
                      alive worker = true -> stockfish (this w) = Some wk;
  session_idle : mode (this w) = idle -> stockfish (this w) = None
}.

(** [SameSession w w']: between [w] and [w'] the worker handle, the ready
    flag, the mode, and which workers are alive did not change. *)
Definition SameSession (w w' : World) : Prop :=
  stockfish (this w') = stockfish (this w) /\
  isuciok (this w') = isuciok (this w) /\
  mode (this w') = mode (this w) /\
  map alive (workers w') = map alive (workers w).

(** A computation that leaves the session as it is, wherever it starts. *)
Definition Calm {A} (c : M A) : Prop := forall w, SameSession w (snd (c w)).

End Vocabulary.

(** ** Sessions run on the rules engine of the tests *)

Section Sessions.
#[local] Existing Instance BookRules.rules.

(** A page with a fresh controller, as in the tests. *)
Definition page : World := newWorld BookRules.browser.

(** [evaluatePosition()], then the ready signal. *)
Definition evaluatingReady : World :=
  steps page [Call_evaluatePosition noOptions; WorkerMessage 0 "uciok"].

(** A subscriber, [startAnalysis()], the ready signal, and the poll that
    sends the search commands. *)
Definition streaming : World :=
  steps page [Call_on 7%nat; Call_startAnalysis noOptions;
              WorkerMessage 0 "uciok"; TimerFires 0].

(** [evaluatePosition()], the ready signal, the poll, and one rank update. *)
Definition evaluatingWithOneLine : World :=
  steps page [Call_evaluatePosition noOptions; WorkerMessage 0 "uciok"; TimerFires 1;
              WorkerMessage 0 "info depth 15 seldepth 22 multipv 1 score cp 13 pv e2e4 e7e5"].

Definition e4e5 : AnalysisLine :=
  {| evaluation := EvalNumber (Qmake 13 100); line := ["e4"; "e5"] |}.

End Sessions.

(** ** Observations of the world, and the worlds that requests make *)

Section Observations.
Context {rules : RulesEngine}.

(** The subscribers of the ["analysis"] event, in the order [emit] calls
    them. *)
Definition subscribers (w : World) : list Listener :=
  EventEmitter.emit (emitter (this w)) "analysis".

(** [Keeps f c]: the computation [c] leaves the observation [f] of the
    world as it was, wherever it starts and however it ends. *)
Definition Keeps {X A} (f : World -> X) (c : M A) : Prop :=
  forall w, f (snd (c w)) = f w.

(** What the browser holds for the controller, and the fields of the
    controller that say which session is on. *)
Definition wiring (w : World)
  : list Worker * option nat * EngineMode * option string *
    list (nat * TimerCallback) * nat * list PromiseState :=
  (workers w, stockfish (this w), mode (this w), stockfishWorkerUrl (this w),
   timers w, nextTimer w, promises w).

(** The URL [_initializeWorker] makes the worker from: the one of the
    options when it is given and not empty, else the one the controller
    still has, else a new object URL for the bundled engine. *)
Definition loadUrl (options : StockfishOptions) (w : World) : string :=
  let given (url : option string) : string :=
    match url with
    | Some u => u
    | None => ""
    end in
  if truthyString (stockfishUrl options) then given (stockfishUrl options)
  else if truthyString (stockfishWorkerUrl (this w))
       then given (stockfishWorkerUrl (this w))
       else ("blob:" ++ objectUrlId (env w))%string.

(** Whether [_initializeWorker] has to make that object URL. *)
Definition makesObjectUrl (options : StockfishOptions) (w : World) : bool :=
  negb (truthyString (stockfishUrl options)) &&
  negb (truthyString (stockfishWorkerUrl (this w))).

(** What [_initializeWorker] does to the outside when it makes the worker
    number [wk]. *)
Definition startEffects (options : StockfishOptions) (w : World) : list Effect :=
  (if makesObjectUrl options w
   then [CreateObjectURL (wasmSupported (env w)) (loadUrl options w)]
   else []) ++
  [WorkerNew (List.length (workers w)) (loadUrl options w);
   PostMessage (List.length (workers w)) "uci"].

(** The controller when a session has just started in the mode [m]. *)
Definition started (m : EngineMode) (options : StockfishOptions) (w : World)
  : ChessEngine :=
  {| game := game (this w); lines := lines (this w);
     stockfish := Some (List.length (workers w));
     emitter := emitter (this w); analysisLines := [];
     stockfishWorkerUrl := Some (loadUrl options w);
     isuciok := false; mode := m |}.

(** The world after [startAnalysis] has started a session. *)
Definition streamingFrom (options : StockfishOptions) (w : World) : World :=
  {| env := env w; this := started stream options w;
     workers := workers w ++
       [{| workerUrl := loadUrl options w; alive := true;
           messageListeners := [HandleStockfishMessage options] |}];
     timers := timers w ++ [(nextTimer w, CheckUciOkStream)];
     nextTimer := S (nextTimer w);
     promises := promises w;
     log := log w ++ startEffects options w ++ [SetTimeout (nextTimer w) 50] |}.

(** The world after [evaluatePosition] has started a session. *)
Definition evaluatingFrom (options : StockfishOptions) (w : World) : World :=
  let p := List.length (promises w) in
  let t := nextTimer w in
  let timeoutMs := orElse (movetime options) 30000 in
  {| env := env w; this := started evaluate options w;
     workers := workers w ++
       [{| workerUrl := loadUrl options w; alive := true;
           messageListeners := [HandleStockfishMessage options; MessageHandler p t] |}];
     timers := timers w ++ [(t, TimeoutCallback p timeoutMs);
                            (S t, CheckUciOkEvaluate options)];
     nextTimer := S (S t);
     promises := promises w ++ [Pending];
     log := log w ++ startEffects options w ++
            [SetTimeout t timeoutMs; SetTimeout (S t) 50] |}.

(** How the worker of the controller is wired, by the mode: in a streaming
    session its only listener is the line handler; in a one-shot session
    the [messageHandler] of the session's promise comes after it, and the
    time-out of that promise is pending. *)
Definition wiredAs (w : World) (worker : Worker) : Prop :=
  match mode (this w) with
  | idle => False
  | stream =>
      exists options, messageListeners worker = [HandleStockfishMessage options]
  | evaluate =>
      exists options p t ms,
        messageListeners worker =
          [HandleStockfishMessage options; MessageHandler p t] /\
        In (t, TimeoutCallback p ms) (timers w)
  end.

(** The invariant of the wiring: the worker of the controller is alive and
    wired as its mode says, and a controller without a worker holds no
    [blob:] URL. *)
Record Wired (w : World) : Prop := {
  wired_worker :
    forall wk, stockfish (this w) = Some wk ->
      exists worker, nth_error (workers w) wk = Some worker /\
                     alive worker = true /\ wiredAs w worker;
  wired_released :
    stockfish (this w) = None ->
    forall u, stockfishWorkerUrl (this w) = Some u -> JS.startsWith u "blob:" = false
}.

(** [OwnsTimer w p t]: the timer [t] has been allotted, and if it is
    pending it is the time-out of the promise [p]. *)
Definition OwnsTimer (w : World) (p t : nat) : Prop :=
  (t < nextTimer w)%nat /\
  forall c, In (t, c) (timers w) -> exists ms, c = TimeoutCallback p ms.

(** The invariant of the promises: a pending promise has its time-out
    pending, and a [messageHandler] clears no other timer than the
    time-out of its promise. *)
Record Armed (w : World) : Prop := {
  armed_pending :
    forall p, nth_error (promises w) p = Some Pending ->
              exists t ms, In (t, TimeoutCallback p ms) (timers w);
  armed_handler :
    forall p t, In (MessageHandler p t) (allListeners w) -> OwnsTimer w p t
}.

(** [ArmedBut w p]: the invariant of the promises, but that the promise
    [p] may have lost its time-out. *)
Definition ArmedBut (w : World) (p : nat) : Prop :=
  (forall q, q <> p -> nth_error (promises w) q = Some Pending ->
             exists t ms, In (t, TimeoutCallback q ms) (timers w)) /\
  (forall q t, In (MessageHandler q t) (allListeners w) -> OwnsTimer w q t).

(** The notifications among effects. *)
Definition isListenerCall (ef : Effect) : bool :=
  match ef with
  | ListenerCall _ _ => true
  | _ => false
  end.

(** The rank updates that the lines [messages] carry for the controller
    [e], in their order. *)
Definition parsedUpdates (e : ChessEngine) (messages : list string)
  : list (Z * AnalysisLine) :=
  flat_map (fun m => match parsedUpdate e m with Some u => [u] | None => [] end)
           messages.

(** [Notifies c]: the computation [c] leaves the subscriptions as they
    are, only appends to the log, and notifies none but subscribers. *)
Definition Notifies {A} (c : M A) : Prop :=
  forall w,
    subscribers (snd (c w)) = subscribers w /\
    exists efs, log (snd (c w)) = log w ++ efs /\
                forall l data, In (ListenerCall l data) efs -> In l (subscribers w).

(** [Preserves P c]: the computation [c] keeps the property [P] of the
    world. *)
Definition Preserves {A} (P : World -> Prop) (c : M A) : Prop :=
  forall w, P w -> P (snd (c w)).

(** The result of the last one-shot evaluation that completed, as the
    page reads it. *)
Definition publicLines (w : World) : list AnalysisLine := lines (this w).

(** [Retains u w]: the controller has the load-URL [u]. *)
Definition Retains (u : string) (w : World) : Prop :=
  stockfishWorkerUrl (this w) = Some u.

(** Whether a call gives the URL of an engine of the caller's. *)
Definition givesUrl (ev : Event) : bool :=
  match ev with
  | Call_evaluatePosition options | Call_startAnalysis options =>
      truthyString (stockfishUrl options)
  | _ => false
  end.

(** The events of a search in the one-shot session whose worker is [wk]
    and whose time-out is the timer [t]: the lines the worker sends before
    the completion signal, and the polls, which are the timers allotted
    after [t]. *)
Definition searchEvent (wk t : nat) (ev : Event) : bool :=
  match ev with
  | WorkerMessage wk' data => Nat.eqb wk' wk && negb (JS.startsWith data "bestmove")
  | TimerFires t' => Nat.ltb t t'
  | _ => false
  end.

(** The lines among events. *)
Definition linesOf (evs : list Event) : list string :=
  flat_map (fun ev => match ev with
                      | WorkerMessage _ data => [data]
                      | _ => []
                      end) evs.

(** What the polls and the lines of a search leave alone. *)
Definition searchState (w : World)
  : list Worker * list PromiseState * option nat * EngineMode * Board :=
  (workers w, promises w, stockfish (this w), mode (this w), game (this w)).

(** [Searching e w1 t p ms us w]: the world [w] is in the search of the
    one-shot session that started in the world [w1] with the time-out [t]
    of the promise [p]; the rank updates received so far are [us]. *)
Definition Searching (e : Env) (w1 : World) (t p : nat) (ms : Z)
           (us : list (Z * AnalysisLine)) (w : World) : Prop :=
  Reachable e w /\
  searchState w = searchState w1 /\
  analysisLines (this w) = storeAll us /\
  In (t, TimeoutCallback p ms) (timers w) /\
  (forall t' c, In (t', c) (timers w) -> (t < t')%nat ->
                forall q ms', c <> TimeoutCallback q ms').

End Observations.

(** ** The commands of a one-shot session *)

Section SessionCommands.
Context {rules : RulesEngine}.

(** The commands posted to the worker [wk] among effects, in their
    order. *)
Definition commandsTo (wk : nat) (efs : list Effect) : list string :=
  flat_map (fun ef => match ef with
                      | PostMessage wk' command =>
                          if Nat.eqb wk' wk then [command] else []
                      | _ => []
                      end) efs.

(** What happens in the one-shot session whose worker is [wk] and whose
    time-out is the timer [t], as long as the session is neither ended nor
    disturbed: the worker sends a line that is neither the ready signal nor
    the completion signal, or a timer other than the time-out fires. *)
Definition sessionEvent (wk t : nat) (ev : Event) : bool :=
  match ev with
  | WorkerMessage wk' data =>
      Nat.eqb wk' wk && negb (JS.startsWith data "bestmove")
        && negb (String.eqb data "uciok")
  | TimerFires t' => negb (Nat.eqb t' t)
  | _ => false
  end.

(** The search commands of [evaluatePosition]: the position, then the
    directive. *)
Definition searchCommands (e : ChessEngine) (options : StockfishOptions) : list string :=
  [("position fen " ++ chess_fen (game e))%string; goCommand options].

(** The time-out of the request [evaluatePosition(options)] made in the
    world [w0]. *)
Definition sessionTimeout (w0 : World) (options : StockfishOptions)
  : nat * TimerCallback :=
  (nextTimer w0,
   TimeoutCallback (List.length (promises w0)) (orElse (movetime options) 30000)).

(** [Sequenced e w0 options ready sent w]: the world [w] is in the
    one-shot session that [evaluatePosition(options)] started in the
    world [w0], where no timer was pending; [ready] tells whether the
    ready signal has come, and [sent] whether the search commands have
    been sent.  Until they are, one poll is pending; afterwards none. *)
Definition Sequenced (e : Env) (w0 : World) (options : StockfishOptions)
           (ready sent : bool) (w : World) : Prop :=
  let w1 := evaluatingFrom options w0 in
  let wk := List.length (workers w0) in
  Reachable e w /\
  searchState w = searchState w1 /\
  isuciok (this w) = ready /\
  (sent = true -> ready = true) /\
  (exists tp, tp <> nextTimer w0 /\
     timers w = sessionTimeout w0 options ::
                (if sent then [] else [(tp, CheckUciOkEvaluate options)])) /\
  exists efs,
    log w = log w1 ++ efs /\
    commandsTo wk efs =
      (if ready then setoptionCommands options else []) ++
      (if sent then searchCommands (this w0) options else []).

End SessionCommands.

(** ** Lines of the engine *)

Section InfoLineVocabulary.

(** Whether all the characters of [s] are of the class [cls]. *)
Fixpoint allOf (cls : ascii -> bool) (s : string) : bool :=
  match s with
  | EmptyString => true
  | String c s' => cls c && allOf cls s'
  end.

(** Whether the character [c] is not in [s]. *)
Definition lacks (c : ascii) (s : string) : bool :=
  allOf (fun x => negb (Ascii.eqb x c)) s.

(** Whether [needle] occurs in [hay]. *)
Fixpoint occurs (needle hay : string) : bool :=
  match Regex.dropLit needle hay with
  | Some _ => true
  | None =>
      match hay with
      | String _ hay' => occurs needle hay'
      | EmptyString => false
      end
  end.

(** Whether [s] begins with a character of the class [cls]. *)
Definition startsIn (cls : ascii -> bool) (s : string) : bool :=
  match s with
  | String c _ => cls c
  | EmptyString => false
  end.

(** A decimal numeral, and one with an optional minus sign. *)
Definition isNumeral (s : string) : bool :=
  negb (String.eqb s "") && allOf JS.isDigit s.

Definition isSignedNumeral (s : string) : bool :=
  match s with
  | String "-"%char digits => isNumeral digits
  | _ => isNumeral s
  end.

(** A word: not empty, and without white space. *)
Definition isWord (s : string) : bool :=
  negb (String.eqb s "") && allOf (fun c => negb (JS.isSpace c)) s.

(** [s' ] is what is left of [s] from some position on. *)
Definition Suffix (s' s : string) : Prop := exists x, s = (x ++ s')%string.

(** An [info] line of the engine as the UCI protocol has it: the rank
    after [multipv], the score after [score], and the moves of the
    principal variation after [pv], one space between them; [pre] is what
    comes before [multipv], and [mid] what comes between the score and
    [pv]. *)
Definition infoLine (pre rank scoreType value mid : string) (moves : list string)
  : string :=
  (pre ++ "multipv " ++ rank ++ " score " ++ scoreType ++ " " ++ value ++ mid
       ++ "pv " ++ String.concat " " moves)%string.

End InfoLineVocabulary.

(** ** More sessions on the rules engine of the tests *)

Section MoreSessions.
#[local] Existing Instance BookRules.rules.

(** A page where there is no [Worker] (a server, say). *)
Definition serverPage : World :=
  newWorld {| hasWorker := false; wasmSupported := false; objectUrlId := "" |}.

(** The options that give the URL of an engine of the caller's. *)
Definition ownEngine : StockfishOptions :=
  {| depth := None; time := None; movetime := None; nodes := None;
     stockfishUrl := Some "/engines/stockfish.js"; multiPV := None;
     skillLevel := None; contempt := None; threads := None; hash := None |}.

(** A streaming session on the caller's engine, ended by [terminate()]. *)
Definition afterOwnEngine : World :=
  steps page [Call_startAnalysis ownEngine; Call_terminate].

(** [evaluatePosition()] and nothing yet from the worker. *)
Definition evaluatingPending : World :=
  steps page [Call_evaluatePosition noOptions].

(** [startAnalysis()] and nothing yet from the worker. *)
Definition streamingPending : World :=
  steps page [Call_on 7%nat; Call_startAnalysis noOptions].

(** The board after 1. e4, and the fresh board. *)
Definition afterE4 : Board :=
  "rnbqkbnr/pppppppp/8/8/4P3/8/PPPP1PPP/RNBQKBNR b KQkq - 0 1".

Definition freshBoard : Board := BookRules.start.

(** Lines of the engine for the ranks 3 and 1, and a later line for the
    rank 1. *)
Definition lineOfRank3 : string :=
  "info depth 15 seldepth 22 multipv 3 score cp 10 pv c2c4 c7c5".

Definition lineOfRank1 : string :=
  "info depth 15 seldepth 22 multipv 1 score cp 13 pv e2e4 e7e5".

Definition laterLineOfRank1 : string :=
  "info depth 16 seldepth 24 multipv 1 score cp 21 pv d2d4 d7d5".

Definition c4c5 : AnalysisLine :=
  {| evaluation := EvalNumber (Qmake 10 100); line := ["c4"; "c5"] |}.

Definition d4d5 : AnalysisLine :=
  {| evaluation := EvalNumber (Qmake 21 100); line := ["d4"; "d5"] |}.

(** A streaming session in which the rank 3 was reported before the rank
    1, and the rank 2 not at all. *)
Definition streamingOutOfOrder : World :=
  steps streaming [WorkerMessage 0 lineOfRank3; WorkerMessage 0 lineOfRank1].

(** The same in a one-shot evaluation. *)
Definition evaluatingOutOfOrder : World :=
  steps evaluatingReady
        [TimerFires 1; WorkerMessage 0 lineOfRank3; WorkerMessage 0 lineOfRank1].

(** A line with the rank 0, for which the array has no slot. *)
Definition lineOfRank0 : string :=
  "info depth 15 seldepth 22 multipv 0 score cp 10 pv c2c4 c7c5".

(** Options with a move time of 1 ms, which is also the time-out of the
    request; options with a node count; options with a time per side and
    a node count. *)
Definition quickOptions : StockfishOptions :=
  {| depth := None; time := None; movetime := Some 1; nodes := None;
     stockfishUrl := None; multiPV := None; skillLevel := None;
     contempt := None; threads := None; hash := None |}.

Definition nodesOptions : StockfishOptions :=
  {| depth := None; time := None; movetime := None; nodes := Some 5;
     stockfishUrl := None; multiPV := None; skillLevel := None;
     contempt := None; threads := None; hash := None |}.

Definition timedOptions : StockfishOptions :=
  {| depth := None; time := Some 1000; movetime := Some 200; nodes := Some 5;
     stockfishUrl := None; multiPV := None; skillLevel := None;
     contempt := None; threads := None; hash := None |}.

(** [evaluatePosition(timedOptions)], then the ready signal. *)
Definition evaluatingTimedReady : World :=
  steps page [Call_evaluatePosition timedOptions; WorkerMessage 0 "uciok"].

(** A request whose time-out (the timer 0) fires before its worker is
    ready; its poll (the timer 1) fires after that and arms itself again
    (the timer 2).  Then a second request, with the time-out 3 and the
    poll 4, and the ready signal of its worker, which is the worker 1. *)
Definition secondSessionReady : World :=
  steps page [Call_evaluatePosition quickOptions; TimerFires 0; TimerFires 1;
              Call_evaluatePosition nodesOptions; WorkerMessage 1 "uciok"].

(** Options with three principal variations and a node count. *)
Definition threeLinesOptions : StockfishOptions :=
  {| depth := None; time := None; movetime := None; nodes := Some 5;
     stockfishUrl := None; multiPV := Some 3; skillLevel := None;
     contempt := None; threads := None; hash := None |}.

End MoreSessions.

(* ================================================================== *)
(** * Properties *)
(* ================================================================== *)

(** Symbolic execution of the controller's code: the methods and the
    state operations are unfolded, then what is decided is computed. *)
Ltac controller_unfold :=
  cbv beta iota zeta delta
    [after bind ret throw get put getWorld effect when ifTruthy
     _sendCommand _setOptions terminate _initializeWorker checkUciOkStream
     checkUciOkEvaluate startAnalysis stopAnalysis timeoutCallback
     messageHandler evaluatePosition Promise_new resolve reject
     createObjectURL setTimeout clearTimeout Worker_new Worker_terminate
     addEventListener removeMessageHandler emit on off convertMovesToSAN
     _handleStockfishMessage task callListener fire onerror
     withThis withWorkers withTimers withPromises withLog].

Ltac controller_simpl := repeat (progress (controller_unfold; simpl)).

Lemma skipn_length_app {A} (l l' : list A) : skipn (List.length l) (l ++ l') = l'.
Proof. induction l as [|a l IH]; simpl; auto. Qed.

(** ** Teardown *)

Section Teardown.
Context {rules : RulesEngine}.

Lemma startsWith_blob_truthy (u : string) :
  JS.startsWith u "blob:" = true -> truthyString (Some u) = true.
Proof. destruct u; simpl; [discriminate | reflexivity]. Qed.

Lemma terminate_log (w : World) :
  log (after terminate w) = log w ++ teardownEffects (this w).
Proof.
  destruct w as [en [g l sf em al url ok m] ws ts nt ps lg].
  unfold after, teardownEffects, terminate, bind, get, put, _sendCommand,
    Worker_terminate, effect, when, ret; simpl.
  destruct sf as [wk|]; simpl;
    (destruct url as [u|]; simpl;
     [ destruct (JS.startsWith u "blob:") eqn:Hb; simpl;
       [ destruct u; [discriminate Hb|]; simpl
       | rewrite andb_false_r; simpl ]
     | ]); rewrite <- ?app_assoc, ?app_nil_r; reflexivity.
Qed.

Lemma terminate_this (w : World) :
  this (after terminate w) =
  set_mode idle (set_isuciok false
    (match stockfishWorkerUrl (this w) with
     | Some u => if JS.startsWith u "blob:" then set_stockfishWorkerUrl None else fun e => e
     | None => fun e => e
     end (set_stockfish None (this w)))).
Proof.
  destruct w as [en [g l sf em al url ok m] ws ts nt ps lg].
  unfold after, terminate, bind, get, put, _sendCommand,
    Worker_terminate, effect, when, ret; simpl.
  destruct sf as [wk|]; simpl;
    (destruct url as [u|]; simpl;
     [ destruct (JS.startsWith u "blob:") eqn:Hb; simpl;
       [ destruct u; [discriminate Hb|]; simpl; reflexivity
       | rewrite andb_false_r; simpl; reflexivity ]
     | reflexivity ]).
Qed.

Lemma terminate_normal (w : World) : fst (terminate w) = Normal tt.
Proof.
  destruct w as [en [g l sf em al url ok m] ws ts nt ps lg].
  unfold terminate, bind, get, put, _sendCommand,
    Worker_terminate, effect, when, ret; simpl.
  destruct sf as [wk|]; simpl;
    (destruct url as [u|]; simpl;
     [ match goal with |- context [if ?b then _ else _] => destruct b end;
       reflexivity
     | reflexivity ]).
Qed.

(** The state [terminate] leaves. *)
Lemma terminate_state (w : World) :
  let w1 := after terminate w in
  stockfish (this w1) = None /\
  (forall u, stockfishWorkerUrl (this w1) = Some u -> JS.startsWith u "blob:" = false) /\
  isuciok (this w1) = false /\
  mode (this w1) = idle.
Proof.
  intros w1. assert (Hthis := terminate_this w). fold w1 in Hthis.
  split.
  { rewrite Hthis. destruct (stockfishWorkerUrl (this w)) as [u|];
      [destruct (JS.startsWith u "blob:")|]; reflexivity. }
  split.
  { intros u. rewrite Hthis.
    destruct (stockfishWorkerUrl (this w)) as [u0|] eqn:Hu;
      [destruct (JS.startsWith u0 "blob:") eqn:Hb|]; simpl;
      rewrite ?Hu; intros H; inversion H; subst; auto. }
  split; rewrite Hthis; reflexivity.
Qed.

(** C9 — From every controller state, [terminate()] sends the quit
    directive exactly when a worker handle exists, and leaves the worker
    handle null, no [blob:] load-URL (it is revoked and set to null), the
    ready-flag false and the mode idle; a second [terminate()] sends
    nothing, releases nothing and changes nothing. *)
Theorem terminate_teardown_idempotent (w : World) :
  let w1 := after terminate w in
  (* what is sent and released *)
  effectsOf terminate w = teardownEffects (this w) /\
  (forall wk, In (PostMessage wk "quit") (effectsOf terminate w)
              <-> stockfish (this w) = Some wk) /\
  (forall u, In (RevokeObjectURL u) (effectsOf terminate w)
             <-> stockfishWorkerUrl (this w) = Some u /\ JS.startsWith u "blob:" = true) /\
  (* the state left *)
  stockfish (this w1) = None /\
  (forall u, stockfishWorkerUrl (this w1) = Some u -> JS.startsWith u "blob:" = false) /\
  isuciok (this w1) = false /\
  mode (this w1) = idle /\
  (* the second call *)
  terminate w1 = (Normal tt, w1).
Proof.
  intros w1.
  assert (Heff : effectsOf terminate w = teardownEffects (this w)).
  { unfold effectsOf. rewrite terminate_log. apply skipn_length_app. }
  split; [exact Heff|].
  rewrite Heff. unfold teardownEffects.
  split.
  { intros wk. destruct (stockfish (this w)) as [wk'|];
      destruct (stockfishWorkerUrl (this w)) as [u|];
      try destruct (JS.startsWith u "blob:"); simpl; split; intros H;
      repeat match goal with
             | H : _ \/ _ |- _ => destruct H
             | H : False |- _ => destruct H
             | H : PostMessage _ _ = PostMessage _ _ |- _ => inversion H; clear H; subst
             | H : Some _ = Some _ |- _ => inversion H; clear H; subst
             end; try discriminate; auto. }
  split.
  { intros u'. destruct (stockfish (this w)) as [wk'|];
      destruct (stockfishWorkerUrl (this w)) as [u|];
      try destruct (JS.startsWith u "blob:") eqn:Hb; simpl; split; intros H;
      repeat match goal with
             | H : _ /\ _ |- _ => destruct H
             | H : _ \/ _ |- _ => destruct H
             | H : False |- _ => destruct H
             | H : RevokeObjectURL _ = RevokeObjectURL _ |- _ => inversion H; clear H; subst
             | H : Some _ = Some _ |- _ => inversion H; clear H; subst
             end; try discriminate; try congruence; auto. }
  destruct (terminate_state w) as (Hsf & Hurl & Hok & Hm). fold w1 in Hsf, Hurl, Hok, Hm.
  split; [exact Hsf|]. split; [exact Hurl|].
  split; [exact Hok|]. split; [exact Hm|].
  clear Heff. revert Hsf Hurl Hok Hm. generalize w1. clear w w1.
  intros [en [g l sf em al url ok m] ws ts nt ps lg]; simpl.
  intros -> Hurl -> ->.
  unfold terminate, bind, get, put, when, ret; simpl.
  destruct url as [u|]; simpl; [|reflexivity].
  rewrite (Hurl u eq_refl), andb_false_r. reflexivity.
Qed.

End Teardown.

(** ** Single flight *)

Section SingleFlight.
Context {rules : RulesEngine}.

Lemma mode_not_idle (m : EngineMode) : m <> idle -> EngineMode_eqb m idle = false.
Proof. destruct m; simpl; congruence. Qed.

Lemma evaluatePosition_busy (w : World) (options : StockfishOptions) :
  mode (this w) <> idle ->
  evaluatePosition options w =
  (Normal (List.length (promises w)),
   withLog (Reject (List.length (promises w)) busyMessage)
     (withPromises (fun ps => ps ++ [Rejected busyMessage]) w)).
Proof.
  intros Hm. apply mode_not_idle in Hm.
  destruct w as [en e ws ts nt ps lg]; simpl in Hm.
  unfold evaluatePosition, Promise_new, bind, get, reject; simpl.
  rewrite Hm; simpl.
  unfold withLog, withPromises, settle; simpl. do 2 f_equal.
  induction ps as [|x ps IH]; simpl; [reflexivity|]. f_equal. exact IH.
Qed.

Lemma startAnalysis_busy (w : World) (options : StockfishOptions) :
  mode (this w) <> idle ->
  startAnalysis options w = (Normal tt, withLog (ConsoleWarn busyMessage) w).
Proof.
  intros Hm. apply mode_not_idle in Hm.
  unfold startAnalysis, bind, get, effect. rewrite Hm. reflexivity.
Qed.

(** The situation of the test "should reject evaluation when engine is
    busy": a streaming session is started from an idle controller, then the
    one-shot request is made.  The worker constructor runs once. *)
Lemma busy_request_constructs_no_second_worker
      (w : World) (options1 options2 : StockfishOptions) :
  mode (this w) = idle -> stockfish (this w) = None ->
  hasWorker (env w) = true ->
  let w1 := after (startAnalysis options1) w in
  let w2 := after (evaluatePosition options2) w1 in
  mode (this w1) = stream /\
  List.length (filter isWorkerNew (skipn (List.length (log w)) (log w2))) = 1%nat /\
  nth_error (promises w2) (List.length (promises w)) = Some (Rejected busyMessage).
Proof.
  intros Hm Hsf Hw w1 w2.
  assert (H1 : mode (this w1) = stream /\
               promises w1 = promises w /\
               exists u, exists es, log w1 = log w ++ es ++ [WorkerNew (List.length (workers w)) u;
                                       PostMessage (List.length (workers w)) "uci";
                                       SetTimeout (nextTimer w) 50] /\
                                    filter isWorkerNew es = []).
  { subst w1 w2. destruct w as [en [g l sf em al url ok m] ws ts nt ps lg].
    simpl in *. subst m sf.
    controller_simpl. rewrite Hw; controller_simpl.
    destruct (truthyString (stockfishUrl options1)); simpl.
    - split; [reflexivity|]. split; [reflexivity|].
      eexists. exists []. rewrite <- !app_assoc. simpl. split; reflexivity.
    - destruct (truthyString url); simpl.
      + split; [reflexivity|]. split; [reflexivity|].
        eexists. exists []. rewrite <- !app_assoc. simpl. split; reflexivity.
      + split; [reflexivity|]. split; [reflexivity|].
        eexists. eexists [_]. rewrite <- !app_assoc. simpl. split; reflexivity. }
  destruct H1 as (Hmode & Hps & u & es & Hlog & Hes).
  split; [exact Hmode|].
  assert (Hbusy : mode (this w1) <> idle) by (rewrite Hmode; discriminate).
  assert (Hev := evaluatePosition_busy w1 options2 Hbusy).
  subst w2. unfold after. rewrite Hev.
  simpl. rewrite Hlog, Hps. split.
  - rewrite <- !app_assoc, skipn_length_app.
    rewrite !filter_app, Hes. reflexivity.
  - rewrite nth_error_app2 by lia. rewrite Nat.sub_diag. reflexivity.
Qed.

(** C6 — Whenever the mode is not idle, [evaluatePosition] rejects at once
    with the busy error, before any worker is made or any command sent:
    the rejection is all it does (so, when the session that is active was
    started from an idle controller in a browser, the worker constructor
    has run exactly once, for that session).  [startAnalysis] in the same
    situation warns and returns normally, and the controller and the
    browser are as they were, but for the warning. *)
Theorem busy_rejects_or_warns (w : World) (options : StockfishOptions) :
  mode (this w) <> idle ->
  let p := List.length (promises w) in
  (* the one-shot request *)
  fst (evaluatePosition options w) = Normal p /\
  nth_error (promises (after (evaluatePosition options) w)) p
    = Some (Rejected busyMessage) /\
  effectsOf (evaluatePosition options) w = [Reject p busyMessage] /\
  this (after (evaluatePosition options) w) = this w /\
  workers (after (evaluatePosition options) w) = workers w /\
  timers (after (evaluatePosition options) w) = timers w /\
  (forall w0 options0,
      mode (this w0) = idle -> stockfish (this w0) = None ->
      hasWorker (env w0) = true ->
      w = after (startAnalysis options0) w0 ->
      List.length (filter isWorkerNew
                     (skipn (List.length (log w0))
                            (log (after (evaluatePosition options) w)))) = 1%nat) /\
  (* the streaming start *)
  startAnalysis options w = (Normal tt, withLog (ConsoleWarn busyMessage) w).
Proof.
  intros Hm p.
  split; [|split; [|split; [|split; [|split; [|split; [|split]]]]]].
  8:{ exact (startAnalysis_busy w options Hm). }
  7:{ intros w0 options0 Hidle Hsf Hw ->.
      destruct (busy_request_constructs_no_second_worker w0 options0 options Hidle Hsf Hw)
        as (_ & H & _).
      exact H. }
  all: unfold effectsOf, after; rewrite (evaluatePosition_busy w options Hm); simpl;
    try reflexivity.
  - subst p. rewrite nth_error_app2 by lia. rewrite Nat.sub_diag. reflexivity.
  - apply skipn_length_app.
Qed.

End SingleFlight.

(** ** The command sequencer *)

Section Sequencer.
Context {rules : RulesEngine}.

Lemma checkUciOkEvaluate_ready (w : World) (options : StockfishOptions) (wk : nat) :
  isuciok (this w) = true -> stockfish (this w) = Some wk ->
  checkUciOkEvaluate options w =
  (Normal tt,
   withLog (PostMessage wk (goCommand options))
     (withLog (PostMessage wk ("position fen " ++ chess_fen (game (this w)))) w)).
Proof.
  intros Hok Hsf. controller_simpl. rewrite Hok. controller_simpl.
  rewrite Hsf. controller_simpl. rewrite ?Hsf. reflexivity.
Qed.

Lemma checkUciOkEvaluate_waiting (w : World) (options : StockfishOptions) :
  isuciok (this w) = false ->
  checkUciOkEvaluate options w =
  (Normal tt,
   withLog (SetTimeout (nextTimer w) 50)
     (withTimers (fun ts => ts ++ [(nextTimer w, CheckUciOkEvaluate options)])
                 (S (nextTimer w)) w)).
Proof. intros Hok. controller_simpl. rewrite Hok. reflexivity. Qed.

(** The poll of [evaluatePosition] that finds the ready flag set: exactly
    the position-load command and the go directive are sent, and no further
    poll is armed.  The directive is chosen by strict priority. *)
Lemma checkUciOkEvaluate_sends_once
        (w : World) (options : StockfishOptions) (wk : nat) :
  isuciok (this w) = true -> stockfish (this w) = Some wk ->
  let w' := after (checkUciOkEvaluate options) w in
  effectsOf (checkUciOkEvaluate options) w =
    [PostMessage wk ("position fen " ++ chess_fen (game (this w)));
     PostMessage wk (goCommand options)] /\
  timers w' = timers w /\ this w' = this w /\
  (forall n, depth options = Some n ->
     goCommand options = "go depth " ++ JS.numberToString n)%string /\
  (depth options = None ->
   forall t, time options = Some t ->
     goCommand options =
     "go wtime " ++ JS.numberToString t ++ " btime " ++ JS.numberToString t)%string /\
  (depth options = None -> time options = None ->
   forall m, movetime options = Some m ->
     goCommand options = "go movetime " ++ JS.numberToString m)%string /\
  (depth options = None -> time options = None -> movetime options = None ->
   forall k, nodes options = Some k ->
     goCommand options = "go nodes " ++ JS.numberToString k)%string /\
  (depth options = None -> time options = None -> movetime options = None ->
   nodes options = None ->
     goCommand options = "go depth 15").
Proof.
  intros Hok Hsf w'. subst w'. unfold effectsOf, after.
  rewrite (checkUciOkEvaluate_ready w options wk Hok Hsf). simpl.
  split.
  { rewrite <- app_assoc. apply skipn_length_app. }
  split; [reflexivity|]. split; [reflexivity|].
  unfold goCommand.
  repeat split; intros;
    repeat match goal with H : _ = _ |- _ => rewrite H; clear H end; reflexivity.
Qed.

Lemma ifTruthy_send (w : World) (wk : nat) (value : option Z) (f : Z -> string) :
  stockfish (this w) = Some wk ->
  ifTruthy value (fun v => _sendCommand (f v)) w =
  (Normal tt,
   fold_left (fun w' c => withLog (PostMessage wk c) w')
     match value with
     | Some v => if truthyNumber value then [f v] else []
     | None => []
     end w).
Proof.
  intros Hsf. unfold ifTruthy. destruct value as [v|]; [|reflexivity].
  destruct (truthyNumber (Some v)); [|reflexivity].
  controller_simpl. rewrite Hsf. reflexivity.
Qed.

Lemma post_all_stockfish (wk : nat) (cs : list string) (w : World) :
  stockfish (this (fold_left (fun w' c => withLog (PostMessage wk c) w') cs w))
  = stockfish (this w).
Proof. revert w. induction cs as [|c cs IH]; intros w; simpl; [|rewrite IH]; reflexivity. Qed.

Lemma post_all_log (wk : nat) (cs : list string) (w : World) :
  log (fold_left (fun w' c => withLog (PostMessage wk c) w') cs w)
  = log w ++ map (PostMessage wk) cs.
Proof.
  revert w. induction cs as [|c cs IH]; intros w; simpl.
  - now rewrite app_nil_r.
  - rewrite IH. simpl. now rewrite <- app_assoc.
Qed.

(** On the ready signal the commands of [setoptionCommands] are sent, one
    for each parameter that is present and not zero, in the order rank
    count, skill, contempt, threads, memory. *)
Lemma _setOptions_sends (w : World) (options : StockfishOptions) (wk : nat) :
  stockfish (this w) = Some wk ->
  _setOptions options w =
  (Normal tt,
   fold_left (fun w' c => withLog (PostMessage wk c) w') (setoptionCommands options) w).
Proof.
  intros Hsf. unfold _setOptions, setoptionCommands, bind.
  rewrite !fold_left_app.
  repeat (rewrite ifTruthy_send with (wk := wk);
          [| rewrite ?post_all_stockfish; exact Hsf]).
  reflexivity.
Qed.

End Sequencer.

(** ** The output parser: what a match of the pattern tells *)

Module RegexFacts.
Import Regex.

Lemma star_sound {R} (cls : ascii -> bool) (s : string) (k : string -> option R) (x : R) :
  star cls s k = Some x -> exists rest, ClassRun cls s rest /\ k rest = Some x.
Proof.
  induction s as [|c s IH]; simpl; intros H.
  - exists EmptyString. split; [constructor | exact H].
  - destruct (cls c) eqn:Hc.
    + destruct (star cls s k) as [y|] eqn:Hs.
      * inversion H; subst y. destruct (IH eq_refl) as (rest & Hr & Hk).
        exists rest. split; [constructor; assumption | exact Hk].
      * exists (String c s). split; [constructor | exact H].
    + exists (String c s). split; [constructor | exact H].
Qed.

(** The matcher only answers with what its continuation answers, at a
    split of the input that the pattern allows. *)
Lemma run_sound {R} (r : regex) :
  forall (s : string) (cs : captures) (k : string -> captures -> option R) (x : R),
    run r s cs k = Some x ->
    exists rest cs', Matches r s cs rest cs' /\ k rest cs' = Some x.
Proof.
  induction r as [lit | cls | cls | r IH | r1 IH1 r2 IH2 | r1 IH1 r2 IH2 | n r IH];
    intros s cs k x H; simpl in H.
  - destruct (dropLit lit s) as [rest|] eqn:Hd; [|discriminate].
    exists rest, cs. split; [constructor; exact Hd | exact H].
  - unfold plus in H. destruct s as [|c s]; [discriminate|].
    destruct (cls c) eqn:Hc; [|discriminate].
    apply star_sound in H. destruct H as (rest & Hr & Hk).
    exists rest, cs. split; [constructor; assumption | exact Hk].
  - apply star_sound in H. destruct H as (rest & Hr & Hk).
    exists rest, cs. split; [constructor; assumption | exact Hk].
  - destruct (run r s cs k) as [y|] eqn:Hr.
    + inversion H; subst y. destruct (IH _ _ _ _ Hr) as (rest & cs' & Hm & Hk).
      exists rest, cs'. split; [apply M_Opt_some; exact Hm | exact Hk].
    + exists s, cs. split; [apply M_Opt_none | exact H].
  - destruct (run r1 s cs k) as [y|] eqn:Hr.
    + inversion H; subst y. destruct (IH1 _ _ _ _ Hr) as (rest & cs' & Hm & Hk).
      exists rest, cs'. split; [apply M_Alt_l; exact Hm | exact Hk].
    + destruct (IH2 _ _ _ _ H) as (rest & cs' & Hm & Hk).
      exists rest, cs'. split; [apply M_Alt_r; exact Hm | exact Hk].
  - destruct (IH1 _ _ _ _ H) as (mid & cs1 & Hm1 & Hk1).
    destruct (IH2 _ _ _ _ Hk1) as (rest & cs2 & Hm2 & Hk2).
    exists rest, cs2. split; [eapply M_Seq; eassumption | exact Hk2].
  - destruct (IH _ _ _ _ H) as (rest & cs' & Hm & Hk).
    exists ((rest)), ((n, consumed s rest) :: cs').
    split; [constructor; exact Hm | exact Hk].
Qed.

Lemma search_sound (r : regex) (s : string) (cs : captures) :
  search r s = Some cs -> exists s' rest, Matches r s' [] rest cs.
Proof.
  induction s as [|c s IH]; simpl; intros H.
  - destruct (run r "" [] (fun _ cs0 => Some cs0)) as [y|] eqn:Hr; [|discriminate].
    inversion H; subst y. apply run_sound in Hr.
    destruct Hr as (rest & cs' & Hm & Hk). inversion Hk; subst cs'.
    exists EmptyString, rest. exact Hm.
  - destruct (run r (String c s) [] (fun _ cs0 => Some cs0)) as [y|] eqn:Hr.
    + inversion H; subst y. apply run_sound in Hr.
      destruct Hr as (rest & cs' & Hm & Hk). inversion Hk; subst cs'.
      exists (String c s), rest. exact Hm.
    + apply IH. exact H.
Qed.

Lemma dropLit_append (lit s rest : string) :
  dropLit lit s = Some rest -> s = (lit ++ rest)%string.
Proof.
  revert s. induction lit as [|a lit IH]; intros s H; simpl in H.
  - inversion H. reflexivity.
  - destruct s as [|b s]; [discriminate|].
    destruct (Ascii.eqb a b) eqn:Hab; [|discriminate].
    apply Ascii.eqb_eq in Hab. subst b. simpl. f_equal. apply IH. exact H.
Qed.

Lemma length_append (a b : string) :
  String.length (a ++ b) = (String.length a + String.length b)%nat.
Proof. induction a as [|c a IH]; simpl; [|rewrite IH]; reflexivity. Qed.

Lemma consumed_append (lit rest : string) : consumed (lit ++ rest) rest = lit.
Proof.
  unfold consumed. rewrite length_append.
  replace (String.length lit + String.length rest - String.length rest)%nat
    with (String.length lit) by lia.
  induction lit as [|a lit IH]; simpl.
  - destruct rest; reflexivity.
  - f_equal. exact IH.
Qed.

Lemma capture_lit (lit s rest : string) :
  dropLit lit s = Some rest -> consumed s rest = lit.
Proof. intros H. rewrite (dropLit_append _ _ _ H). apply consumed_append. Qed.

End RegexFacts.

Section Parser.
Import RegexFacts.

(** A line that matches the ranked-info pattern has its four groups, and
    the score type is [cp] or [mate]. *)
Lemma multipvMatch_groups (message : string) (cs : Regex.captures) :
  Regex.search multipvPattern message = Some cs ->
  exists g1 g2 g3 g4,
    cs = [(4%nat, g4); (3%nat, g3); (2%nat, g2); (1%nat, g1)] /\
    (g2 = "cp" \/ g2 = "mate").
Proof.
  intros H. apply search_sound in H. destruct H as (s & rest & H).
  unfold multipvPattern in H.
  repeat match goal with
         | H : Regex.Matches (Regex.Seq _ _) _ _ _ _ |- _ => inversion H; clear H; subst
         | H : Regex.Matches (Regex.Lit _) _ _ _ _ |- _ => inversion H; clear H; subst
         | H : Regex.Matches (Regex.Plus _) _ _ _ _ |- _ => inversion H; clear H; subst
         | H : Regex.Matches (Regex.Star _) _ _ _ _ |- _ => inversion H; clear H; subst
         | H : Regex.Matches (Regex.Group _ _) _ _ _ _ |- _ => inversion H; clear H; subst
         | H : Regex.Matches (Regex.Opt _) _ _ _ _ |- _ => inversion H; clear H; subst
         | H : Regex.Matches (Regex.Alt _ _) _ _ _ _ |- _ => inversion H; clear H; subst
         end;
    do 4 eexists; (split; [reflexivity|]);
    match goal with
    | H : Regex.dropLit "cp" _ = Some _ |- _ => left; apply (capture_lit _ _ _ H)
    | H : Regex.dropLit "mate" _ = Some _ |- _ => right; apply (capture_lit _ _ _ H)
    end.
Qed.

Lemma splitWsAux_nonempty (s cur : string) (inSep : bool) :
  JS.splitWsAux s cur inSep <> [].
Proof.
  revert cur inSep. induction s as [|c s IH]; intros cur inSep; simpl.
  - discriminate.
  - destruct (JS.isSpace c); [destruct inSep|]; try apply IH; discriminate.
Qed.

(** [split] never returns an empty array: the test [pvLine.length > 0]
    always succeeds. *)
Lemma pvLine_length_positive (s : string) :
  (0 <? Z.of_nat (List.length (JS.splitWs s))) = true.
Proof.
  unfold JS.splitWs. destruct (JS.splitWsAux s "" false) eqn:H.
  - exfalso. exact (splitWsAux_nonempty _ _ _ H).
  - reflexivity.
Qed.

End Parser.

(** ** The notation translator *)

Section Translator.
Context {rules : RulesEngine}.

Lemma convertLoop_translate (chess : Board) (moves acc : list string) (w : World) :
  convertLoop chess moves acc w =
  (Normal (acc ++ fst (translate chess moves)),
   logCaught (snd (translate chess moves)) w).
Proof.
  revert chess acc. induction moves as [|move rest IH]; intros chess acc; simpl.
  - rewrite app_nil_r. reflexivity.
  - destruct (chess_move chess move) as [[san chess']|].
    + rewrite IH. destruct (translate chess' rest) as [sans caught]; simpl.
      rewrite <- app_assoc. reflexivity.
    + rewrite app_nil_r. reflexivity.
Qed.

Lemma convertMovesToSAN_loaded (moves : list string) (position : string)
      (chess : Board) (w : World) :
  Chess_new position = Some chess ->
  convertMovesToSAN moves position w =
  (Normal (fst (translate chess moves)), logCaught (snd (translate chess moves)) w).
Proof.
  intros H. unfold convertMovesToSAN. rewrite H. apply convertLoop_translate.
Qed.

Lemma convertMovesToSAN_refused (moves : list string) (position : string) (w : World) :
  Chess_new position = None ->
  convertMovesToSAN moves position w = (Throw "Invalid FEN", w).
Proof. intros H. unfold convertMovesToSAN. rewrite H. reflexivity. Qed.

Lemma translate_longest_accepted_prefix (chess : Board) (moves : list string) :
  exists accepted rest b,
    moves = accepted ++ rest /\
    Accepted chess accepted (fst (translate chess moves)) b /\
    (rest = [] \/ exists move rest', rest = move :: rest' /\ chess_move b move = None).
Proof.
  revert chess. induction moves as [|move moves IH]; intros chess; simpl.
  - exists [], [], chess. repeat split; [constructor | left; reflexivity].
  - destruct (chess_move chess move) as [[san chess']|] eqn:Hm.
    + destruct (IH chess') as (accepted & rest & b & Heq & Hacc & Hrest).
      destruct (translate chess' moves) as [sans caught]; simpl in *.
      exists (move :: accepted), rest, b. subst moves.
      repeat split; [econstructor; eassumption | exact Hrest].
    + exists [], (move :: moves), chess.
      repeat split; [constructor | right; eauto].
Qed.

(** C5, as the code has it — For every move list and every starting
    position that the rules engine loads ([new Chess(position)] does not
    throw), [convertMovesToSAN] returns normally the SAN
    translations of the longest prefix of the list whose moves the rules
    engine accepts in order from that position: the list is split into an
    accepted prefix and a rest that is empty or starts with a move the
    engine rejects on the board reached. *)
Theorem convertMovesToSAN_longest_accepted_prefix
        (moves : list string) (position : string) (chess : Board) (w : World) :
  Chess_new position = Some chess ->
  exists accepted rest sans b,
    moves = accepted ++ rest /\
    Accepted chess accepted sans b /\
    (rest = [] \/ exists move rest', rest = move :: rest' /\ chess_move b move = None) /\
    fst (convertMovesToSAN moves position w) = Normal sans.
Proof.
  intros Hnew.
  destruct (translate_longest_accepted_prefix chess moves)
    as (accepted & rest & b & Heq & Hacc & Hrest).
  exists accepted, rest, (fst (translate chess moves)), b.
  rewrite (convertMovesToSAN_loaded moves position chess w Hnew).
  repeat split; assumption.
Qed.

(** ** The controller's own board *)

Lemma logCaught_this (caught : bool) (w : World) : this (logCaught caught w) = this w.
Proof. destruct caught; reflexivity. Qed.

Lemma convertMovesToSAN_this (moves : list string) (position : string) (w : World) :
  this (after (convertMovesToSAN moves position) w) = this w.
Proof.
  unfold after. destruct (Chess_new position) as [chess|] eqn:H.
  - rewrite (convertMovesToSAN_loaded _ _ _ _ H). apply logCaught_this.
  - rewrite (convertMovesToSAN_refused _ _ _ H). reflexivity.
Qed.

Lemma post_all_this (wk : nat) (cs : list string) (w : World) :
  this (fold_left (fun w' c => withLog (PostMessage wk c) w') cs w) = this w.
Proof. revert w. induction cs as [|c cs IH]; intros w; simpl; [|rewrite IH]; reflexivity. Qed.

Lemma ifTruthy_send_no_worker (w : World) (value : option Z) (f : Z -> string) :
  stockfish (this w) = None ->
  ifTruthy value (fun v => _sendCommand (f v)) w = (Normal tt, w).
Proof.
  intros Hsf. unfold ifTruthy. destruct value as [v|]; [|reflexivity].
  destruct (truthyNumber (Some v)); [|reflexivity].
  controller_simpl. rewrite Hsf. reflexivity.
Qed.

Lemma _setOptions_this (options : StockfishOptions) (w : World) :
  this (after (_setOptions options) w) = this w.
Proof.
  unfold after. destruct (stockfish (this w)) as [wk|] eqn:Hsf.
  - rewrite (_setOptions_sends w options wk Hsf). apply post_all_this.
  - unfold _setOptions, bind.
    repeat (rewrite ifTruthy_send_no_worker by exact Hsf). reflexivity.
Qed.

Lemma forEach_effect {A} (l : list A) (f : A -> Effect) (w : World) :
  forEach l (fun a => effect (f a)) w =
  (Normal tt, fold_left (fun w' a => withLog (f a) w') l w).
Proof.
  revert w. induction l as [|a l IH]; intros w; simpl; [reflexivity|].
  unfold bind, effect at 1. rewrite IH. reflexivity.
Qed.

Lemma log_all_this {A} (l : list A) (f : A -> Effect) (w : World) :
  this (fold_left (fun w' a => withLog (f a) w') l w) = this w.
Proof. revert w. induction l as [|a l IH]; intros w; simpl; [|rewrite IH]; reflexivity. Qed.

Lemma log_all_log {A} (l : list A) (f : A -> Effect) (w : World) :
  log (fold_left (fun w' a => withLog (f a) w') l w) = log w ++ map f l.
Proof.
  revert w. induction l as [|a l IH]; intros w; simpl.
  - now rewrite app_nil_r.
  - rewrite IH. simpl. now rewrite <- app_assoc.
Qed.

(** What [_handleStockfishMessage] does with a line that matches the
    ranked-info pattern. *)
Lemma _handleStockfishMessage_match
      (w : World) (message : string) (options : StockfishOptions)
      (multipvMatch : Regex.captures) (chess : Board) :
  message <> "uciok" -> JS.startsWith message "bestmove" = false ->
  Regex.search multipvPattern message = Some multipvMatch ->
  Chess_new (chess_fen (game (this w))) = Some chess ->
  let u := rankUpdate (this w) chess multipvMatch in
  let stored := JSArray.set (analysisLines (this w)) (fst u - 1) (snd u) in
  _handleStockfishMessage message options w =
  (Normal tt,
   fold_left (fun w' l => withLog (ListenerCall l (JSArray.filterBoolean stored)) w')
     (EventEmitter.emit (emitter (this w)) "analysis")
     (withThis (set_analysisLines stored)
        (logCaught (snd (translate chess (JS.splitWs (JS.trim (group 4 multipvMatch))))) w))).
Proof.
  intros Hu Hb Hs Hc u stored. subst u stored. unfold rankUpdate.
  unfold _handleStockfishMessage.
  apply String.eqb_neq in Hu. rewrite Hu, Hb.
  unfold bind at 1, get at 1. rewrite Hs, pvLine_length_positive.
  unfold when, bind at 1.
  rewrite (convertMovesToSAN_loaded _ _ chess w Hc).
  unfold bind, put, get, emit. simpl.
  unfold bind, get. rewrite forEach_effect. unfold withThis. simpl.
  rewrite !logCaught_this. reflexivity.
Qed.

End Translator.

(** ** Arrays with holes: reading back what was written *)

Section ArrayFacts.
Context {A : Type}.
Implicit Types (a : JSArray.t A) (v : A).

Lemma nth_setNat_same a (i : nat) v : nth i (JSArray.setNat a i v) None = Some v.
Proof.
  revert a. induction i as [|i IH]; intros [|x a]; simpl; auto.
Qed.

Lemma nth_setNat_other a (i j : nat) v :
  i <> j -> nth j (JSArray.setNat a i v) None = nth j a None.
Proof.
  revert a j. induction i as [|i IH]; intros [|x a] [|j] Hij; simpl; auto;
    try congruence.
  - destruct j; reflexivity.
  - rewrite IH by congruence. destruct j; reflexivity.
Qed.

Lemma get_set_same a (i : Z) v :
  JSArray.isIndex i = true -> JSArray.get (JSArray.set a i v) i = Some v.
Proof.
  intros Hi. unfold JSArray.get, JSArray.set. rewrite Hi.
  unfold JSArray.isIndex in Hi. apply andb_prop in Hi. destruct Hi as [H0 _].
  rewrite H0. apply nth_setNat_same.
Qed.

Lemma get_set_other a (i j : Z) v :
  i <> j -> JSArray.get (JSArray.set a i v) j = JSArray.get a j.
Proof.
  intros Hij. unfold JSArray.get, JSArray.set.
  destruct (JSArray.isIndex i) eqn:Hi; [|reflexivity].
  destruct (0 <=? j) eqn:Hj; [|reflexivity].
  apply nth_setNat_other.
  unfold JSArray.isIndex in Hi. apply andb_prop in Hi. destruct Hi as [H0 _].
  apply Z.leb_le in H0, Hj. intros Heq. apply Hij.
  apply Z2Nat.inj; assumption.
Qed.

Lemma get_set_not_index a (i j : Z) v :
  JSArray.isIndex i = false -> JSArray.get (JSArray.set a i v) j = JSArray.get a j.
Proof. intros Hi. unfold JSArray.set. rewrite Hi. reflexivity. Qed.

Lemma get_nil (i : Z) : JSArray.get (@nil (option A)) i = None.
Proof. unfold JSArray.get. destruct (0 <=? i); [destruct (Z.to_nat i)|]; reflexivity. Qed.

Lemma get_cons_succ (x : option A) a (i : Z) :
  0 <= i -> JSArray.get (x :: a) (i + 1) = JSArray.get a i.
Proof.
  intros Hi. unfold JSArray.get.
  replace (0 <=? i + 1) with true by (symmetry; apply Z.leb_le; lia).
  replace (0 <=? i) with true by (symmetry; apply Z.leb_le; lia).
  replace (Z.to_nat (i + 1)) with (S (Z.to_nat i)) by lia. reflexivity.
Qed.

Lemma get_present_nonneg a (i : Z) (v : A) : JSArray.get a i = Some v -> 0 <= i.
Proof.
  unfold JSArray.get. destruct (0 <=? i) eqn:H; [|discriminate].
  intros _. apply Z.leb_le. exact H.
Qed.

(** [filter(Boolean)] lists the elements present, by ascending index, and
    nothing else: there is a strictly ascending list of indices, those of
    the elements present, at which the array reads what the result lists. *)
Lemma filterBoolean_ascending a :
  exists indices : list Z,
    StronglySorted Z.lt indices /\
    (forall i, In i indices <-> exists v, JSArray.get a i = Some v) /\
    map (JSArray.get a) indices = map Some (JSArray.filterBoolean a).
Proof.
  induction a as [|x a (indices & Hsorted & Hin & Hmap)].
  - exists []. split; [constructor|]. split; [|reflexivity].
    intros i. split; [intros []|]. intros [v Hv]. rewrite get_nil in Hv. discriminate.
  - assert (Hnonneg : forall i, In i indices -> 0 <= i).
    { intros i Hi. apply Hin in Hi. destruct Hi as [v Hv].
      exact (get_present_nonneg _ _ _ Hv). }
    assert (Hshift : StronglySorted Z.lt (map (fun i => i + 1) indices)).
    { clear Hin Hmap Hnonneg. induction Hsorted as [|i l Hs IH Hall]; simpl; constructor.
      - exact IH.
      - rewrite Forall_forall in *. intros j Hj. apply in_map_iff in Hj.
        destruct Hj as (k & <- & Hk). specialize (Hall k Hk). lia. }
    assert (Hmap' : map (JSArray.get (x :: a)) (map (fun i => i + 1) indices)
                    = map Some (JSArray.filterBoolean a)).
    { rewrite <- Hmap, map_map. apply map_ext_in.
      intros i Hi. apply get_cons_succ. apply Hnonneg. exact Hi. }
    assert (Hin' : forall i, In i (map (fun i => i + 1) indices) <->
                             0 < i /\ exists v, JSArray.get (x :: a) i = Some v).
    { intros i. rewrite in_map_iff. split.
      - intros (k & <- & Hk). split; [specialize (Hnonneg k Hk); lia|].
        rewrite get_cons_succ by (apply Hnonneg; exact Hk). apply Hin. exact Hk.
      - intros (Hpos & v & Hv). exists (i - 1). split; [lia|].
        apply Hin. exists v. rewrite <- Hv.
        replace i with ((i - 1) + 1) at 2 by lia.
        symmetry. apply get_cons_succ. lia. }
    destruct x as [v0|].
    + exists (0 :: map (fun i => i + 1) indices). split; [|split].
      * constructor; [exact Hshift|]. rewrite Forall_forall.
        intros j Hj. apply Hin' in Hj. lia.
      * intros i. simpl. rewrite Hin'. split.
        -- intros [<- | [_ H]]; [exists v0; reflexivity | exact H].
        -- intros [v Hv]. destruct (Z.eq_dec i 0) as [->|Hne]; [left; reflexivity|].
           right. split; [|exists v; exact Hv].
           apply get_present_nonneg in Hv. lia.
      * simpl. f_equal. exact Hmap'.
    + exists (map (fun i => i + 1) indices). split; [exact Hshift|]. split; [|exact Hmap'].
      intros i. rewrite Hin'. split; [intros [_ H]; exact H|].
      intros [v Hv]. split; [|exists v; exact Hv].
      destruct (Z.eq_dec i 0) as [->|Hne]; [discriminate Hv|].
      apply get_present_nonneg in Hv. lia.
Qed.

End ArrayFacts.

(** ** The accumulated lines and their snapshots *)

Section Snapshots.
Context {rules : RulesEngine}.

Lemma latest_snoc us u r :
  latest (us ++ [u]) r = if fst u =? r then Some (snd u) else latest us r.
Proof. unfold latest. rewrite fold_left_app. reflexivity. Qed.

Lemma storeAll_snoc us u : storeAll (us ++ [u]) = store (storeAll us) u.
Proof. unfold storeAll. rewrite fold_left_app. reflexivity. Qed.

Lemma latest_reported us r :
  (exists l, latest us r = Some l) <-> (exists l, In (r, l) us).
Proof.
  induction us as [|u us IH] using rev_ind.
  - split; intros [l H]; [discriminate | destruct H].
  - rewrite latest_snoc. destruct u as [r' l']; simpl.
    destruct (r' =? r) eqn:Hr.
    + apply Z.eqb_eq in Hr. subst r'. split; intros _; exists l'; auto.
      apply in_or_app. right. left. reflexivity.
    + apply Z.eqb_neq in Hr. rewrite IH. split; intros [l H]; exists l.
      * apply in_or_app. left. exact H.
      * apply in_app_or in H. destruct H as [H|[H|[]]]; [exact H|].
        inversion H. congruence.
Qed.

(** The slot of a rank holds the line reported last for it. *)
Lemma get_storeAll us r :
  isRank r = true -> JSArray.get (storeAll us) (r - 1) = latest us r.
Proof.
  intros Hr. induction us as [|u us IH] using rev_ind.
  - apply get_nil.
  - rewrite storeAll_snoc, latest_snoc. unfold store.
    destruct (fst u =? r) eqn:Hu.
    + apply Z.eqb_eq in Hu. rewrite Hu. apply get_set_same. exact Hr.
    + apply Z.eqb_neq in Hu. rewrite get_set_other by lia. exact IH.
Qed.

(** Nothing is ever stored outside the slots of the ranks. *)
Lemma get_storeAll_present us i l :
  JSArray.get (storeAll us) i = Some l -> isRank (i + 1) = true.
Proof.
  induction us as [|u us IH] using rev_ind.
  - unfold storeAll. simpl. rewrite get_nil. discriminate.
  - rewrite storeAll_snoc. unfold store.
    destruct (JSArray.isIndex (fst u - 1)) eqn:Hi.
    + destruct (Z.eq_dec (fst u - 1) i) as [<-|Hne].
      * intros _. unfold isRank. replace (fst u - 1 + 1 - 1) with (fst u - 1) by lia.
        exact Hi.
      * rewrite get_set_other by exact Hne. exact IH.
    + rewrite get_set_not_index by exact Hi. exact IH.
Qed.

(** The snapshot of a session: the lines of the ranks reported, each the
    last reported for its rank, by ascending rank, and nothing else. *)
Lemma snapshot_by_ascending_rank (us : list (Z * AnalysisLine)) :
  exists ranks : list Z,
    StronglySorted Z.lt ranks /\
    (forall r, In r ranks <-> isRank r = true /\ exists l, In (r, l) us) /\
    map (latest us) ranks = map Some (JSArray.filterBoolean (storeAll us)).
Proof.
  destruct (filterBoolean_ascending (storeAll us)) as (indices & Hsorted & Hin & Hmap).
  exists (map (fun i => i + 1) indices). split; [|split].
  - clear Hin Hmap. induction Hsorted as [|i l Hs IH Hall]; simpl; constructor.
    + exact IH.
    + rewrite Forall_forall in *. intros j Hj. apply in_map_iff in Hj.
      destruct Hj as (k & <- & Hk). specialize (Hall k Hk). lia.
  - intros r. rewrite in_map_iff. split.
    + intros (i & <- & Hi). apply Hin in Hi. destruct Hi as [l Hl].
      assert (Hr := get_storeAll_present _ _ _ Hl). split; [exact Hr|].
      apply latest_reported. exists l. rewrite <- Hl.
      rewrite <- (get_storeAll us (i + 1) Hr). f_equal. lia.
    + intros (Hr & Hl). apply latest_reported in Hl. destruct Hl as [l Hl].
      exists (r - 1). split; [lia|]. apply Hin. exists l.
      rewrite get_storeAll by exact Hr. exact Hl.
  - rewrite <- Hmap, map_map. apply map_ext_in. intros i Hi.
    apply Hin in Hi. destruct Hi as [l Hl].
    assert (Hr := get_storeAll_present _ _ _ Hl).
    rewrite <- (get_storeAll us (i + 1) Hr). f_equal. lia.
Qed.

(** The completion event in [messageHandler]. *)
Lemma messageHandler_bestmove (w : World) (p timeoutId : nat) (data : string) :
  JS.startsWith data "bestmove" = true ->
  let final := JSArray.filterBoolean (analysisLines (this w)) in
  let w0 := after (clearTimeout timeoutId) w in
  let wr := match stockfish (this w) with
            | Some wk => after (removeMessageHandler wk p) w0
            | None => w0
            end in
  messageHandler p timeoutId data w =
  resolve p final (after terminate (withThis (set_lines final) wr)).
Proof.
  intros Hb final w0 wr. unfold messageHandler. rewrite Hb.
  cbv beta iota delta [when bind get put clearTimeout ret fst snd].
  change (this (withLog (ClearTimeout timeoutId)
          (withTimers
             (filter
                (fun t : nat * TimerCallback =>
                 negb ((let (x, _) := t in x) =? timeoutId)%nat))
             (nextTimer w) w))) with (this w).
  assert (Hwr : match stockfish (this w) with
         | Some wk => removeMessageHandler wk p
         | None => fun w1 : World => (Normal tt, w1)
         end (after (clearTimeout timeoutId) w) = (Normal tt, wr)).
  { subst wr w0. destruct (stockfish (this w)); reflexivity. }
  unfold after at 1, clearTimeout at 1 in Hwr. simpl snd in Hwr.
  cbv beta iota delta [fst] in Hwr.
  rewrite Hwr.
  replace (analysisLines (this wr)) with (analysisLines (this w))
    by (subst wr w0; destruct (stockfish (this w)); reflexivity).
  fold final.
  assert (Ht := terminate_normal (withThis (set_lines final) wr)).
  unfold after.
  destruct (terminate (withThis (set_lines final) wr)) as [c wt].
  simpl in Ht. subst c. reflexivity.
Qed.

Lemma teardownEffects_no_resolve (e : ChessEngine) (q : nat) (v : list AnalysisLine) :
  ~ In (Resolve q v) (teardownEffects e).
Proof.
  unfold teardownEffects. intros H. apply in_app_or in H.
  destruct (stockfish e); destruct (stockfishWorkerUrl e) as [u|];
    try destruct (JS.startsWith u "blob:"); simpl in H;
    repeat match goal with
           | H : _ \/ _ |- _ => destruct H
           | H : False |- _ => destruct H
           end; discriminate.
Qed.

Lemma teardownEffects_no_call (e : ChessEngine) (l : Listener) (v : list AnalysisLine) :
  ~ In (ListenerCall l v) (teardownEffects e).
Proof.
  unfold teardownEffects. intros H. apply in_app_or in H.
  destruct (stockfish e); destruct (stockfishWorkerUrl e) as [u|];
    try destruct (JS.startsWith u "blob:"); simpl in H;
    repeat match goal with
           | H : _ \/ _ |- _ => destruct H
           | H : False |- _ => destruct H
           end; discriminate.
Qed.

(** What [messageHandler] resolves with on the completion event: the
    snapshot of the accumulated lines. *)
Lemma messageHandler_resolves_snapshot (w : World) (p timeoutId : nat) (data : string) :
  JS.startsWith data "bestmove" = true ->
  forall q v, In (Resolve q v) (effectsOf (messageHandler p timeoutId data) w) ->
              q = p /\ v = JSArray.filterBoolean (analysisLines (this w)).
Proof.
  intros Hb q v. unfold effectsOf, after.
  rewrite (messageHandler_bestmove w p timeoutId data Hb).
  unfold resolve. simpl. rewrite terminate_log. simpl.
  assert (Hlog : log (match stockfish (this w) with
              | Some wk => after (removeMessageHandler wk p) (after (clearTimeout timeoutId) w)
              | None => after (clearTimeout timeoutId) w
              end) = log w ++ [ClearTimeout timeoutId]).
  { destruct (stockfish (this w)); reflexivity. }
  rewrite Hlog, <- !app_assoc, skipn_length_app.
  simpl. intros [H|H]; [discriminate|].
  apply in_app_or in H. destruct H as [H|[H|[]]].
  - exfalso. exact (teardownEffects_no_resolve _ _ _ H).
  - inversion H. auto.
Qed.


Lemma _handleStockfishMessage_update
      (w : World) (message : string) (options : StockfishOptions)
      (u : Z * AnalysisLine) :
  parsedUpdate (this w) message = Some u ->
  let w' := after (_handleStockfishMessage message options) w in
  analysisLines (this w') = store (analysisLines (this w)) u /\
  forall l data, In (ListenerCall l data) (effectsOf (_handleStockfishMessage message options) w) ->
                 data = JSArray.filterBoolean (analysisLines (this w')).
Proof.
  intros H w'. unfold parsedUpdate in H.
  destruct (String.eqb message "uciok") eqn:Hu; [discriminate|].
  destruct (JS.startsWith message "bestmove") eqn:Hb; [discriminate|].
  destruct (Regex.search multipvPattern message) as [cs|] eqn:Hs; [|discriminate].
  destruct (Chess_new (chess_fen (game (this w)))) as [chess|] eqn:Hc; [|discriminate].
  inversion H; subst u; clear H.
  apply String.eqb_neq in Hu.
  subst w'. unfold effectsOf, after.
  rewrite (_handleStockfishMessage_match w message options cs chess Hu Hb Hs Hc).
  simpl. rewrite log_all_this, log_all_log. simpl.
  split; [reflexivity|].
  intros l data. unfold logCaught.
  destruct (snd (translate chess (JS.splitWs (JS.trim (group 4 cs))))); simpl.
  - rewrite <- app_assoc, skipn_length_app. simpl.
    intros [H|H]; [discriminate|]. apply in_map_iff in H.
    destruct H as (l' & H & _). inversion H. reflexivity.
  - rewrite skipn_length_app. intros H. apply in_map_iff in H.
    destruct H as (l' & H & _). inversion H. reflexivity.
Qed.

Lemma _handleStockfishMessage_refused
      (w : World) (message : string) (options : StockfishOptions)
      (multipvMatch : Regex.captures) :
  String.eqb message "uciok" = false -> JS.startsWith message "bestmove" = false ->
  Regex.search multipvPattern message = Some multipvMatch ->
  Chess_new (chess_fen (game (this w))) = None ->
  _handleStockfishMessage message options w = (Throw "Invalid FEN", w).
Proof.
  intros Hu Hb Hs Hc. unfold _handleStockfishMessage. rewrite Hu, Hb.
  unfold bind at 1, get at 1. rewrite Hs, pvLine_length_positive.
  unfold when, bind. rewrite (convertMovesToSAN_refused _ _ w Hc). reflexivity.
Qed.

Lemma _handleStockfishMessage_no_match
      (w : World) (message : string) (options : StockfishOptions) :
  String.eqb message "uciok" = false -> JS.startsWith message "bestmove" = false ->
  Regex.search multipvPattern message = None ->
  _handleStockfishMessage message options w = (Normal tt, w).
Proof.
  intros Hu Hb Hs. unfold _handleStockfishMessage. rewrite Hu, Hb.
  unfold bind at 1, get at 1. rewrite Hs. reflexivity.
Qed.

Lemma _handleStockfishMessage_uciok (w : World) (options : StockfishOptions) :
  _handleStockfishMessage "uciok" options w =
  _setOptions options (withThis (set_isuciok true) w).
Proof. reflexivity. Qed.

Lemma _handleStockfishMessage_bestmove
      (w : World) (message : string) (options : StockfishOptions) :
  String.eqb message "uciok" = false -> JS.startsWith message "bestmove" = true ->
  _handleStockfishMessage message options w =
  if EngineMode_eqb (mode (this w)) stream then terminate w else (Normal tt, w).
Proof.
  intros Hu Hb. unfold _handleStockfishMessage. rewrite Hu, Hb.
  unfold bind, get, when. destruct (EngineMode_eqb (mode (this w)) stream); reflexivity.
Qed.

Lemma _handleStockfishMessage_other
      (w : World) (message : string) (options : StockfishOptions) :
  parsedUpdate (this w) message = None ->
  let w' := after (_handleStockfishMessage message options) w in
  analysisLines (this w') = analysisLines (this w) /\
  forall l data, ~ In (ListenerCall l data) (effectsOf (_handleStockfishMessage message options) w).
Proof.
  intros H w'. unfold parsedUpdate in H. subst w'. unfold effectsOf, after.
  destruct (String.eqb message "uciok") eqn:Hu.
  { apply String.eqb_eq in Hu. subst message.
    rewrite _handleStockfishMessage_uciok.
    set (w1 := withThis (set_isuciok true) w).
    change (snd (_setOptions options w1)) with (after (_setOptions options) w1).
    rewrite _setOptions_this. split; [reflexivity|].
    intros l data. unfold after.
    destruct (stockfish (this w1)) as [wk|] eqn:Hsf.
    - rewrite (_setOptions_sends w1 options wk Hsf). simpl.
      rewrite post_all_log. subst w1. simpl. rewrite skipn_length_app.
      intros Hin. apply in_map_iff in Hin. destruct Hin as (c & Hc & _). discriminate.
    - unfold _setOptions, bind.
      repeat (rewrite ifTruthy_send_no_worker by exact Hsf).
      subst w1. simpl. rewrite skipn_all. intros []. }
  destruct (JS.startsWith message "bestmove") eqn:Hb.
  { rewrite (_handleStockfishMessage_bestmove w message options Hu Hb).
    destruct (EngineMode_eqb (mode (this w)) stream).
    - change (snd (terminate w)) with (after terminate w).
      rewrite terminate_this, terminate_log, skipn_length_app.
      split.
      + destruct (stockfishWorkerUrl (this w)) as [u|];
          [destruct (JS.startsWith u "blob:")|]; reflexivity.
      + intros l data. apply teardownEffects_no_call.
    - simpl. split; [reflexivity|].
      rewrite skipn_all. intros l data []. }
  destruct (Regex.search multipvPattern message) as [cs|] eqn:Hs.
  - destruct (Chess_new (chess_fen (game (this w)))) as [chess|] eqn:Hc; [discriminate|].
    rewrite (_handleStockfishMessage_refused w message options cs Hu Hb Hs Hc).
    simpl. split; [reflexivity|].
    rewrite skipn_all. intros l data [].
  - rewrite (_handleStockfishMessage_no_match w message options Hu Hb Hs).
    simpl. split; [reflexivity|].
    rewrite skipn_all. intros l data [].
Qed.

(** C4, as the code has it — In a session whose rank updates so far are
    [us], in whatever order of ranks they came, the payload of each
    ['analysis'] notification made while a line is handled (the updates then
    include the one of that line), and the array with which
    [messageHandler] resolves the promise of [evaluatePosition] on the
    completion event, list exactly the lines stored for the ranks reported
    so far that the array has a slot for, by ascending rank and without
    holes.  These are the ranks from 1 to 2^32 - 1: a line reported with
    the rank 0, or with a rank beyond, is stored in no slot and is in none
    of these arrays.  Handling a line keeps the array that of the updates
    received.  (On time-out the promise is resolved with the empty list,
    whatever was stored.) *)
Theorem exposed_arrays_ranked_and_gap_free
        (w : World) (us : list (Z * AnalysisLine))
        (message : string) (options : StockfishOptions) (p timeoutId : nat) :
  analysisLines (this w) = storeAll us ->
  let us' := match parsedUpdate (this w) message with
             | Some u => us ++ [u]
             | None => us
             end in
  analysisLines (this (after (_handleStockfishMessage message options) w))
    = storeAll us' /\
  (forall l data,
      In (ListenerCall l data) (effectsOf (_handleStockfishMessage message options) w) ->
      RankedSnapshot us' data) /\
  (JS.startsWith message "bestmove" = true ->
   forall q data,
     In (Resolve q data) (effectsOf (messageHandler p timeoutId message) w) ->
     q = p /\ RankedSnapshot us data).
Proof.
  intros Hinv us'.
  assert (Hsnap : forall vs, RankedSnapshot vs (JSArray.filterBoolean (storeAll vs)))
    by (intros vs; apply snapshot_by_ascending_rank).
  assert (Hstep : analysisLines (this (after (_handleStockfishMessage message options) w))
                  = storeAll us' /\
                  forall l data,
                    In (ListenerCall l data)
                       (effectsOf (_handleStockfishMessage message options) w) ->
                    data = JSArray.filterBoolean (storeAll us')).
  { subst us'. destruct (parsedUpdate (this w) message) as [u|] eqn:Hp.
    - destruct (_handleStockfishMessage_update w message options u Hp) as [Ha Hd].
      rewrite Hinv, <- storeAll_snoc in Ha. split; [exact Ha|].
      intros l data Hin. rewrite (Hd l data Hin), Ha. reflexivity.
    - destruct (_handleStockfishMessage_other w message options Hp) as [Ha Hd].
      split; [rewrite Ha; exact Hinv|].
      intros l data Hin. destruct (Hd l data Hin). }
  destruct Hstep as [Ha Hd].
  split; [exact Ha|]. split.
  - intros l data Hin. rewrite (Hd l data Hin). apply Hsnap.
  - intros Hb q data Hin.
    destruct (messageHandler_resolves_snapshot w p timeoutId message Hb q data Hin)
      as [Hq Hv].
    split; [exact Hq|]. rewrite Hv, Hinv. apply Hsnap.
Qed.

End Snapshots.

(** ** The evaluation stored for a rank update *)

Section Evaluations.
Context {rules : RulesEngine}.

(** C3 — For every parsed rank-update line with integer score [v] and side
    to move [s], the line stored at the index of its rank has this
    evaluation: for the score type [cp], the number [v/100] when [s] is
    White and [-v/100] when [s] is Black; for the score type [mate], the
    string ["M"] followed by [|v|] when [v > 0] and [s] is White or [v < 0]
    and [s] is Black, and ["M-"] followed by [|v|] otherwise.  A mate
    evaluation is a string, never a number; there is no third score
    type. *)
Theorem stored_evaluation_normalized
        (w : World) (message : string) (options : StockfishOptions)
        (multipvMatch : Regex.captures) (chess : Board) (white : bool) :
  message <> "uciok" -> JS.startsWith message "bestmove" = false ->
  Regex.search multipvPattern message = Some multipvMatch ->
  Chess_new (chess_fen (game (this w))) = Some chess ->
  nth_error (JS.splitChar " " (chess_fen (game (this w)))) 1
    = Some (if white then "w" else "b") ->
  let rank := JS.parseInt (group 1 multipvMatch) in
  let v := JS.parseInt (group 3 multipvMatch) in
  exists l,
    analysisLines (this (after (_handleStockfishMessage message options) w))
      = JSArray.set (analysisLines (this w)) (rank - 1) l /\
    ((group 2 multipvMatch = "cp" /\
      evaluation l = EvalNumber (if white then Qmake v 100 else Qmake (- v) 100))
     \/
     (group 2 multipvMatch = "mate" /\
      evaluation l =
        EvalString (if ((0 <? v) && white) || ((v <? 0) && negb white)
                    then "M" ++ JS.numberToString (Z.abs v)
                    else "M-" ++ JS.numberToString (Z.abs v)))).
Proof.
  intros Hu Hb Hs Hc Hside rank v.
  unfold after.
  rewrite (_handleStockfishMessage_match w message options multipvMatch chess Hu Hb Hs Hc).
  simpl. rewrite log_all_this. simpl.
  eexists. split; [reflexivity|].
  simpl. fold v.
  change (match JS.splitChar " " (chess_fen (game (this w))) with
          | _ :: x :: _ => Some x
          | _ => None
          end) with (nth_error (JS.splitChar " " (chess_fen (game (this w)))) 1).
  rewrite Hside.
  destruct (multipvMatch_groups message multipvMatch Hs)
    as (g1 & g2 & g3 & g4 & Hcs & [Hg|Hg]);
    [left | right]; (split; [rewrite Hcs; exact Hg|]);
    replace (group 2 multipvMatch) with g2 by (rewrite Hcs; reflexivity);
    subst g2; unfold adjustedEval; destruct white; simpl;
    rewrite ?andb_true_r, ?andb_false_r, ?orb_false_r;
    try reflexivity;
    match goal with |- context [if ?b then _ else _] => destruct b end;
    reflexivity.
Qed.

End Evaluations.

(** ** The controller's game during a session *)

Section Game.
Context {rules : RulesEngine}.

Lemma terminate_game (w : World) : game (this (after terminate w)) = game (this w).
Proof.
  rewrite terminate_this.
  destruct (stockfishWorkerUrl (this w)) as [u|];
    [destruct (JS.startsWith u "blob:")|]; reflexivity.
Qed.

Lemma _handleStockfishMessage_game
      (w : World) (message : string) (options : StockfishOptions) :
  game (this (after (_handleStockfishMessage message options) w)) = game (this w).
Proof.
  destruct (parsedUpdate (this w) message) as [u|] eqn:Hp.
  - unfold parsedUpdate in Hp.
    destruct (String.eqb message "uciok") eqn:Hu; [discriminate|].
    destruct (JS.startsWith message "bestmove") eqn:Hb; [discriminate|].
    destruct (Regex.search multipvPattern message) as [cs|] eqn:Hs; [|discriminate].
    destruct (Chess_new (chess_fen (game (this w)))) as [chess|] eqn:Hc; [|discriminate].
    apply String.eqb_neq in Hu. unfold after.
    rewrite (_handleStockfishMessage_match w message options cs chess Hu Hb Hs Hc).
    simpl. rewrite log_all_this. simpl. rewrite logCaught_this. reflexivity.
  - unfold parsedUpdate in Hp. unfold after.
    destruct (String.eqb message "uciok") eqn:Hu.
    { apply String.eqb_eq in Hu. subst message. rewrite _handleStockfishMessage_uciok.
      change (snd (_setOptions options (withThis (set_isuciok true) w)))
        with (after (_setOptions options) (withThis (set_isuciok true) w)).
      rewrite _setOptions_this. reflexivity. }
    destruct (JS.startsWith message "bestmove") eqn:Hb.
    { rewrite (_handleStockfishMessage_bestmove w message options Hu Hb).
      destruct (EngineMode_eqb (mode (this w)) stream); [|reflexivity].
      apply terminate_game. }
    destruct (Regex.search multipvPattern message) as [cs|] eqn:Hs.
    + destruct (Chess_new (chess_fen (game (this w)))) as [chess|] eqn:Hc; [discriminate|].
      rewrite (_handleStockfishMessage_refused w message options cs Hu Hb Hs Hc).
      reflexivity.
    + rewrite (_handleStockfishMessage_no_match w message options Hu Hb Hs).
      reflexivity.
Qed.

Lemma messageHandler_game (w : World) (p timeoutId : nat) (data : string) :
  game (this (after (messageHandler p timeoutId data) w)) = game (this w).
Proof.
  destruct (JS.startsWith data "bestmove") eqn:Hb.
  - unfold after. rewrite (messageHandler_bestmove w p timeoutId data Hb).
    unfold resolve. simpl. rewrite terminate_game. simpl.
    destruct (stockfish (this w)); reflexivity.
  - unfold after, messageHandler. rewrite Hb. reflexivity.
Qed.

Lemma task_game {A} (c : M A) (w : World) :
  game (this (after c w)) = game (this w) ->
  game (this (task c w)) = game (this w).
Proof.
  unfold after, task. destruct (c w) as [[a|message] w']; simpl; auto.
Qed.

Lemma dispatch_game (ls : list MessageListener) (data : string) (w : World) :
  game (this (dispatch ls data w)) = game (this w).
Proof.
  unfold dispatch. revert w. induction ls as [|l ls IH]; intros w; simpl; [reflexivity|].
  rewrite IH. apply task_game. destruct l as [options | p timeoutId]; simpl.
  - apply _handleStockfishMessage_game.
  - apply messageHandler_game.
Qed.

(** C10 — For every move list and every position string,
    [convertMovesToSAN] leaves the controller as it was, its game and so
    its FEN included, whether it returns or throws: the moves are played on
    a board of its own, made from the position given.  Consequently the
    handling of a line of the engine, a rank update or any other, leaves the
    game of the controller as it was, and so does the delivery of a message
    to all the listeners of a worker. *)
Theorem translation_leaves_game_unchanged
        (w : World) (moves : list string) (position : string)
        (message : string) (options : StockfishOptions) (wk : nat) :
  this (after (convertMovesToSAN moves position) w) = this w /\
  chess_fen (game (this (after (convertMovesToSAN moves position) w)))
    = chess_fen (game (this w)) /\
  game (this (after (_handleStockfishMessage message options) w)) = game (this w) /\
  game (this (step w (WorkerMessage wk message))) = game (this w).
Proof.
  split; [apply convertMovesToSAN_this|].
  split; [rewrite convertMovesToSAN_this; reflexivity|].
  split; [apply _handleStockfishMessage_game|].
  simpl. destruct (nth_error (workers w) wk) as [worker|]; [|reflexivity].
  destruct (alive worker); [|reflexivity].
  apply dispatch_game.
Qed.

End Game.

(** ** What the pending callbacks may rely on *)

Section Invariant.
Context {rules : RulesEngine}.

Lemma Frame_refl (w : World) : Frame w w.
Proof. repeat split; auto. Qed.

Lemma Frame_trans (w1 w2 w3 : World) : Frame w1 w2 -> Frame w2 w3 -> Frame w1 w3.
Proof.
  intros (Ht & Hn & Hp & Hl) (Ht' & Hn' & Hp' & Hl').
  repeat split; try congruence.
  intros x Hx. destruct (Hl' x Hx) as [H|H]; auto.
Qed.

Lemma Inv_Frame (w w' : World) : Inv w -> Frame w w' -> Inv w'.
Proof.
  intros [H1 H2 H3 H4 H5] (Ht & Hn & Hp & Hl).
  constructor; rewrite ?Ht, ?Hn, ?Hp; auto.
  intros p t Hin. destruct (Hl _ Hin) as [H|[o H]]; [auto | discriminate].
Qed.

Lemma quiet_ret {A} (a : A) : Quiet (ret a).
Proof. intros w. apply Frame_refl. Qed.

Lemma quiet_throw {A} (m : string) : Quiet (@throw _ A m).
Proof. intros w. apply Frame_refl. Qed.

Lemma quiet_get {A} (f : ChessEngine -> A) : Quiet (get f).
Proof. intros w. apply Frame_refl. Qed.

Lemma quiet_getWorld {A} (f : World -> A) : Quiet (getWorld f).
Proof. intros w. apply Frame_refl. Qed.

Lemma quiet_put (f : ChessEngine -> ChessEngine) : Quiet (put f).
Proof. intros w. repeat split; auto. Qed.

Lemma quiet_effect (ef : Effect) : Quiet (effect ef).
Proof. intros w. repeat split; auto. Qed.

Lemma quiet_bind {A B} (c : M A) (k : A -> M B) :
  Quiet c -> (forall a, Quiet (k a)) -> Quiet (bind c k).
Proof.
  intros Hc Hk w. unfold bind. specialize (Hc w).
  destruct (c w) as [[a|m] w']; simpl in *; [|exact Hc].
  eapply Frame_trans; [exact Hc | apply Hk].
Qed.

Lemma quiet_when (b : bool) (c : M unit) : Quiet c -> Quiet (when b c).
Proof. intros Hc. destruct b; [exact Hc | apply quiet_ret]. Qed.

Lemma quiet_forEach {A} (l : list A) (f : A -> M unit) :
  (forall a, Quiet (f a)) -> Quiet (forEach l f).
Proof.
  intros Hf. induction l as [|a l IH]; simpl; [apply quiet_ret|].
  apply quiet_bind; auto.
Qed.

Lemma In_allListeners_updateNth (ws : list Worker) (i : nat) (f : Worker -> Worker)
      (x : MessageListener) :
  In x (List.concat (map messageListeners (updateNth ws i f))) ->
  In x (List.concat (map messageListeners ws)) \/
  exists wk, In wk ws /\ In x (messageListeners (f wk)).
Proof.
  revert i. induction ws as [|wk ws IH]; intros i; simpl; [auto|].
  destruct i as [|i]; simpl; rewrite !in_app_iff.
  - intros [H|H]; [right; exists wk; auto | auto].
  - intros [H|H]; [auto|].
    destruct (IH i H) as [H'|(wk' & Hin & H')]; [auto|].
    right. exists wk'. auto.
Qed.

Lemma In_allListeners_same (ws : list Worker) (i : nat) (f : Worker -> Worker)
      (x : MessageListener) :
  (forall wk, In x (messageListeners (f wk)) -> In x (messageListeners wk)) ->
  In x (List.concat (map messageListeners (updateNth ws i f))) ->
  In x (List.concat (map messageListeners ws)).
Proof.
  intros Hf H. destruct (In_allListeners_updateNth ws i f x H) as [H'|(wk & Hin & H')];
    [exact H'|].
  apply in_concat. exists (messageListeners wk). split; [apply in_map; exact Hin|].
  apply Hf. exact H'.
Qed.

Lemma quiet_Worker_new (url : string) : Quiet (Worker_new url).
Proof.
  intros w. repeat split; auto. unfold allListeners. simpl.
  intros x Hx. left. rewrite map_app, concat_app in Hx. simpl in Hx.
  rewrite app_nil_r in Hx. exact Hx.
Qed.

Lemma quiet_Worker_terminate (id : nat) : Quiet (Worker_terminate id).
Proof.
  intros w. repeat split; auto. unfold allListeners. simpl.
  intros x Hx. left. eapply In_allListeners_same; [|exact Hx]. auto.
Qed.

Lemma quiet_addEventListener_handle (id : nat) (options : StockfishOptions) :
  Quiet (addEventListener id (HandleStockfishMessage options)).
Proof.
  intros w. repeat split; auto. unfold allListeners. simpl.
  intros x Hx. apply In_allListeners_updateNth in Hx.
  destruct Hx as [H|(wk & Hin & H)]; [auto|]. simpl in H.
  apply in_app_or in H. destruct H as [H|[H|[]]].
  - left. apply in_concat. exists (messageListeners wk). split; [apply in_map|]; auto.
  - right. eauto.
Qed.

Ltac quiet :=
  repeat first
         [ apply quiet_ret | apply quiet_throw | apply quiet_get
         | apply quiet_getWorld | apply quiet_put | apply quiet_effect
         | apply quiet_Worker_new | apply quiet_Worker_terminate
         | apply quiet_addEventListener_handle
         | apply quiet_when | apply quiet_forEach; intros
         | apply quiet_bind; [|intros]
         | match goal with
           | |- Quiet (match ?x with _ => _ end) => destruct x
           end ].

Lemma quiet__sendCommand (command : string) : Quiet (_sendCommand command).
Proof. unfold _sendCommand. quiet. Qed.

Lemma quiet_ifTruthy (value : option Z) (k : Z -> M unit) :
  (forall v, Quiet (k v)) -> Quiet (ifTruthy value k).
Proof. intros Hk. unfold ifTruthy. destruct value; [apply quiet_when; apply Hk | apply quiet_ret]. Qed.

Lemma quiet__setOptions (options : StockfishOptions) : Quiet (_setOptions options).
Proof.
  unfold _setOptions.
  repeat first [ apply quiet__sendCommand
               | apply quiet_ifTruthy; intros
               | apply quiet_bind; [|intros] ].
Qed.

Lemma quiet_terminate : Quiet terminate.
Proof.
  unfold terminate.
  apply quiet_bind; [apply quiet_get|]. intros sf.
  apply quiet_bind.
  - destruct sf; [|apply quiet_ret].
    apply quiet_bind; [apply quiet__sendCommand|]. intros. quiet.
  - intros. quiet.
Qed.

Lemma quiet_convertLoop (chess : Board) (moves acc : list string) :
  Quiet (convertLoop chess moves acc).
Proof.
  revert chess acc. induction moves as [|m moves IH]; intros chess acc; simpl.
  - apply quiet_ret.
  - destruct (chess_move chess m) as [[san chess']|]; [apply IH|]. quiet.
Qed.

Lemma quiet_convertMovesToSAN (moves : list string) (position : string) :
  Quiet (convertMovesToSAN moves position).
Proof.
  unfold convertMovesToSAN. destruct (Chess_new position);
    [apply quiet_convertLoop | apply quiet_throw].
Qed.

Lemma quiet_emit (data : list AnalysisLine) : Quiet (emit data).
Proof. unfold emit. quiet. Qed.

Lemma quiet__handleStockfishMessage (message : string) (options : StockfishOptions) :
  Quiet (_handleStockfishMessage message options).
Proof.
  unfold _handleStockfishMessage.
  destruct (String.eqb message "uciok").
  { apply quiet_bind; [apply quiet_put | intros; apply quiet__setOptions]. }
  destruct (JS.startsWith message "bestmove").
  { apply quiet_bind; [apply quiet_get | intros; apply quiet_when, quiet_terminate]. }
  apply quiet_bind; [apply quiet_get|]. intros fen.
  destruct (Regex.search multipvPattern message); [|apply quiet_ret].
  apply quiet_when.
  apply quiet_bind; [apply quiet_convertMovesToSAN|]. intros.
  apply quiet_bind; [apply quiet_put|]. intros.
  apply quiet_bind; [apply quiet_get|]. intros. apply quiet_emit.
Qed.

Lemma quiet_createObjectURL (wasm : bool) : Quiet (createObjectURL wasm).
Proof. unfold createObjectURL. quiet. Qed.

Lemma quiet__initializeWorker (options : StockfishOptions) :
  Quiet (_initializeWorker options).
Proof.
  unfold _initializeWorker.
  apply quiet_bind; [apply quiet_get|]. intros sf.
  destruct sf; [apply quiet_ret|].
  apply quiet_bind; [apply quiet_getWorld|]. intros browser.
  destruct (negb browser); [apply quiet_throw|].
  apply quiet_bind.
  { destruct (truthyString (stockfishUrl options)); [apply quiet_put|].
    apply quiet_bind; [apply quiet_get|]. intros url.
    destruct (negb (truthyString url)); [|apply quiet_ret].
    apply quiet_bind; [apply quiet_getWorld|]. intros.
    apply quiet_bind; [apply quiet_createObjectURL|]. intros. apply quiet_put. }
  intros.
  apply quiet_bind; [apply quiet_get|]. intros.
  apply quiet_bind; [apply quiet_Worker_new|]. intros.
  apply quiet_bind; [apply quiet_put|]. intros.
  apply quiet_bind; [apply quiet_put|]. intros.
  apply quiet_bind; [apply quiet_addEventListener_handle|]. intros.
  apply quiet_bind; [apply quiet__sendCommand|]. intros. apply quiet_ret.
Qed.


(** *** The invariant along the operations that are not quiet *)

Lemma Inv_newWorld (e : Env) : Inv (newWorld e).
Proof.
  constructor; simpl; try (intros; contradiction); try constructor.
Qed.

Lemma Inv_Quiet {A} (c : M A) (w : World) : Quiet c -> Inv w -> Inv (snd (c w)).
Proof. intros Hc Hw. eapply Inv_Frame; [exact Hw | apply Hc]. Qed.

Lemma Inv_withLog (ef : Effect) (w : World) : Inv w -> Inv (withLog ef w).
Proof. intros H. eapply Inv_Frame; [exact H|]. repeat split; auto. Qed.

Lemma Inv_withThis (f : ChessEngine -> ChessEngine) (w : World) :
  Inv w -> Inv (withThis f w).
Proof. intros H. eapply Inv_Frame; [exact H|]. repeat split; auto. Qed.

Lemma Inv_task {A} (c : M A) (w : World) : Inv (snd (c w)) -> Inv (task c w).
Proof.
  unfold task. destruct (c w) as [[a|m] w']; simpl; [auto | apply Inv_withLog].
Qed.

Lemma NoDup_map_fst_filter {A B} (f : A * B -> bool) (l : list (A * B)) :
  NoDup (map fst l) -> NoDup (map fst (filter f l)).
Proof.
  induction l as [|x l IH]; simpl; intros H; [constructor|].
  inversion H as [|y l' Hnotin Hnd]; subst.
  destruct (f x); simpl; [constructor|]; auto.
  intros Hin. apply Hnotin. apply in_map_iff in Hin.
  destruct Hin as (z & Hz & Hin). apply filter_In in Hin.
  apply in_map_iff. exists z. tauto.
Qed.

Lemma Inv_removeTimers (f : nat * TimerCallback -> bool) (w : World) :
  Inv w -> Inv (withTimers (filter f) (nextTimer w) w).
Proof.
  intros [H1 H2 H3 H4 H5]. constructor; simpl.
  - intros t c Hin. apply filter_In in Hin. apply (H1 t c). tauto.
  - apply NoDup_map_fst_filter. exact H2.
  - intros t p ms Hin. apply filter_In in Hin. apply (H3 t p ms). tauto.
  - intros t t' p ms ms' Hin Hin'. apply filter_In in Hin, Hin'.
    apply (H4 t t' p ms ms'); tauto.
  - intros p t Hin. destruct (H5 p t Hin) as [Hp Ht]. split; [exact Hp|].
    intros t' ms Hin'. apply filter_In in Hin'. apply (Ht t' ms). tauto.
Qed.

Lemma Inv_setTimeout_check (callback : TimerCallback) (ms : Z) (w : World) :
  (forall p ms', callback <> TimeoutCallback p ms') ->
  Inv w -> Inv (snd (setTimeout callback ms w)).
Proof.
  intros Hc [H1 H2 H3 H4 H5]. constructor; simpl.
  - intros t c Hin. apply in_app_or in Hin. destruct Hin as [Hin|[Hin|[]]].
    + specialize (H1 t c Hin). lia.
    + inversion Hin. lia.
  - rewrite map_app. simpl.
    assert (Hnot : ~ In (nextTimer w) (map fst (timers w))).
    { intros Hin. apply in_map_iff in Hin. destruct Hin as ([t c] & Heq & Hin).
      simpl in Heq. subst t. specialize (H1 _ _ Hin). lia. }
    clear - H2 Hnot. induction (timers w) as [|x l IH]; simpl in *.
    + constructor; [intros []|constructor].
    + inversion H2; subst. constructor.
      * rewrite in_app_iff. simpl. intros [H|[H|[]]]; [auto|].
        apply Hnot. left. auto.
      * apply IH; auto.
  - intros t p ms' Hin. apply in_app_or in Hin. destruct Hin as [Hin|[Hin|[]]].
    + eapply H3; eauto.
    + inversion Hin. exfalso. eapply Hc; eauto.
  - intros t t' p ms1 ms2 Hin Hin'. apply in_app_or in Hin, Hin'.
    destruct Hin as [Hin|[Hin|[]]]; [|inversion Hin; exfalso; eapply Hc; eauto].
    destruct Hin' as [Hin'|[Hin'|[]]]; [|inversion Hin'; exfalso; eapply Hc; eauto].
    eapply H4; eauto.
  - intros p t Hin. destruct (H5 p t Hin) as [Hp Ht]. split; [exact Hp|].
    intros t' ms' Hin'. apply in_app_or in Hin'.
    destruct Hin' as [Hin'|[Hin'|[]]]; [eapply Ht; eauto|].
    inversion Hin'. exfalso. eapply Hc; eauto.
Qed.

Lemma length_updateNth {A} (l : list A) (n : nat) (f : A -> A) :
  List.length (updateNth l n f) = List.length l.
Proof.
  revert n. induction l as [|a l IH]; intros [|n]; simpl; auto.
Qed.

Lemma nth_error_updateNth_other {A} (l : list A) (n m : nat) (f : A -> A) :
  n <> m -> nth_error (updateNth l n f) m = nth_error l m.
Proof.
  revert n m. induction l as [|a l IH]; intros [|n] [|m] H; simpl; auto; try congruence.
Qed.

Lemma nth_error_updateNth_same {A} (l : list A) (n : nat) (f : A -> A) (a : A) :
  nth_error l n = Some a -> nth_error (updateNth l n f) n = Some (f a).
Proof.
  revert n. induction l as [|x l IH]; intros [|n] H; simpl in *; try discriminate.
  - inversion H. reflexivity.
  - auto.
Qed.

Lemma Inv_settle (p : nat) (s : PromiseState) (w : World) :
  NoTimeoutFor (timers w) p -> Inv w -> Inv (withPromises (settle p s) w).
Proof.
  intros Hno [H1 H2 H3 H4 H5]. constructor; simpl; auto.
  - intros t q ms Hin. unfold settle.
    rewrite nth_error_updateNth_other; [eapply H3; eauto|].
    intros ->. exact (Hno _ _ Hin).
  - intros q t Hin. unfold settle. rewrite length_updateNth. auto.
Qed.

Lemma Inv_resolve (p : nat) (v : list AnalysisLine) (w : World) :
  NoTimeoutFor (timers w) p -> Inv w -> Inv (snd (resolve p v w)).
Proof. intros Hno H. unfold resolve. simpl. apply Inv_withLog, Inv_settle; auto. Qed.

Lemma Inv_reject (p : nat) (m : string) (w : World) :
  NoTimeoutFor (timers w) p -> Inv w -> Inv (snd (reject p m w)).
Proof. intros Hno H. unfold reject. simpl. apply Inv_withLog, Inv_settle; auto. Qed.

Lemma Inv_checkUciOkStream (w : World) : Inv w -> Inv (snd (checkUciOkStream w)).
Proof.
  intros H. unfold checkUciOkStream, bind at 1, get at 1.
  destruct (isuciok (this w)).
  - apply Inv_Quiet; [|exact H].
    apply quiet_bind; [apply quiet_get|]. intros.
    apply quiet_bind; apply quiet__sendCommand || (intros; apply quiet__sendCommand).
  - unfold bind, ret.
    assert (H' := Inv_setTimeout_check CheckUciOkStream 50 w
                    ltac:(intros; discriminate) H).
    destruct (setTimeout CheckUciOkStream 50 w) as [[a|m] w']; exact H'.
Qed.

Lemma Inv_checkUciOkEvaluate (options : StockfishOptions) (w : World) :
  Inv w -> Inv (snd (checkUciOkEvaluate options w)).
Proof.
  intros H. unfold checkUciOkEvaluate, bind at 1, get at 1.
  destruct (isuciok (this w)).
  - apply Inv_Quiet; [|exact H].
    apply quiet_bind; [apply quiet_get|]. intros.
    apply quiet_bind; apply quiet__sendCommand || (intros; apply quiet__sendCommand).
  - unfold bind, ret.
    assert (H' := Inv_setTimeout_check (CheckUciOkEvaluate options) 50 w
                    ltac:(intros; discriminate) H).
    destruct (setTimeout (CheckUciOkEvaluate options) 50 w) as [[a|m] w']; exact H'.
Qed.

Lemma Inv_startAnalysis (options : StockfishOptions) (w : World) :
  Inv w -> Inv (snd (startAnalysis options w)).
Proof.
  intros H. unfold startAnalysis, bind at 1, get at 1.
  destruct (negb (EngineMode_eqb (mode (this w)) idle)).
  - apply Inv_withLog. exact H.
  - unfold bind at 1, put at 1. unfold bind at 1.
    assert (H2 : Inv (snd (_initializeWorker options (withThis (set_mode stream) w)))).
    { apply Inv_Quiet; [apply quiet__initializeWorker | apply Inv_withThis; exact H]. }
    destruct (_initializeWorker options (withThis (set_mode stream) w)) as [[wk|m] w2];
      simpl in H2; [|exact H2].
    unfold bind at 1, put at 1.
    apply Inv_checkUciOkStream, Inv_withThis. exact H2.
Qed.


Lemma Fresh_Frame (p : nat) (w w' : World) : Fresh p w -> Frame w w' -> Fresh p w'.
Proof.
  intros [H1 H2 H3 H4] HF. assert (HI := Inv_Frame _ _ H1 HF).
  destruct HF as (Ht & Hn & Hp & Hl).
  constructor; rewrite ?Ht, ?Hp; auto.
  intros t Hin. destruct (Hl _ Hin) as [H|[o H]]; [eapply H4; eauto | discriminate].
Qed.

Lemma Fresh_new (w : World) :
  Inv w -> Fresh (List.length (promises w)) (withPromises (fun ps => ps ++ [Pending]) w).
Proof.
  intros [H1 H2 H3 H4 H5].
  assert (Hno : NoTimeoutFor (timers w) (List.length (promises w))).
  { intros t ms Hin. specialize (H3 _ _ _ Hin).
    assert (Hlt : (List.length (promises w) < List.length (promises w))%nat)
      by (apply nth_error_Some; congruence).
    lia. }
  constructor; simpl; auto.
  - constructor; simpl; auto.
    + intros t p ms Hin. rewrite nth_error_app1; [eapply H3; eauto|].
      apply nth_error_Some. rewrite (H3 _ _ _ Hin). discriminate.
    + intros p t Hin. destruct (H5 p t Hin) as [Hp Ht]. split; [|exact Ht].
      rewrite length_app. simpl. lia.
  - rewrite nth_error_app2 by lia. rewrite Nat.sub_diag. reflexivity.
  - intros t Hin. destruct (H5 _ _ Hin) as [Hp _]. lia.
Qed.

(** Arming the time-out of a fresh promise and registering its
    [messageHandler]. *)
Lemma Inv_arm (p : nat) (timeoutMs : Z) (w : World) :
  Fresh p w ->
  let armed := snd (setTimeout (TimeoutCallback p timeoutMs) timeoutMs w) in
  Inv armed /\
  forall wk, Inv (snd (addEventListener wk (MessageHandler p (nextTimer w)) armed)).
Proof.
  intros [[H1 H2 H3 H4 H5] Hp Hno Hl] armed.
  assert (Harmed : Inv armed).
  { subst armed. constructor; simpl.
    - intros t c Hin. apply in_app_or in Hin. destruct Hin as [Hin|[Hin|[]]].
      + specialize (H1 t c Hin). lia.
      + inversion Hin. lia.
    - rewrite map_app. simpl.
      assert (Hnot : ~ In (nextTimer w) (map fst (timers w))).
      { intros Hin. apply in_map_iff in Hin. destruct Hin as ([t c] & Heq & Hin).
        simpl in Heq. subst t. specialize (H1 _ _ Hin). lia. }
      clear - H2 Hnot. induction (timers w) as [|x l IH]; simpl in *.
      + constructor; [intros []|constructor].
      + inversion H2; subst. constructor.
        * rewrite in_app_iff. simpl. intros [H|[H|[]]]; [auto|].
          apply Hnot. left. auto.
        * apply IH; auto.
    - intros t q ms Hin. apply in_app_or in Hin. destruct Hin as [Hin|[Hin|[]]].
      + eapply H3; eauto.
      + inversion Hin; subst. exact Hp.
    - intros t t' q ms1 ms2 Hin Hin'. apply in_app_or in Hin, Hin'.
      destruct Hin as [Hin|[Hin|[]]]; destruct Hin' as [Hin'|[Hin'|[]]].
      + eapply H4; eauto.
      + inversion Hin'; subst. destruct (Hno _ _ Hin).
      + inversion Hin; subst. destruct (Hno _ _ Hin').
      + inversion Hin; inversion Hin'; congruence.
    - intros q t Hin. destruct (H5 q t Hin) as [Hq Ht]. split; [exact Hq|].
      intros t' ms' Hin'. apply in_app_or in Hin'.
      destruct Hin' as [Hin'|[Hin'|[]]]; [eapply Ht; eauto|].
      inversion Hin'; subst. destruct (Hl _ Hin). }
  split; [exact Harmed|].
  intros wk. destruct Harmed as [A1 A2 A3 A4 A5].
  constructor; simpl; auto.
  intros q t Hin. unfold allListeners in Hin. simpl in Hin.
  apply In_allListeners_updateNth in Hin.
  assert (Hcase : In (MessageHandler q t) (allListeners armed) \/
                  (q = p /\ t = nextTimer w)).
  { destruct Hin as [Hin|(wk' & Hwk & Hin)]; [left; exact Hin|].
    simpl in Hin. apply in_app_or in Hin. destruct Hin as [Hin|[Hin|[]]].
    - left. apply in_concat. exists (messageListeners wk').
      split; [apply in_map; exact Hwk | exact Hin].
    - inversion Hin. auto. }
  destruct Hcase as [Hold|[-> ->]]; [apply A5; exact Hold|].
  split.
  - apply nth_error_Some. subst armed. simpl. rewrite Hp. discriminate.
  - subst armed. simpl. intros t' ms' Hin'. apply in_app_or in Hin'.
    destruct Hin' as [Hin'|[Hin'|[]]]; [destruct (Hno _ _ Hin')|].
    inversion Hin'. reflexivity.
Qed.

Lemma _sendCommand_normal (command : string) (w : World) :
  fst (_sendCommand command w) = Normal tt.
Proof. unfold _sendCommand, bind, get. destruct (stockfish (this w)); reflexivity. Qed.

Lemma checkUciOkEvaluate_normal (options : StockfishOptions) (w : World) :
  fst (checkUciOkEvaluate options w) = Normal tt.
Proof.
  unfold checkUciOkEvaluate, bind at 1, get at 1.
  destruct (isuciok (this w)); [|reflexivity].
  unfold bind at 1, get at 1. unfold bind.
  assert (H1 := _sendCommand_normal ("position fen " ++ chess_fen (game (this w))) w).
  destruct (_sendCommand ("position fen " ++ chess_fen (game (this w))) w) as [[a|m] w1];
    simpl in H1; [|discriminate H1].
  apply _sendCommand_normal.
Qed.

Lemma Inv_evaluatePosition (options : StockfishOptions) (w : World) :
  Inv w -> Inv (snd (evaluatePosition options w)).
Proof.
  intros H. unfold evaluatePosition, Promise_new.
  set (p := List.length (promises w)).
  set (w1 := withPromises (fun ps => ps ++ [Pending]) w).
  assert (HF : Fresh p w1) by (apply Fresh_new; exact H).
  unfold bind at 1, get at 1.
  replace (mode (this w1)) with (mode (this w)) by reflexivity.
  destruct (negb (EngineMode_eqb (mode (this w)) idle)).
  { simpl. apply Inv_withLog, Inv_settle; [apply HF | apply HF]. }
  unfold bind at 1, put at 1. unfold bind at 1.
  set (w2 := withThis (set_mode evaluate) w1).
  assert (HF2 : Fresh p w2).
  { eapply Fresh_Frame; [exact HF|]. repeat split; auto. }
  assert (HF3 : Fresh p (snd (_initializeWorker options w2))).
  { eapply Fresh_Frame; [exact HF2 | apply quiet__initializeWorker]. }
  destruct (_initializeWorker options w2) as [[wk|m] w3]; simpl in HF3.
  2:{ apply Inv_reject; apply HF3. }
  unfold bind at 1, put at 1.
  set (w4 := withThis (set_analysisLines []) w3).
  assert (HF4 : Fresh p w4).
  { eapply Fresh_Frame; [exact HF3|]. repeat split; auto. }
  set (timeoutMs := orElse (movetime options) 30000).
  destruct (Inv_arm p timeoutMs w4 HF4) as [Harmed Hadd].
  unfold bind at 1.
  change (setTimeout (TimeoutCallback p timeoutMs) timeoutMs w4)
    with (Normal (nextTimer w4),
          snd (setTimeout (TimeoutCallback p timeoutMs) timeoutMs w4)).
  set (w5 := snd (setTimeout (TimeoutCallback p timeoutMs) timeoutMs w4)) in *.
  unfold bind at 1, get at 1. unfold bind at 1.
  assert (H6 : exists w6,
             match stockfish (this w5) with
             | Some wk0 => addEventListener wk0 (MessageHandler p (nextTimer w4))
             | None => ret tt
             end w5 = (Normal tt, w6) /\ Inv w6).
  { destruct (stockfish (this w5)) as [wk0|].
    - eexists. split; [reflexivity|]. apply Hadd.
    - eexists. split; [reflexivity|]. exact Harmed. }
  destruct H6 as (w6 & Heq & H6). rewrite Heq.
  assert (H7 := Inv_checkUciOkEvaluate options w6 H6).
  assert (Hn := checkUciOkEvaluate_normal options w6).
  destruct (checkUciOkEvaluate options w6) as [[a|m] w7]; simpl in *.
  - exact H7.
  - discriminate Hn.
Qed.


Lemma Inv_removeMessageHandler (wk p : nat) (w : World) :
  Inv w -> Inv (snd (removeMessageHandler wk p w)).
Proof.
  intros [H1 H2 H3 H4 H5]. constructor; simpl; auto.
  intros q t Hin. apply H5. unfold allListeners in *. simpl in Hin.
  eapply In_allListeners_same; [|exact Hin].
  simpl. intros wk' Hf. apply filter_In in Hf. tauto.
Qed.

Lemma Inv_messageHandler (p t : nat) (data : string) (w : World) :
  Inv w -> KnowsTimeout w p t ->
  Inv (snd (messageHandler p t data w)) /\
  incl (timers (snd (messageHandler p t data w))) (timers w).
Proof.
  intros H Hk. destruct (JS.startsWith data "bestmove") eqn:Hb.
  2:{ unfold messageHandler. rewrite Hb. simpl. split; [exact H | apply incl_refl]. }
  rewrite (messageHandler_bestmove w p t data Hb).
  set (final := JSArray.filterBoolean (analysisLines (this w))).
  set (w0 := after (clearTimeout t) w).
  set (wr := match stockfish (this w) with
             | Some wk => after (removeMessageHandler wk p) w0
             | None => w0
             end).
  assert (H0 : Inv w0).
  { subst w0. unfold after, clearTimeout. simpl. apply Inv_withLog, Inv_removeTimers, H. }
  assert (Ht0 : timers w0 = filter (fun x => negb (Nat.eqb (fst x) t)) (timers w))
    by reflexivity.
  assert (Hr : Inv wr /\ timers wr = timers w0).
  { subst wr. destruct (stockfish (this w)); [|auto].
    split; [apply Inv_removeMessageHandler; exact H0 | reflexivity]. }
  destruct Hr as [Hr Htr].
  set (wl := withThis (set_lines final) wr).
  assert (HFt : Frame wl (after terminate wl)) by apply quiet_terminate.
  assert (Ht : Inv (after terminate wl)).
  { eapply Inv_Frame; [apply Inv_withThis; exact Hr | exact HFt]. }
  assert (Htt : timers (after terminate wl) = timers w0).
  { destruct HFt as (Ht' & _). rewrite Ht'. exact Htr. }
  split.
  - apply Inv_resolve; [|exact Ht].
    intros t' ms Hin. rewrite Htt, Ht0 in Hin. apply filter_In in Hin.
    destruct Hin as [Hin Hne]. simpl in Hne.
    rewrite (Hk _ _ Hin), Nat.eqb_refl in Hne. discriminate.
  - unfold resolve. simpl. rewrite Htt, Ht0. apply incl_filter.
Qed.

Lemma Inv_callListener (l : MessageListener) (data : string) (w : World) :
  Inv w -> (forall p t, l = MessageHandler p t -> KnowsTimeout w p t) ->
  Inv (task (callListener l data) w) /\
  incl (timers (task (callListener l data) w)) (timers w).
Proof.
  intros H Hk. destruct l as [options | p t]; simpl.
  - assert (HF := quiet__handleStockfishMessage data options w).
    split; [apply Inv_task; eapply Inv_Frame; eauto|].
    unfold task. destruct HF as (Ht & _).
    destruct (_handleStockfishMessage data options w) as [[a|m] w']; simpl in *;
      rewrite Ht; apply incl_refl.
  - destruct (Inv_messageHandler p t data w H (Hk p t eq_refl)) as [Hi Hs].
    split; [apply Inv_task; exact Hi|].
    unfold task. destruct (messageHandler p t data w) as [[a|m] w']; simpl in *; exact Hs.
Qed.

Lemma Inv_dispatch (ls : list MessageListener) (data : string) (w : World) :
  Inv w -> (forall p t, In (MessageHandler p t) ls -> KnowsTimeout w p t) ->
  Inv (dispatch ls data w).
Proof.
  unfold dispatch. revert w. induction ls as [|l ls IH]; intros w H Hk; simpl; [exact H|].
  destruct (Inv_callListener l data w H) as [Hi Hs].
  { intros p t ->. apply Hk. left. reflexivity. }
  apply IH; [exact Hi|].
  intros p t Hin t' ms Hin'. apply (Hk p t (or_intror Hin) t' ms). apply Hs. exact Hin'.
Qed.

Lemma Inv_timeoutCallback (p : nat) (timeoutMs : Z) (w : World) :
  Inv w -> NoTimeoutFor (timers w) p -> Inv (snd (timeoutCallback p timeoutMs w)).
Proof.
  intros H Hno. unfold timeoutCallback.
  set (c := bind terminate (fun _ => effect (ConsoleWarn (timedOutMessage timeoutMs)))).
  assert (Hq : Quiet c).
  { subst c. apply quiet_bind; [apply quiet_terminate | intros; apply quiet_effect]. }
  assert (Hn : fst (c w) = Normal tt).
  { subst c. unfold bind. assert (Ht := terminate_normal w).
    destruct (terminate w) as [[a|m] w']; simpl in Ht; [reflexivity | discriminate]. }
  assert (Heq : bind terminate
                  (fun _ => bind (effect (ConsoleWarn (timedOutMessage timeoutMs)))
                                 (fun _ => resolve p [])) w
                = resolve p [] (snd (c w))).
  { subst c. unfold bind. assert (Ht := terminate_normal w).
    destruct (terminate w) as [[a|m] w']; simpl in Ht;
      [reflexivity | discriminate]. }
  rewrite Heq. specialize (Hq w). apply Inv_resolve.
  - destruct Hq as (Ht & _). rewrite Ht. exact Hno.
  - eapply Inv_Frame; eauto.
Qed.

Lemma findTimer_In (ts : list (nat * TimerCallback)) (t : nat) (c : TimerCallback) :
  findTimer ts t = Some c -> In (t, c) ts.
Proof.
  induction ts as [|[t' c'] ts IH]; simpl; [discriminate|].
  destruct (Nat.eqb t' t) eqn:Ht.
  - intros H. inversion H; subst. apply Nat.eqb_eq in Ht. subst. left. reflexivity.
  - intros H. right. auto.
Qed.

Lemma In_findTimer (ts : list (nat * TimerCallback)) (t : nat) (c : TimerCallback) :
  NoDup (map fst ts) -> In (t, c) ts -> findTimer ts t = Some c.
Proof.
  induction ts as [|[t' c'] ts IH]; simpl; [intros _ []|].
  intros Hnd [Heq|Hin].
  - inversion Heq; subst. rewrite Nat.eqb_refl. reflexivity.
  - inversion Hnd; subst. destruct (Nat.eqb t' t) eqn:Ht.
    + apply Nat.eqb_eq in Ht. subst t'. exfalso. apply H1.
      apply in_map_iff. exists (t, c). auto.
    + auto.
Qed.

Lemma In_allListeners (w : World) (wk : nat) (worker : Worker) (l : MessageListener) :
  nth_error (workers w) wk = Some worker -> In l (messageListeners worker) ->
  In l (allListeners w).
Proof.
  intros Hn Hl. unfold allListeners. apply in_concat.
  exists (messageListeners worker). split; [|exact Hl].
  apply in_map. eapply nth_error_In; eauto.
Qed.

(** The removal of the timer that fires. *)
Lemma NoTimeoutFor_fired (w : World) (t p : nat) (ms : Z) :
  Inv w -> In (t, TimeoutCallback p ms) (timers w) ->
  NoTimeoutFor (filter (fun x => negb (Nat.eqb (fst x) t)) (timers w)) p.
Proof.
  intros H Hin t' ms' Hin'. apply filter_In in Hin'. destruct Hin' as [Hin' Hne].
  simpl in Hne. rewrite (inv_timeout_unique w H _ _ _ _ _ Hin' Hin), Nat.eqb_refl in Hne.
  discriminate.
Qed.

Theorem Inv_step (w : World) (ev : Event) : Inv w -> Inv (step w ev).
Proof.
  intros H. destruct ev; simpl.
  - apply Inv_task, Inv_evaluatePosition, H.
  - apply Inv_task, Inv_startAnalysis, H.
  - apply Inv_task, Inv_Quiet; [|exact H]. unfold stopAnalysis.
    apply quiet_bind; [apply quiet_get | intros; apply quiet_when, quiet__sendCommand].
  - apply Inv_task, Inv_Quiet; [apply quiet_terminate | exact H].
  - apply Inv_task, Inv_Quiet; [apply quiet_put | exact H].
  - apply Inv_task, Inv_Quiet; [apply quiet_put | exact H].
  - destruct (chess_move (game (this w)) move) as [[san b]|].
    + apply Inv_withThis, H.
    + apply Inv_withLog, H.
  - apply Inv_task, Inv_Quiet; [apply quiet_convertMovesToSAN | exact H].
  - destruct (nth_error (workers w) wk) as [worker|] eqn:Hn; [|exact H].
    destruct (alive worker); [|exact H].
    apply Inv_dispatch; [exact H|].
    intros p t Hin.
    destruct (inv_handler w H p t (In_allListeners w wk worker _ Hn Hin)) as [_ Hk].
    exact Hk.
  - destruct (nth_error (workers w) wk) as [worker|]; [|exact H].
    destruct (alive worker); [|exact H].
    apply Inv_task, Inv_Quiet; [|exact H]. unfold onerror.
    apply quiet_bind; [apply quiet_effect | intros; apply quiet_terminate].
  - destruct (findTimer (timers w) t) as [callback|] eqn:Hf; [|exact H].
    apply findTimer_In in Hf.
    assert (Hr := Inv_removeTimers (fun x => negb (Nat.eqb (fst x) t)) w H).
    apply Inv_task. destruct callback as [p ms | options |]; simpl.
    + apply Inv_timeoutCallback; [exact Hr|]. simpl.
      eapply NoTimeoutFor_fired; eauto.
    + apply Inv_checkUciOkEvaluate, Hr.
    + apply Inv_checkUciOkStream, Hr.
Qed.

Theorem Reachable_Inv (e : Env) (w : World) : Reachable e w -> Inv w.
Proof.
  induction 1 as [|w ev _ IH]; [apply Inv_newWorld | apply Inv_step, IH].
Qed.


(** *** The time-out of [evaluatePosition] *)

Lemma timeoutCallback_eq (p : nat) (timeoutMs : Z) (w : World) :
  timeoutCallback p timeoutMs w =
  resolve p [] (withLog (ConsoleWarn (timedOutMessage timeoutMs)) (after terminate w)).
Proof.
  unfold timeoutCallback, bind, after. assert (Ht := terminate_normal w).
  destruct (terminate w) as [[a|m] w']; simpl in Ht; [reflexivity | discriminate].
Qed.

(** C1, as the code has it — In every session of [evaluatePosition] whose
    time-out fires while it is still pending (no completion event came
    before: the completion clears the timer), the promise of the session
    is still unsettled and the time-out resolves it: it is not rejected and
    it does not stay pending.  It is resolved with the empty list, whatever
    lines were accumulated, after the session has been torn down: quit sent
    and worker released when there is one, [blob:] URL revoked, ready-flag
    false, mode idle. *)
Theorem timeout_resolves_with_empty_list
        (e : Env) (w : World) (t p : nat) (timeoutMs : Z) :
  Reachable e w ->
  In (t, TimeoutCallback p timeoutMs) (timers w) ->
  let w' := step w (TimerFires t) in
  nth_error (promises w) p = Some Pending /\
  nth_error (promises w') p = Some (Resolved []) /\
  skipn (List.length (log w)) (log w') =
    teardownEffects (this w) ++
    [ConsoleWarn (timedOutMessage timeoutMs); Resolve p []] /\
  stockfish (this w') = None /\
  (forall u, stockfishWorkerUrl (this w') = Some u -> JS.startsWith u "blob:" = false) /\
  isuciok (this w') = false /\
  mode (this w') = idle /\
  (forall c, ~ In (t, c) (timers w')).
Proof.
  intros Hreach Hin w'.
  assert (HI := Reachable_Inv e w Hreach).
  assert (Hpending := inv_timeout_pending w HI _ _ _ Hin).
  split; [exact Hpending|].
  assert (Hf := In_findTimer _ _ _ (inv_timer_nodup w HI) Hin).
  subst w'. simpl. rewrite Hf.
  set (w0 := withTimers (filter (fun x => negb (Nat.eqb (fst x) t))) (nextTimer w) w).
  unfold task. simpl fire. rewrite timeoutCallback_eq. simpl.
  assert (HF : Frame w0 (after terminate w0)) by apply quiet_terminate.
  destruct HF as (Ht & _ & Hp & _).
  destruct (terminate_state w0) as (Hsf & Hurl & Hok & Hmode).
  split.
  { rewrite Hp. unfold settle. subst w0. simpl.
    rewrite (nth_error_updateNth_same _ _ _ _ Hpending). reflexivity. }
  split.
  { rewrite terminate_log. subst w0. simpl.
    rewrite <- !app_assoc. rewrite skipn_length_app. reflexivity. }
  split; [exact Hsf|]. split; [exact Hurl|]. split; [exact Hok|]. split; [exact Hmode|].
  intros c Hc. rewrite Ht in Hc. subst w0. simpl in Hc.
  apply filter_In in Hc. destruct Hc as [_ Hc]. simpl in Hc.
  rewrite Nat.eqb_refl in Hc. discriminate.
Qed.

(** Both entry points empty the accumulated lines when a session starts. *)
Lemma session_starts_with_no_lines (options : StockfishOptions) (w : World) :
  mode (this w) = idle -> hasWorker (env w) = true ->
  analysisLines (this (after (evaluatePosition options) w)) = storeAll [] /\
  analysisLines (this (after (startAnalysis options) w)) = storeAll [].
Proof.
  intros Hm Hw. unfold after.
  destruct w as [en [g l sf em al url ok m] ws ts nt ps lg]. simpl in *. subst m.
  unfold evaluatePosition, Promise_new.
  destruct sf as [wk|]; controller_simpl.
  - destruct ok; controller_simpl; split; reflexivity.
  - rewrite Hw. controller_simpl.
    destruct (truthyString (stockfishUrl options)); controller_simpl;
      [|destruct (truthyString url); controller_simpl];
      split; reflexivity.
Qed.

(** The session: from an idle controller in a browser, [evaluatePosition]
    returns a pending promise and arms its time-out, of [movetime]
    milliseconds when that option is set and not zero, of 30000 otherwise. *)
Lemma evaluatePosition_arms_timeout (options : StockfishOptions) (w : World) :
  mode (this w) = idle -> hasWorker (env w) = true ->
  let p := List.length (promises w) in
  let w' := after (evaluatePosition options) w in
  fst (evaluatePosition options w) = Normal p /\
  In (nextTimer w, TimeoutCallback p (orElse (movetime options) 30000)) (timers w').
Proof.
  intros Hm Hw p w'. subst w'. unfold after.
  destruct w as [en [g l sf em al url ok m] ws ts nt ps lg]. simpl in *. subst m.
  unfold evaluatePosition, Promise_new. simpl List.length. fold p.
  destruct sf as [wk|]; controller_simpl.
  - destruct ok; controller_simpl; (split; [reflexivity|]);
      rewrite ?in_app_iff; simpl; auto.
  - rewrite Hw. controller_simpl.
    destruct (truthyString (stockfishUrl options)); controller_simpl;
      [|destruct (truthyString url); controller_simpl];
      (split; [reflexivity|]); rewrite ?in_app_iff; simpl; auto.
Qed.

End Invariant.

(** ** The session: worker, ready flag and mode *)

Section SessionInvariant.
Context {rules : RulesEngine}.

Lemma SameSession_refl (w : World) : SameSession w w.
Proof. repeat split. Qed.

Lemma SameSession_trans (w1 w2 w3 : World) :
  SameSession w1 w2 -> SameSession w2 w3 -> SameSession w1 w3.
Proof. intros (A & B & C & D) (A' & B' & C' & D'). repeat split; congruence. Qed.

Lemma nth_error_map_alive (ws ws' : list Worker) (wk : nat) (worker' : Worker) :
  map alive ws' = map alive ws -> nth_error ws' wk = Some worker' ->
  exists worker, nth_error ws wk = Some worker /\ alive worker = alive worker'.
Proof.
  revert ws wk. induction ws' as [|x ws' IH]; intros [|y ws] [|wk] Hm Hn;
    simpl in *; try discriminate.
  - inversion Hn; subst. inversion Hm. eauto.
  - inversion Hm. eauto.
Qed.

Lemma Session_SameSession (w w' : World) : Session w -> SameSession w w' -> Session w'.
Proof.
  intros [H1 H2 H3] (A & B & C & D). constructor; rewrite ?A, ?B, ?C; auto.
  intros wk worker' Hn Ha.
  destruct (nth_error_map_alive _ _ _ _ D Hn) as (worker & Hn' & Ha').
  apply (H2 wk worker Hn'). congruence.
Qed.

Lemma calm_ret {A} (a : A) : Calm (ret a).
Proof. intros w. apply SameSession_refl. Qed.

Lemma calm_throw {A} (m : string) : Calm (@throw _ A m).
Proof. intros w. apply SameSession_refl. Qed.

Lemma calm_get {A} (f : ChessEngine -> A) : Calm (get f).
Proof. intros w. apply SameSession_refl. Qed.

Lemma calm_getWorld {A} (f : World -> A) : Calm (getWorld f).
Proof. intros w. apply SameSession_refl. Qed.

Lemma calm_effect (ef : Effect) : Calm (effect ef).
Proof. intros w. repeat split. Qed.

Lemma calm_put (f : ChessEngine -> ChessEngine) :
  (forall e, stockfish (f e) = stockfish e /\ isuciok (f e) = isuciok e /\
             mode (f e) = mode e) ->
  Calm (put f).
Proof. intros Hf w. destruct (Hf (this w)) as (A & B & C). repeat split; assumption. Qed.

Lemma calm_bind {A B} (c : M A) (k : A -> M B) :
  Calm c -> (forall a, Calm (k a)) -> Calm (bind c k).
Proof.
  intros Hc Hk w. unfold bind. specialize (Hc w).
  destruct (c w) as [[a|m] w']; simpl in *; [|exact Hc].
  eapply SameSession_trans; [exact Hc | apply Hk].
Qed.

Lemma calm_when (b : bool) (c : M unit) : Calm c -> Calm (when b c).
Proof. intros Hc. destruct b; [exact Hc | apply calm_ret]. Qed.

Lemma calm_forEach {A} (l : list A) (f : A -> M unit) :
  (forall a, Calm (f a)) -> Calm (forEach l f).
Proof.
  intros Hf. induction l as [|a l IH]; simpl; [apply calm_ret|].
  apply calm_bind; auto.
Qed.

Lemma map_alive_updateNth (ws : list Worker) (i : nat) (f : Worker -> Worker) :
  (forall wk, alive (f wk) = alive wk) ->
  map alive (updateNth ws i f) = map alive ws.
Proof.
  intros Hf. revert i. induction ws as [|wk ws IH]; intros [|i]; simpl; auto;
    f_equal; auto.
Qed.

Lemma calm_addEventListener (id : nat) (l : MessageListener) :
  Calm (addEventListener id l).
Proof. intros w. repeat split. simpl. apply map_alive_updateNth. reflexivity. Qed.

Lemma calm_removeMessageHandler (id p : nat) : Calm (removeMessageHandler id p).
Proof. intros w. repeat split. simpl. apply map_alive_updateNth. reflexivity. Qed.

Lemma calm_setTimeout (c : TimerCallback) (ms : Z) : Calm (setTimeout c ms).
Proof. intros w. repeat split. Qed.

Lemma calm_clearTimeout (t : nat) : Calm (clearTimeout t).
Proof. intros w. repeat split. Qed.

Lemma calm_resolve (p : nat) (v : list AnalysisLine) : Calm (resolve p v).
Proof. intros w. repeat split. Qed.

Lemma calm_reject (p : nat) (m : string) : Calm (reject p m).
Proof. intros w. repeat split. Qed.

Lemma calm__sendCommand (command : string) : Calm (_sendCommand command).
Proof.
  unfold _sendCommand. apply calm_bind; [apply calm_get|].
  intros [wk|]; [apply calm_effect | apply calm_ret].
Qed.

Lemma calm_ifTruthy (value : option Z) (k : Z -> M unit) :
  (forall v, Calm (k v)) -> Calm (ifTruthy value k).
Proof.
  intros Hk. unfold ifTruthy. destruct value; [apply calm_when; apply Hk | apply calm_ret].
Qed.

Lemma calm__setOptions (options : StockfishOptions) : Calm (_setOptions options).
Proof.
  unfold _setOptions.
  repeat first [ apply calm__sendCommand
               | apply calm_ifTruthy; intros
               | apply calm_bind; [|intros] ].
Qed.

Lemma calm_convertLoop (chess : Board) (moves acc : list string) :
  Calm (convertLoop chess moves acc).
Proof.
  revert chess acc. induction moves as [|m moves IH]; intros chess acc; simpl.
  - apply calm_ret.
  - destruct (chess_move chess m) as [[san chess']|]; [apply IH|].
    apply calm_bind; [apply calm_effect | intros; apply calm_ret].
Qed.

Lemma calm_convertMovesToSAN (moves : list string) (position : string) :
  Calm (convertMovesToSAN moves position).
Proof.
  unfold convertMovesToSAN. destruct (Chess_new position);
    [apply calm_convertLoop | apply calm_throw].
Qed.

Lemma calm_emit (data : list AnalysisLine) : Calm (emit data).
Proof.
  unfold emit. apply calm_bind; [apply calm_get|]. intros.
  apply calm_forEach. intros. apply calm_effect.
Qed.

Lemma calm_checkUciOkStream : Calm checkUciOkStream.
Proof.
  unfold checkUciOkStream. apply calm_bind; [apply calm_get|]. intros [|].
  - apply calm_bind; [apply calm_get|]. intros.
    apply calm_bind; [apply calm__sendCommand | intros; apply calm__sendCommand].
  - apply calm_bind; [apply calm_setTimeout | intros; apply calm_ret].
Qed.

Lemma calm_checkUciOkEvaluate (options : StockfishOptions) :
  Calm (checkUciOkEvaluate options).
Proof.
  unfold checkUciOkEvaluate. apply calm_bind; [apply calm_get|]. intros [|].
  - apply calm_bind; [apply calm_get|]. intros.
    apply calm_bind; [apply calm__sendCommand | intros; apply calm__sendCommand].
  - apply calm_bind; [apply calm_setTimeout | intros; apply calm_ret].
Qed.

(** *** The operations that change the session *)

Lemma nth_error_updateNth_at {A} (l : list A) (n : nat) (f : A -> A) (b : A) :
  nth_error (updateNth l n f) n = Some b ->
  exists a, nth_error l n = Some a /\ b = f a.
Proof.
  revert n. induction l as [|x l IH]; intros [|n] H; simpl in *; try discriminate.
  - inversion H. eauto.
  - eauto.
Qed.

Lemma terminate_workers (w : World) :
  workers (after terminate w) =
  match stockfish (this w) with
  | Some wk => updateNth (workers w) wk (fun x =>
                 {| workerUrl := workerUrl x; alive := false;
                    messageListeners := messageListeners x |})
  | None => workers w
  end.
Proof.
  destruct w as [en [g l sf em al url ok m] ws ts nt ps lg].
  controller_simpl. destruct sf; destruct url as [u|]; controller_simpl;
    try reflexivity;
    match goal with |- context [if ?b then _ else _] => destruct b end;
    reflexivity.
Qed.

Lemma Session_terminate (w : World) : Session w -> Session (after terminate w).
Proof.
  intros [H1 H2 H3].
  destruct (terminate_state w) as (Hsf & _ & Hok & Hm).
  constructor.
  - rewrite Hok. discriminate.
  - intros wk worker Hn Ha. exfalso.
    rewrite terminate_workers in Hn.
    destruct (stockfish (this w)) as [wk0|] eqn:Hsf0.
    + destruct (Nat.eq_dec wk0 wk) as [->|Hne].
      * apply nth_error_updateNth_at in Hn. destruct Hn as (a & _ & ->).
        discriminate Ha.
      * rewrite nth_error_updateNth_other in Hn by exact Hne.
        specialize (H2 wk worker Hn Ha). congruence.
    + specialize (H2 wk worker Hn Ha). congruence.
  - intros _. exact Hsf.
Qed.

(** [_initializeWorker], called in a mode that is not idle. *)
Lemma Session__initializeWorker (options : StockfishOptions) (w : World) :
  Session w -> mode (this w) <> idle ->
  Session (after (_initializeWorker options) w) /\
  mode (this (after (_initializeWorker options) w)) = mode (this w).
Proof.
  intros [H1 H2 H3] Hm.
  destruct w as [en [g l sf em al url ok m] ws ts nt ps lg]. simpl in *.
  destruct sf as [wk|].
  { controller_simpl. split; [constructor; simpl; auto | reflexivity]. }
  controller_simpl. destruct (hasWorker en); controller_simpl.
  2:{ split; [constructor; simpl; auto | reflexivity]. }
  assert (Hdead : forall wk worker, nth_error ws wk = Some worker -> alive worker = false).
  { intros wk worker Hn. destruct (alive worker) eqn:Ha; [|reflexivity].
    specialize (H2 wk worker Hn Ha). discriminate H2. }
  assert (Hnew : forall (u : string) (wk : nat) (worker : Worker),
             nth_error (updateNth (ws ++ [{| workerUrl := u; alive := true;
                                              messageListeners := [] |}])
                                  (List.length ws)
                                  (fun wk0 => {| workerUrl := workerUrl wk0;
                                                 alive := alive wk0;
                                                 messageListeners :=
                                                   messageListeners wk0 ++
                                                   [HandleStockfishMessage options] |}))
                       wk = Some worker ->
             alive worker = true -> Some (List.length ws) = Some wk).
  { intros u wk worker Hn Ha. f_equal.
    destruct (Nat.eq_dec (List.length ws) wk) as [Heq|Hne]; [exact Heq|exfalso].
    rewrite nth_error_updateNth_other in Hn by exact Hne.
    destruct (Nat.lt_ge_cases wk (List.length ws)) as [Hlt|Hge].
    - rewrite nth_error_app1 in Hn by exact Hlt.
      rewrite (Hdead _ _ Hn) in Ha. discriminate.
    - rewrite nth_error_app2 in Hn by exact Hge.
      destruct (wk - List.length ws)%nat as [|k] eqn:Hk; [lia|].
      simpl in Hn. destruct k; discriminate. }
  destruct (truthyString (stockfishUrl options)); controller_simpl;
    [|destruct (truthyString url); controller_simpl];
    (split; [constructor; simpl; [discriminate | apply Hnew | intros; congruence]
            | reflexivity]).
Qed.


Lemma Session_withLog (ef : Effect) (w : World) : Session w -> Session (withLog ef w).
Proof. intros H. eapply Session_SameSession; [exact H|]. repeat split. Qed.

Lemma Session_Calm {A} (c : M A) (w : World) : Calm c -> Session w -> Session (snd (c w)).
Proof. intros Hc H. eapply Session_SameSession; [exact H | apply Hc]. Qed.

Lemma Session_task {A} (c : M A) (w : World) : Session (snd (c w)) -> Session (task c w).
Proof.
  unfold task. destruct (c w) as [[a|m] w']; simpl; [auto | apply Session_withLog].
Qed.

Lemma Session_set_mode (m : EngineMode) (w : World) :
  m <> idle -> Session w -> Session (withThis (set_mode m) w).
Proof.
  intros Hm [H1 H2 H3]. constructor; simpl; auto. intros Heq. congruence.
Qed.

(** The part of [_handleStockfishMessage] after the ready and completion
    signals. *)
Lemma calm__handleStockfishMessage_info
      (message : string) (options : StockfishOptions) :
  String.eqb message "uciok" = false -> JS.startsWith message "bestmove" = false ->
  Calm (_handleStockfishMessage message options).
Proof.
  intros Hu Hb. unfold _handleStockfishMessage. rewrite Hu, Hb.
  apply calm_bind; [apply calm_get|]. intros fen.
  destruct (Regex.search multipvPattern message); [|apply calm_ret].
  apply calm_when.
  apply calm_bind; [apply calm_convertMovesToSAN|]. intros.
  apply calm_bind; [apply calm_put; intros; repeat split|]. intros.
  apply calm_bind; [apply calm_get|]. intros. apply calm_emit.
Qed.

Lemma Session__handleStockfishMessage
      (message : string) (options : StockfishOptions) (w : World) :
  Session w -> (message = "uciok" -> stockfish (this w) <> None) ->
  Session (after (_handleStockfishMessage message options) w) /\
  (message = "uciok" ->
   stockfish (this (after (_handleStockfishMessage message options) w))
   = stockfish (this w)).
Proof.
  intros H Hready. unfold after.
  destruct (String.eqb message "uciok") eqn:Hu.
  { apply String.eqb_eq in Hu. subst message.
    rewrite _handleStockfishMessage_uciok.
    set (w1 := withThis (set_isuciok true) w).
    assert (H1 : Session w1).
    { destruct H as [H1 H2 H3]. constructor; simpl; auto. }
    assert (Hc := calm__setOptions options w1).
    split; [eapply Session_SameSession; eauto|].
    intros _. destruct Hc as (A & _). rewrite A. reflexivity. }
  assert (Hne : message <> "uciok") by (apply String.eqb_neq; exact Hu).
  split; [|intros Heq; contradiction].
  destruct (JS.startsWith message "bestmove") eqn:Hb.
  - rewrite (_handleStockfishMessage_bestmove w message options Hu Hb).
    destruct (EngineMode_eqb (mode (this w)) stream); [|exact H].
    apply Session_terminate. exact H.
  - apply Session_Calm; [|exact H].
    apply calm__handleStockfishMessage_info; assumption.
Qed.

Lemma Session_messageHandler (p t : nat) (data : string) (w : World) :
  Session w ->
  Session (after (messageHandler p t data) w) /\
  (data = "uciok" -> after (messageHandler p t data) w = w).
Proof.
  intros H. unfold after. destruct (JS.startsWith data "bestmove") eqn:Hb.
  - split.
    2:{ intros ->. discriminate Hb. }
    rewrite (messageHandler_bestmove w p t data Hb).
    apply Session_Calm; [apply calm_resolve|].
    apply Session_terminate.
    eapply Session_SameSession; [exact H|].
    destruct (stockfish (this w)); repeat split; simpl;
      try apply map_alive_updateNth; reflexivity.
  - unfold messageHandler. rewrite Hb. simpl. auto.
Qed.

Lemma Session_dispatch (ls : list MessageListener) (data : string) (w : World) :
  Session w -> (data = "uciok" -> stockfish (this w) <> None) ->
  Session (dispatch ls data w).
Proof.
  unfold dispatch. revert w. induction ls as [|l ls IH]; intros w H Hready; simpl;
    [exact H|].
  assert (Hstep : Session (task (callListener l data) w) /\
                  (data = "uciok" ->
                   stockfish (this (task (callListener l data) w)) <> None)).
  { destruct l as [options | p t]; simpl.
    - destruct (Session__handleStockfishMessage data options w H Hready) as [Hs Hk].
      split; [apply Session_task; exact Hs|].
      intros Heq. specialize (Hk Heq). specialize (Hready Heq).
      unfold task, after in *.
      destruct (_handleStockfishMessage data options w) as [[a|m] w']; simpl in *;
        congruence.
    - destruct (Session_messageHandler p t data w H) as [Hs Hk].
      split; [apply Session_task; exact Hs|].
      intros Heq. specialize (Hk Heq). specialize (Hready Heq).
      unfold task, after in *.
      destruct (messageHandler p t data w) as [[a|m] w']; simpl in *;
        subst w'; exact Hready. }
  destruct Hstep as [Hs Hk]. apply IH; assumption.
Qed.

Lemma Session_startAnalysis (options : StockfishOptions) (w : World) :
  Session w -> Session (snd (startAnalysis options w)).
Proof.
  intros H. unfold startAnalysis, bind at 1, get at 1.
  destruct (negb (EngineMode_eqb (mode (this w)) idle)).
  - apply Session_withLog. exact H.
  - unfold bind at 1, put at 1. unfold bind at 1.
    set (w1 := withThis (set_mode stream) w).
    assert (H1 : Session w1) by (apply Session_set_mode; [discriminate | exact H]).
    destruct (Session__initializeWorker options w1 H1 ltac:(discriminate)) as [H2 _].
    unfold after in H2.
    destruct (_initializeWorker options w1) as [[wk|m] w2]; simpl in H2; [|exact H2].
    unfold bind at 1, put at 1.
    apply Session_Calm; [apply calm_checkUciOkStream|].
    eapply Session_SameSession; [exact H2|]. repeat split.
Qed.

Lemma Session_evaluatePosition (options : StockfishOptions) (w : World) :
  Session w -> Session (snd (evaluatePosition options w)).
Proof.
  intros H. unfold evaluatePosition, Promise_new.
  set (p := List.length (promises w)).
  set (w1 := withPromises (fun ps => ps ++ [Pending]) w).
  assert (H1 : Session w1).
  { eapply Session_SameSession; [exact H|]. repeat split. }
  unfold bind at 1, get at 1.
  replace (mode (this w1)) with (mode (this w)) by reflexivity.
  destruct (negb (EngineMode_eqb (mode (this w)) idle)).
  { simpl. apply (Session_Calm (reject p busyMessage) w1 (calm_reject _ _) H1). }
  unfold bind at 1, put at 1. unfold bind at 1.
  set (w2 := withThis (set_mode evaluate) w1).
  assert (H2 : Session w2) by (apply Session_set_mode; [discriminate | exact H1]).
  destruct (Session__initializeWorker options w2 H2 ltac:(discriminate)) as [H3 _].
  unfold after in H3.
  destruct (_initializeWorker options w2) as [[wk|m] w3]; simpl in H3.
  2:{ apply (Session_Calm (reject p m) w3 (calm_reject _ _) H3). }
  unfold bind at 1, put at 1.
  set (w4 := withThis (set_analysisLines []) w3).
  assert (H4 : Session w4).
  { eapply Session_SameSession; [exact H3|]. repeat split. }
  set (rest := bind (setTimeout (TimeoutCallback p (orElse (movetime options) 30000))
                                (orElse (movetime options) 30000)) _).
  assert (Hrest : Calm rest).
  { subst rest. apply calm_bind; [apply calm_setTimeout|]. intros tid.
    apply calm_bind; [apply calm_get|]. intros sf.
    apply calm_bind.
    - destruct sf; [apply calm_addEventListener | apply calm_ret].
    - intros. apply calm_checkUciOkEvaluate. }
  assert (H5 := Session_Calm rest w4 Hrest H4).
  destruct (rest w4) as [[a|m] w5]; simpl in *; [exact H5|].
  apply (Session_Calm (reject p m) w5 (calm_reject _ _) H5).
Qed.

Theorem Session_step (w : World) (ev : Event) : Session w -> Session (step w ev).
Proof.
  intros H. destruct ev; simpl.
  - apply Session_task, Session_evaluatePosition, H.
  - apply Session_task, Session_startAnalysis, H.
  - apply Session_task, Session_Calm; [|exact H]. unfold stopAnalysis.
    apply calm_bind; [apply calm_get | intros; apply calm_when, calm__sendCommand].
  - apply Session_task. apply Session_terminate. exact H.
  - apply Session_task, Session_Calm; [apply calm_put; intros; repeat split | exact H].
  - apply Session_task, Session_Calm; [apply calm_put; intros; repeat split | exact H].
  - destruct (chess_move (game (this w)) move) as [[san b]|].
    + eapply Session_SameSession; [exact H|]. repeat split.
    + apply Session_withLog, H.
  - apply Session_task, Session_Calm; [apply calm_convertMovesToSAN | exact H].
  - destruct (nth_error (workers w) wk) as [worker|] eqn:Hn; [|exact H].
    destruct (alive worker) eqn:Ha; [|exact H].
    apply Session_dispatch; [exact H|].
    intros _. rewrite (session_alive w H wk worker Hn Ha). discriminate.
  - destruct (nth_error (workers w) wk) as [worker|]; [|exact H].
    destruct (alive worker); [|exact H].
    apply Session_task. unfold onerror, bind, effect.
    apply (Session_terminate (withLog (ConsoleError "Stockfish worker error:") w)).
    apply Session_withLog, H.
  - destruct (findTimer (timers w) t) as [callback|]; [|exact H].
    set (w0 := withTimers _ _ w).
    assert (H0 : Session w0).
    { eapply Session_SameSession; [exact H|]. repeat split. }
    apply Session_task. destruct callback as [p ms | options |]; simpl.
    + rewrite timeoutCallback_eq.
      apply Session_Calm; [apply calm_resolve|].
      apply Session_withLog, Session_terminate, H0.
    + apply Session_Calm; [apply calm_checkUciOkEvaluate | exact H0].
    + apply Session_Calm; [apply calm_checkUciOkStream | exact H0].
Qed.

Theorem Reachable_Session (e : Env) (w : World) : Reachable e w -> Session w.
Proof.
  induction 1 as [|w ev _ IH]; [|apply Session_step, IH].
  constructor; simpl; try discriminate; auto.
  intros [|wk] worker Hn; discriminate.
Qed.



(** X18 — For every options object, the poll ([checkUciOk]) that
    [evaluatePosition] armed sends, when it fires after the ready signal,
    exactly one position-load command carrying the current FEN followed by
    exactly one go directive, to the worker of the session, and it is not
    armed again; fired before the ready signal it sends nothing and arms
    itself once more.  The directive is chosen by strict priority: depth,
    else per-side time, else move time, else node count, else the default
    depth 15. *)
Theorem evaluate_sends_position_then_one_go
        (e : Env) (w : World) (t : nat) (options : StockfishOptions) :
  Reachable e w ->
  In (t, CheckUciOkEvaluate options) (timers w) ->
  let w' := step w (TimerFires t) in
  let others := filter (fun x => negb (Nat.eqb (fst x) t)) (timers w) in
  (isuciok (this w) = true ->
   exists wk,
     stockfish (this w) = Some wk /\
     skipn (List.length (log w)) (log w') =
       [PostMessage wk ("position fen " ++ chess_fen (game (this w)));
        PostMessage wk (goCommand options)] /\
     timers w' = others) /\
  (isuciok (this w) = false ->
   skipn (List.length (log w)) (log w') = [SetTimeout (nextTimer w) 50] /\
   timers w' = others ++ [(nextTimer w, CheckUciOkEvaluate options)]) /\
  (forall n, depth options = Some n ->
     goCommand options = "go depth " ++ JS.numberToString n)%string /\
  (depth options = None ->
   forall ms, time options = Some ms ->
     goCommand options =
     "go wtime " ++ JS.numberToString ms ++ " btime " ++ JS.numberToString ms)%string /\
  (depth options = None -> time options = None ->
   forall m, movetime options = Some m ->
     goCommand options = "go movetime " ++ JS.numberToString m)%string /\
  (depth options = None -> time options = None -> movetime options = None ->
   forall k, nodes options = Some k ->
     goCommand options = "go nodes " ++ JS.numberToString k)%string /\
  (depth options = None -> time options = None -> movetime options = None ->
   nodes options = None ->
     goCommand options = "go depth 15").
Proof.
  intros Hreach Hin w' others.
  assert (HI := Reachable_Inv e w Hreach).
  assert (HS := Reachable_Session e w Hreach).
  assert (Hf := In_findTimer _ _ _ (inv_timer_nodup w HI) Hin).
  set (w0 := withTimers (filter (fun x => negb (Nat.eqb (fst x) t))) (nextTimer w) w).
  assert (Hstep : w' = task (checkUciOkEvaluate options) w0).
  { subst w'. simpl. rewrite Hf. reflexivity. }
  split; [|split].
  - intros Hok.
    destruct (stockfish (this w)) as [wk|] eqn:Hsf;
      [|destruct (session_ready w HS Hok Hsf)].
    exists wk. split; [reflexivity|].
    rewrite Hstep. unfold task.
    rewrite (checkUciOkEvaluate_ready w0 options wk Hok Hsf). simpl.
    split; [|reflexivity].
    rewrite <- app_assoc. apply skipn_length_app.
  - intros Hok. rewrite Hstep. unfold task.
    rewrite (checkUciOkEvaluate_waiting w0 options Hok). simpl.
    split; [apply skipn_length_app | reflexivity].
  - unfold goCommand.
    repeat split; intros;
      repeat match goal with H : _ = _ |- _ => rewrite H; clear H end; reflexivity.
Qed.

End SessionInvariant.

(* ================================================================== *)
(** * The life of a session *)
(* ================================================================== *)

Section KeepsFacts.
Context {rules : RulesEngine}.
Context {X : Type} (f : World -> X).

Lemma keeps_ret {A} (a : A) : Keeps f (ret a).
Proof. intros w. reflexivity. Qed.

Lemma keeps_throw {A} (m : string) : Keeps f (@throw _ A m).
Proof. intros w. reflexivity. Qed.

Lemma keeps_get {A} (g : ChessEngine -> A) : Keeps f (get g).
Proof. intros w. reflexivity. Qed.

Lemma keeps_getWorld {A} (g : World -> A) : Keeps f (getWorld g).
Proof. intros w. reflexivity. Qed.

Lemma keeps_bind {A B} (c : M A) (k : A -> M B) :
  Keeps f c -> (forall a, Keeps f (k a)) -> Keeps f (bind c k).
Proof.
  intros Hc Hk w. unfold bind. specialize (Hc w).
  destruct (c w) as [[a|m] w']; simpl in *; [|exact Hc].
  rewrite Hk. exact Hc.
Qed.

Lemma keeps_when (b : bool) (c : M unit) : Keeps f c -> Keeps f (when b c).
Proof. intros Hc. destruct b; [exact Hc | apply keeps_ret]. Qed.

Lemma keeps_forEach {A} (l : list A) (g : A -> M unit) :
  (forall a, Keeps f (g a)) -> Keeps f (forEach l g).
Proof.
  intros Hg. induction l as [|a l IH]; simpl; [apply keeps_ret|].
  apply keeps_bind; auto.
Qed.

Lemma keeps_ifTruthy (value : option Z) (k : Z -> M unit) :
  (forall v, Keeps f (k v)) -> Keeps f (ifTruthy value k).
Proof.
  intros Hk. unfold ifTruthy. destruct value; [apply keeps_when, Hk | apply keeps_ret].
Qed.

Lemma keeps_convertLoop (chess : Board) (moves acc : list string) :
  (forall ef w, f (withLog ef w) = f w) ->
  Keeps f (convertLoop chess moves acc).
Proof.
  intros Hlog. revert chess acc.
  induction moves as [|m moves IH]; intros chess acc; simpl.
  - apply keeps_ret.
  - destruct (chess_move chess m) as [[san chess']|]; [apply IH|].
    apply keeps_bind; [intros w; apply Hlog | intros; apply keeps_ret].
Qed.

Lemma keeps_convertMovesToSAN (moves : list string) (position : string) :
  (forall ef w, f (withLog ef w) = f w) ->
  Keeps f (convertMovesToSAN moves position).
Proof.
  intros Hlog. unfold convertMovesToSAN.
  destruct (Chess_new position); [apply keeps_convertLoop, Hlog | apply keeps_throw].
Qed.

Lemma keeps_task {A} (c : M A) (w : World) :
  (forall ef w, f (withLog ef w) = f w) ->
  f (task c w) = f (snd (c w)).
Proof.
  intros Hlog. unfold task. destruct (c w) as [[a|m] w']; simpl; [reflexivity | apply Hlog].
Qed.

End KeepsFacts.

Ltac keeps :=
  repeat first
    [ apply keeps_ret | apply keeps_throw | apply keeps_get | apply keeps_getWorld
    | apply keeps_when | apply keeps_forEach; intros ?
    | apply keeps_ifTruthy; intros ?
    | apply keeps_convertMovesToSAN; intros; reflexivity
    | apply keeps_bind; [|intros ?]
    | match goal with
      | |- Keeps _ (match ?x with _ => _ end) => destruct x
      end
    | (intros ?; reflexivity) ].

Section Starting.
Context {rules : RulesEngine}.

Lemma updateNth_last {A} (l : list A) (x : A) (g : A -> A) :
  updateNth (l ++ [x]) (List.length l) g = l ++ [g x].
Proof. induction l as [|a l IH]; simpl; [reflexivity | rewrite IH; reflexivity]. Qed.

(** [startAnalysis] from an idle controller without a worker, in a
    browser. *)
Lemma startAnalysis_accepted (options : StockfishOptions) (w : World) :
  mode (this w) = idle -> stockfish (this w) = None -> hasWorker (env w) = true ->
  startAnalysis options w = (Normal tt, streamingFrom options w).
Proof.
  intros Hm Hsf Hw.
  destruct w as [en [g l sf em al url ok m] ws ts nt ps lg]. simpl in *. subst m sf.
  unfold streamingFrom, startEffects, makesObjectUrl, started, loadUrl. simpl.
  controller_simpl. rewrite Hw. controller_simpl.
  destruct (truthyString (stockfishUrl options)) eqn:Ho; controller_simpl.
  - destruct (stockfishUrl options) as [u|]; [|discriminate Ho].
    repeat (rewrite updateNth_last; simpl). rewrite <- !app_assoc. reflexivity.
  - destruct (truthyString url) eqn:Hu; controller_simpl.
    + destruct url as [u|]; [|discriminate Hu].
      repeat (rewrite updateNth_last; simpl). rewrite <- !app_assoc. reflexivity.
    + repeat (rewrite updateNth_last; simpl). rewrite <- !app_assoc. reflexivity.
Qed.

(** [evaluatePosition] from an idle controller without a worker, in a
    browser. *)
Lemma evaluatePosition_accepted (options : StockfishOptions) (w : World) :
  mode (this w) = idle -> stockfish (this w) = None -> hasWorker (env w) = true ->
  evaluatePosition options w =
  (Normal (List.length (promises w)), evaluatingFrom options w).
Proof.
  intros Hm Hsf Hw.
  destruct w as [en [g l sf em al url ok m] ws ts nt ps lg]. simpl in *. subst m sf.
  unfold evaluatingFrom, startEffects, makesObjectUrl, started, loadUrl. simpl.
  unfold evaluatePosition, Promise_new.
  controller_simpl. rewrite Hw. controller_simpl.
  destruct (truthyString (stockfishUrl options)) eqn:Ho; controller_simpl.
  - destruct (stockfishUrl options) as [u|]; [|discriminate Ho].
    repeat (rewrite updateNth_last; simpl).
    rewrite <- !app_assoc. reflexivity.
  - destruct (truthyString url) eqn:Hu; controller_simpl.
    + destruct url as [u|]; [|discriminate Hu].
      repeat (rewrite updateNth_last; simpl).
      rewrite <- !app_assoc. reflexivity.
    + repeat (rewrite updateNth_last; simpl).
      rewrite <- !app_assoc. reflexivity.
Qed.

(** Without [Worker] in the environment, [_initializeWorker] throws before
    it has done anything. *)
Lemma startAnalysis_no_worker (options : StockfishOptions) (w : World) :
  mode (this w) = idle -> stockfish (this w) = None -> hasWorker (env w) = false ->
  startAnalysis options w = (Throw environmentMessage, withThis (set_mode stream) w).
Proof.
  intros Hm Hsf Hw.
  destruct w as [en [g l sf em al url ok m] ws ts nt ps lg]. simpl in *. subst m sf.
  controller_simpl. rewrite Hw. reflexivity.
Qed.

Lemma evaluatePosition_no_worker (options : StockfishOptions) (w : World) :
  mode (this w) = idle -> stockfish (this w) = None -> hasWorker (env w) = false ->
  evaluatePosition options w =
  (Normal (List.length (promises w)),
   withLog (Reject (List.length (promises w)) environmentMessage)
     (withPromises (fun ps => ps ++ [Rejected environmentMessage])
        (withThis (set_mode evaluate) w))).
Proof.
  intros Hm Hsf Hw.
  destruct w as [en [g l sf em al url ok m] ws ts nt ps lg]. simpl in *. subst m sf.
  unfold evaluatePosition, Promise_new.
  controller_simpl. rewrite Hw. controller_simpl.
  unfold withLog, withPromises, withThis, settle; simpl. do 2 f_equal.
  induction ps as [|x ps IH]; simpl; [reflexivity|]. f_equal. exact IH.
Qed.

End Starting.

Section Wiring.
Context {rules : RulesEngine}.

Lemma keeps_wiring__sendCommand (command : string) : Keeps wiring (_sendCommand command).
Proof. unfold _sendCommand. keeps. Qed.

Lemma keeps_wiring__setOptions (options : StockfishOptions) :
  Keeps wiring (_setOptions options).
Proof. unfold _setOptions, _sendCommand. keeps. Qed.

Lemma keeps_wiring_info (message : string) (options : StockfishOptions) :
  String.eqb message "uciok" = false -> JS.startsWith message "bestmove" = false ->
  Keeps wiring (_handleStockfishMessage message options).
Proof.
  intros Hu Hb. unfold _handleStockfishMessage. rewrite Hu, Hb. unfold emit. keeps.
Qed.

Lemma keeps_wiring_stopAnalysis : Keeps wiring stopAnalysis.
Proof. unfold stopAnalysis, _sendCommand. keeps. Qed.

Lemma keeps_wiring_on (l : Listener) : Keeps wiring (on l).
Proof. unfold on. keeps. Qed.

Lemma keeps_wiring_off (l : Listener) : Keeps wiring (off l).
Proof. unfold off. keeps. Qed.

Lemma Wired_same (w w' : World) :
  Wired w ->
  workers w' = workers w -> stockfish (this w') = stockfish (this w) ->
  mode (this w') = mode (this w) ->
  stockfishWorkerUrl (this w') = stockfishWorkerUrl (this w) ->
  incl (timers w) (timers w') -> Wired w'.
Proof.
  intros [H1 H2] Hws Hsf Hm Hu Ht. constructor.
  - intros wk Hwk. rewrite Hsf in Hwk. destruct (H1 wk Hwk) as (worker & Hn & Ha & Hw).
    exists worker. rewrite Hws. split; [exact Hn|]. split; [exact Ha|].
    unfold wiredAs in *. rewrite Hm. destruct (mode (this w)); auto.
    destruct Hw as (o & p & t & ms & Hl & Hin). exists o, p, t, ms. auto.
  - rewrite Hsf, Hu. exact H2.
Qed.

Lemma Wired_wiring (w w' : World) : Wired w -> wiring w' = wiring w -> Wired w'.
Proof.
  intros H Heq. unfold wiring in Heq. inversion Heq as [[Hws Hsf Hm Hu Ht Hn Hp]].
  apply (Wired_same w w' H); auto. rewrite Ht. apply incl_refl.
Qed.

Lemma Wired_Keeps {A} (c : M A) (w : World) :
  Keeps wiring c -> Wired w -> Wired (snd (c w)).
Proof. intros Hc H. eapply Wired_wiring; [exact H | apply Hc]. Qed.

Lemma Wired_withLog (ef : Effect) (w : World) : Wired w -> Wired (withLog ef w).
Proof. intros H. apply (Wired_wiring w); [exact H | reflexivity]. Qed.

Lemma Wired_task {A} (c : M A) (w : World) : Wired (snd (c w)) -> Wired (task c w).
Proof.
  unfold task. destruct (c w) as [[a|m] w']; simpl; [auto | apply Wired_withLog].
Qed.

Lemma Wired_released (w : World) :
  stockfish (this w) = None ->
  (forall u, stockfishWorkerUrl (this w) = Some u -> JS.startsWith u "blob:" = false) ->
  Wired w.
Proof. intros Hsf Hu. constructor; [intros wk H; congruence | intros _; exact Hu]. Qed.

Lemma Wired_terminate (w : World) : Wired (after terminate w).
Proof.
  destruct (terminate_state w) as (Hsf & Hu & _). apply Wired_released; assumption.
Qed.

Lemma Wired_newWorld (e : Env) : Wired (newWorld e).
Proof. apply Wired_released; [reflexivity | intros u H; discriminate H]. Qed.

Lemma nth_error_last {A} (l : list A) (x : A) :
  nth_error (l ++ [x]) (List.length l) = Some x.
Proof. rewrite nth_error_app2 by lia. rewrite Nat.sub_diag. reflexivity. Qed.

Lemma Wired_streamingFrom (options : StockfishOptions) (w : World) :
  Wired (streamingFrom options w).
Proof.
  constructor; simpl; [|discriminate].
  intros wk Hwk. inversion Hwk; subst wk. eexists. split; [apply nth_error_last|].
  split; [reflexivity|]. unfold wiredAs. simpl. eauto.
Qed.

Lemma Wired_evaluatingFrom (options : StockfishOptions) (w : World) :
  Wired (evaluatingFrom options w).
Proof.
  constructor; simpl; [|discriminate].
  intros wk Hwk. inversion Hwk; subst wk. eexists. split; [apply nth_error_last|].
  split; [reflexivity|]. unfold wiredAs. simpl. do 4 eexists. split; [reflexivity|].
  apply in_or_app. right. left. reflexivity.
Qed.

Lemma Wired_startAnalysis (options : StockfishOptions) (w : World) :
  Session w -> Wired w -> Wired (snd (startAnalysis options w)).
Proof.
  intros HS H. destruct (mode (this w)) eqn:Hm.
  - assert (Hsf := session_idle w HS Hm).
    destruct (hasWorker (env w)) eqn:Hw.
    + rewrite (startAnalysis_accepted options w Hm Hsf Hw). apply Wired_streamingFrom.
    + rewrite (startAnalysis_no_worker options w Hm Hsf Hw). simpl.
      apply Wired_released; [exact Hsf | exact (wired_released w H Hsf)].
  - rewrite startAnalysis_busy by (rewrite Hm; discriminate). apply Wired_withLog, H.
  - rewrite startAnalysis_busy by (rewrite Hm; discriminate). apply Wired_withLog, H.
Qed.

Lemma Wired_evaluatePosition (options : StockfishOptions) (w : World) :
  Session w -> Wired w -> Wired (snd (evaluatePosition options w)).
Proof.
  intros HS H. destruct (mode (this w)) eqn:Hm.
  - assert (Hsf := session_idle w HS Hm).
    destruct (hasWorker (env w)) eqn:Hw.
    + rewrite (evaluatePosition_accepted options w Hm Hsf Hw). apply Wired_evaluatingFrom.
    + rewrite (evaluatePosition_no_worker options w Hm Hsf Hw). simpl.
      apply Wired_released; [exact Hsf | exact (wired_released w H Hsf)].
  - rewrite evaluatePosition_busy by (rewrite Hm; discriminate).
    apply (Wired_same w); auto. apply incl_refl.
  - rewrite evaluatePosition_busy by (rewrite Hm; discriminate).
    apply (Wired_same w); auto. apply incl_refl.
Qed.

Lemma Wired__handleStockfishMessage
      (message : string) (options : StockfishOptions) (w : World) :
  Wired w -> Wired (snd (_handleStockfishMessage message options w)).
Proof.
  intros H. destruct (String.eqb message "uciok") eqn:Hu.
  { apply String.eqb_eq in Hu. subst message. rewrite _handleStockfishMessage_uciok.
    apply Wired_Keeps; [apply keeps_wiring__setOptions|].
    apply (Wired_wiring w); [exact H | reflexivity]. }
  destruct (JS.startsWith message "bestmove") eqn:Hb.
  - rewrite (_handleStockfishMessage_bestmove w message options Hu Hb).
    destruct (EngineMode_eqb (mode (this w)) stream); [apply Wired_terminate | exact H].
  - apply Wired_Keeps; [apply keeps_wiring_info; assumption | exact H].
Qed.

Lemma Wired_messageHandler (p t : nat) (data : string) (w : World) :
  Wired w -> Wired (snd (messageHandler p t data w)).
Proof.
  intros H. destruct (JS.startsWith data "bestmove") eqn:Hb.
  - rewrite (messageHandler_bestmove w p t data Hb). unfold resolve. simpl.
    match goal with
    | |- Wired (withLog _ (withPromises _ (after terminate ?x))) =>
        destruct (terminate_state x) as (Hsf & Hu & _)
    end.
    apply Wired_released; simpl; assumption.
  - unfold messageHandler. rewrite Hb. exact H.
Qed.

Lemma Wired_dispatch (ls : list MessageListener) (data : string) (w : World) :
  Wired w -> Wired (dispatch ls data w).
Proof.
  unfold dispatch. revert w. induction ls as [|l ls IH]; intros w H; simpl; [exact H|].
  apply IH. apply Wired_task. destruct l as [options | p t]; simpl.
  - apply Wired__handleStockfishMessage, H.
  - apply Wired_messageHandler, H.
Qed.

Lemma NoDup_fst_unique {A B} (l : list (A * B)) (a : A) (b b' : B) :
  NoDup (map fst l) -> In (a, b) l -> In (a, b') l -> b = b'.
Proof.
  induction l as [|[x y] l IH]; simpl; [intros _ []|].
  intros Hnd [H|H] [H'|H']; inversion Hnd; subst.
  - congruence.
  - inversion H; subst. exfalso. apply H2. apply in_map_iff. exists (a, b'). auto.
  - inversion H'; subst. exfalso. apply H2. apply in_map_iff. exists (a, b). auto.
  - auto.
Qed.

(** The removal of a poll that fires leaves the time-outs pending. *)
Lemma Wired_poll_removed (w : World) (t : nat) (callback : TimerCallback) :
  Inv w -> Wired w -> In (t, callback) (timers w) ->
  (forall p ms, callback <> TimeoutCallback p ms) ->
  Wired (withTimers (filter (fun x => negb (Nat.eqb (fst x) t))) (nextTimer w) w).
Proof.
  intros HI [H1 H2] Hin Hpoll. constructor; simpl; [|exact H2].
  intros wk Hwk. destruct (H1 wk Hwk) as (worker & Hn & Ha & Hw).
  exists worker. split; [exact Hn|]. split; [exact Ha|].
  unfold wiredAs in *. simpl. destruct (mode (this w)); auto.
  destruct Hw as (o & p & t' & ms & Hl & Hin'). exists o, p, t', ms. split; [exact Hl|].
  apply filter_In. split; [exact Hin'|]. simpl.
  destruct (Nat.eqb t' t) eqn:Ht; [|reflexivity].
  apply Nat.eqb_eq in Ht. subst t'. exfalso.
  apply (Hpoll p ms). exact (NoDup_fst_unique _ _ _ _ (inv_timer_nodup w HI) Hin Hin').
Qed.

Lemma checkUciOkStream_ready (w : World) (wk : nat) :
  isuciok (this w) = true -> stockfish (this w) = Some wk ->
  checkUciOkStream w =
  (Normal tt,
   withLog (PostMessage wk "go infinite")
     (withLog (PostMessage wk ("position fen " ++ chess_fen (game (this w)))) w)).
Proof.
  intros Hok Hsf. controller_simpl. rewrite Hok. controller_simpl.
  rewrite Hsf. controller_simpl. rewrite ?Hsf. reflexivity.
Qed.

Lemma checkUciOkStream_waiting (w : World) :
  isuciok (this w) = false ->
  checkUciOkStream w =
  (Normal tt,
   withLog (SetTimeout (nextTimer w) 50)
     (withTimers (fun ts => ts ++ [(nextTimer w, CheckUciOkStream)])
                 (S (nextTimer w)) w)).
Proof. intros Hok. controller_simpl. rewrite Hok. reflexivity. Qed.

Lemma Wired_checkUciOkStream (w : World) : Wired w -> Wired (snd (checkUciOkStream w)).
Proof.
  intros H. destruct (isuciok (this w)) eqn:Hok.
  - unfold checkUciOkStream, bind at 1, get at 1. rewrite Hok.
    apply Wired_Keeps; [|exact H]. unfold _sendCommand. keeps.
  - rewrite (checkUciOkStream_waiting w Hok). simpl.
    apply (Wired_same w); auto. simpl. apply incl_appl, incl_refl.
Qed.

Lemma Wired_checkUciOkEvaluate (options : StockfishOptions) (w : World) :
  Wired w -> Wired (snd (checkUciOkEvaluate options w)).
Proof.
  intros H. destruct (isuciok (this w)) eqn:Hok.
  - unfold checkUciOkEvaluate, bind at 1, get at 1. rewrite Hok.
    apply Wired_Keeps; [|exact H]. unfold _sendCommand. keeps.
  - rewrite (checkUciOkEvaluate_waiting w options Hok). simpl.
    apply (Wired_same w); auto. simpl. apply incl_appl, incl_refl.
Qed.

Theorem Wired_step (w : World) (ev : Event) :
  Inv w -> Session w -> Wired w -> Wired (step w ev).
Proof.
  intros HI HS H. destruct ev; simpl.
  - apply Wired_task, Wired_evaluatePosition; assumption.
  - apply Wired_task, Wired_startAnalysis; assumption.
  - apply Wired_task, Wired_Keeps; [apply keeps_wiring_stopAnalysis | exact H].
  - apply Wired_task, Wired_terminate.
  - apply Wired_task, Wired_Keeps; [apply keeps_wiring_on | exact H].
  - apply Wired_task, Wired_Keeps; [apply keeps_wiring_off | exact H].
  - destruct (chess_move (game (this w)) move) as [[san b]|].
    + apply (Wired_wiring w); [exact H | reflexivity].
    + apply Wired_withLog, H.
  - apply Wired_task, Wired_Keeps; [|exact H].
    apply keeps_convertMovesToSAN. reflexivity.
  - destruct (nth_error (workers w) wk) as [worker|]; [|exact H].
    destruct (alive worker); [|exact H]. apply Wired_dispatch, H.
  - destruct (nth_error (workers w) wk) as [worker|]; [|exact H].
    destruct (alive worker); [|exact H].
    apply Wired_task. unfold onerror, bind, effect.
    apply (Wired_terminate (withLog (ConsoleError "Stockfish worker error:") w)).
  - destruct (findTimer (timers w) t) as [callback|] eqn:Hf; [|exact H].
    apply findTimer_In in Hf. apply Wired_task.
    destruct callback as [p ms | options |]; simpl.
    + rewrite timeoutCallback_eq. unfold resolve. simpl.
      match goal with
      | |- Wired (withLog _ (withPromises _ (withLog _ (after terminate ?x)))) =>
          destruct (terminate_state x) as (Hsf & Hu & _)
      end.
      apply Wired_released; simpl; assumption.
    + apply Wired_checkUciOkEvaluate.
      apply (Wired_poll_removed w t _ HI H Hf). intros; discriminate.
    + apply Wired_checkUciOkStream.
      apply (Wired_poll_removed w t _ HI H Hf). intros; discriminate.
Qed.

Theorem Reachable_Wired (e : Env) (w : World) : Reachable e w -> Wired w.
Proof.
  induction 1 as [|w ev Hr IH]; [apply Wired_newWorld|].
  apply Wired_step; [eapply Reachable_Inv | eapply Reachable_Session |]; eassumption.
Qed.

End Wiring.

Section Arming.
Context {rules : RulesEngine}.

Lemma Armed_ArmedBut (w : World) (p : nat) : Armed w -> ArmedBut w p.
Proof. intros [H1 H2]. split; auto. Qed.

Lemma OwnsTimer_shrink (w w' : World) (p t : nat) :
  OwnsTimer w p t -> incl (timers w') (timers w) -> (nextTimer w <= nextTimer w')%nat ->
  OwnsTimer w' p t.
Proof. intros [Hlt Hc] Hincl Hn. split; [lia|]. intros c Hin. apply Hc, Hincl, Hin. Qed.

Lemma ArmedBut_Frame (w w' : World) (p : nat) : ArmedBut w p -> Frame w w' -> ArmedBut w' p.
Proof.
  intros [H1 H2] (Ht & Hn & Hp & Hl). split.
  - intros q Hq Hpend. rewrite Hp in Hpend. rewrite Ht. auto.
  - intros q t Hin. destruct (Hl _ Hin) as [H|[o H]]; [|discriminate].
    apply (OwnsTimer_shrink w); [auto | rewrite Ht; apply incl_refl | lia].
Qed.

Lemma Armed_Frame (w w' : World) : Armed w -> Frame w w' -> Armed w'.
Proof.
  intros [H1 H2] (Ht & Hn & Hp & Hl). constructor.
  - intros q Hpend. rewrite Hp in Hpend. rewrite Ht. auto.
  - intros q t Hin. destruct (Hl _ Hin) as [H|[o H]]; [|discriminate].
    apply (OwnsTimer_shrink w); [auto | rewrite Ht; apply incl_refl | lia].
Qed.

Lemma Armed_Quiet {A} (c : M A) (w : World) : Quiet c -> Armed w -> Armed (snd (c w)).
Proof. intros Hc H. eapply Armed_Frame; [exact H | apply Hc]. Qed.

Lemma Frame_withLog (ef : Effect) (w : World) : Frame w (withLog ef w).
Proof. repeat split; auto. Qed.

Lemma Frame_withThis (g : ChessEngine -> ChessEngine) (w : World) : Frame w (withThis g w).
Proof. repeat split; auto. Qed.

Lemma Armed_task {A} (c : M A) (w : World) : Armed (snd (c w)) -> Armed (task c w).
Proof.
  unfold task. destruct (c w) as [[a|m] w']; simpl; [auto|].
  intros H. eapply Armed_Frame; [exact H | apply Frame_withLog].
Qed.

Lemma settle_pending (p q : nat) (s : PromiseState) (ps : list PromiseState) :
  s <> Pending -> nth_error (settle p s ps) q = Some Pending ->
  nth_error ps q = Some Pending /\ q <> p.
Proof.
  intros Hs H. unfold settle in H. destruct (Nat.eq_dec p q) as [->|Hne].
  - exfalso. apply nth_error_updateNth_at in H. destruct H as (a & _ & Ha).
    destruct a; congruence.
  - rewrite nth_error_updateNth_other in H by exact Hne. auto.
Qed.

(** Settling the promise that may have lost its time-out. *)
Lemma Armed_settle (w : World) (p : nat) (s : PromiseState) :
  s <> Pending -> ArmedBut w p -> Armed (withPromises (settle p s) w).
Proof.
  intros Hs [H1 H2]. constructor; simpl.
  - intros q Hq. destruct (settle_pending _ _ _ _ Hs Hq) as [Hpend Hne]. auto.
  - exact H2.
Qed.

Lemma Armed_resolve (w : World) (p : nat) (v : list AnalysisLine) :
  ArmedBut w p -> Armed (snd (resolve p v w)).
Proof.
  intros H. unfold resolve. simpl.
  eapply Armed_Frame; [apply (Armed_settle w p (Resolved v)); [discriminate | exact H]|].
  apply Frame_withLog.
Qed.

Lemma Armed_reject (w : World) (p : nat) (m : string) :
  ArmedBut w p -> Armed (snd (reject p m w)).
Proof.
  intros H. unfold reject. simpl.
  eapply Armed_Frame; [apply (Armed_settle w p (Rejected m)); [discriminate | exact H]|].
  apply Frame_withLog.
Qed.

(** The removal of the timers of one identifier, all of them time-outs of
    the promise [p]. *)
Lemma ArmedBut_removed (w : World) (p t : nat) :
  Armed w ->
  (forall c, In (t, c) (timers w) -> exists ms, c = TimeoutCallback p ms) ->
  ArmedBut (withTimers (filter (fun x => negb (Nat.eqb (fst x) t))) (nextTimer w) w) p.
Proof.
  intros [H1 H2] Hown. split; simpl.
  - intros q Hq Hpend. destruct (H1 q Hpend) as (t' & ms & Hin).
    exists t', ms. apply filter_In. split; [exact Hin|]. simpl.
    destruct (Nat.eqb t' t) eqn:Ht; [|reflexivity].
    apply Nat.eqb_eq in Ht. subst t'. destruct (Hown _ Hin) as (ms' & Heq).
    inversion Heq. congruence.
  - intros q t' Hin. apply (OwnsTimer_shrink w); [auto | | simpl; lia].
    simpl. apply incl_filter.
Qed.

(** The removal of a poll. *)
Lemma Armed_poll_removed (w : World) (t : nat) (callback : TimerCallback) :
  Inv w -> Armed w -> In (t, callback) (timers w) ->
  (forall p ms, callback <> TimeoutCallback p ms) ->
  Armed (withTimers (filter (fun x => negb (Nat.eqb (fst x) t))) (nextTimer w) w).
Proof.
  intros HI [H1 H2] Hin Hpoll. constructor; simpl.
  - intros q Hpend. destruct (H1 q Hpend) as (t' & ms & Hin').
    exists t', ms. apply filter_In. split; [exact Hin'|]. simpl.
    destruct (Nat.eqb t' t) eqn:Ht; [|reflexivity].
    apply Nat.eqb_eq in Ht. subst t'. exfalso.
    apply (Hpoll q ms). exact (NoDup_fst_unique _ _ _ _ (inv_timer_nodup w HI) Hin Hin').
  - intros q t' Hh. apply (OwnsTimer_shrink w); [auto | | simpl; lia].
    simpl. apply incl_filter.
Qed.

(** Arming a poll. *)
Lemma Armed_setTimeout_poll (w : World) (callback : TimerCallback) (ms : Z) :
  Armed w -> Armed (snd (setTimeout callback ms w)).
Proof.
  intros [H1 H2]. constructor; simpl.
  - intros q Hpend. destruct (H1 q Hpend) as (t & ms' & Hin).
    exists t, ms'. apply in_or_app. left. exact Hin.
  - intros q t Hh. destruct (H2 q t Hh) as [Hlt Hc]. split; [simpl; lia|].
    simpl. intros c Hin. apply in_app_or in Hin. destruct Hin as [Hin|[Hin|[]]]; [auto|].
    inversion Hin. lia.
Qed.

Lemma Armed_checkUciOkStream (w : World) : Armed w -> Armed (snd (checkUciOkStream w)).
Proof.
  intros H. destruct (isuciok (this w)) eqn:Hok.
  - unfold checkUciOkStream, bind at 1, get at 1. rewrite Hok.
    apply Armed_Quiet; [|exact H].
    apply quiet_bind; [apply quiet_get|]. intros.
    apply quiet_bind; apply quiet__sendCommand || (intros; apply quiet__sendCommand).
  - rewrite (checkUciOkStream_waiting w Hok).
    apply (Armed_setTimeout_poll w CheckUciOkStream 50 H).
Qed.

Lemma Armed_checkUciOkEvaluate (options : StockfishOptions) (w : World) :
  Armed w -> Armed (snd (checkUciOkEvaluate options w)).
Proof.
  intros H. destruct (isuciok (this w)) eqn:Hok.
  - unfold checkUciOkEvaluate, bind at 1, get at 1. rewrite Hok.
    apply Armed_Quiet; [|exact H].
    apply quiet_bind; [apply quiet_get|]. intros.
    apply quiet_bind; apply quiet__sendCommand || (intros; apply quiet__sendCommand).
  - rewrite (checkUciOkEvaluate_waiting w options Hok).
    apply (Armed_setTimeout_poll w (CheckUciOkEvaluate options) 50 H).
Qed.

Lemma allListeners_app (w : World) (ws : list Worker) :
  List.concat (map messageListeners (workers w ++ ws)) =
  allListeners w ++ List.concat (map messageListeners ws).
Proof. unfold allListeners. rewrite map_app, concat_app. reflexivity. Qed.

Lemma Armed_streamingFrom (options : StockfishOptions) (w : World) :
  Armed w -> Armed (streamingFrom options w).
Proof.
  intros [H1 H2]. constructor; simpl.
  - intros q Hpend. destruct (H1 q Hpend) as (t & ms & Hin).
    exists t, ms. apply in_or_app. left. exact Hin.
  - intros q t Hh. unfold allListeners in Hh. simpl in Hh.
    rewrite allListeners_app in Hh. simpl in Hh.
    apply in_app_or in Hh. destruct Hh as [Hh|[Hh|[]]]; [|discriminate].
    destruct (H2 q t Hh) as [Hlt Hc]. split; [simpl; lia|].
    simpl. intros c Hin. apply in_app_or in Hin. destruct Hin as [Hin|[Hin|[]]]; [auto|].
    inversion Hin. lia.
Qed.

Lemma Armed_evaluatingFrom (options : StockfishOptions) (w : World) :
  Inv w -> Armed w -> Armed (evaluatingFrom options w).
Proof.
  intros HI [H1 H2]. constructor; simpl.
  - intros q Hpend.
    destruct (Nat.lt_ge_cases q (List.length (promises w))) as [Hlt|Hge].
    + rewrite nth_error_app1 in Hpend by exact Hlt.
      destruct (H1 q Hpend) as (t & ms & Hin).
      exists t, ms. apply in_or_app. left. exact Hin.
    + rewrite nth_error_app2 in Hpend by exact Hge.
      destruct (q - List.length (promises w))%nat as [|k] eqn:Hk.
      * assert (q = List.length (promises w)) by lia. subst q.
        do 2 eexists. apply in_or_app. right. left. reflexivity.
      * simpl in Hpend. destruct k; discriminate.
  - intros q t Hh. unfold allListeners in Hh. simpl in Hh.
    rewrite allListeners_app in Hh. simpl in Hh.
    apply in_app_or in Hh. destruct Hh as [Hh|[Hh|[Hh|[]]]]; [|discriminate|].
    + destruct (H2 q t Hh) as [Hlt Hc]. split; [simpl; lia|].
      simpl. intros c Hin. apply in_app_or in Hin.
      destruct Hin as [Hin|[Hin|[Hin|[]]]]; [auto | |]; inversion Hin; lia.
    + inversion Hh; subst q t. split; [simpl; lia|].
      simpl. intros c Hin. apply in_app_or in Hin.
      destruct Hin as [Hin|[Hin|[Hin|[]]]].
      * apply (inv_timer_fresh w HI) in Hin. lia.
      * inversion Hin. eauto.
      * inversion Hin. lia.
Qed.

Lemma Armed_promise_rejected (w w' : World) (m : string) :
  Armed w -> timers w' = timers w -> nextTimer w' = nextTimer w ->
  workers w' = workers w -> promises w' = promises w ++ [Rejected m] -> Armed w'.
Proof.
  intros [H1 H2] Ht Hn Hws Hp. constructor.
  - intros q Hpend. rewrite Hp in Hpend. rewrite Ht.
    destruct (Nat.lt_ge_cases q (List.length (promises w))) as [Hlt|Hge].
    + rewrite nth_error_app1 in Hpend by exact Hlt. auto.
    + rewrite nth_error_app2 in Hpend by exact Hge.
      destruct (q - List.length (promises w))%nat as [|k]; simpl in Hpend;
        [discriminate | destruct k; discriminate].
  - intros q t Hh. unfold allListeners in Hh. rewrite Hws in Hh.
    apply (OwnsTimer_shrink w); [auto | rewrite Ht; apply incl_refl | lia].
Qed.

Lemma Armed_startAnalysis (options : StockfishOptions) (w : World) :
  Session w -> Armed w -> Armed (snd (startAnalysis options w)).
Proof.
  intros HS H. destruct (mode (this w)) eqn:Hm.
  - assert (Hsf := session_idle w HS Hm).
    destruct (hasWorker (env w)) eqn:Hw.
    + rewrite (startAnalysis_accepted options w Hm Hsf Hw). apply Armed_streamingFrom, H.
    + rewrite (startAnalysis_no_worker options w Hm Hsf Hw). simpl.
      eapply Armed_Frame; [exact H | apply Frame_withThis].
  - rewrite startAnalysis_busy by (rewrite Hm; discriminate).
    eapply Armed_Frame; [exact H | apply Frame_withLog].
  - rewrite startAnalysis_busy by (rewrite Hm; discriminate).
    eapply Armed_Frame; [exact H | apply Frame_withLog].
Qed.

Lemma Armed_evaluatePosition (options : StockfishOptions) (w : World) :
  Inv w -> Session w -> Armed w -> Armed (snd (evaluatePosition options w)).
Proof.
  intros HI HS H. destruct (mode (this w)) eqn:Hm.
  - assert (Hsf := session_idle w HS Hm).
    destruct (hasWorker (env w)) eqn:Hw.
    + rewrite (evaluatePosition_accepted options w Hm Hsf Hw).
      apply Armed_evaluatingFrom; assumption.
    + rewrite (evaluatePosition_no_worker options w Hm Hsf Hw). simpl.
      apply (Armed_promise_rejected w _ environmentMessage H); reflexivity.
  - rewrite evaluatePosition_busy by (rewrite Hm; discriminate). simpl.
    apply (Armed_promise_rejected w _ busyMessage H); reflexivity.
  - rewrite evaluatePosition_busy by (rewrite Hm; discriminate). simpl.
    apply (Armed_promise_rejected w _ busyMessage H); reflexivity.
Qed.

Lemma ArmedBut_removeMessageHandler (wk p q : nat) (w : World) :
  ArmedBut w q -> ArmedBut (snd (removeMessageHandler wk p w)) q.
Proof.
  intros [H1 H2]. split; simpl; [exact H1|].
  intros q' t Hin. apply (OwnsTimer_shrink w); [|apply incl_refl|simpl; lia].
  apply H2. unfold allListeners in *. simpl in Hin.
  eapply In_allListeners_same; [|exact Hin].
  simpl. intros wk' Hf. apply filter_In in Hf. tauto.
Qed.

Lemma Armed_messageHandler (p t : nat) (data : string) (w : World) :
  Armed w -> OwnsTimer w p t ->
  Armed (snd (messageHandler p t data w)) /\
  incl (timers (snd (messageHandler p t data w))) (timers w) /\
  nextTimer (snd (messageHandler p t data w)) = nextTimer w.
Proof.
  intros H [Hlt Hown]. destruct (JS.startsWith data "bestmove") eqn:Hb.
  2:{ unfold messageHandler. rewrite Hb. simpl. split; [exact H|].
      split; [apply incl_refl | reflexivity]. }
  rewrite (messageHandler_bestmove w p t data Hb).
  set (final := JSArray.filterBoolean (analysisLines (this w))).
  set (w0 := after (clearTimeout t) w).
  set (wr := match stockfish (this w) with
             | Some wk => after (removeMessageHandler wk p) w0
             | None => w0
             end).
  assert (H0 : ArmedBut w0 p).
  { subst w0. unfold after, clearTimeout. simpl.
    eapply ArmedBut_Frame; [apply (ArmedBut_removed w p t H Hown) | apply Frame_withLog]. }
  assert (Ht0 : timers w0 = filter (fun x => negb (Nat.eqb (fst x) t)) (timers w))
    by reflexivity.
  assert (Hr : ArmedBut wr p /\ timers wr = timers w0 /\ nextTimer wr = nextTimer w).
  { subst wr. destruct (stockfish (this w)); [|auto].
    split; [apply ArmedBut_removeMessageHandler; exact H0 | split; reflexivity]. }
  destruct Hr as (Hr & Htr & Hnr).
  set (wl := withThis (set_lines final) wr).
  assert (HFt : Frame wl (after terminate wl)) by apply quiet_terminate.
  assert (Ht : ArmedBut (after terminate wl) p).
  { eapply ArmedBut_Frame; [|exact HFt].
    eapply ArmedBut_Frame; [exact Hr | apply Frame_withThis]. }
  destruct HFt as (Ht' & Hn' & _).
  split; [apply Armed_resolve; exact Ht|].
  unfold resolve. simpl. rewrite Ht', Hn'. simpl. rewrite Htr, Ht0, Hnr.
  split; [apply incl_filter | reflexivity].
Qed.

Lemma Armed_callListener (l : MessageListener) (data : string) (w : World) :
  Armed w -> (forall p t, l = MessageHandler p t -> OwnsTimer w p t) ->
  Armed (task (callListener l data) w) /\
  incl (timers (task (callListener l data) w)) (timers w) /\
  nextTimer (task (callListener l data) w) = nextTimer w.
Proof.
  intros H Hk. destruct l as [options | p t]; simpl.
  - assert (HF := quiet__handleStockfishMessage data options w).
    split; [apply Armed_task; eapply Armed_Frame; eauto|].
    unfold task. destruct HF as (Ht & Hn & _).
    destruct (_handleStockfishMessage data options w) as [[a|m] w']; simpl in *;
      rewrite Ht, Hn; split; try apply incl_refl; reflexivity.
  - destruct (Armed_messageHandler p t data w H (Hk p t eq_refl)) as (Hi & Hs & Hn).
    split; [apply Armed_task; exact Hi|].
    unfold task. destruct (messageHandler p t data w) as [[a|m] w']; simpl in *; auto.
Qed.

Lemma Armed_dispatch (ls : list MessageListener) (data : string) (w : World) :
  Armed w -> (forall p t, In (MessageHandler p t) ls -> OwnsTimer w p t) ->
  Armed (dispatch ls data w).
Proof.
  unfold dispatch. revert w. induction ls as [|l ls IH]; intros w H Hk; simpl; [exact H|].
  destruct (Armed_callListener l data w H) as (Hi & Hs & Hn).
  { intros p t ->. apply Hk. left. reflexivity. }
  apply IH; [exact Hi|].
  intros p t Hin. apply (OwnsTimer_shrink w); [|exact Hs|lia].
  apply Hk. right. exact Hin.
Qed.

Lemma Armed_newWorld (e : Env) : Armed (newWorld e).
Proof.
  constructor; simpl.
  - intros [|p] H; discriminate H.
  - intros p t [].
Qed.

Theorem Armed_step (w : World) (ev : Event) :
  Inv w -> Session w -> Armed w -> Armed (step w ev).
Proof.
  intros HI HS H. destruct ev; simpl.
  - apply Armed_task, Armed_evaluatePosition; assumption.
  - apply Armed_task, Armed_startAnalysis; assumption.
  - apply Armed_task, Armed_Quiet; [|exact H]. unfold stopAnalysis.
    apply quiet_bind; [apply quiet_get | intros; apply quiet_when, quiet__sendCommand].
  - apply Armed_task, Armed_Quiet; [apply quiet_terminate | exact H].
  - apply Armed_task, Armed_Quiet; [apply quiet_put | exact H].
  - apply Armed_task, Armed_Quiet; [apply quiet_put | exact H].
  - destruct (chess_move (game (this w)) move) as [[san b]|].
    + eapply Armed_Frame; [exact H | apply Frame_withThis].
    + eapply Armed_Frame; [exact H | apply Frame_withLog].
  - apply Armed_task, Armed_Quiet; [apply quiet_convertMovesToSAN | exact H].
  - destruct (nth_error (workers w) wk) as [worker|] eqn:Hn; [|exact H].
    destruct (alive worker); [|exact H].
    apply Armed_dispatch; [exact H|].
    intros p t Hin. apply (armed_handler w H).
    exact (In_allListeners w wk worker _ Hn Hin).
  - destruct (nth_error (workers w) wk) as [worker|]; [|exact H].
    destruct (alive worker); [|exact H].
    apply Armed_task, Armed_Quiet; [|exact H]. unfold onerror.
    apply quiet_bind; [apply quiet_effect | intros; apply quiet_terminate].
  - destruct (findTimer (timers w) t) as [callback|] eqn:Hf; [|exact H].
    apply findTimer_In in Hf. apply Armed_task.
    destruct callback as [p ms | options |]; simpl.
    + rewrite timeoutCallback_eq. apply Armed_resolve.
      eapply ArmedBut_Frame; [|apply Frame_withLog].
      eapply ArmedBut_Frame; [|apply quiet_terminate].
      apply (ArmedBut_removed w p t H).
      intros c Hin. exists ms.
      exact (NoDup_fst_unique _ _ _ _ (inv_timer_nodup w HI) Hin Hf).
    + apply Armed_checkUciOkEvaluate.
      apply (Armed_poll_removed w t _ HI H Hf). intros; discriminate.
    + apply Armed_checkUciOkStream.
      apply (Armed_poll_removed w t _ HI H Hf). intros; discriminate.
Qed.

Theorem Reachable_Armed (e : Env) (w : World) : Reachable e w -> Armed w.
Proof.
  induction 1 as [|w ev Hr IH]; [apply Armed_newWorld|].
  apply Armed_step; [eapply Reachable_Inv | eapply Reachable_Session |]; eassumption.
Qed.

End Arming.

Section Notifications.
Context {rules : RulesEngine}.

Lemma notifies_same {A} (c : M A) :
  (forall w, this (snd (c w)) = this w /\ log (snd (c w)) = log w) -> Notifies c.
Proof.
  intros Hc w. destruct (Hc w) as [Ht Hl]. unfold subscribers. rewrite Ht.
  split; [reflexivity|]. exists []. rewrite app_nil_r. split; [exact Hl|]. intros l d [].
Qed.

Lemma notifies_one {A} (c : M A) (ef : Effect) :
  (forall l d, ef <> ListenerCall l d) ->
  (forall w, this (snd (c w)) = this w /\ log (snd (c w)) = log w ++ [ef]) -> Notifies c.
Proof.
  intros Hef Hc w. destruct (Hc w) as [Ht Hl]. unfold subscribers. rewrite Ht.
  split; [reflexivity|]. exists [ef]. split; [exact Hl|].
  intros l d [H|[]]. destruct (Hef l d H).
Qed.

Lemma notifies_ret {A} (a : A) : Notifies (ret a).
Proof. apply notifies_same. intros w. split; reflexivity. Qed.

Lemma notifies_throw {A} (m : string) : Notifies (@throw _ A m).
Proof. apply notifies_same. intros w. split; reflexivity. Qed.

Lemma notifies_get {A} (g : ChessEngine -> A) : Notifies (get g).
Proof. apply notifies_same. intros w. split; reflexivity. Qed.

Lemma notifies_getWorld {A} (g : World -> A) : Notifies (getWorld g).
Proof. apply notifies_same. intros w. split; reflexivity. Qed.

Lemma notifies_put (g : ChessEngine -> ChessEngine) :
  (forall e, emitter (g e) = emitter e) -> Notifies (put g).
Proof.
  intros Hg w. unfold subscribers. simpl. rewrite Hg. split; [reflexivity|].
  exists []. rewrite app_nil_r. split; [reflexivity|]. intros l d [].
Qed.

Lemma notifies_effect (ef : Effect) :
  (forall l d, ef <> ListenerCall l d) -> Notifies (effect ef).
Proof. intros Hef. apply (notifies_one _ ef Hef). intros w. split; reflexivity. Qed.

Lemma notifies_bind {A B} (c : M A) (k : A -> M B) :
  Notifies c -> (forall a, Notifies (k a)) -> Notifies (bind c k).
Proof.
  intros Hc Hk w. unfold bind. specialize (Hc w).
  destruct (c w) as [[a|m] w']; simpl in *; [|exact Hc].
  destruct Hc as (Hs & efs & Hl & Hin).
  destruct (Hk a w') as (Hs' & efs' & Hl' & Hin').
  split; [congruence|]. exists (efs ++ efs'). split.
  - rewrite Hl', Hl, app_assoc. reflexivity.
  - intros l d H. apply in_app_or in H. destruct H as [H|H]; [eauto|].
    rewrite <- Hs. eauto.
Qed.

Lemma notifies_when (b : bool) (c : M unit) : Notifies c -> Notifies (when b c).
Proof. intros Hc. destruct b; [exact Hc | apply notifies_ret]. Qed.

Lemma notifies_ifTruthy (value : option Z) (k : Z -> M unit) :
  (forall v, Notifies (k v)) -> Notifies (ifTruthy value k).
Proof.
  intros Hk. unfold ifTruthy. destruct value; [apply notifies_when, Hk | apply notifies_ret].
Qed.

Lemma notifies_convertMovesToSAN (moves : list string) (position : string) :
  Notifies (convertMovesToSAN moves position).
Proof.
  unfold convertMovesToSAN. destruct (Chess_new position) as [chess|];
    [|apply notifies_throw].
  generalize (@nil string). revert chess.
  induction moves as [|m moves IH]; intros chess acc; simpl.
  - apply notifies_ret.
  - destruct (chess_move chess m) as [[san chess']|]; [apply IH|].
    apply notifies_bind; [apply notifies_effect; intros; discriminate|].
    intros. apply notifies_ret.
Qed.

(** [emit] calls the subscribers, in their order, each with the data. *)
Lemma emit_eq (data : list AnalysisLine) (w : World) :
  emit data w =
  (Normal tt, fold_left (fun w' l => withLog (ListenerCall l data) w') (subscribers w) w).
Proof. unfold emit, bind, get. rewrite forEach_effect. reflexivity. Qed.

Lemma notifies_emit (data : list AnalysisLine) : Notifies (emit data).
Proof.
  intros w. rewrite emit_eq. simpl. unfold subscribers at 1. rewrite log_all_this.
  split; [reflexivity|]. eexists. split; [apply log_all_log|].
  intros l d H. apply in_map_iff in H. destruct H as (l' & Heq & Hin).
  inversion Heq; subst. exact Hin.
Qed.

Lemma notifies_log {A} (c : M A) :
  (forall w, this (snd (c w)) = this w /\
             exists efs, log (snd (c w)) = log w ++ efs /\
                         forallb (fun ef => negb (isListenerCall ef)) efs = true) ->
  Notifies c.
Proof.
  intros Hc w. destruct (Hc w) as (Ht & efs & Hl & Hno). unfold subscribers. rewrite Ht.
  split; [reflexivity|]. exists efs. split; [exact Hl|].
  intros l d H. rewrite forallb_forall in Hno. specialize (Hno _ H). discriminate Hno.
Qed.

Ltac notifies_prim :=
  apply notifies_log; intros ?; split; [reflexivity|];
  first [ exists (@nil Effect); split; [symmetry; apply app_nil_r | reflexivity]
        | eexists [_]; split; reflexivity ].

Lemma notifies_Worker_new (url : string) : Notifies (Worker_new url).
Proof. notifies_prim. Qed.

Lemma notifies_Worker_terminate (id : nat) : Notifies (Worker_terminate id).
Proof. notifies_prim. Qed.

Lemma notifies_addEventListener (id : nat) (l : MessageListener) :
  Notifies (addEventListener id l).
Proof. notifies_prim. Qed.

Lemma notifies_removeMessageHandler (id p : nat) : Notifies (removeMessageHandler id p).
Proof. notifies_prim. Qed.

Lemma notifies_setTimeout (c : TimerCallback) (ms : Z) : Notifies (setTimeout c ms).
Proof. notifies_prim. Qed.

Lemma notifies_clearTimeout (t : nat) : Notifies (clearTimeout t).
Proof. notifies_prim. Qed.

Lemma notifies_resolve (p : nat) (v : list AnalysisLine) : Notifies (resolve p v).
Proof. notifies_prim. Qed.

Lemma notifies_reject (p : nat) (m : string) : Notifies (reject p m).
Proof. notifies_prim. Qed.

Ltac notifies :=
  repeat first
    [ apply notifies_ret | apply notifies_throw | apply notifies_get
    | apply notifies_getWorld | apply notifies_when
    | apply notifies_ifTruthy; intros ?
    | apply notifies_emit | apply notifies_convertMovesToSAN
    | apply notifies_Worker_new | apply notifies_Worker_terminate
    | apply notifies_addEventListener | apply notifies_removeMessageHandler
    | apply notifies_setTimeout | apply notifies_clearTimeout
    | apply notifies_resolve | apply notifies_reject
    | apply notifies_put; intros ?; reflexivity
    | apply notifies_effect; intros ? ?; discriminate
    | apply notifies_bind; [|intros ?]
    | match goal with
      | |- Notifies (match ?x with _ => _ end) => destruct x
      end ].

Lemma notifies__sendCommand (command : string) : Notifies (_sendCommand command).
Proof. unfold _sendCommand. notifies. Qed.

Lemma notifies__setOptions (options : StockfishOptions) : Notifies (_setOptions options).
Proof. unfold _setOptions, _sendCommand. notifies. Qed.

Lemma notifies_terminate : Notifies terminate.
Proof. unfold terminate, _sendCommand. notifies. Qed.

Lemma notifies__handleStockfishMessage (message : string) (options : StockfishOptions) :
  Notifies (_handleStockfishMessage message options).
Proof.
  unfold _handleStockfishMessage.
  destruct (String.eqb message "uciok");
    [apply notifies_bind; [notifies | intros; apply notifies__setOptions]|].
  destruct (JS.startsWith message "bestmove");
    [apply notifies_bind; [notifies | intros; apply notifies_when, notifies_terminate]|].
  notifies.
Qed.

Lemma notifies__initializeWorker (options : StockfishOptions) :
  Notifies (_initializeWorker options).
Proof. unfold _initializeWorker, createObjectURL, _sendCommand. notifies. Qed.

Lemma notifies_checkUciOkStream : Notifies checkUciOkStream.
Proof. unfold checkUciOkStream, _sendCommand. notifies. Qed.

Lemma notifies_checkUciOkEvaluate (options : StockfishOptions) :
  Notifies (checkUciOkEvaluate options).
Proof. unfold checkUciOkEvaluate, _sendCommand. notifies. Qed.

Lemma notifies_startAnalysis (options : StockfishOptions) :
  Notifies (startAnalysis options).
Proof.
  unfold startAnalysis.
  apply notifies_bind; [notifies|]. intros m.
  destruct (negb (EngineMode_eqb m idle)); [notifies|].
  apply notifies_bind; [notifies|]. intros.
  apply notifies_bind; [apply notifies__initializeWorker|]. intros.
  apply notifies_bind; [notifies|]. intros. apply notifies_checkUciOkStream.
Qed.

Lemma notifies_stopAnalysis : Notifies stopAnalysis.
Proof. unfold stopAnalysis, _sendCommand. notifies. Qed.

Lemma notifies_timeoutCallback (p : nat) (timeoutMs : Z) :
  Notifies (timeoutCallback p timeoutMs).
Proof.
  unfold timeoutCallback.
  apply notifies_bind; [apply notifies_terminate|]. intros. notifies.
Qed.

Lemma notifies_messageHandler (p t : nat) (data : string) :
  Notifies (messageHandler p t data).
Proof.
  unfold messageHandler. apply notifies_when.
  apply notifies_bind; [notifies|]. intros.
  apply notifies_bind; [notifies|]. intros sf.
  apply notifies_bind; [destruct sf; notifies|]. intros.
  apply notifies_bind; [notifies|]. intros.
  apply notifies_bind; [notifies|]. intros.
  apply notifies_bind; [apply notifies_terminate|]. intros. notifies.
Qed.

Lemma notifies_Promise_new (executor : nat -> M unit) :
  (forall p, Notifies (executor p)) -> Notifies (Promise_new executor).
Proof.
  intros He w. unfold Promise_new.
  set (w1 := withPromises (fun ps => ps ++ [Pending]) w).
  destruct (He (List.length (promises w)) w1) as (Hs & efs & Hl & Hin).
  destruct (executor (List.length (promises w)) w1) as [[a|m] w2]; simpl in *.
  - split; [exact Hs|]. exists efs. auto.
  - split; [exact Hs|]. exists (efs ++ [Reject (List.length (promises w)) m]). split.
    + rewrite Hl, app_assoc. reflexivity.
    + intros l d H. apply in_app_or in H. destruct H as [H|[H|[]]]; [eauto | discriminate].
Qed.

Lemma notifies_evaluatePosition (options : StockfishOptions) :
  Notifies (evaluatePosition options).
Proof.
  unfold evaluatePosition. apply notifies_Promise_new. intros p.
  apply notifies_bind; [notifies|]. intros m.
  destruct (negb (EngineMode_eqb m idle)); [notifies|].
  apply notifies_bind; [notifies|]. intros.
  apply notifies_bind; [apply notifies__initializeWorker|]. intros.
  apply notifies_bind; [notifies|]. intros.
  apply notifies_bind; [notifies|]. intros.
  apply notifies_bind; [notifies|]. intros sf.
  apply notifies_bind; [destruct sf; notifies|]. intros.
  apply notifies_checkUciOkEvaluate.
Qed.

Lemma notifies_task {A} (c : M A) (w : World) :
  Notifies c ->
  subscribers (task c w) = subscribers w /\
  exists efs, log (task c w) = log w ++ efs /\
              forall l data, In (ListenerCall l data) efs -> In l (subscribers w).
Proof.
  intros Hc. unfold task. destruct (Hc w) as (Hs & efs & Hl & Hin).
  destruct (c w) as [[a|m] w']; simpl in *.
  - split; [exact Hs|]. exists efs. auto.
  - split; [exact Hs|]. exists (efs ++ [Uncaught m]). split.
    + rewrite Hl, app_assoc. reflexivity.
    + intros l d H. apply in_app_or in H. destruct H as [H|[H|[]]]; [eauto | discriminate].
Qed.

Lemma notifies_dispatch (ls : list MessageListener) (data : string) (w : World) :
  subscribers (dispatch ls data w) = subscribers w /\
  exists efs, log (dispatch ls data w) = log w ++ efs /\
              forall l d, In (ListenerCall l d) efs -> In l (subscribers w).
Proof.
  unfold dispatch. revert w. induction ls as [|x ls IH]; intros w; simpl.
  - split; [reflexivity|]. exists []. rewrite app_nil_r. split; [reflexivity|]. intros l d [].
  - assert (Hx : Notifies (callListener x data)).
    { destruct x; simpl;
        [apply notifies__handleStockfishMessage | apply notifies_messageHandler]. }
    destruct (notifies_task _ w Hx) as (Hs & efs & Hl & Hin).
    destruct (IH (task (callListener x data) w)) as (Hs' & efs' & Hl' & Hin').
    split; [congruence|]. exists (efs ++ efs'). split.
    + rewrite Hl', Hl, app_assoc. reflexivity.
    + intros l d H. apply in_app_or in H. destruct H as [H|H]; [eauto|].
      rewrite <- Hs. eauto.
Qed.

End Notifications.

Section Subscriptions.
Context {rules : RulesEngine}.

Lemma lookup_assign (ls : EventEmitter.t) (event : string) (v : list Listener) :
  EventEmitter.lookup (EventEmitter.assign ls event v) event = Some v.
Proof.
  induction ls as [|[e l] ls IH]; simpl.
  - rewrite String.eqb_refl. reflexivity.
  - destruct (String.eqb e event) eqn:He; simpl; rewrite He; [reflexivity | exact IH].
Qed.

Lemma emit_on (ls : EventEmitter.t) (event : string) (l : Listener) :
  EventEmitter.emit (EventEmitter.on ls event l) event = EventEmitter.emit ls event ++ [l].
Proof.
  unfold EventEmitter.emit, EventEmitter.on.
  destruct (EventEmitter.lookup ls event); rewrite lookup_assign; reflexivity.
Qed.

Lemma emit_off (ls : EventEmitter.t) (event : string) (l : Listener) :
  EventEmitter.emit (EventEmitter.off ls event l) event =
  filter (fun l' => negb (Nat.eqb l' l)) (EventEmitter.emit ls event).
Proof.
  unfold EventEmitter.emit, EventEmitter.off.
  destruct (EventEmitter.lookup ls event) eqn:H; [rewrite lookup_assign | rewrite H];
    reflexivity.
Qed.

(** What a step appends to the log, and whom it notifies. *)
Lemma step_log (w : World) (ev : Event) :
  exists efs, log (step w ev) = log w ++ efs /\
              forall l d, In (ListenerCall l d) efs -> In l (subscribers w).
Proof.
  assert (Hnil : exists efs : list Effect, log w = log w ++ efs /\
                   forall l d, In (ListenerCall l d) efs -> In l (subscribers w)).
  { exists []. rewrite app_nil_r. split; [reflexivity | intros l d []]. }
  destruct ev; simpl.
  - apply notifies_task, notifies_evaluatePosition.
  - apply notifies_task, notifies_startAnalysis.
  - apply notifies_task, notifies_stopAnalysis.
  - apply notifies_task, notifies_terminate.
  - exact Hnil.
  - exact Hnil.
  - destruct (chess_move (game (this w)) move) as [[san b]|]; [exact Hnil|].
    exists [Uncaught "Invalid move"]. split; [reflexivity|].
    intros l d [H|[]]. discriminate H.
  - apply notifies_task, notifies_convertMovesToSAN.
  - destruct (nth_error (workers w) wk) as [worker|]; [|exact Hnil].
    destruct (alive worker); [|exact Hnil]. apply notifies_dispatch.
  - destruct (nth_error (workers w) wk) as [worker|]; [|exact Hnil].
    destruct (alive worker); [|exact Hnil].
    apply notifies_task. unfold onerror.
    apply notifies_bind; [apply notifies_effect; intros; discriminate|].
    intros. apply notifies_terminate.
  - destruct (findTimer (timers w) t) as [callback|]; [|exact Hnil].
    set (w0 := withTimers _ _ w).
    change (log w) with (log w0). change (subscribers w) with (subscribers w0).
    apply notifies_task. destruct callback; simpl.
    + apply notifies_timeoutCallback.
    + apply notifies_checkUciOkEvaluate.
    + apply notifies_checkUciOkStream.
Qed.

(** How a step changes the subscriptions. *)
Lemma step_subscribers (w : World) (ev : Event) :
  subscribers (step w ev) =
  match ev with
  | Call_on l => subscribers w ++ [l]
  | Call_off l => filter (fun l' => negb (Nat.eqb l' l)) (subscribers w)
  | _ => subscribers w
  end.
Proof.
  destruct ev; simpl.
  - apply notifies_task, notifies_evaluatePosition.
  - apply notifies_task, notifies_startAnalysis.
  - apply notifies_task, notifies_stopAnalysis.
  - apply notifies_task, notifies_terminate.
  - unfold subscribers. simpl. apply emit_on.
  - unfold subscribers. simpl. apply emit_off.
  - destruct (chess_move (game (this w)) move) as [[san b]|]; reflexivity.
  - apply notifies_task, notifies_convertMovesToSAN.
  - destruct (nth_error (workers w) wk) as [worker|]; [|reflexivity].
    destruct (alive worker); [|reflexivity]. apply notifies_dispatch.
  - destruct (nth_error (workers w) wk) as [worker|]; [|reflexivity].
    destruct (alive worker); [|reflexivity].
    apply notifies_task. unfold onerror.
    apply notifies_bind; [apply notifies_effect; intros; discriminate|].
    intros. apply notifies_terminate.
  - destruct (findTimer (timers w) t) as [callback|]; [|reflexivity].
    set (w0 := withTimers _ _ w).
    change (subscribers w) with (subscribers w0).
    apply notifies_task. destruct callback; simpl.
    + apply notifies_timeoutCallback.
    + apply notifies_checkUciOkEvaluate.
    + apply notifies_checkUciOkStream.
Qed.

(** X1 — [on("analysis", l)] puts the listener [l] at the end of the
    subscribers, also when it is subscribed already; [off("analysis", l)]
    takes every subscription of [l] away and leaves the others in their
    order; and nothing else that happens on the page (a request, a message
    or an error of a worker, a timer, [stopAnalysis], [terminate], a move,
    [convertMovesToSAN]) changes the subscribers. *)
Theorem subscriptions_change_only_by_on_and_off (w : World) (l : Listener) :
  subscribers (step w (Call_on l)) = subscribers w ++ [l] /\
  subscribers (step w (Call_off l))
    = filter (fun l' => negb (Nat.eqb l' l)) (subscribers w) /\
  forall ev, (forall l', ev <> Call_on l' /\ ev <> Call_off l') ->
             subscribers (step w ev) = subscribers w.
Proof.
  split; [apply (step_subscribers w (Call_on l))|].
  split; [apply (step_subscribers w (Call_off l))|].
  intros ev Hev. rewrite step_subscribers.
  destruct ev; try reflexivity.
  - destruct (Hev listener) as [H _]. congruence.
  - destruct (Hev listener) as [_ H]. congruence.
Qed.

Lemma steps_not_notified (w : World) (l : Listener) (evs : list Event) :
  ~ In l (subscribers w) -> ~ In (Call_on l) evs ->
  exists efs, log (steps w evs) = log w ++ efs /\
              forall d, ~ In (ListenerCall l d) efs.
Proof.
  revert w. induction evs as [|ev evs IH]; intros w Hl Hon.
  - exists []. rewrite app_nil_r. split; [reflexivity | intros d []].
  - change (steps w (ev :: evs)) with (steps (step w ev) evs).
    destruct (step_log w ev) as (efs & Hlog & Hin).
    assert (Hl' : ~ In l (subscribers (step w ev))).
    { rewrite step_subscribers. destruct ev; try exact Hl.
      - rewrite in_app_iff. intros [H|[H|[]]]; [exact (Hl H)|].
        subst listener. apply Hon. left. reflexivity.
      - intros H. apply filter_In in H. destruct H as [H _]. exact (Hl H). }
    destruct (IH (step w ev) Hl') as (efs' & Hlog' & Hin').
    { intros H. apply Hon. right. exact H. }
    exists (efs ++ efs'). split.
    + rewrite Hlog', Hlog, app_assoc. reflexivity.
    + intros d H. apply in_app_or in H. destruct H as [H|H].
      * exact (Hl (Hin l d H)).
      * exact (Hin' d H).
Qed.

(** X2 — After [off("analysis", l)] the listener [l] is not called any
    more, whatever happens on the page, as long as it is not subscribed
    again; and a listener that was never subscribed is never called. *)
Theorem unsubscribed_listener_is_not_notified
        (w : World) (l : Listener) (evs : list Event) :
  ~ In (Call_on l) evs ->
  let w1 := step w (Call_off l) in
  (forall data,
      ~ In (ListenerCall l data) (skipn (List.length (log w1)) (log (steps w1 evs)))) /\
  (forall e data, ~ In (ListenerCall l data) (log (steps (newWorld e) evs))).
Proof.
  intros Hon w1. split.
  - assert (Hl : ~ In l (subscribers w1)).
    { subst w1. rewrite step_subscribers. intros H. apply filter_In in H.
      destruct H as [_ H]. rewrite Nat.eqb_refl in H. discriminate H. }
    destruct (steps_not_notified w1 l evs Hl Hon) as (efs & Hlog & Hin).
    intros data. rewrite Hlog, skipn_length_app. apply Hin.
  - intros e data.
    destruct (steps_not_notified (newWorld e) l evs) as (efs & Hlog & Hin);
      [intros [] | exact Hon |].
    rewrite Hlog. simpl. apply Hin.
Qed.

End Subscriptions.

Section SessionEvents.
Context {rules : RulesEngine}.

Lemma bestmove_not_uciok (data : string) :
  JS.startsWith data "bestmove" = true -> String.eqb data "uciok" = false.
Proof.
  destruct data as [|c data]; [discriminate|].
  destruct c as [[] [] [] [] [] [] [] []]; simpl; intros H;
    (discriminate H || reflexivity).
Qed.

Lemma messageHandler_other (p t : nat) (data : string) (w : World) :
  JS.startsWith data "bestmove" = false -> messageHandler p t data w = (Normal tt, w).
Proof. intros Hb. unfold messageHandler. rewrite Hb. reflexivity. Qed.

Lemma step_message (w : World) (wk : nat) (worker : Worker) (data : string) :
  nth_error (workers w) wk = Some worker -> alive worker = true ->
  step w (WorkerMessage wk data) = dispatch (messageListeners worker) data w.
Proof. intros Hn Ha. simpl. rewrite Hn, Ha. reflexivity. Qed.

Lemma dispatch_one (l : MessageListener) (data : string) (w : World) :
  dispatch [l] data w = task (callListener l data) w.
Proof. reflexivity. Qed.

Lemma dispatch_two (l1 l2 : MessageListener) (data : string) (w : World) :
  dispatch [l1; l2] data w = task (callListener l2 data) (task (callListener l1 data) w).
Proof. reflexivity. Qed.

Lemma task_normal {A} (c : M A) (w w' : World) (a : A) :
  c w = (Normal a, w') -> task c w = w'.
Proof. intros H. unfold task. rewrite H. reflexivity. Qed.

(** A line that is no completion signal goes to the line handler only. *)
Lemma step_line (e : Env) (w : World) (wk : nat) (data : string) :
  Reachable e w -> stockfish (this w) = Some wk ->
  JS.startsWith data "bestmove" = false ->
  exists options, step w (WorkerMessage wk data)
                  = task (_handleStockfishMessage data options) w.
Proof.
  intros Hr Hsf Hb.
  destruct (wired_worker w (Reachable_Wired e w Hr) wk Hsf) as (worker & Hn & Ha & Hw).
  rewrite (step_message w wk worker data Hn Ha).
  unfold wiredAs in Hw. destruct (mode (this w)); [destruct Hw | |].
  - destruct Hw as (o & p & t & ms & Hl & _). exists o. rewrite Hl, dispatch_two.
    apply (task_normal _ _ _ tt). apply (messageHandler_other p t data _ Hb).
  - destruct Hw as (o & Hl). exists o. rewrite Hl. reflexivity.
Qed.

Lemma wiring_line (message : string) (options : StockfishOptions) (w : World) :
  JS.startsWith message "bestmove" = false ->
  wiring (task (_handleStockfishMessage message options) w) = wiring w.
Proof.
  intros Hb. rewrite keeps_task by reflexivity.
  destruct (String.eqb message "uciok") eqn:Hu.
  - apply String.eqb_eq in Hu. subst message. rewrite _handleStockfishMessage_uciok.
    rewrite keeps_wiring__setOptions. reflexivity.
  - apply keeps_wiring_info; assumption.
Qed.

Lemma filter_isListenerCall_map (ls : list Listener) (data : list AnalysisLine) :
  filter isListenerCall (map (fun l => ListenerCall l data) ls)
  = map (fun l => ListenerCall l data) ls.
Proof. induction ls as [|l ls IH]; simpl; [|rewrite IH]; reflexivity. Qed.

(** X3 — When the worker of the controller posts a line that carries a
    rank update, the update is stored in the slot of its rank, and the
    subscribers are called, once per subscription and in the order of the
    subscriptions, all with the same snapshot: the array of the session
    after the update, without its holes.  The workers, the timers, the
    promises, the mode, the subscriptions, the public [lines] and the
    position of the game stay as they are. *)
Theorem rank_update_notifies_every_subscriber
        (e : Env) (w : World) (wk : nat) (message : string) (u : Z * AnalysisLine) :
  Reachable e w -> stockfish (this w) = Some wk ->
  parsedUpdate (this w) message = Some u ->
  let w' := step w (WorkerMessage wk message) in
  analysisLines (this w') = store (analysisLines (this w)) u /\
  filter isListenerCall (skipn (List.length (log w)) (log w'))
    = map (fun l => ListenerCall l (JSArray.filterBoolean (analysisLines (this w'))))
          (subscribers w) /\
  wiring w' = wiring w /\ subscribers w' = subscribers w /\
  lines (this w') = lines (this w) /\ game (this w') = game (this w).
Proof.
  intros Hr Hsf Hp w'. unfold parsedUpdate in Hp.
  destruct (String.eqb message "uciok") eqn:Hu; [discriminate|].
  destruct (JS.startsWith message "bestmove") eqn:Hb; [discriminate|].
  destruct (Regex.search multipvPattern message) as [cs|] eqn:Hs; [|discriminate].
  destruct (Chess_new (chess_fen (game (this w)))) as [chess|] eqn:Hc; [|discriminate].
  inversion Hp; subst u; clear Hp.
  destruct (step_line e w wk message Hr Hsf Hb) as (o & Hstep).
  assert (Hw : wiring w' = wiring w).
  { subst w'. rewrite Hstep. apply wiring_line. exact Hb. }
  subst w'. rewrite Hstep in *. clear Hstep.
  apply String.eqb_neq in Hu. unfold task in *.
  rewrite (_handleStockfishMessage_match w message o cs chess Hu Hb Hs Hc) in *.
  simpl. rewrite log_all_this, log_all_log. simpl.
  split; [reflexivity|]. split; [|split; [exact Hw|]].
  - unfold logCaught.
    destruct (snd (translate chess (JS.splitWs (JS.trim (group 4 cs))))); simpl.
    + rewrite <- app_assoc, skipn_length_app. simpl. apply filter_isListenerCall_map.
    + rewrite skipn_length_app. apply filter_isListenerCall_map.
  - unfold subscribers. rewrite log_all_this. simpl. rewrite !logCaught_this.
    repeat split; reflexivity.
Qed.

Lemma keeps_lines_terminate : Keeps publicLines terminate.
Proof. unfold terminate, _sendCommand. keeps. Qed.

Lemma keeps_analysisLines_terminate : Keeps (fun w => analysisLines (this w)) terminate.
Proof. unfold terminate, _sendCommand. keeps. Qed.

(** The completion signal in a one-shot session. *)
Lemma bestmove_completes
      (w : World) (wk : nat) (worker : Worker) (options : StockfishOptions)
      (p t : nat) (data : string) :
  nth_error (workers w) wk = Some worker -> alive worker = true ->
  messageListeners worker = [HandleStockfishMessage options; MessageHandler p t] ->
  mode (this w) = evaluate ->
  nth_error (promises w) p = Some Pending ->
  JS.startsWith data "bestmove" = true ->
  let final := JSArray.filterBoolean (analysisLines (this w)) in
  let w' := step w (WorkerMessage wk data) in
  nth_error (promises w') p = Some (Resolved final) /\
  (forall q, q <> p -> nth_error (promises w') q = nth_error (promises w) q) /\
  lines (this w') = final /\
  skipn (List.length (log w)) (log w')
    = ClearTimeout t :: teardownEffects (this w) ++ [Resolve p final] /\
  timers w' = filter (fun x => negb (Nat.eqb (fst x) t)) (timers w) /\
  stockfish (this w') = None /\
  (forall u, stockfishWorkerUrl (this w') = Some u -> JS.startsWith u "blob:" = false) /\
  isuciok (this w') = false /\ mode (this w') = idle.
Proof.
  intros Hn Ha Hl Hm Hp Hb final w'.
  assert (Hstep : w' = snd (messageHandler p t data w)).
  { subst w'. rewrite (step_message w wk worker data Hn Ha), Hl, dispatch_two.
    assert (H1 : task (callListener (HandleStockfishMessage options) data) w = w).
    { apply (task_normal _ w w tt). simpl.
      rewrite (_handleStockfishMessage_bestmove w data options
                 (bestmove_not_uciok _ Hb) Hb).
      rewrite Hm. reflexivity. }
    rewrite H1. unfold task. simpl callListener.
    rewrite (messageHandler_bestmove w p t data Hb). reflexivity. }
  rewrite (messageHandler_bestmove w p t data Hb) in Hstep. fold final in Hstep.
  set (w0 := after (clearTimeout t) w) in Hstep.
  set (wr := match stockfish (this w) with
             | Some wk0 => after (removeMessageHandler wk0 p) w0
             | None => w0
             end) in Hstep.
  set (wl := withThis (set_lines final) wr) in Hstep.
  assert (Hwr : this wr = this w /\ promises wr = promises w /\
                timers wr = filter (fun x => negb (Nat.eqb (fst x) t)) (timers w) /\
                log wr = log w ++ [ClearTimeout t]).
  { subst wr w0. destruct (stockfish (this w)); repeat split; reflexivity. }
  destruct Hwr as (Hthis & Hps & Hts & Hlog).
  destruct (quiet_terminate wl) as (Ht' & _ & Hp' & _).
  destruct (terminate_state wl) as (Hsf & Hurl & Hok & Hmode).
  fold (after terminate wl) in Ht', Hp'.
  rewrite Hstep. unfold resolve. simpl.
  split.
  { rewrite Hp'. subst wl. simpl. rewrite Hps. unfold settle.
    rewrite (nth_error_updateNth_same _ _ _ _ Hp). reflexivity. }
  split.
  { intros q Hq. rewrite Hp'. subst wl. simpl. rewrite Hps. unfold settle.
    apply nth_error_updateNth_other. congruence. }
  split.
  { exact (keeps_lines_terminate wl). }
  split.
  { rewrite terminate_log. subst wl. simpl. rewrite Hlog, Hthis.
    rewrite <- !app_assoc. rewrite skipn_length_app. reflexivity. }
  split.
  { rewrite Ht'. subst wl. simpl. exact Hts. }
  repeat split; assumption.
Qed.

(** X4 — When the worker posts a line that starts with [bestmove] during a
    one-shot evaluation, a pending promise is resolved with the lines
    accumulated so far, without the holes, and the public [lines] become
    the same list; the time-out of the request is cleared, so that it
    cannot fire later; the worker is released and the controller is idle
    again.  No other promise changes. *)
Theorem completion_resolves_with_the_accumulated_lines
        (e : Env) (w : World) (wk : nat) (data : string) :
  Reachable e w -> stockfish (this w) = Some wk -> mode (this w) = evaluate ->
  JS.startsWith data "bestmove" = true ->
  let final := JSArray.filterBoolean (analysisLines (this w)) in
  let w' := step w (WorkerMessage wk data) in
  exists p t,
    nth_error (promises w) p = Some Pending /\
    nth_error (promises w') p = Some (Resolved final) /\
    (forall q, q <> p -> nth_error (promises w') q = nth_error (promises w) q) /\
    lines (this w') = final /\
    skipn (List.length (log w)) (log w')
      = ClearTimeout t :: teardownEffects (this w) ++ [Resolve p final] /\
    NoTimeoutFor (timers w') p /\
    stockfish (this w') = None /\ isuciok (this w') = false /\ mode (this w') = idle.
Proof.
  intros Hr Hsf Hm Hb final w'.
  assert (HI := Reachable_Inv e w Hr).
  destruct (wired_worker w (Reachable_Wired e w Hr) wk Hsf) as (worker & Hn & Ha & Hw).
  unfold wiredAs in Hw. rewrite Hm in Hw. destruct Hw as (o & p & t & ms & Hl & Hin).
  assert (Hp := inv_timeout_pending w HI _ _ _ Hin).
  destruct (bestmove_completes w wk worker o p t data Hn Ha Hl Hm Hp Hb)
    as (H1 & H2 & H3 & H4 & H5 & H6 & _ & H8 & H9).
  exists p, t. fold final w' in H1, H2, H3, H4, H5, H6, H8, H9.
  repeat split; try assumption.
  rewrite H5. exact (NoTimeoutFor_fired w t p ms HI Hin).
Qed.

(** X5 — In a streaming session [stopAnalysis()] does nothing but post
    [stop] to the worker: the session is still on.  It ends when the worker
    posts a line that starts with [bestmove]: the worker is released (quit,
    terminate, the object URL revoked) and the controller is idle again; no
    promise is settled, no timer is touched, and the public [lines], the
    accumulated lines and the subscriptions stay as they are. *)
Theorem streaming_session_ends_on_the_completion_signal
        (e : Env) (w : World) (wk : nat) (data : string) :
  Reachable e w -> stockfish (this w) = Some wk -> mode (this w) = stream ->
  JS.startsWith data "bestmove" = true ->
  step w Call_stopAnalysis = withLog (PostMessage wk "stop") w /\
  let w' := step w (WorkerMessage wk data) in
  skipn (List.length (log w)) (log w') = teardownEffects (this w) /\
  stockfish (this w') = None /\ isuciok (this w') = false /\ mode (this w') = idle /\
  promises w' = promises w /\ timers w' = timers w /\
  lines (this w') = lines (this w) /\
  analysisLines (this w') = analysisLines (this w) /\
  subscribers w' = subscribers w.
Proof.
  intros Hr Hsf Hm Hb. split.
  { clear Hr Hb. destruct w as [en [g l sf em al url ok m] ws ts nt ps lg].
    simpl in *. subst sf m. reflexivity. }
  intros w'.
  destruct (wired_worker w (Reachable_Wired e w Hr) wk Hsf) as (worker & Hn & Ha & Hw).
  unfold wiredAs in Hw. rewrite Hm in Hw. destruct Hw as (o & Hl).
  assert (Hstep : w' = after terminate w).
  { subst w'. rewrite (step_message w wk worker data Hn Ha), Hl, dispatch_one.
    unfold task. simpl callListener.
    rewrite (_handleStockfishMessage_bestmove w data o (bestmove_not_uciok _ Hb) Hb).
    rewrite Hm. simpl. unfold after. assert (Ht := terminate_normal w).
    destruct (terminate w) as [[a|m] w1]; simpl in *; [reflexivity | discriminate]. }
  rewrite Hstep.
  destruct (quiet_terminate w) as (Ht' & _ & Hp' & _).
  destruct (terminate_state w) as (Hsf' & _ & Hok & Hmode).
  split; [rewrite terminate_log; apply skipn_length_app|].
  split; [exact Hsf'|]. split; [exact Hok|]. split; [exact Hmode|].
  split; [exact Hp'|]. split; [exact Ht'|].
  split; [apply keeps_lines_terminate|].
  split; [apply keeps_analysisLines_terminate|].
  apply notifies_terminate.
Qed.

End SessionEvents.

Section Lifecycle.
Context {rules : RulesEngine}.

(** X6 — The poll of [startAnalysis]: fired after the ready signal, it
    posts the position of the game and then [go infinite] to the worker,
    and is not set up again; fired before the ready signal, it posts
    nothing and sets itself up again, 50 ms later. *)
Theorem streaming_poll_sends_position_then_go_infinite
        (e : Env) (w : World) (t : nat) :
  Reachable e w ->
  In (t, CheckUciOkStream) (timers w) ->
  let w' := step w (TimerFires t) in
  let others := filter (fun x => negb (Nat.eqb (fst x) t)) (timers w) in
  (isuciok (this w) = true ->
   exists wk,
     stockfish (this w) = Some wk /\
     skipn (List.length (log w)) (log w') =
       [PostMessage wk ("position fen " ++ chess_fen (game (this w)));
        PostMessage wk "go infinite"] /\
     timers w' = others) /\
  (isuciok (this w) = false ->
   skipn (List.length (log w)) (log w') = [SetTimeout (nextTimer w) 50] /\
   timers w' = others ++ [(nextTimer w, CheckUciOkStream)]).
Proof.
  intros Hreach Hin w' others.
  assert (HI := Reachable_Inv e w Hreach).
  assert (HS := Reachable_Session e w Hreach).
  assert (Hf := In_findTimer _ _ _ (inv_timer_nodup w HI) Hin).
  set (w0 := withTimers (filter (fun x => negb (Nat.eqb (fst x) t))) (nextTimer w) w).
  assert (Hstep : w' = task checkUciOkStream w0).
  { subst w'. simpl. rewrite Hf. reflexivity. }
  split.
  - intros Hok.
    destruct (stockfish (this w)) as [wk|] eqn:Hsf;
      [|destruct (session_ready w HS Hok Hsf)].
    exists wk. split; [reflexivity|].
    rewrite Hstep. unfold task.
    rewrite (checkUciOkStream_ready w0 wk Hok Hsf). simpl.
    split; [|reflexivity].
    rewrite <- app_assoc. apply skipn_length_app.
  - intros Hok. rewrite Hstep. unfold task.
    rewrite (checkUciOkStream_waiting w0 Hok). simpl.
    split; [apply skipn_length_app | reflexivity].
Qed.

(** X7 — No request is left without an answer: in every state the page
    can reach, a promise of [evaluatePosition] that is still pending has
    its time-out pending, and when that time-out fires the promise is
    resolved, with the empty list. *)
Theorem pending_promise_is_resolved_by_its_timeout
        (e : Env) (w : World) (p : nat) :
  Reachable e w -> nth_error (promises w) p = Some Pending ->
  exists t ms,
    In (t, TimeoutCallback p ms) (timers w) /\
    nth_error (promises (step w (TimerFires t))) p = Some (Resolved []).
Proof.
  intros Hr Hp.
  assert (HI := Reachable_Inv e w Hr).
  destruct (armed_pending w (Reachable_Armed e w Hr) p Hp) as (t & ms & Hin).
  exists t, ms. split; [exact Hin|].
  assert (Hf := In_findTimer _ _ _ (inv_timer_nodup w HI) Hin).
  simpl. rewrite Hf.
  set (w0 := withTimers (filter (fun x => negb (Nat.eqb (fst x) t))) (nextTimer w) w).
  unfold task. simpl fire. rewrite timeoutCallback_eq. simpl.
  destruct (quiet_terminate w0) as (_ & _ & Hps & _).
  fold (after terminate w0) in Hps. rewrite Hps. unfold settle. subst w0. simpl.
  rewrite (nth_error_updateNth_same _ _ _ _ Hp). reflexivity.
Qed.

(** X8 — When the worker of the controller reports an error, the error is
    logged and the session is torn down (quit, terminate, the object URL
    revoked; the controller is idle again), but no promise is settled and
    no timer is cleared: the promise of a one-shot evaluation stays
    pending, with its time-out still to come. *)
Theorem worker_error_tears_down_and_settles_nothing
        (e : Env) (w : World) (wk : nat) :
  Reachable e w -> stockfish (this w) = Some wk ->
  let w' := step w (WorkerError wk) in
  skipn (List.length (log w)) (log w')
    = ConsoleError "Stockfish worker error:" :: teardownEffects (this w) /\
  stockfish (this w') = None /\ isuciok (this w') = false /\ mode (this w') = idle /\
  promises w' = promises w /\ timers w' = timers w /\
  (mode (this w) = evaluate ->
   exists p t ms, nth_error (promises w') p = Some Pending /\
                  In (t, TimeoutCallback p ms) (timers w')).
Proof.
  intros Hr Hsf w'.
  assert (HI := Reachable_Inv e w Hr).
  destruct (wired_worker w (Reachable_Wired e w Hr) wk Hsf) as (worker & Hn & Ha & Hw).
  set (w1 := withLog (ConsoleError "Stockfish worker error:") w).
  assert (Hstep : w' = after terminate w1).
  { subst w'. simpl. rewrite Hn, Ha. unfold task, onerror, bind, effect.
    fold w1. unfold after. assert (Ht := terminate_normal w1).
    destruct (terminate w1) as [[a|m] w2]; simpl in *; [reflexivity | discriminate]. }
  rewrite Hstep.
  destruct (quiet_terminate w1) as (Ht' & _ & Hp' & _).
  fold (after terminate w1) in Ht', Hp'.
  destruct (terminate_state w1) as (Hsf' & _ & Hok & Hmode).
  split.
  { rewrite terminate_log. subst w1. simpl. rewrite <- app_assoc.
    rewrite skipn_length_app. reflexivity. }
  split; [exact Hsf'|]. split; [exact Hok|]. split; [exact Hmode|].
  split; [exact Hp'|]. split; [exact Ht'|].
  intros Hm. unfold wiredAs in Hw. rewrite Hm in Hw.
  destruct Hw as (o & p & t & ms & _ & Hin).
  exists p, t, ms. rewrite Hp', Ht'. simpl.
  split; [exact (inv_timeout_pending w HI _ _ _ Hin) | exact Hin].
Qed.

(** X9 — In every state the page can reach, the workers that are alive are
    exactly the worker the controller holds: at most one worker runs, and
    every worker the controller has let go of has been terminated.  When
    the controller is idle it holds no worker, the ready flag is down, it
    retains no [blob:] URL, and no worker is alive. *)
Theorem one_worker_alive_and_none_when_idle (e : Env) (w : World) :
  Reachable e w ->
  (forall wk worker, nth_error (workers w) wk = Some worker ->
                     (alive worker = true <-> stockfish (this w) = Some wk)) /\
  (forall wk, stockfish (this w) = Some wk -> (wk < List.length (workers w))%nat) /\
  (mode (this w) = idle ->
   stockfish (this w) = None /\ isuciok (this w) = false /\
   (forall u, stockfishWorkerUrl (this w) = Some u -> JS.startsWith u "blob:" = false) /\
   forall worker, In worker (workers w) -> alive worker = false).
Proof.
  intros Hr.
  assert (HS := Reachable_Session e w Hr). assert (HW := Reachable_Wired e w Hr).
  split; [|split].
  - intros wk worker Hn. split; [apply (session_alive w HS wk worker Hn)|].
    intros Hsf. destruct (wired_worker w HW wk Hsf) as (worker' & Hn' & Ha & _).
    congruence.
  - intros wk Hsf. destruct (wired_worker w HW wk Hsf) as (worker & Hn & _).
    apply nth_error_Some. congruence.
  - intros Hm. assert (Hsf := session_idle w HS Hm).
    split; [exact Hsf|]. split.
    { destruct (isuciok (this w)) eqn:Hok; [|reflexivity].
      destruct (session_ready w HS Hok Hsf). }
    split; [exact (wired_released w HW Hsf)|].
    intros worker Hin. destruct (alive worker) eqn:Ha; [|reflexivity].
    apply In_nth_error in Hin. destruct Hin as (wk & Hn).
    rewrite (session_alive w HS wk worker Hn Ha) in Hsf. discriminate.
Qed.

(** X10 — A request made to an idle controller in a browser starts a
    session: one new worker is created, wired to the line handler (and,
    for [evaluatePosition], to the completion handler of a new pending
    promise, whose time-out is set), [uci] is posted to it and the poll is
    set up, 50 ms later, since the ready flag is down; the accumulated
    lines are emptied.  The worker is loaded from the URL of the options
    when there is one that is not empty; else from the URL the controller
    has kept; and only when there is none from a new object URL for the
    bundled engine. *)
Theorem accepted_request_starts_one_worker
        (e : Env) (w : World) (options : StockfishOptions) :
  Reachable e w -> mode (this w) = idle -> hasWorker (env w) = true ->
  step w (Call_startAnalysis options) = streamingFrom options w /\
  step w (Call_evaluatePosition options) = evaluatingFrom options w /\
  (forall u, stockfishUrl options = Some u -> u <> "" ->
             loadUrl options w = u /\ makesObjectUrl options w = false) /\
  (truthyString (stockfishUrl options) = false ->
   forall u, stockfishWorkerUrl (this w) = Some u -> u <> "" ->
             loadUrl options w = u /\ makesObjectUrl options w = false) /\
  (truthyString (stockfishUrl options) = false ->
   truthyString (stockfishWorkerUrl (this w)) = false ->
   loadUrl options w = ("blob:" ++ objectUrlId (env w))%string /\
   makesObjectUrl options w = true).
Proof.
  intros Hr Hm Hw.
  assert (Hsf := session_idle w (Reachable_Session e w Hr) Hm).
  split; [|split; [|split; [|split]]].
  - simpl. unfold task. rewrite (startAnalysis_accepted options w Hm Hsf Hw). reflexivity.
  - simpl. unfold task. rewrite (evaluatePosition_accepted options w Hm Hsf Hw).
    reflexivity.
  - intros u Hu Hne. apply String.eqb_neq in Hne.
    unfold loadUrl, makesObjectUrl. rewrite Hu. simpl. rewrite Hne. split; reflexivity.
  - intros Ho u Hu Hne. apply String.eqb_neq in Hne.
    unfold loadUrl, makesObjectUrl. rewrite Ho, Hu. simpl. rewrite Hne.
    split; reflexivity.
  - intros Ho Hu. unfold loadUrl, makesObjectUrl. rewrite Ho, Hu. split; reflexivity.
Qed.

(** X11 — Where there is no [window] or no [Worker], a request to an idle
    controller fails with the environment error: [startAnalysis] throws
    it, and the promise of [evaluatePosition] is rejected with it.  The
    mode has been set before the failure and stays set: the next request
    is refused as busy. *)
Theorem request_without_worker_support_fails
        (e : Env) (w : World) (options options' : StockfishOptions) :
  Reachable e w -> mode (this w) = idle -> hasWorker (env w) = false ->
  let p := List.length (promises w) in
  let ws := step w (Call_startAnalysis options) in
  let we := step w (Call_evaluatePosition options) in
  ws = withLog (Uncaught environmentMessage) (withThis (set_mode stream) w) /\
  we = withLog (Reject p environmentMessage)
         (withPromises (fun ps => ps ++ [Rejected environmentMessage])
            (withThis (set_mode evaluate) w)) /\
  nth_error (promises we) p = Some (Rejected environmentMessage) /\
  nth_error (promises (step we (Call_evaluatePosition options'))) (S p)
    = Some (Rejected busyMessage) /\
  step ws (Call_startAnalysis options') = withLog (ConsoleWarn busyMessage) ws.
Proof.
  intros Hr Hm Hw p ws we.
  assert (Hsf := session_idle w (Reachable_Session e w Hr) Hm).
  assert (Hs : ws = withLog (Uncaught environmentMessage) (withThis (set_mode stream) w)).
  { subst ws. simpl. unfold task.
    rewrite (startAnalysis_no_worker options w Hm Hsf Hw). reflexivity. }
  assert (He : we = withLog (Reject p environmentMessage)
                      (withPromises (fun ps => ps ++ [Rejected environmentMessage])
                         (withThis (set_mode evaluate) w))).
  { subst we. simpl. unfold task.
    rewrite (evaluatePosition_no_worker options w Hm Hsf Hw). reflexivity. }
  split; [exact Hs|]. split; [exact He|]. split; [|split].
  - rewrite He. simpl. subst p. apply nth_error_last.
  - assert (Hlen : S p = List.length (promises we)).
    { rewrite He. simpl. rewrite length_app. simpl. subst p. lia. }
    rewrite Hlen. simpl step. unfold task.
    rewrite evaluatePosition_busy by (rewrite He; discriminate).
    apply nth_error_last.
  - simpl. unfold task. rewrite startAnalysis_busy by (rewrite Hs; discriminate).
    reflexivity.
Qed.

End Lifecycle.

Section LoadUrl.
Context {rules : RulesEngine}.
Variable u : string.
Hypothesis u_not_empty : u <> "".
Hypothesis u_not_blob : JS.startsWith u "blob:" = false.

Lemma preserves_bind {A B} (P : World -> Prop) (c : M A) (k : A -> M B) :
  Preserves P c -> (forall a, Preserves P (k a)) -> Preserves P (bind c k).
Proof.
  intros Hc Hk w H. unfold bind. specialize (Hc w H).
  destruct (c w) as [[a|m] w']; simpl in *; [|exact Hc]. apply Hk. exact Hc.
Qed.

Lemma preserves_keeps {A} (c : M A) :
  Keeps (fun w => stockfishWorkerUrl (this w)) c -> Preserves (Retains u) c.
Proof. intros Hc w H. unfold Retains in *. rewrite Hc. exact H. Qed.

Lemma preserves_terminate : Preserves (Retains u) terminate.
Proof.
  intros w H. unfold Retains in *. fold (after terminate w). rewrite terminate_this, H.
  rewrite u_not_blob. exact H.
Qed.

Lemma preserves__initializeWorker (options : StockfishOptions) :
  truthyString (stockfishUrl options) = false ->
  Preserves (Retains u) (_initializeWorker options).
Proof.
  intros Ho w H. unfold Retains in *.
  assert (Ht : truthyString (Some u) = true).
  { simpl. apply String.eqb_neq in u_not_empty. rewrite u_not_empty. reflexivity. }
  destruct w as [en [g l sf em al url ok m] ws ts nt ps lg]. simpl in *. subst url.
  destruct sf as [wk|]; [exact eq_refl|].
  controller_simpl. destruct (hasWorker en); controller_simpl; [|reflexivity].
  rewrite Ho. controller_simpl. rewrite Ht. reflexivity.
Qed.

Ltac kept :=
  repeat first
    [ apply preserves_terminate
    | apply preserves_bind; [|intros ?]
    | match goal with
      | |- Preserves _ (match ?x with _ => _ end) => destruct x
      end
    | apply preserves_keeps; keeps ].

Lemma preserves__handleStockfishMessage (message : string) (options : StockfishOptions) :
  Preserves (Retains u) (_handleStockfishMessage message options).
Proof.
  unfold _handleStockfishMessage, _setOptions, _sendCommand, emit, when.
  destruct (String.eqb message "uciok"); [kept|].
  destruct (JS.startsWith message "bestmove"); kept.
Qed.

Lemma preserves_messageHandler (p t : nat) (data : string) :
  Preserves (Retains u) (messageHandler p t data).
Proof. unfold messageHandler, when. kept. Qed.

Lemma preserves_task {A} (c : M A) (w : World) :
  Preserves (Retains u) c -> Retains u w -> Retains u (task c w).
Proof.
  intros Hc H. unfold task. specialize (Hc w H).
  destruct (c w) as [[a|m] w']; exact Hc.
Qed.

Lemma preserves_dispatch (ls : list MessageListener) (data : string) (w : World) :
  Retains u w -> Retains u (dispatch ls data w).
Proof.
  unfold dispatch. revert w. induction ls as [|l ls IH]; intros w H; simpl; [exact H|].
  apply IH. apply preserves_task; [|exact H]. destruct l; simpl.
  - apply preserves__handleStockfishMessage.
  - apply preserves_messageHandler.
Qed.

Lemma preserves_startAnalysis (options : StockfishOptions) :
  truthyString (stockfishUrl options) = false -> Preserves (Retains u) (startAnalysis options).
Proof.
  intros Ho. unfold startAnalysis.
  apply preserves_bind; [kept|]. intros m.
  destruct (negb (EngineMode_eqb m idle)); [kept|].
  apply preserves_bind; [kept|]. intros.
  apply preserves_bind; [apply preserves__initializeWorker, Ho|]. intros.
  apply preserves_bind; [kept|]. intros.
  unfold checkUciOkStream, _sendCommand. kept.
Qed.

Lemma preserves_evaluatePosition (options : StockfishOptions) :
  truthyString (stockfishUrl options) = false ->
  Preserves (Retains u) (evaluatePosition options).
Proof.
  intros Ho w H. unfold evaluatePosition, Promise_new.
  set (p := List.length (promises w)).
  set (w1 := withPromises (fun ps => ps ++ [Pending]) w).
  match goal with
  | |- Retains u (snd (match ?c w1 with _ => _ end)) =>
      assert (Hc : Preserves (Retains u) c)
  end.
  { apply preserves_bind; [kept|]. intros m.
    destruct (negb (EngineMode_eqb m idle)); [kept|].
    apply preserves_bind; [kept|]. intros.
    apply preserves_bind; [apply preserves__initializeWorker, Ho|]. intros.
    apply preserves_bind; [kept|]. intros.
    apply preserves_bind; [kept|]. intros.
    apply preserves_bind; [kept|]. intros sf.
    apply preserves_bind; [destruct sf; kept|]. intros.
    unfold checkUciOkEvaluate, _sendCommand. kept. }
  specialize (Hc w1 H).
  match goal with
  | |- Retains u (snd (match ?x with _ => _ end)) => destruct x as [[a|m] w2]
  end; exact Hc.
Qed.

Lemma preserves_step (w : World) (ev : Event) :
  givesUrl ev = false -> Retains u w -> Retains u (step w ev).
Proof.
  intros Hev H. destruct ev; simpl in *.
  - apply preserves_task; [apply preserves_evaluatePosition, Hev | exact H].
  - apply preserves_task; [apply preserves_startAnalysis, Hev | exact H].
  - apply preserves_task; [|exact H]. unfold stopAnalysis, _sendCommand, when. kept.
  - apply preserves_task; [apply preserves_terminate | exact H].
  - exact H.
  - exact H.
  - destruct (chess_move (game (this w)) move) as [[san b]|]; exact H.
  - apply preserves_task; [|exact H]. kept.
  - destruct (nth_error (workers w) wk) as [worker|]; [|exact H].
    destruct (alive worker); [|exact H]. apply preserves_dispatch, H.
  - destruct (nth_error (workers w) wk) as [worker|]; [|exact H].
    destruct (alive worker); [|exact H].
    apply preserves_task; [|exact H]. unfold onerror. kept.
  - destruct (findTimer (timers w) t) as [callback|]; [|exact H].
    apply preserves_task; [|exact H]. destruct callback; simpl.
    + unfold timeoutCallback. kept.
    + unfold checkUciOkEvaluate, _sendCommand. kept.
    + unfold checkUciOkStream, _sendCommand. kept.
Qed.

Lemma preserves_steps (w : World) (evs : list Event) :
  forallb (fun ev => negb (givesUrl ev)) evs = true -> Retains u w -> Retains u (steps w evs).
Proof.
  revert w. induction evs as [|ev evs IH]; intros w Hevs H; [exact H|].
  simpl in Hevs. apply andb_prop in Hevs. destruct Hevs as [Hev Hevs].
  change (steps w (ev :: evs)) with (steps (step w ev) evs).
  apply IH; [exact Hevs|]. apply preserves_step; [|exact H].
  destruct (givesUrl ev); [discriminate | reflexivity].
Qed.

End LoadUrl.

Section LoadUrlTheorem.
Context {rules : RulesEngine}.

(** X12 — The URL of an engine of the caller's (not empty, and not a
    [blob:] URL), once the controller has it, survives whatever happens,
    teardowns included, as long as no request names an engine URL: every
    later request without [stockfishUrl] loads its worker from it, and
    makes no object URL. *)
Theorem custom_engine_url_is_kept_for_later_sessions
        (w : World) (u : string) (evs : list Event) :
  stockfishWorkerUrl (this w) = Some u -> u <> "" -> JS.startsWith u "blob:" = false ->
  forallb (fun ev => negb (givesUrl ev)) evs = true ->
  stockfishWorkerUrl (this (steps w evs)) = Some u /\
  forall options,
    truthyString (stockfishUrl options) = false ->
    loadUrl options (steps w evs) = u /\ makesObjectUrl options (steps w evs) = false.
Proof.
  intros Hu Hne Hb Hevs.
  assert (H := preserves_steps u Hne Hb w evs Hevs Hu). unfold Retains in H.
  split; [exact H|].
  intros options Ho. apply String.eqb_neq in Hne.
  unfold loadUrl, makesObjectUrl. rewrite Ho, H. simpl. rewrite Hne. split; reflexivity.
Qed.

End LoadUrlTheorem.

Section PublicLines.
Context {rules : RulesEngine}.

Lemma keeps_lines__handleStockfishMessage (message : string) (options : StockfishOptions) :
  Keeps publicLines (_handleStockfishMessage message options).
Proof.
  unfold _handleStockfishMessage, _setOptions, terminate, _sendCommand, emit.
  destruct (String.eqb message "uciok"); [keeps|].
  destruct (JS.startsWith message "bestmove"); keeps.
Qed.

Lemma keeps_lines__initializeWorker (options : StockfishOptions) :
  Keeps publicLines (_initializeWorker options).
Proof.
  unfold _initializeWorker, createObjectURL, _sendCommand.
  apply keeps_bind; [keeps|]. intros sf. destruct sf; [keeps|].
  apply keeps_bind; [keeps|]. intros browser. destruct (negb browser); [keeps|].
  apply keeps_bind.
  { destruct (truthyString (stockfishUrl options)); [keeps|].
    apply keeps_bind; [keeps|]. intros url.
    destruct (negb (truthyString url)); keeps. }
  intros. keeps.
Qed.

Lemma keeps_lines_poll (callback : TimerCallback) :
  Keeps publicLines (fire callback).
Proof.
  destruct callback; simpl;
    unfold timeoutCallback, checkUciOkEvaluate, checkUciOkStream, terminate, _sendCommand;
    keeps.
Qed.

Lemma keeps_lines_startAnalysis (options : StockfishOptions) :
  Keeps publicLines (startAnalysis options).
Proof.
  unfold startAnalysis.
  apply keeps_bind; [keeps|]. intros m.
  destruct (negb (EngineMode_eqb m idle)); [keeps|].
  apply keeps_bind; [keeps|]. intros.
  apply keeps_bind; [apply keeps_lines__initializeWorker|]. intros.
  apply keeps_bind; [keeps|]. intros.
  unfold checkUciOkStream, _sendCommand. keeps.
Qed.

Lemma keeps_lines_evaluatePosition (options : StockfishOptions) :
  Keeps publicLines (evaluatePosition options).
Proof.
  intros w. unfold evaluatePosition, Promise_new.
  set (w1 := withPromises (fun ps => ps ++ [Pending]) w).
  match goal with
  | |- publicLines (snd (match ?c w1 with _ => _ end)) = _ =>
      assert (Hc : Keeps publicLines c)
  end.
  { apply keeps_bind; [keeps|]. intros m.
    destruct (negb (EngineMode_eqb m idle)); [keeps|].
    apply keeps_bind; [keeps|]. intros.
    apply keeps_bind; [apply keeps_lines__initializeWorker|]. intros.
    apply keeps_bind; [keeps|]. intros.
    apply keeps_bind; [keeps|]. intros.
    apply keeps_bind; [keeps|]. intros sf.
    apply keeps_bind; [destruct sf; keeps|]. intros.
    unfold checkUciOkEvaluate, _sendCommand. keeps. }
  specialize (Hc w1).
  match goal with
  | |- publicLines (snd (match ?x with _ => _ end)) = _ => destruct x as [[a|m] w2]
  end; exact Hc.
Qed.

Lemma keeps_lines_dispatch (ls : list MessageListener) (data : string) (w : World) :
  JS.startsWith data "bestmove" = false ->
  publicLines (dispatch ls data w) = publicLines w.
Proof.
  intros Hb. unfold dispatch. revert w.
  induction ls as [|l ls IH]; intros w; simpl; [reflexivity|].
  rewrite IH. rewrite (keeps_task publicLines) by reflexivity.
  destruct l as [o | p t]; simpl.
  - apply keeps_lines__handleStockfishMessage.
  - rewrite (messageHandler_other p t data w Hb). reflexivity.
Qed.

(** X13 — The public [lines] change at no event but a message of a worker
    that starts with [bestmove]: not at a request, a rank update, a
    time-out, a poll, an error of the worker, [stopAnalysis], [terminate],
    a subscription or a move. *)
Theorem lines_change_only_at_completion (w : World) (ev : Event) :
  (forall wk data, ev = WorkerMessage wk data -> JS.startsWith data "bestmove" = false) ->
  lines (this (step w ev)) = lines (this w).
Proof.
  intros Hev. change (publicLines (step w ev) = publicLines w). destruct ev; simpl.
  - rewrite (keeps_task publicLines) by reflexivity. apply keeps_lines_evaluatePosition.
  - rewrite (keeps_task publicLines) by reflexivity. apply keeps_lines_startAnalysis.
  - rewrite (keeps_task publicLines) by reflexivity.
    unfold stopAnalysis, _sendCommand. keeps.
  - rewrite (keeps_task publicLines) by reflexivity. apply keeps_lines_terminate.
  - reflexivity.
  - reflexivity.
  - destruct (chess_move (game (this w)) move) as [[san b]|]; reflexivity.
  - rewrite (keeps_task publicLines) by reflexivity.
    apply keeps_convertMovesToSAN. reflexivity.
  - destruct (nth_error (workers w) wk) as [worker|]; [|reflexivity].
    destruct (alive worker); [|reflexivity].
    apply keeps_lines_dispatch. exact (Hev wk data eq_refl).
  - destruct (nth_error (workers w) wk) as [worker|]; [|reflexivity].
    destruct (alive worker); [|reflexivity].
    rewrite (keeps_task publicLines) by reflexivity.
    unfold onerror, terminate, _sendCommand. keeps.
  - destruct (findTimer (timers w) t) as [callback|]; [|reflexivity].
    rewrite (keeps_task publicLines) by reflexivity.
    rewrite keeps_lines_poll. reflexivity.
Qed.

End PublicLines.

Section OneShot.
Context {rules : RulesEngine}.

Lemma parsedUpdate_game (e1 e2 : ChessEngine) (message : string) :
  game e1 = game e2 -> parsedUpdate e1 message = parsedUpdate e2 message.
Proof. intros H. unfold parsedUpdate, rankUpdate. rewrite H. reflexivity. Qed.

Lemma parsedUpdates_app (e : ChessEngine) (ms1 ms2 : list string) :
  parsedUpdates e (ms1 ++ ms2) = parsedUpdates e ms1 ++ parsedUpdates e ms2.
Proof. unfold parsedUpdates. apply flat_map_app. Qed.

Lemma linesOf_app (evs1 evs2 : list Event) :
  linesOf (evs1 ++ evs2) = linesOf evs1 ++ linesOf evs2.
Proof. unfold linesOf. apply flat_map_app. Qed.

Lemma storeAll_app us vs : storeAll (us ++ vs) = fold_left store vs (storeAll us).
Proof. unfold storeAll. apply fold_left_app. Qed.

Lemma Searching_start (e : Env) (w : World) (options : StockfishOptions) :
  Reachable e w -> mode (this w) = idle -> hasWorker (env w) = true ->
  step w (Call_evaluatePosition options) = evaluatingFrom options w /\
  Searching e (evaluatingFrom options w) (nextTimer w) (List.length (promises w))
            (orElse (movetime options) 30000) [] (evaluatingFrom options w).
Proof.
  intros Hr Hm Hw.
  assert (Hsf := session_idle w (Reachable_Session e w Hr) Hm).
  assert (Hstep : step w (Call_evaluatePosition options) = evaluatingFrom options w).
  { simpl. unfold task. rewrite (evaluatePosition_accepted options w Hm Hsf Hw).
    reflexivity. }
  split; [exact Hstep|].
  split; [rewrite <- Hstep; constructor; exact Hr|].
  split; [reflexivity|]. split; [reflexivity|]. split.
  - simpl. apply in_or_app. right. left. reflexivity.
  - simpl. intros t' c Hin Hlt q ms'. apply in_app_or in Hin.
    destruct Hin as [Hin|[Hin|[Hin|[]]]].
    + apply (inv_timer_fresh w (Reachable_Inv e w Hr)) in Hin. lia.
    + inversion Hin. lia.
    + inversion Hin. discriminate.
Qed.

Lemma keeps_searchState_poll (callback : TimerCallback) :
  (forall p ms, callback <> TimeoutCallback p ms) ->
  Keeps (fun w => (searchState w, analysisLines (this w))) (fire callback).
Proof.
  intros Hc. destruct callback as [p ms | o |]; simpl.
  - destruct (Hc p ms eq_refl).
  - unfold checkUciOkEvaluate, _sendCommand. keeps.
  - unfold checkUciOkStream, _sendCommand. keeps.
Qed.

Lemma poll_timers (callback : TimerCallback) (w : World) :
  (forall p ms, callback <> TimeoutCallback p ms) ->
  timers (snd (fire callback w)) = timers w \/
  timers (snd (fire callback w)) = timers w ++ [(nextTimer w, callback)].
Proof.
  intros Hc. destruct callback as [p ms | o |]; simpl.
  - destruct (Hc p ms eq_refl).
  - destruct (isuciok (this w)) eqn:Hok.
    + left. unfold checkUciOkEvaluate, bind at 1, get at 1. rewrite Hok.
      match goal with |- timers (snd (?c w)) = _ => assert (Hq : Quiet c) end.
      { apply quiet_bind; [apply quiet_get|]. intros.
        apply quiet_bind; apply quiet__sendCommand || (intros; apply quiet__sendCommand). }
      apply Hq.
    + right. rewrite (checkUciOkEvaluate_waiting w o Hok). reflexivity.
  - destruct (isuciok (this w)) eqn:Hok.
    + left. unfold checkUciOkStream, bind at 1, get at 1. rewrite Hok.
      match goal with |- timers (snd (?c w)) = _ => assert (Hq : Quiet c) end.
      { apply quiet_bind; [apply quiet_get|]. intros.
        apply quiet_bind; apply quiet__sendCommand || (intros; apply quiet__sendCommand). }
      apply Hq.
    + right. rewrite (checkUciOkStream_waiting w Hok). reflexivity.
Qed.

Lemma Searching_step
      (e : Env) (w0 : World) (options : StockfishOptions)
      (us : list (Z * AnalysisLine)) (w : World) (ev : Event) :
  let w1 := evaluatingFrom options w0 in
  let t := nextTimer w0 in
  let p := List.length (promises w0) in
  let ms := orElse (movetime options) 30000 in
  Searching e w1 t p ms us w ->
  searchEvent (List.length (workers w0)) t ev = true ->
  Searching e w1 t p ms (us ++ parsedUpdates (this w0) (linesOf [ev])) (step w ev).
Proof.
  intros w1 t p ms (Hr & Hst & Ha & Hin & Hpolls) Hev.
  assert (Hr' : Reachable e (step w ev)) by (constructor; exact Hr).
  unfold searchState in Hst. inversion Hst as [[Hws Hps Hsf Hm Hg]].
  destruct ev; try discriminate Hev; simpl in Hev.
  - (* a line of the worker *)
    apply andb_prop in Hev. destruct Hev as [Hwk Hb].
    apply Nat.eqb_eq in Hwk. subst wk.
    destruct (JS.startsWith data "bestmove") eqn:Hbm; [discriminate Hb|]. clear Hb.
    set (wn := step w (WorkerMessage (List.length (workers w0)) data)) in *.
    assert (Hstep : wn = task (_handleStockfishMessage data options) w).
    { subst wn.
      rewrite (step_message w _ _ data
                 ltac:(rewrite Hws; subst w1; simpl; apply nth_error_last) eq_refl).
      simpl messageListeners. rewrite dispatch_two.
      apply (task_normal _ _ _ tt). apply messageHandler_other. exact Hbm. }
    assert (Hw : wiring wn = wiring w) by (rewrite Hstep; apply wiring_line; exact Hbm).
    unfold wiring in Hw. inversion Hw as [[Hws' Hsf' Hm' Hu' Ht' Hn' Hp']].
    assert (Hg' : game (this wn) = game (this w)).
    { rewrite Hstep. apply task_game. apply _handleStockfishMessage_game. }
    split; [exact Hr'|]. split.
    { unfold searchState. rewrite Hws', Hp', Hsf', Hm', Hg'. exact Hst. }
    split.
    { rewrite Hstep.
      rewrite (keeps_task (fun w => analysisLines (this w))) by reflexivity.
      simpl linesOf. unfold parsedUpdates. simpl flat_map. rewrite app_nil_r.
      assert (Hpu : parsedUpdate (this w0) data = parsedUpdate (this w) data).
      { apply parsedUpdate_game. rewrite Hg. reflexivity. }
      rewrite Hpu. destruct (parsedUpdate (this w) data) as [u|] eqn:Hp.
      - destruct (_handleStockfishMessage_update w data options u Hp) as [Hu _].
        unfold after in Hu. rewrite Hu, Ha, storeAll_snoc. reflexivity.
      - destruct (_handleStockfishMessage_other w data options Hp) as [Hu _].
        unfold after in Hu. rewrite Hu, Ha, app_nil_r. reflexivity. }
    rewrite Ht'. split; assumption.
  - (* a poll *)
    apply Nat.ltb_lt in Hev. simpl linesOf. unfold parsedUpdates. simpl flat_map.
    rewrite app_nil_r.
    simpl step in *. destruct (findTimer (timers w) t0) as [callback|] eqn:Hf.
    2:{ split; [exact Hr'|]. repeat split; assumption. }
    apply findTimer_In in Hf.
    assert (Hpoll : forall q ms', callback <> TimeoutCallback q ms')
      by (apply (Hpolls t0 callback Hf Hev)).
    set (wr := withTimers (filter (fun x => negb (Nat.eqb (fst x) t0))) (nextTimer w) w)
      in *.
    set (wn := task (fire callback) wr) in *.
    assert (Hk : (searchState wn, analysisLines (this wn))
                 = (searchState wr, analysisLines (this wr))).
    { refine (eq_trans (keeps_task (fun w => (searchState w, analysisLines (this w)))
                          (fire callback) wr _)
                       (keeps_searchState_poll callback Hpoll wr)).
      reflexivity. }
    unfold searchState in Hk.
    inversion Hk as [[Hws' Hps' Hsf' Hm' Hg' Ha']].
    split; [exact Hr'|]. split.
    { unfold searchState. rewrite Hws', Hps', Hsf', Hm', Hg'. exact Hst. }
    split; [rewrite Ha'; exact Ha|].
    assert (Hts : timers wn = timers wr \/
                  timers wn = timers wr ++ [(nextTimer wr, callback)]).
    { subst wn. rewrite (keeps_task timers) by reflexivity.
      apply poll_timers. exact Hpoll. }
    assert (Hin0 : In (t, TimeoutCallback p ms) (timers wr)).
    { subst wr. simpl. apply filter_In. split; [exact Hin|]. simpl.
      destruct (Nat.eqb t t0) eqn:Heq; [|reflexivity].
      apply Nat.eqb_eq in Heq. lia. }
    assert (Hpolls0 : forall t' c, In (t', c) (timers wr) -> (t < t')%nat ->
                                   forall q ms', c <> TimeoutCallback q ms').
    { subst wr. simpl. intros t' c Hc. apply filter_In in Hc. apply Hpolls, Hc. }
    destruct Hts as [Hts|Hts]; rewrite Hts.
    + split; assumption.
    + split; [apply in_or_app; left; exact Hin0|].
      intros t' c Hc Hlt. apply in_app_or in Hc. destruct Hc as [Hc|[Hc|[]]].
      * exact (Hpolls0 t' c Hc Hlt).
      * inversion Hc; subst. exact Hpoll.
Qed.

Lemma Searching_steps
      (e : Env) (w0 : World) (options : StockfishOptions) (evs : list Event) :
  let w1 := evaluatingFrom options w0 in
  let t := nextTimer w0 in
  let p := List.length (promises w0) in
  let ms := orElse (movetime options) 30000 in
  forall us w,
    Searching e w1 t p ms us w ->
    forallb (searchEvent (List.length (workers w0)) t) evs = true ->
    Searching e w1 t p ms (us ++ parsedUpdates (this w0) (linesOf evs)) (steps w evs).
Proof.
  intros w1 t p ms. induction evs as [|ev evs IH]; intros us w H Hevs.
  - simpl. unfold parsedUpdates. simpl. rewrite app_nil_r. exact H.
  - simpl in Hevs. apply andb_prop in Hevs. destruct Hevs as [Hev Hevs].
    change (steps w (ev :: evs)) with (steps (step w ev) evs).
    change (ev :: evs) with ([ev] ++ evs).
    rewrite linesOf_app, parsedUpdates_app, app_assoc.
    apply IH; [|exact Hevs].
    apply (Searching_step e w0 options us w ev H Hev).
Qed.

(** X14 — A one-shot evaluation from end to end: when [evaluatePosition]
    is called on an idle controller in a browser, then whatever lines other
    than the completion signal the new worker posts, and whenever the polls
    fire in between, the first line that starts with [bestmove] resolves
    the promise of the request with the lines of the rank updates that
    were posted: one line per reported rank, the last reported for it, by
    ascending rank.  The public [lines] are the same list, the time-out
    cannot fire any more, the worker is released and the controller is
    idle. *)
Theorem evaluatePosition_resolves_with_the_ranked_lines
        (e : Env) (w : World) (options : StockfishOptions)
        (evs : list Event) (bestmove : string) :
  Reachable e w -> mode (this w) = idle -> hasWorker (env w) = true ->
  forallb (searchEvent (List.length (workers w)) (nextTimer w)) evs = true ->
  JS.startsWith bestmove "bestmove" = true ->
  let p := List.length (promises w) in
  let wk := List.length (workers w) in
  let us := parsedUpdates (this w) (linesOf evs) in
  let data := JSArray.filterBoolean (storeAll us) in
  let w' := steps w (Call_evaluatePosition options :: evs ++ [WorkerMessage wk bestmove]) in
  nth_error (promises w') p = Some (Resolved data) /\
  RankedSnapshot us data /\
  lines (this w') = data /\
  NoTimeoutFor (timers w') p /\
  stockfish (this w') = None /\ isuciok (this w') = false /\ mode (this w') = idle.
Proof.
  intros Hr Hm Hw Hevs Hb p wk us data w'.
  destruct (Searching_start e w options Hr Hm Hw) as [Hstep H1].
  assert (H2 := Searching_steps e w options evs [] _ H1 Hevs).
  simpl app in H2. fold us in H2.
  set (w2 := steps (evaluatingFrom options w) evs) in *.
  assert (Hw' : w' = step w2 (WorkerMessage wk bestmove)).
  { subst w' w2. unfold steps. simpl fold_left. rewrite fold_left_app.
    change (step w (Call_evaluatePosition options)) with
      (step w (Call_evaluatePosition options)).
    rewrite <- Hstep. reflexivity. }
  destruct H2 as (Hr2 & Hst & Ha & Hin & _).
  unfold searchState in Hst. inversion Hst as [[Hws Hps Hsf Hmode Hg]].
  assert (HI := Reachable_Inv e w2 Hr2).
  destruct (bestmove_completes w2 wk _ options p (nextTimer w) bestmove
              ltac:(rewrite Hws; simpl; apply nth_error_last) eq_refl eq_refl
              Hmode (inv_timeout_pending w2 HI _ _ _ Hin) Hb)
    as (P1 & _ & P3 & _ & P5 & P6 & _ & P8 & P9).
  rewrite <- Hw' in P1, P3, P5, P6, P8, P9. rewrite Ha in P1, P3. fold data in P1, P3.
  split; [exact P1|]. split; [apply snapshot_by_ascending_rank|].
  split; [exact P3|]. split.
  { rewrite P5. exact (NoTimeoutFor_fired w2 _ p _ HI Hin). }
  repeat split; assumption.
Qed.

End OneShot.

Module MatcherFacts.
Import Regex RegexFacts.

Lemma append_nil_r (s : string) : (s ++ "")%string = s.
Proof. induction s as [|c s IH]; simpl; [|rewrite IH]; reflexivity. Qed.

Lemma append_assoc (a b c : string) : ((a ++ b) ++ c)%string = (a ++ b ++ c)%string.
Proof. induction a as [|x a IH]; simpl; [|rewrite IH]; reflexivity. Qed.

Lemma allOf_app (cls : ascii -> bool) (a b : string) :
  allOf cls (a ++ b) = allOf cls a && allOf cls b.
Proof. induction a as [|c a IH]; simpl; [|rewrite IH, andb_assoc]; reflexivity. Qed.

Lemma allOf_impl (cls1 cls2 : ascii -> bool) (s : string) :
  (forall c, cls1 c = true -> cls2 c = true) ->
  allOf cls1 s = true -> allOf cls2 s = true.
Proof.
  intros H. induction s as [|c s IH]; simpl; [reflexivity|].
  intros Hs. apply andb_prop in Hs. destruct Hs as [Hc Hs].
  rewrite (H c Hc), (IH Hs). reflexivity.
Qed.

Lemma Suffix_refl (s : string) : Suffix s s.
Proof. exists "". reflexivity. Qed.

Lemma Suffix_cons (c : ascii) (s' s : string) :
  Suffix s' (String c s) -> s' = String c s \/ Suffix s' s.
Proof.
  intros [x Hx]. destruct x as [|d x]; simpl in Hx.
  - left. congruence.
  - right. inversion Hx. exists x. reflexivity.
Qed.

Lemma Suffix_nil (s' : string) : Suffix s' "" -> s' = "".
Proof. intros [x Hx]. destruct x; simpl in Hx; [congruence | discriminate]. Qed.

Section Star.
Context {R : Type}.

(** A success behind a run of the class is found first. *)
Lemma star_app_some (cls : ascii -> bool) (a b : string) (k : string -> option R) (r : R) :
  allOf cls a = true -> star cls b k = Some r -> star cls (a ++ b) k = Some r.
Proof.
  intros Ha Hb. induction a as [|c a IH]; simpl in *; [exact Hb|].
  apply andb_prop in Ha. destruct Ha as [Hc Ha]. rewrite Hc, (IH Ha). reflexivity.
Qed.

(** Where the class stops, the continuation decides. *)
Lemma star_stop (cls : ascii -> bool) (b : string) (k : string -> option R) :
  startsIn cls b = false -> star cls b k = k b.
Proof. intros H. destruct b as [|c b]; simpl in *; [|rewrite H]; reflexivity. Qed.

Lemma star_none (cls : ascii -> bool) (s : string) (k : string -> option R) :
  (forall s', Suffix s' s -> k s' = None) -> star cls s k = None.
Proof.
  induction s as [|c s IH]; intros H; simpl.
  - apply H, Suffix_refl.
  - rewrite IH.
    + destruct (cls c); apply H, Suffix_refl.
    + intros s' [x Hx]. apply H. exists (String c x). simpl. rewrite Hx. reflexivity.
Qed.

(** When the continuation fails everywhere further on, it decides
    here. *)
Lemma star_here (cls : ascii -> bool) (c : ascii) (s : string) (k : string -> option R) :
  (forall s', Suffix s' s -> k s' = None) ->
  star cls (String c s) k = k (String c s).
Proof.
  intros H. simpl. rewrite (star_none cls s k H). destruct (cls c); reflexivity.
Qed.

End Star.

Lemma occurs_none (needle hay : string) :
  occurs needle hay = false -> forall s', Suffix s' hay -> dropLit needle s' = None.
Proof.
  induction hay as [|c hay IH]; simpl; intros H s' Hs.
  - apply Suffix_nil in Hs. subst s'.
    destruct (dropLit needle "") eqn:Hd; [discriminate | reflexivity].
  - destruct (dropLit needle (String c hay)) eqn:Hd; [discriminate|].
    apply Suffix_cons in Hs. destruct Hs as [-> | Hs]; [exact Hd | apply IH; assumption].
Qed.

Lemma occurs_app_lacks (c : ascii) (needle x rest : string) :
  lacks c x = true -> occurs (String c needle) rest = false ->
  occurs (String c needle) (x ++ rest) = false.
Proof.
  intros Hx Hr. induction x as [|d x IH]; simpl in *; [exact Hr|].
  unfold lacks in Hx. simpl in Hx. apply andb_prop in Hx. destruct Hx as [Hd Hx].
  apply negb_true_iff in Hd. rewrite Ascii.eqb_sym in Hd. rewrite Hd.
  apply IH. exact Hx.
Qed.

Lemma dropLit_app (lit rest : string) : dropLit lit (lit ++ rest) = Some rest.
Proof.
  induction lit as [|c lit IH]; simpl; [reflexivity|].
  rewrite Ascii.eqb_refl. exact IH.
Qed.

Lemma digit_not_space (c : ascii) : JS.isDigit c = true -> JS.isSpace c = false.
Proof. destruct c as [[] [] [] [] [] [] [] []]; vm_compute; congruence. Qed.

Lemma digit_not_minus (c : ascii) : JS.isDigit c = true -> Ascii.eqb "-" c = false.
Proof. destruct c as [[] [] [] [] [] [] [] []]; vm_compute; congruence. Qed.

Lemma digit_not_s (c : ascii) : JS.isDigit c = true -> negb (Ascii.eqb c "s") = true.
Proof. destruct c as [[] [] [] [] [] [] [] []]; vm_compute; congruence. Qed.

Lemma not_space_dot (c : ascii) : JS.isSpace c = false -> JS.isDot c = true.
Proof. destruct c as [[] [] [] [] [] [] [] []]; vm_compute; congruence. Qed.

Lemma star_all {R} (cls : ascii -> bool) (s : string) (k : string -> option R) (r : R) :
  allOf cls s = true -> k "" = Some r -> star cls s k = Some r.
Proof.
  intros Hs Hk. rewrite <- (append_nil_r s). apply star_app_some; assumption.
Qed.

(** A numeral in front of something that is not a digit is read whole by
    [\d+]. *)
Lemma plus_numeral {R} (ds rest : string) (k : string -> option R) (r : R) :
  isNumeral ds = true -> startsIn JS.isDigit rest = false -> k rest = Some r ->
  plus JS.isDigit (ds ++ rest) k = Some r.
Proof.
  unfold isNumeral. intros Hd Hr Hk. destruct ds as [|d ds]; [discriminate|].
  simpl in Hd. apply andb_prop in Hd. destruct Hd as [Hd Hds].
  simpl. rewrite Hd. apply star_app_some; [exact Hds|].
  rewrite star_stop; assumption.
Qed.

Lemma numeral_stopsAt_space (ds rest : string) :
  isNumeral ds = true -> startsIn JS.isSpace (ds ++ rest) = false.
Proof.
  unfold isNumeral. destruct ds as [|d ds]; [discriminate|]. simpl.
  intros H. apply andb_prop in H. destruct H as [H _]. apply digit_not_space, H.
Qed.

Lemma signed_lacks_s (value : string) :
  isSignedNumeral value = true -> lacks "s" value = true.
Proof.
  assert (Hn : forall ds, isNumeral ds = true -> lacks "s" ds = true).
  { unfold isNumeral, lacks. intros ds H. apply andb_prop in H. destruct H as [_ H].
    revert H. apply allOf_impl. exact digit_not_s. }
  unfold isSignedNumeral. destruct value as [|c value]; [discriminate|].
  destruct (Ascii.eqb c "-") eqn:Hc.
  - apply Ascii.eqb_eq in Hc. subst c. intros H. unfold lacks. simpl.
    apply (Hn value H).
  - intros H. apply Hn.
    destruct c as [[] [] [] [] [] [] [] []]; try exact H; discriminate Hc.
Qed.

(** What [(-?\d+)] reads of a signed numeral. *)
Lemma run_value {R} (value rest : string) (cs : captures)
      (k : string -> captures -> option R) (r : R) :
  isSignedNumeral value = true ->
  startsIn JS.isDigit rest = false ->
  k rest ((3%nat, value) :: cs) = Some r ->
  run (Group 3 (Seq (Opt (Lit "-")) (Plus JS.isDigit))) (value ++ rest) cs k = Some r.
Proof.
  intros Hv Hrest Hk. cbn [run].
  destruct value as [|c value]; [discriminate|].
  destruct (Ascii.eqb "-" c) eqn:Hc.
  - apply Ascii.eqb_eq in Hc. subst c. simpl in Hv.
    change (dropLit "-" (String "-" value ++ rest)) with (Some (value ++ rest)%string).
    cbv iota beta.
    rewrite (plus_numeral value rest _ r Hv Hrest); [reflexivity|].
    rewrite consumed_append. exact Hk.
  - assert (Hn : isNumeral (String c value) = true).
    { revert Hv. unfold isSignedNumeral.
      destruct c as [[] [] [] [] [] [] [] []]; try (intros H; exact H); discriminate Hc. }
    replace (dropLit "-" (String c value ++ rest)) with (@None string)
      by (change (String c value ++ rest)%string with (String c (value ++ rest));
          cbn [dropLit]; rewrite Hc; reflexivity).
    apply (plus_numeral (String c value) rest _ r Hn Hrest).
    rewrite consumed_append. exact Hk.
Qed.

(** What [(cp|mate)] reads. *)
Lemma run_scoreType {R} (scoreType rest : string) (cs : captures)
      (k : string -> captures -> option R) (r : R) :
  scoreType = "cp" \/ scoreType = "mate" ->
  k rest ((2%nat, scoreType) :: cs) = Some r ->
  run (Group 2 (Alt (Lit "cp") (Lit "mate"))) (scoreType ++ rest) cs k = Some r.
Proof.
  intros [-> | ->] Hk; cbn [run].
  - rewrite dropLit_app, consumed_append, Hk. reflexivity.
  - replace (dropLit "cp" ("mate" ++ rest)) with (@None string) by reflexivity.
    rewrite dropLit_app, consumed_append, Hk. reflexivity.
Qed.

(** What [pv\s+(.+)] reads at the last [pv] of a line. *)
Lemma run_pv {R} (text : string) (cs : captures)
      (k : string -> captures -> option R) (r : R) :
  text <> "" -> startsIn JS.isSpace text = false -> allOf JS.isDot text = true ->
  k "" ((4%nat, text) :: cs) = Some r ->
  run (Seq (Lit "pv") (Seq (Plus JS.isSpace) (Group 4 (Plus JS.isDot))))
      ("pv " ++ text) cs k = Some r.
Proof.
  intros Hne Hstop Hdot Hk. cbn [run].
  change (dropLit "pv" ("pv " ++ text)) with (Some (" " ++ text)%string).
  cbv iota beta.
  change (plus JS.isSpace (" " ++ text) ?f) with (star JS.isSpace text f).
  rewrite star_stop by exact Hstop.
  destruct text as [|c text]; [congruence|].
  simpl in Hstop, Hdot. apply andb_prop in Hdot. destruct Hdot as [Hc Hdot].
  unfold plus. rewrite Hc. apply star_all; [exact Hdot|].
  rewrite <- (append_nil_r (String c text)) at 1. rewrite consumed_append. exact Hk.
Qed.

(** [.*] in front of the only place where the literal [String c lit] is,
    when what follows the literal has the continuation succeed. *)
Lemma star_to_literal {R} (c : ascii) (lit before rest : string)
      (k : string -> option R) (r : R) :
  allOf JS.isDot before = true ->
  (forall s, dropLit (String c lit) s = None -> k s = None) ->
  occurs (String c lit) (lit ++ rest) = false ->
  k (String c lit ++ rest)%string = Some r ->
  star JS.isDot (before ++ String c lit ++ rest)%string k = Some r.
Proof.
  intros Hb Hk Ho Hr. apply star_app_some; [exact Hb|].
  change (String c lit ++ rest)%string with (String c (lit ++ rest)) in *.
  rewrite star_here; [exact Hr|].
  intros s' Hs. apply Hk. apply (occurs_none _ _ Ho). exact Hs.
Qed.

Lemma run_Seq {R} (r1 r2 : regex) (s : string) (cs : captures)
      (k : string -> captures -> option R) :
  run (Seq r1 r2) s cs k = run r1 s cs (fun rest cs' => run r2 rest cs' k).
Proof. reflexivity. Qed.

Lemma run_Lit_app {R} (lit rest : string) (cs : captures)
      (k : string -> captures -> option R) :
  run (Lit lit) (lit ++ rest) cs k = k rest cs.
Proof. cbn [run]. rewrite dropLit_app. reflexivity. Qed.

Lemma run_Lit_none {R} (lit s : string) (cs : captures)
      (k : string -> captures -> option R) :
  dropLit lit s = None -> run (Lit lit) s cs k = None.
Proof. intros H. cbn [run]. rewrite H. reflexivity. Qed.

Lemma lacks_app (c : ascii) (a b : string) :
  lacks c (a ++ b) = lacks c a && lacks c b.
Proof. apply allOf_app. Qed.

Lemma run_Plus {R} (cls : ascii -> bool) (s : string) (cs : captures)
      (k : string -> captures -> option R) :
  run (Plus cls) s cs k = plus cls s (fun rest => k rest cs).
Proof. reflexivity. Qed.

Lemma run_Star {R} (cls : ascii -> bool) (s : string) (cs : captures)
      (k : string -> captures -> option R) :
  run (Star cls) s cs k = star cls s (fun rest => k rest cs).
Proof. reflexivity. Qed.

(** What [(\d+)] reads of a numeral. *)
Lemma run_rank {R} (rank rest : string) (cs : captures)
      (k : string -> captures -> option R) (r : R) :
  isNumeral rank = true ->
  startsIn JS.isDigit rest = false ->
  k rest ((1%nat, rank) :: cs) = Some r ->
  run (Group 1 (Plus JS.isDigit)) (rank ++ rest) cs k = Some r.
Proof.
  intros Hrank Hrest Hk. cbn [run].
  apply (plus_numeral rank rest _ r Hrank Hrest).
  rewrite consumed_append. exact Hk.
Qed.

Lemma scoreType_lacks_s (scoreType : string) :
  scoreType = "cp" \/ scoreType = "mate" -> lacks "s" scoreType = true.
Proof. intros [-> | ->]; reflexivity. Qed.

(** The match of the pattern at the start of a line that begins with
    [multipv]. *)
Lemma run_multipvPattern (rank scoreType value mid text : string) :
  isNumeral rank = true ->
  scoreType = "cp" \/ scoreType = "mate" ->
  isSignedNumeral value = true ->
  allOf JS.isDot mid = true ->
  startsIn JS.isDigit mid = false ->
  occurs "score " (mid ++ "pv " ++ text) = false ->
  text <> "" -> startsIn JS.isSpace text = false -> allOf JS.isDot text = true ->
  occurs "pv" text = false ->
  run multipvPattern
      ("multipv " ++ rank ++ " score " ++ scoreType ++ " " ++ value ++ mid
                  ++ "pv " ++ text) [] (fun _ cs => Some cs)
  = Some [(4%nat, text); (3%nat, value); (2%nat, scoreType); (1%nat, rank)].
Proof.
  intros Hrank Hty Hvalue Hmid Hstop Hscore Hne Htext Hdot Hpv.
  unfold multipvPattern. cbv zeta.
  change ("multipv " ++ ?x)%string with ("multipv" ++ " " ++ x)%string.
  rewrite run_Seq, run_Lit_app, run_Seq, run_Plus.
  change (plus JS.isSpace (" " ++ ?x) ?f) with (star JS.isSpace x f).
  rewrite star_stop by (apply numeral_stopsAt_space; exact Hrank).
  rewrite run_Seq. apply run_rank; [exact Hrank | reflexivity |].
  rewrite run_Seq, run_Star.
  change (" score " ++ ?x)%string with (" " ++ String "s" "core " ++ x)%string.
  apply star_to_literal; [reflexivity | | |].
  - intros s Hs. rewrite run_Seq. apply run_Lit_none. exact Hs.
  - change ("core " ++ ?x)%string with ("core" ++ " " ++ x)%string.
    rewrite <- !append_assoc.
    rewrite (append_assoc _ "pv " text), (append_assoc _ mid).
    apply occurs_app_lacks; [|exact Hscore].
    rewrite !lacks_app, (scoreType_lacks_s _ Hty), (signed_lacks_s _ Hvalue).
    reflexivity.
  - change (String "s" "core " ++ ?x)%string with ("score " ++ x)%string.
    rewrite run_Seq, run_Lit_app, run_Seq.
    apply run_scoreType; [exact Hty|].
    rewrite run_Seq, run_Lit_app, run_Seq.
    apply run_value; [exact Hvalue | |].
    { destruct mid; [reflexivity | exact Hstop]. }
    rewrite run_Seq, run_Star.
    change ("pv " ++ text)%string with (String "p" "v" ++ " " ++ text)%string.
    apply star_to_literal; [exact Hmid | | |].
    + intros s Hs. rewrite run_Seq. apply run_Lit_none. exact Hs.
    + change ("v" ++ " " ++ text)%string with ("v " ++ text)%string.
      apply occurs_app_lacks; [reflexivity | exact Hpv].
    + change (String "p" "v" ++ " " ++ text)%string with ("pv " ++ text)%string.
      apply run_pv; try assumption. reflexivity.
Qed.

(** The search passes over what has no [m]. *)
Lemma search_skip (pre s : string) :
  lacks "m" pre = true ->
  search multipvPattern (pre ++ s) = search multipvPattern s.
Proof.
  intros H. induction pre as [|c pre IH]; [reflexivity|].
  unfold lacks in H. simpl in H. apply andb_prop in H. destruct H as [Hc H].
  apply negb_true_iff in Hc. rewrite Ascii.eqb_sym in Hc.
  change (String c pre ++ s)%string with (String c (pre ++ s)).
  cbn [search].
  replace (run multipvPattern (String c (pre ++ s)) [] (fun _ cs => Some cs))
    with (@None captures).
  - apply IH. exact H.
  - symmetry. unfold multipvPattern. cbv zeta. rewrite run_Seq.
    apply run_Lit_none. cbn [dropLit]. rewrite Hc. reflexivity.
Qed.

Lemma search_here (r : regex) (s : string) (cs : captures) :
  run r s [] (fun _ cs => Some cs) = Some cs -> search r s = Some cs.
Proof. intros H. destruct s; simpl; rewrite H; reflexivity. Qed.

(** A line is split at the first place where a character is. *)
Lemma first_place (c : ascii) (a b x y : string) :
  lacks c a = true -> lacks c b = true ->
  (a ++ String c x)%string = (b ++ String c y)%string -> a = b /\ x = y.
Proof.
  unfold lacks. revert b. induction a as [|d a IH]; intros [|e b] Ha Hb H; simpl in *.
  - inversion H. split; reflexivity.
  - inversion H; subst e. rewrite Ascii.eqb_refl in Hb. discriminate.
  - inversion H; subst d. rewrite Ascii.eqb_refl in Ha. discriminate.
  - apply andb_prop in Ha, Hb. destruct Ha as [_ Ha]. destruct Hb as [_ Hb].
    inversion H; subst e. destruct (IH b Ha Hb H2) as [-> ->]. split; reflexivity.
Qed.

Lemma prefix_append (p s : string) :
  String.prefix p s = true -> exists rest, s = (p ++ rest)%string.
Proof.
  revert s. induction p as [|a p IH]; intros s H.
  - exists s. reflexivity.
  - destruct s as [|b s]; [discriminate|]. cbn [String.prefix] in H.
    destruct (ascii_dec a b) as [-> | _]; [|discriminate].
    destruct (IH s H) as [rest ->]. exists rest. reflexivity.
Qed.

(** A line with [multipv] behind what has no [m] is neither the
    ready signal nor a completion signal. *)
Lemma multipv_not_uciok (pre rest : string) :
  lacks "m" pre = true -> String.eqb (pre ++ "multipv " ++ rest) "uciok" = false.
Proof.
  intros H. apply String.eqb_neq. intros Heq.
  assert (Hl : lacks "m" (pre ++ "multipv " ++ rest) = true) by (rewrite Heq; reflexivity).
  rewrite lacks_app in Hl. apply andb_prop in Hl. destruct Hl as [_ Hl]. discriminate Hl.
Qed.

Lemma multipv_not_bestmove (pre rest : string) :
  lacks "m" pre = true -> JS.startsWith (pre ++ "multipv " ++ rest) "bestmove" = false.
Proof.
  intros H. unfold JS.startsWith.
  destruct (String.prefix "bestmove" (pre ++ "multipv " ++ rest)) eqn:Hp; [|reflexivity].
  apply prefix_append in Hp. destruct Hp as [tail Hp].
  change ("multipv " ++ rest)%string with (String "m" ("ultipv " ++ rest)) in Hp.
  change ("bestmove" ++ tail)%string with ("best" ++ String "m" ("ove" ++ tail))%string in Hp.
  apply first_place in Hp; [|exact H | reflexivity].
  destruct Hp as [_ Hp]. discriminate Hp.
Qed.

End MatcherFacts.

Module TokenFacts.
Import MatcherFacts.

Lemma word_not_empty (m : string) : isWord m = true -> m <> "".
Proof. intros H ->. discriminate H. Qed.

Lemma word_chars (m : string) :
  isWord m = true -> allOf (fun c => negb (JS.isSpace c)) m = true.
Proof. unfold isWord. intros H. apply andb_prop in H. apply H. Qed.

Lemma concat_cons (m m' : string) (ms : list string) :
  String.concat " " (m :: m' :: ms) = (m ++ " " ++ String.concat " " (m' :: ms))%string.
Proof. reflexivity. Qed.

(** The pieces of [split(/\s+/)] behind a word. *)
Lemma splitWsAux_word (m rest cur : string) (inSep : bool) :
  isWord m = true ->
  JS.splitWsAux (m ++ rest) cur inSep = JS.splitWsAux rest (cur ++ m) false.
Proof.
  intros H. assert (Hne := word_not_empty m H). apply word_chars in H.
  revert cur inSep. induction m as [|c m IH]; intros cur inSep; [congruence|].
  simpl in H. apply andb_prop in H. destruct H as [Hc H]. apply negb_true_iff in Hc.
  change (String c m ++ rest)%string with (String c (m ++ rest)).
  cbn [JS.splitWsAux]. rewrite Hc.
  replace (cur ++ String c m)%string with ((cur ++ String c "") ++ m)%string
    by (rewrite append_assoc; reflexivity).
  destruct m as [|d m]; [rewrite append_nil_r; reflexivity|].
  apply IH; [exact H | discriminate].
Qed.

(** Words joined by one space are split into the same words. *)
Lemma splitWsAux_concat (moves : list string) (inSep : bool) :
  moves <> [] -> forallb isWord moves = true ->
  JS.splitWsAux (String.concat " " moves) "" inSep = moves.
Proof.
  revert inSep. induction moves as [|m ms IH]; intros inSep Hne H; [congruence|].
  simpl in H. apply andb_prop in H. destruct H as [Hm H].
  destruct ms as [|m' ms].
  - simpl String.concat. rewrite <- (append_nil_r m) at 1.
    rewrite (splitWsAux_word m "" "" inSep Hm). reflexivity.
  - rewrite concat_cons, (splitWsAux_word m _ "" inSep Hm).
    change (" " ++ ?x)%string with (String " " x). cbn [JS.splitWsAux].
    change (JS.isSpace " ") with true. cbv iota.
    rewrite (IH true); [reflexivity | discriminate | exact H].
Qed.

Lemma splitWs_concat (moves : list string) :
  moves <> [] -> forallb isWord moves = true ->
  JS.splitWs (String.concat " " moves) = moves.
Proof. apply splitWsAux_concat. Qed.

Lemma concat_not_empty (moves : list string) :
  moves <> [] -> forallb isWord moves = true -> String.concat " " moves <> "".
Proof.
  destruct moves as [|m ms]; [congruence|]. intros _ H. simpl in H.
  apply andb_prop in H. destruct H as [Hm _].
  destruct m as [|c m]; [discriminate|]. destruct ms; discriminate.
Qed.

Lemma concat_stopsAt_space (moves : list string) :
  forallb isWord moves = true -> startsIn JS.isSpace (String.concat " " moves) = false.
Proof.
  destruct moves as [|m ms]; [reflexivity|]. intros H. simpl in H.
  apply andb_prop in H. destruct H as [Hm _].
  destruct m as [|c m]; [discriminate|]. apply word_chars in Hm. simpl in Hm.
  apply andb_prop in Hm. destruct Hm as [Hc _]. apply negb_true_iff in Hc.
  destruct ms; exact Hc.
Qed.

Lemma concat_dots (moves : list string) :
  forallb isWord moves = true -> allOf JS.isDot (String.concat " " moves) = true.
Proof.
  assert (Hw : forall m, isWord m = true -> allOf JS.isDot m = true).
  { intros m Hm. apply word_chars in Hm. revert Hm. apply allOf_impl.
    intros c Hc. apply not_space_dot. apply negb_true_iff. exact Hc. }
  induction moves as [|m ms IH]; intros H; [reflexivity|].
  simpl in H. apply andb_prop in H. destruct H as [Hm H].
  destruct ms as [|m' ms]; [exact (Hw m Hm)|].
  rewrite concat_cons, !allOf_app, (Hw m Hm), (IH H). reflexivity.
Qed.

Lemma trimStart_id (s : string) : startsIn JS.isSpace s = false -> JS.trimStart s = s.
Proof. destruct s as [|c s]; simpl; [reflexivity|]. intros ->. reflexivity. Qed.

Lemma trimEnd_append (x t : string) :
  t <> "" -> JS.trimEnd t = t -> JS.trimEnd (x ++ t) = (x ++ t)%string.
Proof.
  intros Hne Ht. induction x as [|c x IH]; [exact Ht|].
  change (String c x ++ t)%string with (String c (x ++ t)).
  cbn [JS.trimEnd]. rewrite IH. destruct (x ++ t)%string eqn:Hx; [|reflexivity].
  destruct x; simpl in Hx; [congruence | discriminate].
Qed.

Lemma trimEnd_word (m : string) : isWord m = true -> JS.trimEnd m = m.
Proof.
  intros H. assert (Hne := word_not_empty m H). apply word_chars in H.
  induction m as [|c m IH]; [congruence|].
  simpl in H. apply andb_prop in H. destruct H as [Hc H]. apply negb_true_iff in Hc.
  cbn [JS.trimEnd]. destruct m as [|d m]; [simpl; rewrite Hc; reflexivity|].
  rewrite IH; [reflexivity | exact H | discriminate].
Qed.

Lemma trimEnd_concat (moves : list string) :
  moves <> [] -> forallb isWord moves = true ->
  JS.trimEnd (String.concat " " moves) = String.concat " " moves.
Proof.
  induction moves as [|m ms IH]; intros Hne H; [congruence|].
  simpl in H. apply andb_prop in H. destruct H as [Hm H].
  destruct ms as [|m' ms]; [exact (trimEnd_word m Hm)|].
  rewrite concat_cons, <- append_assoc.
  apply trimEnd_append.
  - apply concat_not_empty; [discriminate | exact H].
  - apply IH; [discriminate | exact H].
Qed.

(** The moves of a principal variation, as the code takes them from the
    text behind [pv]. *)
Lemma tokens_concat (moves : list string) :
  moves <> [] -> forallb isWord moves = true ->
  JS.splitWs (JS.trim (String.concat " " moves)) = moves.
Proof.
  intros Hne H. unfold JS.trim.
  rewrite trimStart_id by (apply concat_stopsAt_space; exact H).
  rewrite trimEnd_concat by assumption. apply splitWs_concat; assumption.
Qed.

End TokenFacts.

Section InfoLines.
Context {rules : RulesEngine}.
Import MatcherFacts TokenFacts.

(** X15 — An [info] line of the engine in the form of the UCI protocol,
    [... multipv <rank> score <cp|mate> <value> ... pv <move> <move> ...],
    is parsed into its parts: the rank is the numeral after [multipv], the
    evaluation is made of the type and of the signed numeral after
    [score], and the line is the translation of the moves after [pv],
    taken one by one.  It is required that no [m] comes before [multipv],
    that what stands between the value and [pv] is on one line, does not
    begin with a digit and has no [score ] in it, and that the moves are
    words without [pv] in them, separated by one space. *)
Theorem info_line_is_parsed_into_its_rank_score_and_moves
        (e : ChessEngine) (chess : Board)
        (pre rank scoreType value mid : string) (moves : list string) :
  lacks "m" pre = true ->
  isNumeral rank = true ->
  scoreType = "cp" \/ scoreType = "mate" ->
  isSignedNumeral value = true ->
  allOf JS.isDot mid = true ->
  startsIn JS.isDigit mid = false ->
  occurs "score " (mid ++ "pv " ++ String.concat " " moves) = false ->
  moves <> [] -> forallb isWord moves = true ->
  occurs "pv" (String.concat " " moves) = false ->
  Chess_new (chess_fen (game e)) = Some chess ->
  parsedUpdate e (infoLine pre rank scoreType value mid moves)
  = Some (JS.parseInt rank,
          {| evaluation :=
               adjustedEval scoreType (JS.parseInt value)
                            (nth_error (JS.splitChar " " (chess_fen (game e))) 1);
             line := fst (translate chess moves) |}).
Proof.
  intros Hpre Hrank Hty Hvalue Hmid Hstop Hscore Hne Hwords Hpv Hchess.
  unfold parsedUpdate, infoLine.
  rewrite (multipv_not_uciok pre _ Hpre), (multipv_not_bestmove pre _ Hpre).
  rewrite (search_skip pre _ Hpre).
  rewrite (search_here _ _ _
             (run_multipvPattern rank scoreType value mid (String.concat " " moves)
                Hrank Hty Hvalue Hmid Hstop Hscore (concat_not_empty moves Hne Hwords)
                (concat_stopsAt_space moves Hwords) (concat_dots moves Hwords) Hpv)).
  rewrite Hchess. unfold rankUpdate, group. cbn [Regex.capture Nat.eqb].
  rewrite (tokens_concat moves Hne Hwords). reflexivity.
Qed.

End InfoLines.

Section OtherLines.
Context {rules : RulesEngine}.
Import MatcherFacts.

(** Without [multipv] in it, a line does not match. *)
Lemma search_without_multipv (message : string) :
  occurs "multipv" message = false -> Regex.search multipvPattern message = None.
Proof.
  assert (Hrun : forall s, Regex.dropLit "multipv" s = None ->
                           Regex.run multipvPattern s [] (fun _ cs => Some cs) = None).
  { intros s Hs. unfold multipvPattern. cbv zeta. rewrite run_Seq.
    apply run_Lit_none. exact Hs. }
  induction message as [|c message IH]; intros H.
  - reflexivity.
  - cbn [occurs] in H.
    destruct (Regex.dropLit "multipv" (String c message)) eqn:Hd; [discriminate|].
    cbn [Regex.search]. rewrite (Hrun _ Hd). apply IH. exact H.
Qed.

(** X16 — A line of the engine that is not the ready signal, does not
    start with [bestmove] and has no [multipv] in it (as [readyok],
    [id name ...], [info string ...] or [info depth 12 currmove e2e4]) is
    ignored, from whatever worker it comes and in every state the page can
    reach: the world stays as it is, so that nothing is stored, nothing is
    logged and no subscriber is called. *)
Theorem other_lines_are_ignored (e : Env) (w : World) (wk : nat) (message : string) :
  Reachable e w ->
  message <> "uciok" -> JS.startsWith message "bestmove" = false ->
  occurs "multipv" message = false ->
  step w (WorkerMessage wk message) = w.
Proof.
  intros Hr Hu Hb Hm. apply String.eqb_neq in Hu.
  assert (HS := Reachable_Session e w Hr).
  simpl. destruct (nth_error (workers w) wk) as [worker|] eqn:Hn; [|reflexivity].
  destruct (alive worker) eqn:Ha; [|reflexivity].
  assert (Hsf := session_alive w HS wk worker Hn Ha).
  destruct (step_line e w wk message Hr Hsf Hb) as [options Hstep].
  rewrite (step_message w wk worker message Hn Ha) in Hstep. rewrite Hstep.
  apply (task_normal _ _ _ tt).
  apply _handleStockfishMessage_no_match; [exact Hu | exact Hb |].
  apply search_without_multipv. exact Hm.
Qed.

End OtherLines.

Section Composition.
Context {rules : RulesEngine}.

Lemma translate_app (chess b : Board) (accepted sans rest : list string) :
  Accepted chess accepted sans b ->
  translate chess (accepted ++ rest)
  = (sans ++ fst (translate b rest), snd (translate b rest)).
Proof.
  induction 1 as [b | b0 move san b1 moves sans b' Hmove _ IH]; simpl.
  - destruct (translate b rest); reflexivity.
  - rewrite Hmove, IH. reflexivity.
Qed.

(** X17 — [convertMovesToSAN] composes: when the rules engine accepts all
    the moves of a first list from a position, the call returns their
    translations and logs nothing; and for that list followed by a second
    one it returns these translations followed by what it returns for the
    second list from the position reached, with the same console
    output. *)
Theorem convertMovesToSAN_continues_from_the_position_reached
        (moves1 moves2 sans1 : list string) (position1 position2 : string)
        (chess b : Board) (w : World) :
  Chess_new position1 = Some chess ->
  Accepted chess moves1 sans1 b ->
  Chess_new position2 = Some b ->
  convertMovesToSAN moves1 position1 w = (Normal sans1, w) /\
  exists sans2,
    fst (convertMovesToSAN moves2 position2 w) = Normal sans2 /\
    convertMovesToSAN (moves1 ++ moves2) position1 w
    = (Normal (sans1 ++ sans2), snd (convertMovesToSAN moves2 position2 w)).
Proof.
  intros H1 Hacc H2.
  rewrite !(convertMovesToSAN_loaded _ position1 chess w H1).
  rewrite (convertMovesToSAN_loaded _ position2 b w H2).
  rewrite (translate_app chess b moves1 sans1 moves2 Hacc).
  assert (H0 := translate_app chess b moves1 sans1 [] Hacc).
  rewrite app_nil_r in H0. simpl in H0. rewrite app_nil_r in H0. rewrite H0.
  split; [reflexivity|].
  exists (fst (translate b moves2)). split; reflexivity.
Qed.

End Composition.

Section Sequencing.
Context {rules : RulesEngine}.

Lemma commandsTo_app (wk : nat) (efs1 efs2 : list Effect) :
  commandsTo wk (efs1 ++ efs2) = commandsTo wk efs1 ++ commandsTo wk efs2.
Proof. unfold commandsTo. apply flat_map_app. Qed.

Lemma commandsTo_posts (wk : nat) (cs : list string) :
  commandsTo wk (map (PostMessage wk) cs) = cs.
Proof.
  induction cs as [|c cs IH]; simpl; [reflexivity|].
  rewrite Nat.eqb_refl, IH. reflexivity.
Qed.

Lemma commandsTo_calls (wk : nat) (ls : list Listener) (data : list AnalysisLine) :
  commandsTo wk (map (fun l => ListenerCall l data) ls) = [].
Proof. induction ls as [|l ls IH]; simpl; [reflexivity | exact IH]. Qed.

(** A line that is neither signal makes the controller post nothing. *)
Lemma line_posts_nothing (w : World) (data : string) (options : StockfishOptions) :
  String.eqb data "uciok" = false -> JS.startsWith data "bestmove" = false ->
  exists efs,
    log (task (_handleStockfishMessage data options) w) = log w ++ efs /\
    forall wk, commandsTo wk efs = [].
Proof.
  intros Hu Hb. assert (Hu' := Hu). apply String.eqb_neq in Hu'.
  destruct (Regex.search multipvPattern data) as [cs|] eqn:Hs.
  - destruct (Chess_new (chess_fen (game (this w)))) as [chess|] eqn:Hc.
    + rewrite (task_normal _ _ _ tt
                 (_handleStockfishMessage_match w data options cs chess Hu' Hb Hs Hc)).
      rewrite log_all_log.
      match goal with |- context [logCaught ?b w] => destruct b end; simpl logCaught.
      * eexists. split; [simpl; rewrite <- app_assoc; reflexivity|].
        intros wk. simpl. apply commandsTo_calls.
      * eexists. split; [reflexivity|]. intros wk. apply commandsTo_calls.
    + unfold task. rewrite (_handleStockfishMessage_refused w data options cs Hu Hb Hs Hc).
      eexists. split; [reflexivity|]. reflexivity.
  - rewrite (task_normal _ _ _ tt (_handleStockfishMessage_no_match w data options Hu Hb Hs)).
    exists []. split; [rewrite app_nil_r; reflexivity | reflexivity].
Qed.


Lemma post_all_frame (wk : nat) (cs : list string) (w : World) :
  let w' := fold_left (fun w' c => withLog (PostMessage wk c) w') cs w in
  workers w' = workers w /\ timers w' = timers w /\ promises w' = promises w.
Proof.
  revert w. induction cs as [|c cs IH]; intros w; simpl; [repeat split|].
  destruct (IH (withLog (PostMessage wk c) w)) as (H1 & H2 & H3).
  rewrite H1, H2, H3. repeat split.
Qed.

Lemma commandsTo_startEffects (options : StockfishOptions) (w : World) :
  commandsTo (List.length (workers w)) (startEffects options w) = ["uci"].
Proof.
  unfold startEffects. rewrite commandsTo_app.
  destruct (makesObjectUrl options w); simpl; rewrite Nat.eqb_refl; reflexivity.
Qed.

Lemma steps_app (w : World) (evs1 evs2 : list Event) :
  steps w (evs1 ++ evs2) = steps (steps w evs1) evs2.
Proof. unfold steps. apply fold_left_app. Qed.

(** What has been posted to the worker of the session since the
    request. *)
Lemma Sequenced_sent (e : Env) (w0 : World) (options : StockfishOptions)
      (ready sent : bool) (w : World) :
  Sequenced e w0 options ready sent w ->
  commandsTo (List.length (workers w0)) (skipn (List.length (log w0)) (log w))
  = "uci" :: (if ready then setoptionCommands options else []) ++
             (if sent then searchCommands (this w0) options else []).
Proof.
  intros (_ & _ & _ & _ & _ & efs & Hlog & Hcmd).
  rewrite Hlog. unfold evaluatingFrom. cbn [log].
  rewrite <- !app_assoc, skipn_length_app, !commandsTo_app, commandsTo_startEffects, Hcmd.
  reflexivity.
Qed.

Lemma Sequenced_start (e : Env) (w0 : World) (options : StockfishOptions) :
  Reachable e w0 -> mode (this w0) = idle -> hasWorker (env w0) = true ->
  timers w0 = [] ->
  step w0 (Call_evaluatePosition options) = evaluatingFrom options w0 /\
  Sequenced e w0 options false false (evaluatingFrom options w0).
Proof.
  intros Hr Hm Hw Ht.
  assert (Hsf := session_idle w0 (Reachable_Session e w0 Hr) Hm).
  assert (Hstep : step w0 (Call_evaluatePosition options) = evaluatingFrom options w0).
  { simpl. unfold task. rewrite (evaluatePosition_accepted options w0 Hm Hsf Hw).
    reflexivity. }
  split; [exact Hstep|].
  split; [rewrite <- Hstep; constructor; exact Hr|].
  split; [reflexivity|]. split; [reflexivity|]. split; [discriminate|]. split.
  - exists (S (nextTimer w0)). split; [lia|]. simpl. rewrite Ht. reflexivity.
  - exists []. split; [rewrite app_nil_r; reflexivity | reflexivity].
Qed.

(** The worker of the session and its listeners. *)
Lemma Sequenced_worker (e : Env) (w0 : World) (options : StockfishOptions)
      (ready sent : bool) (w : World) :
  Sequenced e w0 options ready sent w ->
  stockfish (this w) = Some (List.length (workers w0)) /\
  game (this w) = game (this w0) /\
  exists worker,
    nth_error (workers w) (List.length (workers w0)) = Some worker /\
    alive worker = true /\
    messageListeners worker =
      [HandleStockfishMessage options;
       MessageHandler (List.length (promises w0)) (nextTimer w0)].
Proof.
  intros (_ & Hst & _). unfold searchState in Hst.
  injection Hst as Hws Hps Hsf Hm Hg.
  split; [exact Hsf|]. split; [exact Hg|].
  eexists. split; [rewrite Hws; apply nth_error_last|]. split; reflexivity.
Qed.

(** A line of the worker that is neither signal goes to the line handler,
    which posts nothing. *)
Lemma Sequenced_line (e : Env) (w0 : World) (options : StockfishOptions)
      (ready sent : bool) (w : World) (data : string) :
  Sequenced e w0 options ready sent w ->
  String.eqb data "uciok" = false -> JS.startsWith data "bestmove" = false ->
  Sequenced e w0 options ready sent
            (step w (WorkerMessage (List.length (workers w0)) data)).
Proof.
  intros H Hu Hb.
  destruct (Sequenced_worker e w0 options ready sent w H)
    as (Hsf & Hg & worker & Hn & Ha & Hl).
  destruct H as (Hr & Hst & Hok & Himp & Htimers & efs & Hlog & Hcmd).
  assert (Hr' : Reachable e (step w (WorkerMessage (List.length (workers w0)) data)))
    by (constructor; exact Hr).
  set (wn := step w (WorkerMessage (List.length (workers w0)) data)) in *.
  assert (Hstep : wn = task (_handleStockfishMessage data options) w).
  { subst wn. rewrite (step_message w _ worker data Hn Ha), Hl, dispatch_two.
    apply (task_normal _ _ _ tt). apply messageHandler_other. exact Hb. }
  assert (Hw : wiring wn = wiring w) by (rewrite Hstep; apply wiring_line; exact Hb).
  unfold wiring in Hw. inversion Hw as [[Hws' Hsf' Hm' Hu' Ht' Hn' Hp']].
  assert (Hg' : game (this wn) = game (this w)).
  { rewrite Hstep. apply task_game. apply _handleStockfishMessage_game. }
  assert (Hok' : isuciok (this wn) = isuciok (this w)).
  { rewrite Hstep. rewrite (keeps_task (fun w => isuciok (this w))) by reflexivity.
    apply (calm__handleStockfishMessage_info data options Hu Hb w). }
  destruct (line_posts_nothing w data options Hu Hb) as (efs' & Hlog' & Hnone).
  split; [exact Hr'|]. split.
  { unfold searchState. rewrite Hws', Hp', Hsf', Hm', Hg'. exact Hst. }
  split; [rewrite Hok'; exact Hok|]. split; [exact Himp|]. split.
  { rewrite Ht'. exact Htimers. }
  exists (efs ++ efs'). split.
  - rewrite Hstep, Hlog', Hlog, app_assoc. reflexivity.
  - rewrite commandsTo_app, Hnone, app_nil_r. exact Hcmd.
Qed.


(** The pending poll fires after the ready signal: the search commands are
    posted, and no poll is left. *)
Lemma Sequenced_poll_ready (e : Env) (w0 : World) (options : StockfishOptions)
      (w : World) (tp : nat) :
  Sequenced e w0 options true false w ->
  timers w = [sessionTimeout w0 options; (tp, CheckUciOkEvaluate options)] ->
  tp <> nextTimer w0 ->
  log (step w (TimerFires tp))
    = log w ++ map (PostMessage (List.length (workers w0)))
                   (searchCommands (this w0) options) /\
  timers (step w (TimerFires tp)) = [sessionTimeout w0 options] /\
  Sequenced e w0 options true true (step w (TimerFires tp)).
Proof.
  intros H Ht Htp.
  destruct (Sequenced_worker e w0 options true false w H) as (Hsf & Hg & _).
  unfold Sequenced in *. cbv zeta in *.
  destruct H as (Hr & Hst & Hok & Himp & _ & efs & Hlog & Hcmd).
  remember (log (evaluatingFrom options w0)) as l1 eqn:Hl1. clear Hl1.
  assert (Hr' : Reachable e (step w (TimerFires tp))) by (constructor; exact Hr).
  assert (Hstep : step w (TimerFires tp)
                  = withLog (PostMessage (List.length (workers w0)) (goCommand options))
                      (withLog (PostMessage (List.length (workers w0))
                                  ("position fen " ++ chess_fen (game (this w0))))
                         (withTimers (fun _ => [sessionTimeout w0 options])
                                     (nextTimer w) w))).
  { simpl step. rewrite Ht. unfold sessionTimeout at 1. simpl findTimer.
    replace (Nat.eqb (nextTimer w0) tp) with false
      by (symmetry; apply Nat.eqb_neq; congruence).
    rewrite Nat.eqb_refl.
    apply (task_normal _ _ _ tt). simpl fire.
    rewrite (checkUciOkEvaluate_ready (withTimers _ _ w) options (List.length (workers w0)) Hok Hsf).
    simpl. rewrite Hg. unfold withTimers. simpl. rewrite Ht.
    unfold sessionTimeout. simpl.
    replace (Nat.eqb (nextTimer w0) tp) with false
      by (symmetry; apply Nat.eqb_neq; congruence).
    rewrite Nat.eqb_refl. reflexivity. }
  rewrite Hstep in *. clear Hstep.
  split; [simpl; rewrite <- app_assoc; reflexivity|].
  split; [reflexivity|].
  split; [exact Hr'|]. split; [exact Hst|]. split; [exact Hok|].
  split; [reflexivity|]. split.
  - exists tp. split; [exact Htp | reflexivity].
  - exists (efs ++ map (PostMessage (List.length (workers w0)))
                       (searchCommands (this w0) options)).
    split; [simpl; rewrite Hlog, <- !app_assoc; reflexivity|].
    rewrite commandsTo_app, commandsTo_posts, Hcmd, app_nil_r. reflexivity.
Qed.

(** The pending poll fires before the ready signal: it is armed again. *)
Lemma Sequenced_poll_waiting (e : Env) (w0 : World) (options : StockfishOptions)
      (w : World) (tp : nat) :
  Sequenced e w0 options false false w ->
  timers w = [sessionTimeout w0 options; (tp, CheckUciOkEvaluate options)] ->
  tp <> nextTimer w0 ->
  Sequenced e w0 options false false (step w (TimerFires tp)).
Proof.
  intros H Ht Htp.
  unfold Sequenced in *. cbv zeta in *.
  destruct H as (Hr & Hst & Hok & Himp & _ & efs & Hlog & Hcmd).
  remember (log (evaluatingFrom options w0)) as l1 eqn:Hl1. clear Hl1.
  assert (Hr' : Reachable e (step w (TimerFires tp))) by (constructor; exact Hr).
  assert (Hfresh : (nextTimer w0 < nextTimer w)%nat).
  { apply (inv_timer_fresh w (Reachable_Inv e w Hr) (nextTimer w0)
             (snd (sessionTimeout w0 options))).
    rewrite Ht. left. reflexivity. }
  assert (Hstep : step w (TimerFires tp)
                  = withLog (SetTimeout (nextTimer w) 50)
                      (withTimers (fun _ => [sessionTimeout w0 options;
                                             (nextTimer w, CheckUciOkEvaluate options)])
                                  (S (nextTimer w)) w)).
  { simpl step. rewrite Ht. unfold sessionTimeout at 1. simpl findTimer.
    replace (Nat.eqb (nextTimer w0) tp) with false
      by (symmetry; apply Nat.eqb_neq; congruence).
    rewrite Nat.eqb_refl.
    apply (task_normal _ _ _ tt). simpl fire.
    rewrite (checkUciOkEvaluate_waiting (withTimers _ _ w) options Hok).
    unfold withTimers, withLog. simpl. rewrite Ht.
    unfold sessionTimeout. simpl.
    replace (Nat.eqb (nextTimer w0) tp) with false
      by (symmetry; apply Nat.eqb_neq; congruence).
    rewrite Nat.eqb_refl. reflexivity. }
  rewrite Hstep in *. clear Hstep.
  split; [exact Hr'|]. split; [exact Hst|]. split; [exact Hok|].
  split; [exact Himp|]. split.
  - exists (nextTimer w). split; [lia | reflexivity].
  - exists (efs ++ [SetTimeout (nextTimer w) 50]).
    split; [simpl; rewrite Hlog, <- app_assoc; reflexivity|].
    rewrite commandsTo_app, Hcmd. reflexivity.
Qed.

(** A timer that is not pending does nothing. *)
Lemma step_no_timer (w : World) (t : nat) :
  findTimer (timers w) t = None -> step w (TimerFires t) = w.
Proof. intros H. simpl. rewrite H. reflexivity. Qed.

Lemma Sequenced_timer (e : Env) (w0 : World) (options : StockfishOptions)
      (ready sent : bool) (w : World) (t' : nat) :
  Sequenced e w0 options ready sent w ->
  t' <> nextTimer w0 ->
  exists sent', Sequenced e w0 options ready sent' (step w (TimerFires t')).
Proof.
  intros H Ht'.
  assert (H' := H).
  destruct H' as (Hr & Hst & Hok & Himp & (tp & Htp & Ht) & _).
  assert (Hskip : Nat.eqb (nextTimer w0) t' = false)
    by (apply Nat.eqb_neq; congruence).
  destruct sent.
  - exists true. rewrite step_no_timer; [exact H|].
    rewrite Ht. unfold sessionTimeout. simpl. rewrite Hskip. reflexivity.
  - destruct (Nat.eqb tp t') eqn:Heq.
    + apply Nat.eqb_eq in Heq. subst t'. destruct ready.
      * exists true. apply (Sequenced_poll_ready e w0 options w tp H Ht Htp).
      * exists false. apply (Sequenced_poll_waiting e w0 options w tp H Ht Htp).
    + exists false. rewrite step_no_timer; [exact H|].
      rewrite Ht. unfold sessionTimeout. simpl. rewrite Hskip, Heq. reflexivity.
Qed.

Lemma Sequenced_step (e : Env) (w0 : World) (options : StockfishOptions)
      (ready sent : bool) (w : World) (ev : Event) :
  Sequenced e w0 options ready sent w ->
  sessionEvent (List.length (workers w0)) (nextTimer w0) ev = true ->
  exists sent', Sequenced e w0 options ready sent' (step w ev).
Proof.
  intros H Hev. destruct ev; try discriminate Hev; simpl in Hev.
  - apply andb_prop in Hev. destruct Hev as [Hev Hu].
    apply andb_prop in Hev. destruct Hev as [Hwk Hb].
    apply Nat.eqb_eq in Hwk. subst wk.
    apply negb_true_iff in Hu, Hb.
    exists sent. apply Sequenced_line; assumption.
  - apply negb_true_iff in Hev. apply Nat.eqb_neq in Hev.
    apply (Sequenced_timer e w0 options ready sent w _ H Hev).
Qed.

Lemma Sequenced_steps (e : Env) (w0 : World) (options : StockfishOptions)
      (ready : bool) (evs : list Event) :
  forall sent w,
    Sequenced e w0 options ready sent w ->
    forallb (sessionEvent (List.length (workers w0)) (nextTimer w0)) evs = true ->
    exists sent', Sequenced e w0 options ready sent' (steps w evs).
Proof.
  induction evs as [|ev evs IH]; intros sent w H Hevs.
  - exists sent. exact H.
  - simpl in Hevs. apply andb_prop in Hevs. destruct Hevs as [Hev Hevs].
    change (steps w (ev :: evs)) with (steps (step w ev) evs).
    destruct (Sequenced_step e w0 options ready sent w ev H Hev) as [sent1 H1].
    apply (IH sent1 _ H1 Hevs).
Qed.

(** The ready signal: the configuration commands are posted. *)
Lemma Sequenced_ready (e : Env) (w0 : World) (options : StockfishOptions)
      (sent : bool) (w : World) :
  Sequenced e w0 options false sent w ->
  Sequenced e w0 options true false
            (step w (WorkerMessage (List.length (workers w0)) "uciok")).
Proof.
  intros H.
  destruct (Sequenced_worker e w0 options false sent w H)
    as (Hsf & Hg & worker & Hn & Ha & Hl).
  unfold Sequenced in *. cbv zeta in *.
  destruct H as (Hr & Hst & Hok & Himp & Htimers & efs & Hlog & Hcmd).
  assert (Hs : sent = false) by (destruct sent; [discriminate (Himp eq_refl) | reflexivity]).
  subst sent.
  remember (log (evaluatingFrom options w0)) as l1 eqn:Hl1. clear Hl1.
  assert (Hr' : Reachable e (step w (WorkerMessage (List.length (workers w0)) "uciok")))
    by (constructor; exact Hr).
  set (wn := step w (WorkerMessage (List.length (workers w0)) "uciok")) in *.
  assert (Hstep : wn = fold_left
                         (fun w' c => withLog (PostMessage (List.length (workers w0)) c) w')
                         (setoptionCommands options) (withThis (set_isuciok true) w)).
  { subst wn. rewrite (step_message w _ worker "uciok" Hn Ha), Hl, dispatch_two.
    simpl callListener.
    rewrite (task_normal (messageHandler _ _ "uciok") _ _ tt
               (messageHandler_other _ _ "uciok" _ eq_refl)).
    apply (task_normal _ _ _ tt).
    rewrite _handleStockfishMessage_uciok. apply _setOptions_sends. exact Hsf. }
  destruct (post_all_frame (List.length (workers w0)) (setoptionCommands options)
                           (withThis (set_isuciok true) w)) as (Hws & Hts & Hps).
  rewrite <- Hstep in Hws, Hts, Hps. simpl in Hws, Hts, Hps.
  assert (Hthis : this wn = set_isuciok true (this w))
    by (rewrite Hstep; apply post_all_this).
  split; [exact Hr'|]. split.
  { unfold searchState. rewrite Hws, Hps, Hthis. exact Hst. }
  split; [rewrite Hthis; reflexivity|]. split; [reflexivity|]. split.
  { rewrite Hts. exact Htimers. }
  exists (efs ++ map (PostMessage (List.length (workers w0))) (setoptionCommands options)).
  split.
  - rewrite Hstep, post_all_log. simpl. rewrite Hlog, app_assoc. reflexivity.
  - rewrite commandsTo_app, commandsTo_posts, Hcmd. simpl. rewrite app_nil_r. reflexivity.
Qed.


(** X19 — A one-shot session with no timer left over from an earlier
    request.  [evaluatePosition(options)] is called on an idle controller
    in a browser while no timer is pending; then, before and after the
    ready signal of its worker, only lines that are neither signal come
    from that worker and only timers other than the time-out of the
    request fire.  Before the ready signal the worker is sent [uci] and
    nothing else.  After it the worker has been sent [uci], the
    configuration commands of the options, and then either nothing more,
    while the poll is still pending (and when that poll fires, the
    position command and the go directive of the options are sent and no
    poll is left), or the position command followed by the go directive,
    once, with no poll left: they are sent only after the ready signal,
    and never a second time. *)
Theorem session_sends_position_then_one_go
        (e : Env) (w : World) (options : StockfishOptions) (before rest : list Event) :
  Reachable e w -> mode (this w) = idle -> hasWorker (env w) = true ->
  timers w = [] ->
  let wk := List.length (workers w) in
  forallb (sessionEvent wk (nextTimer w)) before = true ->
  forallb (sessionEvent wk (nextTimer w)) rest = true ->
  let request := Call_evaluatePosition options in
  let wb := steps w (request :: before) in
  let w' := steps w (request :: before ++ WorkerMessage wk "uciok" :: rest) in
  let sent := commandsTo wk (skipn (List.length (log w)) (log w')) in
  commandsTo wk (skipn (List.length (log w)) (log wb)) = ["uci"] /\
  ((exists tp,
      timers w' = [sessionTimeout w options; (tp, CheckUciOkEvaluate options)] /\
      sent = "uci" :: setoptionCommands options /\
      commandsTo wk (skipn (List.length (log w')) (log (step w' (TimerFires tp))))
        = searchCommands (this w) options /\
      timers (step w' (TimerFires tp)) = [sessionTimeout w options]) \/
   (timers w' = [sessionTimeout w options] /\
    sent = "uci" :: setoptionCommands options ++ searchCommands (this w) options)).
Proof.
  intros Hr Hm Hw Ht wk Hbefore Hrest request wb w' sent. subst wk.
  destruct (Sequenced_start e w options Hr Hm Hw Ht) as [Hstep H1].
  destruct (Sequenced_steps e w options false before false _ H1 Hbefore) as [s Hb].
  assert (Hwb : wb = steps (evaluatingFrom options w) before).
  { subst wb request. change (steps w (?ev :: ?evs)) with (steps (step w ev) evs).
    rewrite Hstep. reflexivity. }
  assert (Hs : s = false).
  { destruct Hb as (_ & _ & _ & Himp & _).
    destruct s; [discriminate (Himp eq_refl) | reflexivity]. }
  subst s. rewrite <- Hwb in Hb.
  split.
  { rewrite (Sequenced_sent e w options false false wb Hb). reflexivity. }
  assert (Hready := Sequenced_ready e w options false wb Hb).
  destruct (Sequenced_steps e w options true rest false _ Hready Hrest) as [s H'].
  assert (Hw' : w' = steps (step wb (WorkerMessage (List.length (workers w)) "uciok")) rest).
  { subst w' wb request.
    change (steps w (?ev :: ?evs)) with (steps (step w ev) evs).
    rewrite steps_app. reflexivity. }
  rewrite <- Hw' in H'.
  assert (Hsent := Sequenced_sent e w options true s w' H').
  assert (Htimers := H'). destruct Htimers as (_ & _ & _ & _ & (tp & Htp & Htimers) & _).
  destruct s.
  - right. split; [exact Htimers | exact Hsent].
  - left. exists tp. split; [exact Htimers|]. split.
    { subst sent. rewrite Hsent, app_nil_r. reflexivity. }
    destruct (Sequenced_poll_ready e w options w' tp H' Htimers Htp) as (Hlog & Ht' & _).
    split; [|exact Ht'].
    rewrite Hlog, skipn_length_app. apply commandsTo_posts.
Qed.

End Sequencing.

(* ================================================================== *)
(** * The properties at work: the sessions of the tests *)
(* ================================================================== *)

Import BookRules.

Lemma Reachable_steps {rules : RulesEngine} (e : Env) (w : World) (evs : list Event) :
  Reachable e w -> Reachable e (steps w evs).
Proof.
  revert w. induction evs as [|ev evs IH]; intros w H; simpl; [exact H|].
  apply IH. constructor. exact H.
Defined.

(** The test "should correctly sequence UCI commands and resolve on
    bestmove" of [tests/engine.test.ts]. *)
Example evaluatePosition_sequence_of_the_test :
  let w := steps page
    [Call_evaluatePosition noOptions; WorkerMessage 0 "uciok"; TimerFires 1;
     WorkerMessage 0 "info depth 15 seldepth 22 multipv 1 score cp 13 nodes 48622 nps 151943 hashfull 999 tbhits 0 time 32 pv e2e4 e7e5 g1f3";
     WorkerMessage 0 "bestmove e2e4 ponder e7e5"] in
  log w =
    [CreateObjectURL true "blob:mock-url"; WorkerNew 0 "blob:mock-url";
     PostMessage 0 "uci"; SetTimeout 0 30000; SetTimeout 1 50;
     PostMessage 0 "position fen rnbqkbnr/pppppppp/8/8/8/8/PPPPPPPP/RNBQKBNR w KQkq - 0 1";
     PostMessage 0 "go depth 15"; ClearTimeout 0;
     PostMessage 0 "quit"; WorkerTerminate 0; RevokeObjectURL "blob:mock-url";
     Resolve 0 [{| evaluation := EvalNumber (Qmake 13 100);
                   line := ["e4"; "e5"; "Nf3"] |}]] /\
  mode (this w) = idle /\ stockfish (this w) = None /\ timers w = [].
Proof. vm_compute. repeat split. Qed.

(** Witness of C1: the session of [evaluatingWithOneLine], its time-out
    pending. *)
Lemma timeout_resolves_with_empty_list_witness :
  Reachable browser evaluatingWithOneLine /\
  In (0%nat, TimeoutCallback 0 30000) (timers evaluatingWithOneLine) /\
  nth_error (promises (step evaluatingWithOneLine (TimerFires 0))) 0
    = Some (Resolved []).
Proof.
  assert (Hr : Reachable browser evaluatingWithOneLine)
    by (apply Reachable_steps; constructor).
  assert (Hin : In (0%nat, TimeoutCallback 0 30000) (timers evaluatingWithOneLine))
    by (vm_compute; left; reflexivity).
  split; [exact Hr|]. split; [exact Hin|].
  destruct (timeout_resolves_with_empty_list browser evaluatingWithOneLine 0 0 30000 Hr Hin)
    as (_ & H & _).
  exact H.
Defined.

(** Against C1 as stated: in the session of [evaluatingWithOneLine] one
    line has been accumulated when the time-out fires, and the promise is
    resolved with the empty list, not with that line. *)
Lemma timeout_discards_accumulated_lines :
  let w := evaluatingWithOneLine in
  let w' := step w (TimerFires 0) in
  In (0%nat, TimeoutCallback 0 30000) (timers w) /\
  JSArray.filterBoolean (analysisLines (this w)) = [e4e5] /\
  nth_error (promises w') 0 = Some (Resolved []) /\
  nth_error (promises w') 0
    <> Some (Resolved (JSArray.filterBoolean (analysisLines (this w)))).
Proof.
  vm_compute. split; [left; reflexivity|]. split; [reflexivity|].
  split; [reflexivity|]. discriminate.
Qed.

(** The poll of [evaluatingTimedReady], which is the timer 1, fires after
    the ready signal: the per-side time goes before the move time and the
    node count. *)
Lemma evaluate_sends_position_then_one_go_witness :
  Reachable browser evaluatingTimedReady /\
  In (1%nat, CheckUciOkEvaluate timedOptions) (timers evaluatingTimedReady) /\
  isuciok (this evaluatingTimedReady) = true /\
  stockfish (this evaluatingTimedReady) = Some 0%nat /\
  skipn (List.length (log evaluatingTimedReady))
        (log (step evaluatingTimedReady (TimerFires 1))) =
    [PostMessage 0 "position fen rnbqkbnr/pppppppp/8/8/8/8/PPPPPPPP/RNBQKBNR w KQkq - 0 1";
     PostMessage 0 "go wtime 1000 btime 1000"] /\
  timers (step evaluatingTimedReady (TimerFires 1)) = [(0%nat, TimeoutCallback 0 200)].
Proof.
  assert (Hr : Reachable browser evaluatingTimedReady)
    by (apply Reachable_steps; constructor).
  assert (Hin : In (1%nat, CheckUciOkEvaluate timedOptions) (timers evaluatingTimedReady))
    by (vm_compute; right; left; reflexivity).
  assert (Hok : isuciok (this evaluatingTimedReady) = true) by (vm_compute; reflexivity).
  assert (Hsf : stockfish (this evaluatingTimedReady) = Some 0%nat)
    by (vm_compute; reflexivity).
  split; [exact Hr|]. split; [exact Hin|]. split; [exact Hok|]. split; [exact Hsf|].
  destruct (evaluate_sends_position_then_one_go browser evaluatingTimedReady 1 timedOptions
              Hr Hin) as (H & _).
  destruct (H Hok) as (wk & Hwk & Hlog & Ht).
  rewrite Hsf in Hwk. inversion Hwk; subst wk.
  split; [rewrite Hlog | rewrite Ht]; vm_compute; reflexivity.
Defined.

(** C2, on the code — The poll of a request is never cleared: not by
    [terminate()], not by the time-out.  In [secondSessionReady] the first
    request, [evaluatePosition({ movetime: 1 })], was ended by its
    time-out before its worker was ready, and its poll is still armed
    when the worker of the second request,
    [evaluatePosition({ nodes: 5 })], gives the ready signal.  Both polls
    then fire: the worker of the second request is sent the position and
    [go movetime 1], chosen from the options of the first request, and
    then the position again and [go nodes 5].  That is two position
    commands and two go directives, where the second request alone calls
    for [go nodes 5]. *)
Example stale_poll_sends_a_second_go :
  let position :=
    "position fen rnbqkbnr/pppppppp/8/8/8/8/PPPPPPPP/RNBQKBNR w KQkq - 0 1" in
  let w := secondSessionReady in
  let w' := steps w [TimerFires 2; TimerFires 4] in
  promises w = [Resolved []; Pending] /\
  stockfish (this w) = Some 1%nat /\ isuciok (this w) = true /\
  timers w = [(2%nat, CheckUciOkEvaluate quickOptions);
              (3%nat, TimeoutCallback 1 30000);
              (4%nat, CheckUciOkEvaluate nodesOptions)] /\
  goCommand nodesOptions = "go nodes 5" /\
  skipn (List.length (log w)) (log w')
    = [PostMessage 1 position; PostMessage 1 "go movetime 1";
       PostMessage 1 position; PostMessage 1 "go nodes 5"].
Proof. vm_compute. repeat split. Qed.

(** Witness of C3: the line of the streaming test, White to move. *)
Lemma stored_evaluation_normalized_witness :
  let message := "info depth 10 seldepth 15 multipv 1 score cp 25 pv e2e4 e7e5" in
  let multipvMatch := [(4%nat, "e2e4 e7e5"); (3%nat, "25"); (2%nat, "cp"); (1%nat, "1")] in
  Regex.search multipvPattern message = Some multipvMatch /\
  exists l,
    analysisLines (this (after (_handleStockfishMessage message noOptions) streaming))
      = JSArray.set (analysisLines (this streaming)) (1 - 1) l /\
    ((group 2 multipvMatch = "cp" /\ evaluation l = EvalNumber (Qmake 25 100)) \/
     (group 2 multipvMatch = "mate" /\ evaluation l = EvalString "M25")).
Proof.
  intros message multipvMatch.
  split; [reflexivity|].
  exact (stored_evaluation_normalized streaming message noOptions multipvMatch
           start true
           ltac:(discriminate) eq_refl eq_refl eq_refl eq_refl).
Defined.

(** Witness of C4: the ranks came in the order 3, 1, and the rank 2 never.
    In the streaming session a later line for the rank 1 is handled: the
    subscriber gets the later line of the rank 1, then the line of the
    rank 3.  In the one-shot evaluation the completion event resolves the
    promise with the line of the rank 1, then the line of the rank 3. *)
Lemma exposed_arrays_ranked_and_gap_free_witness :
  analysisLines (this streamingOutOfOrder) = storeAll [(3, c4c5); (1, e4e5)] /\
  storeAll [(3, c4c5); (1, e4e5)] = [Some e4e5; None; Some c4c5] /\
  In (ListenerCall 7%nat [d4d5; c4c5])
     (effectsOf (_handleStockfishMessage laterLineOfRank1 noOptions) streamingOutOfOrder) /\
  RankedSnapshot [(3, c4c5); (1, e4e5); (1, d4d5)] [d4d5; c4c5] /\
  analysisLines (this (after (_handleStockfishMessage laterLineOfRank1 noOptions)
                             streamingOutOfOrder))
    = storeAll [(3, c4c5); (1, e4e5); (1, d4d5)] /\
  analysisLines (this evaluatingOutOfOrder) = storeAll [(3, c4c5); (1, e4e5)] /\
  In (Resolve 0 [e4e5; c4c5])
     (effectsOf (messageHandler 0 0 "bestmove e2e4 ponder e7e5") evaluatingOutOfOrder) /\
  RankedSnapshot [(3, c4c5); (1, e4e5)] [e4e5; c4c5].
Proof.
  assert (Hs : analysisLines (this streamingOutOfOrder) = storeAll [(3, c4c5); (1, e4e5)])
    by (vm_compute; reflexivity).
  assert (He : analysisLines (this evaluatingOutOfOrder) = storeAll [(3, c4c5); (1, e4e5)])
    by (vm_compute; reflexivity).
  assert (Hp : parsedUpdate (this streamingOutOfOrder) laterLineOfRank1 = Some (1, d4d5))
    by (vm_compute; reflexivity).
  assert (Hcall : In (ListenerCall 7%nat [d4d5; c4c5])
                     (effectsOf (_handleStockfishMessage laterLineOfRank1 noOptions)
                                streamingOutOfOrder))
    by (vm_compute; left; reflexivity).
  assert (Hres : In (Resolve 0 [e4e5; c4c5])
                    (effectsOf (messageHandler 0 0 "bestmove e2e4 ponder e7e5")
                               evaluatingOutOfOrder))
    by (vm_compute; do 4 right; left; reflexivity).
  assert (Hb : JS.startsWith "bestmove e2e4 ponder e7e5" "bestmove" = true)
    by (vm_compute; reflexivity).
  split; [exact Hs|]. split; [vm_compute; reflexivity|]. split; [exact Hcall|].
  destruct (exposed_arrays_ranked_and_gap_free
              streamingOutOfOrder [(3, c4c5); (1, e4e5)] laterLineOfRank1 noOptions 0 0 Hs)
    as (Ha & Hn & _).
  rewrite Hp in Ha, Hn.
  split; [exact (Hn _ _ Hcall)|]. split; [exact Ha|]. split; [exact He|].
  split; [exact Hres|].
  destruct (exposed_arrays_ranked_and_gap_free
              evaluatingOutOfOrder [(3, c4c5); (1, e4e5)] "bestmove e2e4 ponder e7e5"
              noOptions 0 0 He) as (_ & _ & Hr).
  exact (proj2 (Hr Hb _ _ Hres)).
Defined.

(** Against C4 as stated: in the session of [evaluatingWithOneLine] rank 1
    has been reported and its line stored; the time-out resolves the
    promise of [evaluatePosition] with the empty array, which does not list
    the line of rank 1. *)
Lemma timeout_array_omits_reported_rank :
  let w := evaluatingWithOneLine in
  let w' := step w (TimerFires 0) in
  analysisLines (this w) = storeAll [(1, e4e5)] /\
  In (Resolve 0 []) (skipn (List.length (log w)) (log w')) /\
  ~ RankedSnapshot [(1, e4e5)] [].
Proof.
  split; [reflexivity|]. split.
  { vm_compute. right. right. right. right. left. reflexivity. }
  intros (ranks & _ & Hin & Hmap).
  assert (H1 : In 1 ranks).
  { apply Hin. split; [reflexivity|]. exists e4e5. left. reflexivity. }
  destruct ranks as [|r ranks]; [destruct H1 | discriminate Hmap].
Qed.

(** The range of the ranks in C4: a line with the rank 0 is parsed as a
    rank update, but the array has no slot for it; the subscriber is
    called with the lines of the ranks 1 and 3, and the array stays as it
    was.  (In the source the assignment [analysisLines[-1] = ...] makes a
    property of the array object, which is no element of it.) *)
Example rank_zero_line_is_not_exposed :
  exists l,
    parsedUpdate (this streamingOutOfOrder) lineOfRank0 = Some (0, l) /\
    isRank 0 = false /\
    effectsOf (_handleStockfishMessage lineOfRank0 noOptions) streamingOutOfOrder
      = [ListenerCall 7%nat [e4e5; c4c5]] /\
    analysisLines (this (after (_handleStockfishMessage lineOfRank0 noOptions)
                               streamingOutOfOrder))
      = analysisLines (this streamingOutOfOrder).
Proof. exists c4c5. vm_compute. repeat split. Qed.

(** Witness of C5: the list of the test "should handle invalid moves
    gracefully in conversion". *)
Lemma convertMovesToSAN_longest_accepted_prefix_witness :
  Chess_new start = Some start /\
  exists accepted rest sans b,
    ["e2e4"; "bogus"; "g1f3"] = accepted ++ rest /\
    Accepted start accepted sans b /\
    (rest = [] \/ exists move rest', rest = move :: rest' /\ chess_move b move = None) /\
    fst (convertMovesToSAN ["e2e4"; "bogus"; "g1f3"] start page) = Normal sans.
Proof.
  split; [reflexivity|].
  exact (convertMovesToSAN_longest_accepted_prefix
           ["e2e4"; "bogus"; "g1f3"] start start page eq_refl).
Defined.

(** Against C5 as stated: the string ["not a fen"] is no position, the
    rules engine refuses it, and the call throws, whatever the moves:
    [new Chess(position)] is outside the [try]. *)
Example convertMovesToSAN_throws_on_rejected_position :
  Chess_new "not a fen" = None /\
  convertMovesToSAN ["e2e4"; "bogus"; "g1f3"] "not a fen" page
    = (Throw "Invalid FEN", page) /\
  forall sans,
    fst (convertMovesToSAN ["e2e4"; "bogus"; "g1f3"] "not a fen" page) <> Normal sans.
Proof.
  split; [reflexivity|]. split; [reflexivity|]. intros sans. vm_compute. discriminate.
Qed.

(** The result in that test. *)
Example convertMovesToSAN_truncates_at_bogus :
  fst (convertMovesToSAN ["e2e4"; "bogus"; "g1f3"] start page) = Normal ["e4"] /\
  fst (convertMovesToSAN ["e2e4"; "e7e5"; "g1f3"; "b8c6"] start page)
    = Normal ["e4"; "e5"; "Nf3"; "Nc6"].
Proof. split; reflexivity. Qed.

(** Witness of C6: a streaming session is active. *)
Lemma busy_rejects_or_warns_witness :
  mode (this streaming) <> idle /\
  effectsOf (evaluatePosition noOptions) streaming = [Reject 0 busyMessage] /\
  startAnalysis noOptions streaming
    = (Normal tt, withLog (ConsoleWarn busyMessage) streaming).
Proof.
  assert (Hm : mode (this streaming) <> idle) by discriminate.
  split; [exact Hm|].
  destruct (busy_rejects_or_warns streaming noOptions Hm)
    as (_ & _ & H1 & _ & _ & _ & _ & H2).
  split; [exact H1 | exact H2].
Defined.

(** C7, on the code — The line [info depth 1 multipv 1 score cp 13 pv]
    followed by two spaces matches the ranked-info pattern, and its move
    sequence is empty after trimming.  [split] makes of it the array of one
    empty string, so the test [pvLine.length > 0] passes: the slot of rank
    1 is written, with no move, and the subscriber is notified. *)
Example empty_pv_line_is_stored_and_published :
  let message := "info depth 1 multipv 1 score cp 13 pv  " in
  let w' := step streaming (WorkerMessage 0 message) in
  option_map (fun m => JS.trim (group 4 m)) (Regex.search multipvPattern message)
    = Some "" /\
  analysisLines (this streaming) = [] /\
  analysisLines (this w')
    = [Some {| evaluation := EvalNumber (Qmake 13 100); line := [] |}] /\
  skipn (List.length (log streaming)) (log w')
    = [ConsoleError "Error converting move:";
       ListenerCall 7%nat [{| evaluation := EvalNumber (Qmake 13 100); line := [] |}]].
Proof. vm_compute. repeat split. Qed.

(** C8, on the code — With the option [skillLevel: 0], a value of the
    documented range 0-20, nothing is sent on the ready signal: the test
    [if (options.skillLevel)] takes 0 for an absent parameter.  The same
    holds of [contempt: 0].  With [skillLevel: 10] the command is sent. *)
Example zero_skill_level_is_not_sent :
  let withSkill (v : Z) :=
    {| depth := None; time := None; movetime := None; nodes := None;
       stockfishUrl := None; multiPV := None; skillLevel := Some v;
       contempt := Some 0; threads := None; hash := None |} in
  let ready (v : Z) :=
    let w := step page (Call_evaluatePosition (withSkill v)) in
    skipn (List.length (log w)) (log (step w (WorkerMessage 0 "uciok"))) in
  ready 0 = [] /\
  ready 10 = [PostMessage 0 "setoption name Skill Level value 10"].
Proof. vm_compute. split; reflexivity. Qed.

(** ** The life of a session, on the sessions of the tests *)

Lemma unsubscribed_listener_is_not_notified_witness :
  ~ In (Call_on 7%nat)
       [WorkerMessage 0 "info depth 10 seldepth 15 multipv 1 score cp 25 pv e2e4 e7e5"] /\
  forall data,
    ~ In (ListenerCall 7%nat data)
         (skipn (List.length (log (step streaming (Call_off 7%nat))))
                (log (steps (step streaming (Call_off 7%nat))
                   [WorkerMessage 0
                      "info depth 10 seldepth 15 multipv 1 score cp 25 pv e2e4 e7e5"]))).
Proof.
  assert (H : ~ In (Call_on 7%nat)
                [WorkerMessage 0
                   "info depth 10 seldepth 15 multipv 1 score cp 25 pv e2e4 e7e5"]).
  { intros [H|[]]. discriminate H. }
  split; [exact H|].
  destruct (unsubscribed_listener_is_not_notified streaming 7%nat _ H) as [H1 _].
  exact H1.
Defined.

Lemma rank_update_notifies_every_subscriber_witness :
  Reachable browser streaming /\
  stockfish (this streaming) = Some 0%nat /\
  parsedUpdate (this streaming)
    "info depth 10 seldepth 15 multipv 1 score cp 25 pv e2e4 e7e5"
    = Some (1, {| evaluation := EvalNumber (Qmake 25 100); line := ["e4"; "e5"] |}) /\
  filter isListenerCall
    (skipn (List.length (log streaming))
       (log (step streaming
          (WorkerMessage 0 "info depth 10 seldepth 15 multipv 1 score cp 25 pv e2e4 e7e5"))))
  = map (fun l => ListenerCall l
           (JSArray.filterBoolean
              (analysisLines (this (step streaming
                 (WorkerMessage 0
                    "info depth 10 seldepth 15 multipv 1 score cp 25 pv e2e4 e7e5"))))))
        (subscribers streaming).
Proof.
  assert (Hr : Reachable browser streaming) by (apply Reachable_steps; constructor).
  assert (Hsf : stockfish (this streaming) = Some 0%nat) by (vm_compute; reflexivity).
  assert (Hp : parsedUpdate (this streaming)
                 "info depth 10 seldepth 15 multipv 1 score cp 25 pv e2e4 e7e5"
               = Some (1, {| evaluation := EvalNumber (Qmake 25 100);
                             line := ["e4"; "e5"] |}))
    by (vm_compute; reflexivity).
  split; [exact Hr|]. split; [exact Hsf|]. split; [exact Hp|].
  destruct (rank_update_notifies_every_subscriber browser streaming 0 _ _ Hr Hsf Hp)
    as (_ & H & _).
  exact H.
Defined.

Lemma completion_resolves_with_the_accumulated_lines_witness :
  Reachable browser evaluatingWithOneLine /\
  stockfish (this evaluatingWithOneLine) = Some 0%nat /\
  mode (this evaluatingWithOneLine) = evaluate /\
  JS.startsWith "bestmove e2e4 ponder e7e5" "bestmove" = true /\
  exists p t,
    nth_error (promises evaluatingWithOneLine) p = Some Pending /\
    nth_error (promises (step evaluatingWithOneLine
                           (WorkerMessage 0 "bestmove e2e4 ponder e7e5"))) p
      = Some (Resolved (JSArray.filterBoolean (analysisLines (this evaluatingWithOneLine)))) /\
    NoTimeoutFor (timers (step evaluatingWithOneLine
                            (WorkerMessage 0 "bestmove e2e4 ponder e7e5"))) p /\
    In (ClearTimeout t)
       (skipn (List.length (log evaluatingWithOneLine))
              (log (step evaluatingWithOneLine
                      (WorkerMessage 0 "bestmove e2e4 ponder e7e5")))).
Proof.
  assert (Hr : Reachable browser evaluatingWithOneLine)
    by (apply Reachable_steps; constructor).
  assert (Hsf : stockfish (this evaluatingWithOneLine) = Some 0%nat)
    by (vm_compute; reflexivity).
  assert (Hm : mode (this evaluatingWithOneLine) = evaluate) by (vm_compute; reflexivity).
  assert (Hb : JS.startsWith "bestmove e2e4 ponder e7e5" "bestmove" = true)
    by (vm_compute; reflexivity).
  split; [exact Hr|]. split; [exact Hsf|]. split; [exact Hm|]. split; [exact Hb|].
  destruct (completion_resolves_with_the_accumulated_lines
              browser evaluatingWithOneLine 0 _ Hr Hsf Hm Hb)
    as (p & t & H1 & H2 & _ & _ & H5 & H6 & _).
  exists p, t. split; [exact H1|]. split; [exact H2|]. split; [exact H6|].
  rewrite H5. left. reflexivity.
Defined.

Lemma streaming_session_ends_on_the_completion_signal_witness :
  Reachable browser streaming /\
  stockfish (this streaming) = Some 0%nat /\ mode (this streaming) = stream /\
  JS.startsWith "bestmove e2e4" "bestmove" = true /\
  step streaming Call_stopAnalysis = withLog (PostMessage 0 "stop") streaming /\
  mode (this (step streaming (WorkerMessage 0 "bestmove e2e4"))) = idle /\
  subscribers (step streaming (WorkerMessage 0 "bestmove e2e4")) = subscribers streaming.
Proof.
  assert (Hr : Reachable browser streaming) by (apply Reachable_steps; constructor).
  assert (Hsf : stockfish (this streaming) = Some 0%nat) by (vm_compute; reflexivity).
  assert (Hm : mode (this streaming) = stream) by (vm_compute; reflexivity).
  assert (Hb : JS.startsWith "bestmove e2e4" "bestmove" = true)
    by (vm_compute; reflexivity).
  split; [exact Hr|]. split; [exact Hsf|]. split; [exact Hm|]. split; [exact Hb|].
  destruct (streaming_session_ends_on_the_completion_signal
              browser streaming 0 _ Hr Hsf Hm Hb)
    as (H1 & _ & _ & _ & H5 & _ & _ & _ & _ & H10).
  split; [exact H1|]. split; [exact H5 | exact H10].
Defined.

Lemma streaming_poll_sends_position_then_go_infinite_witness :
  Reachable browser streamingPending /\
  In (0%nat, CheckUciOkStream) (timers streamingPending) /\
  (isuciok (this streamingPending) = false ->
   skipn (List.length (log streamingPending))
         (log (step streamingPending (TimerFires 0)))
     = [SetTimeout (nextTimer streamingPending) 50]).
Proof.
  assert (Hr : Reachable browser streamingPending)
    by (apply Reachable_steps; constructor).
  assert (Hin : In (0%nat, CheckUciOkStream) (timers streamingPending))
    by (vm_compute; left; reflexivity).
  split; [exact Hr|]. split; [exact Hin|].
  destruct (streaming_poll_sends_position_then_go_infinite
              browser streamingPending 0 Hr Hin) as (_ & H).
  intros Hok. destruct (H Hok) as (H1 & _). exact H1.
Defined.

Lemma pending_promise_is_resolved_by_its_timeout_witness :
  Reachable browser evaluatingPending /\
  nth_error (promises evaluatingPending) 0 = Some Pending /\
  exists t ms,
    In (t, TimeoutCallback 0 ms) (timers evaluatingPending) /\
    nth_error (promises (step evaluatingPending (TimerFires t))) 0 = Some (Resolved []).
Proof.
  assert (Hr : Reachable browser evaluatingPending)
    by (apply Reachable_steps; constructor).
  assert (Hp : nth_error (promises evaluatingPending) 0 = Some Pending)
    by (vm_compute; reflexivity).
  split; [exact Hr|]. split; [exact Hp|].
  exact (pending_promise_is_resolved_by_its_timeout browser evaluatingPending 0 Hr Hp).
Defined.

Lemma worker_error_tears_down_and_settles_nothing_witness :
  Reachable browser evaluatingPending /\
  stockfish (this evaluatingPending) = Some 0%nat /\
  promises (step evaluatingPending (WorkerError 0)) = promises evaluatingPending /\
  timers (step evaluatingPending (WorkerError 0)) = timers evaluatingPending /\
  mode (this (step evaluatingPending (WorkerError 0))) = idle.
Proof.
  assert (Hr : Reachable browser evaluatingPending)
    by (apply Reachable_steps; constructor).
  assert (Hsf : stockfish (this evaluatingPending) = Some 0%nat)
    by (vm_compute; reflexivity).
  split; [exact Hr|]. split; [exact Hsf|].
  destruct (worker_error_tears_down_and_settles_nothing browser evaluatingPending 0 Hr Hsf)
    as (_ & _ & _ & H4 & H5 & H6 & _).
  split; [exact H5|]. split; [exact H6 | exact H4].
Defined.

Lemma one_worker_alive_and_none_when_idle_witness :
  Reachable browser afterOwnEngine /\
  (mode (this afterOwnEngine) = idle ->
   stockfish (this afterOwnEngine) = None /\
   forall worker, In worker (workers afterOwnEngine) -> alive worker = false).
Proof.
  assert (Hr : Reachable browser afterOwnEngine)
    by (apply Reachable_steps; constructor).
  split; [exact Hr|].
  destruct (one_worker_alive_and_none_when_idle browser afterOwnEngine Hr) as (_ & _ & H).
  intros Hm. destruct (H Hm) as (H1 & _ & _ & H4). split; [exact H1 | exact H4].
Defined.

Lemma accepted_request_starts_one_worker_witness :
  Reachable browser page /\ mode (this page) = idle /\ hasWorker (env page) = true /\
  step page (Call_startAnalysis noOptions) = streamingFrom noOptions page /\
  step page (Call_evaluatePosition noOptions) = evaluatingFrom noOptions page.
Proof.
  assert (Hr : Reachable browser page) by constructor.
  split; [exact Hr|]. split; [reflexivity|]. split; [reflexivity|].
  destruct (accepted_request_starts_one_worker browser page noOptions Hr eq_refl eq_refl)
    as (H1 & H2 & _).
  split; [exact H1 | exact H2].
Defined.

Lemma request_without_worker_support_fails_witness :
  Reachable (env serverPage) serverPage /\
  mode (this serverPage) = idle /\ hasWorker (env serverPage) = false /\
  nth_error (promises (step serverPage (Call_evaluatePosition noOptions))) 0
    = Some (Rejected environmentMessage) /\
  mode (this (step serverPage (Call_evaluatePosition noOptions))) = evaluate.
Proof.
  assert (Hr : Reachable (env serverPage) serverPage) by constructor.
  split; [exact Hr|]. split; [reflexivity|]. split; [reflexivity|].
  destruct (request_without_worker_support_fails
              (env serverPage) serverPage noOptions noOptions Hr eq_refl eq_refl)
    as (_ & H2 & H3 & _).
  split; [exact H3|]. rewrite H2. reflexivity.
Defined.

Lemma custom_engine_url_is_kept_for_later_sessions_witness :
  stockfishWorkerUrl (this afterOwnEngine) = Some "/engines/stockfish.js" /\
  "/engines/stockfish.js" <> "" /\
  JS.startsWith "/engines/stockfish.js" "blob:" = false /\
  forallb (fun ev => negb (givesUrl ev))
          [Call_evaluatePosition noOptions; Call_terminate] = true /\
  loadUrl noOptions (steps afterOwnEngine [Call_evaluatePosition noOptions; Call_terminate])
    = "/engines/stockfish.js".
Proof.
  assert (Hu : stockfishWorkerUrl (this afterOwnEngine) = Some "/engines/stockfish.js")
    by (vm_compute; reflexivity).
  assert (Hne : "/engines/stockfish.js" <> "") by discriminate.
  assert (Hb : JS.startsWith "/engines/stockfish.js" "blob:" = false)
    by (vm_compute; reflexivity).
  assert (Hevs : forallb (fun ev => negb (givesUrl ev))
                         [Call_evaluatePosition noOptions; Call_terminate] = true)
    by (vm_compute; reflexivity).
  split; [exact Hu|]. split; [exact Hne|]. split; [exact Hb|]. split; [exact Hevs|].
  destruct (custom_engine_url_is_kept_for_later_sessions
              afterOwnEngine _ _ Hu Hne Hb Hevs) as [_ H].
  destruct (H noOptions eq_refl) as [H1 _]. exact H1.
Defined.

Lemma lines_change_only_at_completion_witness :
  (forall wk data, TimerFires 0 = WorkerMessage wk data ->
                   JS.startsWith data "bestmove" = false) /\
  lines (this (step evaluatingWithOneLine (TimerFires 0)))
    = lines (this evaluatingWithOneLine).
Proof.
  assert (H : forall wk data, TimerFires 0 = WorkerMessage wk data ->
                              JS.startsWith data "bestmove" = false)
    by (intros wk data Heq; discriminate Heq).
  split; [exact H|].
  exact (lines_change_only_at_completion evaluatingWithOneLine (TimerFires 0) H).
Defined.

Lemma evaluatePosition_resolves_with_the_ranked_lines_witness :
  Reachable browser page /\ mode (this page) = idle /\ hasWorker (env page) = true /\
  forallb (searchEvent (List.length (workers page)) (nextTimer page))
          [WorkerMessage 0 "uciok"; TimerFires 1;
           WorkerMessage 0 "info depth 15 seldepth 22 multipv 1 score cp 13 pv e2e4 e7e5"]
    = true /\
  JS.startsWith "bestmove e2e4 ponder e7e5" "bestmove" = true /\
  nth_error
    (promises
       (steps page
          (Call_evaluatePosition noOptions ::
           [WorkerMessage 0 "uciok"; TimerFires 1;
            WorkerMessage 0 "info depth 15 seldepth 22 multipv 1 score cp 13 pv e2e4 e7e5"]
           ++ [WorkerMessage (List.length (workers page)) "bestmove e2e4 ponder e7e5"])))
    (List.length (promises page))
  = Some (Resolved
            (JSArray.filterBoolean
               (storeAll
                  (parsedUpdates (this page)
                     (linesOf
                        [WorkerMessage 0 "uciok"; TimerFires 1;
                         WorkerMessage 0
                           "info depth 15 seldepth 22 multipv 1 score cp 13 pv e2e4 e7e5"]))))).
Proof.
  assert (Hr : Reachable browser page) by constructor.
  assert (Hevs : forallb (searchEvent (List.length (workers page)) (nextTimer page))
          [WorkerMessage 0 "uciok"; TimerFires 1;
           WorkerMessage 0 "info depth 15 seldepth 22 multipv 1 score cp 13 pv e2e4 e7e5"]
    = true) by (vm_compute; reflexivity).
  assert (Hb : JS.startsWith "bestmove e2e4 ponder e7e5" "bestmove" = true)
    by (vm_compute; reflexivity).
  split; [exact Hr|]. split; [reflexivity|]. split; [reflexivity|].
  split; [exact Hevs|]. split; [exact Hb|].
  destruct (evaluatePosition_resolves_with_the_ranked_lines
              browser page noOptions _ _ Hr eq_refl eq_refl Hevs Hb) as (H & _).
  exact H.
Defined.

Lemma info_line_is_parsed_into_its_rank_score_and_moves_witness :
  infoLine "info depth 20 seldepth 25 " "2" "cp" "-35"
           " nodes 48622 nps 151943 time 32 " ["e2e4"; "e7e5"; "g1f3"]
  = "info depth 20 seldepth 25 multipv 2 score cp -35 nodes 48622 nps 151943 time 32 pv e2e4 e7e5 g1f3" /\
  parsedUpdate (this page)
    (infoLine "info depth 20 seldepth 25 " "2" "cp" "-35"
              " nodes 48622 nps 151943 time 32 " ["e2e4"; "e7e5"; "g1f3"])
  = Some (JS.parseInt "2",
          {| evaluation :=
               adjustedEval "cp" (JS.parseInt "-35")
                 (nth_error (JS.splitChar " " (chess_fen (game (this page)))) 1);
             line := fst (translate start ["e2e4"; "e7e5"; "g1f3"]) |}) /\
  JS.parseInt "2" = 2 /\
  adjustedEval "cp" (JS.parseInt "-35")
    (nth_error (JS.splitChar " " (chess_fen (game (this page)))) 1)
  = EvalNumber (Qmake (-35) 100) /\
  fst (translate start ["e2e4"; "e7e5"; "g1f3"]) = ["e4"; "e5"; "Nf3"].
Proof.
  split; [vm_compute; reflexivity|].
  split; [|vm_compute; repeat split].
  apply (info_line_is_parsed_into_its_rank_score_and_moves
           (this page) start "info depth 20 seldepth 25 " "2" "cp" "-35"
           " nodes 48622 nps 151943 time 32 " ["e2e4"; "e7e5"; "g1f3"]);
    try (vm_compute; reflexivity).
  - left. reflexivity.
  - discriminate.
Defined.

Lemma other_lines_are_ignored_witness :
  Reachable browser streaming /\
  "info depth 12 currmove e2e4 currmovenumber 1" <> "uciok" /\
  JS.startsWith "info depth 12 currmove e2e4 currmovenumber 1" "bestmove" = false /\
  occurs "multipv" "info depth 12 currmove e2e4 currmovenumber 1" = false /\
  step streaming (WorkerMessage 0 "info depth 12 currmove e2e4 currmovenumber 1")
  = streaming.
Proof.
  assert (Hr : Reachable browser streaming) by (apply Reachable_steps; constructor).
  assert (Hu : "info depth 12 currmove e2e4 currmovenumber 1" <> "uciok")
    by discriminate.
  assert (Hb : JS.startsWith "info depth 12 currmove e2e4 currmovenumber 1" "bestmove"
               = false) by (vm_compute; reflexivity).
  assert (Hm : occurs "multipv" "info depth 12 currmove e2e4 currmovenumber 1" = false)
    by (vm_compute; reflexivity).
  split; [exact Hr|]. split; [exact Hu|]. split; [exact Hb|]. split; [exact Hm|].
  exact (other_lines_are_ignored browser streaming 0 _ Hr Hu Hb Hm).
Defined.

Lemma convertMovesToSAN_continues_from_the_position_reached_witness :
  Chess_new start = Some freshBoard /\
  Accepted freshBoard ["e2e4"] ["e4"] afterE4 /\
  Chess_new afterE4 = Some afterE4 /\
  fst (convertMovesToSAN ["e7e5"; "a1a8"; "g1f3"] afterE4 page) = Normal ["e5"] /\
  fst (convertMovesToSAN (["e2e4"] ++ ["e7e5"; "a1a8"; "g1f3"]) start page)
  = Normal (["e4"] ++ ["e5"]).
Proof.
  assert (H1 : Chess_new start = Some freshBoard) by (vm_compute; reflexivity).
  assert (Hacc : Accepted freshBoard ["e2e4"] ["e4"] afterE4).
  { apply (Accepted_cons freshBoard "e2e4" "e4" afterE4 [] [] afterE4);
      [vm_compute; reflexivity | constructor]. }
  assert (H2 : Chess_new afterE4 = Some afterE4) by (vm_compute; reflexivity).
  split; [exact H1|]. split; [exact Hacc|]. split; [exact H2|].
  destruct (convertMovesToSAN_continues_from_the_position_reached
              ["e2e4"] ["e7e5"; "a1a8"; "g1f3"] ["e4"] start afterE4 freshBoard afterE4 page
              H1 Hacc H2) as (_ & sans2 & Hs & Hc).
  assert (Hv : fst (convertMovesToSAN ["e7e5"; "a1a8"; "g1f3"] afterE4 page)
               = Normal ["e5"]) by (vm_compute; reflexivity).
  split; [exact Hv|].
  rewrite Hv in Hs. inversion Hs; subst sans2. rewrite Hc. reflexivity.
Defined.

(** A session on a fresh page: the poll fires once before the ready
    signal and arms itself again; after the ready signal a line comes, the
    poll fires, and a timer that is not pending is fired for nothing. *)
Lemma session_sends_position_then_one_go_witness :
  Reachable browser page /\
  mode (this page) = idle /\ hasWorker (env page) = true /\ timers page = [] /\
  forallb (sessionEvent (List.length (workers page)) (nextTimer page))
          [TimerFires 1] = true /\
  forallb (sessionEvent (List.length (workers page)) (nextTimer page))
          [WorkerMessage 0 lineOfRank1; TimerFires 2; TimerFires 3] = true /\
  commandsTo (List.length (workers page))
    (skipn (List.length (log page))
       (log (steps page (Call_evaluatePosition threeLinesOptions :: [TimerFires 1]))))
  = ["uci"] /\
  commandsTo (List.length (workers page))
    (skipn (List.length (log page))
       (log (steps page
          (Call_evaluatePosition threeLinesOptions ::
           [TimerFires 1] ++
           WorkerMessage (List.length (workers page)) "uciok" ::
           [WorkerMessage 0 lineOfRank1; TimerFires 2; TimerFires 3]))))
  = ["uci"; "setoption name MultiPV value 3";
     "position fen rnbqkbnr/pppppppp/8/8/8/8/PPPPPPPP/RNBQKBNR w KQkq - 0 1";
     "go nodes 5"].
Proof.
  assert (Hr : Reachable browser page) by constructor.
  assert (Hm : mode (this page) = idle) by (vm_compute; reflexivity).
  assert (Hw : hasWorker (env page) = true) by (vm_compute; reflexivity).
  assert (Ht : timers page = []) by (vm_compute; reflexivity).
  assert (Hb : forallb (sessionEvent (List.length (workers page)) (nextTimer page))
                       [TimerFires 1] = true) by (vm_compute; reflexivity).
  assert (Hrest : forallb (sessionEvent (List.length (workers page)) (nextTimer page))
                          [WorkerMessage 0 lineOfRank1; TimerFires 2; TimerFires 3] = true)
    by (vm_compute; reflexivity).
  split; [exact Hr|]. split; [exact Hm|]. split; [exact Hw|]. split; [exact Ht|].
  split; [exact Hb|]. split; [exact Hrest|].
  destruct (session_sends_position_then_one_go
              browser page threeLinesOptions [TimerFires 1]
              [WorkerMessage 0 lineOfRank1; TimerFires 2; TimerFires 3]
              Hr Hm Hw Ht Hb Hrest) as (H1 & [(tp & Hp & _) | (_ & H2)]).
  - vm_compute in Hp. discriminate Hp.
  - split; [exact H1|]. rewrite H2. vm_compute. reflexivity.
Defined.
